(** * shadcn-treeview: the tree state and interaction engine

    A shallow embedding of [lib/tree-utils.ts], [hooks/use-tree-state.ts],
    [hooks/use-tree-lazy.ts], [hooks/use-tree-dnd.ts] and the drag
    coordinator of [tree-view.tsx], with the properties of the
    specification stated and settled over it.

    Conventions.  JavaScript strings are [string]; a [Set<string>] is a
    [gset string]; a [Map] keyed by strings is a [gmap]; the depths of
    nodes are [Z] and counts are [nat], with exact arithmetic among them
    (a flat array has fewer than [2^32] nodes, its depths are far below
    [2^53]); the pointer offset and the indentation width are IEEE 754
    doubles, and what is computed from them is a number that may be
    infinite or NaN (module [Js]); [null] and [undefined] are [None]. *)

From Stdlib Require Import ZArith QArith Qround Lia SpecFloat.
From stdpp Require Import base option list strings gmap.

Set Warnings "-register-all,-clear-no-such-hyp".
Local Open Scope nat_scope.

(** ** Data model ([lib/tree-types.ts]) *)

Module Nested.
(** [TreeNodeNested<T>]: [isGroup] and [children] are optional. *)
Inductive t (T : Type) : Type :=
  mk { id : string;
       data : T;
       isGroup : option bool;
       children : option (list (t T)) }.
Arguments mk {T} _ _ _ _.
Arguments id {T} _.
Arguments data {T} _.
Arguments isGroup {T} _.
Arguments children {T} _.
End Nested.

Module Flat.
(** [FlatTreeNode<T>]. *)
Record t (T : Type) : Type :=
  mk { id : string;
       data : T;
       isGroup : bool;
       childrenLoaded : bool;
       parentId : option string;
       depth : Z;
       index : nat }.
Arguments mk {T} _ _ _ _ _ _ _.
Arguments id {T} _.
Arguments data {T} _.
Arguments isGroup {T} _.
Arguments childrenLoaded {T} _.
Arguments parentId {T} _.
Arguments depth {T} _.
Arguments index {T} _.
End Flat.

Inductive DropPosition := before | after | inside.

#[global] Instance DropPosition_eq_dec : EqDecision DropPosition.
Proof. solve_decision. Defined.

(** Objects built by [buildTree]: a nested node whose [children] is a
    reference to an array of the store (or [undefined]). *)
Module Obj.
Record t (T : Type) : Type :=
  mk { id : string;
       data : T;
       isGroup : option bool;
       children : option nat }.
Arguments mk {T} _ _ _ _.
Arguments id {T} _.
Arguments data {T} _.
Arguments isGroup {T} _.
Arguments children {T} _.
End Obj.

(** The state of the second loop of [buildTree]: [nodeMap] (each entry
    with its marker [_hasChildren]), the store of arrays, and [roots]. *)
Module BuildState.
Record t (T : Type) : Type :=
  mk { nodeMap : gmap string (Obj.t T * bool);
       arrays : list (list (Obj.t T));
       roots : list (Obj.t T) }.
Arguments mk {T} _ _ _.
Arguments nodeMap {T} _.
Arguments arrays {T} _.
Arguments roots {T} _.
End BuildState.

(** What [buildTree] returns: the array [roots], with the store its
    objects point into. *)
Module Built.
Record t (T : Type) : Type :=
  mk { roots : list (Obj.t T);
       arrays : list (list (Obj.t T)) }.
Arguments mk {T} _ _.
Arguments roots {T} _.
Arguments arrays {T} _.
End Built.

(** ** JavaScript numbers *)

Module Js.
(** A [number] is an IEEE 754 binary64 value, in the representation of
    the Standard Library ([SpecFloat]): a signed zero, a signed infinity,
    NaN, or [S754_finite s m e], the number [(-1)^s * m * 2^e]. *)
Definition number : Type := spec_float.
Definition prec : Z := 53.
Definition emax : Z := 1024.

(** [x / y]: the quotient rounded to the nearest number, ties to even;
    [x / 0] is an infinity, [0 / 0] is NaN. *)
Definition div (x y : number) : number := SFdiv prec emax x y.

(** The number nearest to the integer [z]. *)
Definition ofZ (z : Z) : number := binary_normalize prec emax z 0 false.

(** The rational [(-1)^s * m * 2^e]. *)
Definition valueOf (s : bool) (m : positive) (e : Z) : Q :=
  (inject_Z (cond_Zopp s (Zpos m)) * Qpower 2 e)%Q.

(** A number that holds an integer, or is infinite or NaN: what
    [Math.round] returns and what a depth is.  The integer is kept
    exactly; negative zero is [Int 0] (nothing here tells the two zeros
    apart). *)
Inductive integral : Type := Int (z : Z) | PosInf | NegInf | NaN.

#[global] Instance integral_eq_dec : EqDecision integral.
Proof. solve_decision. Defined.

(** The integral number that a number with an integer value is. *)
Definition toIntegral (x : number) : integral :=
  match x with
  | S754_zero _ => Int 0
  | S754_infinity s => if s then NegInf else PosInf
  | S754_nan => NaN
  | S754_finite s m e => Int (cond_Zopp s (Z.shiftl (Zpos m) e))
  end.

(** [x + y] on integral numbers: the exact sum rounded to the nearest
    number; an infinity absorbs, opposite infinities and NaN give NaN. *)
Definition add (x y : integral) : integral :=
  match x, y with
  | NaN, _ | _, NaN => NaN
  | PosInf, NegInf | NegInf, PosInf => NaN
  | PosInf, _ | _, PosInf => PosInf
  | NegInf, _ | _, NegInf => NegInf
  | Int a, Int b => toIntegral (ofZ (a + b))
  end.

(** [Math.max(x, y)] and [Math.min(x, y)]: NaN when one of them is. *)
Definition max (x y : integral) : integral :=
  match x, y with
  | NaN, _ | _, NaN => NaN
  | PosInf, _ | _, PosInf => PosInf
  | NegInf, z | z, NegInf => z
  | Int a, Int b => Int (Z.max a b)
  end.

Definition min (x y : integral) : integral :=
  match x, y with
  | NaN, _ | _, NaN => NaN
  | NegInf, _ | _, NegInf => NegInf
  | PosInf, z | z, PosInf => z
  | Int a, Int b => Int (Z.min a b)
  end.

(** [x > y]: false when one of them is NaN. *)
Definition gt (x y : integral) : bool :=
  match x, y with
  | NaN, _ | _, NaN => false
  | _, PosInf => false
  | PosInf, _ => true
  | NegInf, _ => false
  | _, NegInf => true
  | Int a, Int b => (b <? a)%Z
  end.

(** The integer of a depth, for the arithmetic among depths.  A depth
    that is not an integer is NaN (see [getProjection]); adding it to the
    depth of a node gives NaN, which a flat node of this model cannot
    hold: it is carried as 0. *)
Definition toZ (x : integral) : Z :=
  match x with
  | Int z => z
  | _ => 0%Z
  end.
End Js.

(** ** [lib/tree-utils.ts] *)

Section tree_utils.
Context {T : Type}.

Abbreviation NestedNode := (Nested.t T).
Abbreviation FlatNode := (Flat.t T).

(** [node.children !== undefined && node.children.length > 0] *)
Definition hasChildren (node : NestedNode) : bool :=
  match Nested.children node with
  | Some (_ :: _) => true
  | _ => false
  end.

(** One iteration of the loop of [flattenTree], for the node at
    position [i] of its array. *)
Fixpoint flattenNode (node : NestedNode) (parentId : option string)
    (depth : Z) (i : nat) {struct node} : list FlatNode :=
  match node with
  | Nested.mk nid d g ch =>
    Flat.mk nid d
      (default (match ch with Some (_ :: _) => true | _ => false end) g)
      (match ch with Some _ => true | None => false end)
      parentId depth i
    :: match ch with
       | Some cs =>
         (fix loop (cs : list NestedNode) (j : nat) {struct cs} : list FlatNode :=
            match cs with
            | [] => []
            | c :: cs' => flattenNode c (Some nid) (depth + 1)%Z j ++ loop cs' (S j)
            end) cs 0
       | None => []
       end
  end.

(** The [for] loop of [flattenTree], from index [i] on. *)
Fixpoint flattenFrom (nodes : list NestedNode) (parentId : option string)
    (depth : Z) (i : nat) : list FlatNode :=
  match nodes with
  | [] => []
  | node :: rest => flattenNode node parentId depth i ++ flattenFrom rest parentId depth (S i)
  end.

Definition flattenTree (nodes : list NestedNode) (parentId : option string)
    (depth : Z) : list FlatNode :=
  flattenFrom nodes parentId depth 0.

(** [getVisibleNodes]: one pass with the set [collapsedAncestors]. *)
Definition visibleStep (expandedIds : gset string)
    (st : list FlatNode * gset string) (node : FlatNode) : list FlatNode * gset string :=
  let '(result, collapsedAncestors) := st in
  match Flat.parentId node with
  | Some p =>
    if bool_decide (p ∈ collapsedAncestors)
    then (result, {[Flat.id node]} ∪ collapsedAncestors)
    else (result ++ [node],
          if Flat.isGroup node && negb (bool_decide (Flat.id node ∈ expandedIds))
          then {[Flat.id node]} ∪ collapsedAncestors else collapsedAncestors)
  | None =>
    (result ++ [node],
     if Flat.isGroup node && negb (bool_decide (Flat.id node ∈ expandedIds))
     then {[Flat.id node]} ∪ collapsedAncestors else collapsedAncestors)
  end.

Definition getVisibleNodes (flatNodes : list FlatNode) (expandedIds : gset string)
    : list FlatNode :=
  (foldl (visibleStep expandedIds) ([], ∅) flatNodes).1.

(** [getDescendantIds]: one forward pass with the growing [parentSet]. *)
Definition descendantStep (st : list string * gset string) (node : FlatNode)
    : list string * gset string :=
  let '(descendants, parentSet) := st in
  match Flat.parentId node with
  | Some p =>
    if bool_decide (p ∈ parentSet)
    then (descendants ++ [Flat.id node], {[Flat.id node]} ∪ parentSet)
    else (descendants, parentSet)
  | None => (descendants, parentSet)
  end.

Definition getDescendantIds (flatNodes : list FlatNode) (parentId : string) : list string :=
  (foldl descendantStep ([], {[parentId]}) flatNodes).1.

(** [getAncestorIds]: the [while] loop follows [parentId] through a map
    of the nodes; [fuel] bounds its iterations (on a cyclic chain the
    source does not terminate, the model returns [None]). *)
Definition nodeMapOf (flatNodes : list FlatNode) : gmap string FlatNode :=
  foldl (fun m node => <[Flat.id node := node]> m) ∅ flatNodes.

Fixpoint ancestorLoop (fuel : nat) (nodeMap : gmap string FlatNode)
    (current : option FlatNode) (ancestors : list string) : option (list string) :=
  match current with
  | None => Some ancestors
  | Some c =>
    match Flat.parentId c with
    | None => Some ancestors
    | Some p =>
      match fuel with
      | 0 => None
      | S fuel' => ancestorLoop fuel' nodeMap (nodeMap !! p) (ancestors ++ [p])
      end
    end
  end.

Definition getAncestorIds (fuel : nat) (flatNodes : list FlatNode) (nodeId : string)
    : option (list string) :=
  let nodeMap := nodeMapOf flatNodes in
  ancestorLoop fuel nodeMap (nodeMap !! nodeId) [].

Definition getSiblingCount (flatNodes : list FlatNode) (parentId : option string) : nat :=
  foldl (fun count node =>
           if bool_decide (Flat.parentId node = parentId) then S count else count)
        0 flatNodes.

(** [Math.round(x)]: the integer nearest to [x], the upper one at a tie,
    that is the floor of [x + 1/2] taken exactly; an infinity and NaN
    are returned as they are. *)
Definition MathRound (x : Js.number) : Js.integral :=
  match x with
  | S754_nan => Js.NaN
  | S754_infinity s => if s then Js.NegInf else Js.PosInf
  | S754_zero _ => Js.Int 0
  | S754_finite s m e => Js.Int (Qfloor (Js.valueOf s m e + (1 # 2)))
  end.

(** The backward [for] loop of [getProjection], from index [i] down to 0. *)
Fixpoint findParentBack (visibleNodes : list FlatNode) (d : Z) (i : nat) : option string :=
  match visibleNodes !! i with
  | Some n =>
    if (Flat.depth n =? d)%Z then Some (Flat.id n)
    else match i with
         | 0 => None
         | S i' => findParentBack visibleNodes d i'
         end
  | None => None
  end.

(** [getProjection].  [depthDelta] is [Math.round] of the double
    quotient, so it can be infinite or NaN, and so can [projectedDepth];
    [clampedDepth] is then an integer between depths of nodes, or NaN.
    With NaN the test [clampedDepth > 0] is false and [parentId] stays
    [null]. *)
Definition getProjection (flatNodes visibleNodes : list FlatNode)
    (activeId overId : string) (offsetX indentWidth : Js.number)
    : Js.integral * option string :=
  match list_find (fun n => Flat.id n = overId) visibleNodes with
  | None => (Js.Int 0, None)
  | Some (overIndex, overNode) =>
    let activeNode := list_find (fun n => Flat.id n = activeId) flatNodes in
    let baseDepth :=
      match activeNode with
      | Some (_, a) => Flat.depth a
      | None => Flat.depth overNode
      end in
    let depthDelta := MathRound (Js.div offsetX indentWidth) in
    let projectedDepth := Js.max (Js.Int 0) (Js.add (Js.Int baseDepth) depthDelta) in
    let nextNode := visibleNodes !! (overIndex + 1) in
    let maxDepth :=
      if Flat.isGroup overNode then (Flat.depth overNode + 1)%Z else Flat.depth overNode in
    let minDepth := match nextNode with Some n => Flat.depth n | None => 0%Z end in
    let clampedDepth :=
      Js.min (Js.max projectedDepth (Js.Int minDepth)) (Js.Int maxDepth) in
    let parentId :=
      if Js.gt clampedDepth (Js.Int 0)
      then
        match clampedDepth with
        | Js.Int c => findParentBack visibleNodes (c - 1)%Z overIndex
        | _ => None
        end
      else None in
    (clampedDepth, parentId)
  end.

(** [reindexSiblings]: [map] with the counters [indexCounters]. *)
Definition reindexStep (st : list FlatNode * gmap (option string) nat) (node : FlatNode)
    : list FlatNode * gmap (option string) nat :=
  let '(result, indexCounters) := st in
  let key := Flat.parentId node in
  let currentIndex := default 0 (indexCounters !! key) in
  (result ++ [Flat.mk (Flat.id node) (Flat.data node) (Flat.isGroup node)
                      (Flat.childrenLoaded node) (Flat.parentId node) (Flat.depth node)
                      currentIndex],
   <[key := currentIndex + 1]> indexCounters).

Definition reindexSiblings (flatNodes : list FlatNode) : list FlatNode :=
  (foldl reindexStep ([], ∅) flatNodes).1.

(** [removeNodes] *)
Definition removeSetStep (removeSet : gset string) (node : FlatNode) : gset string :=
  match Flat.parentId node with
  | Some p => if bool_decide (p ∈ removeSet) then {[Flat.id node]} ∪ removeSet else removeSet
  | None => removeSet
  end.

Definition removeNodes (flatNodes : list FlatNode) (ids : list string) : list FlatNode :=
  let removeSet := foldl removeSetStep (list_to_set ids) flatNodes in
  let result := filter (fun n => Flat.id n ∉ removeSet) flatNodes in
  reindexSiblings result.

(** The search loop of [insertNodes]: [i] is the position of the head of
    [nodes] in the whole array, [len] the length of the whole array. *)
Fixpoint findInsertAt (nodes : list FlatNode) (targetParentId : option string)
    (targetIndex : Z) (i siblingCount len : nat) : nat :=
  match nodes with
  | [] => len
  | node :: rest =>
    if bool_decide (Flat.parentId node = targetParentId)
    then if (Z.of_nat siblingCount =? targetIndex)%Z then i
         else findInsertAt rest targetParentId targetIndex (S i) (S siblingCount) len
    else findInsertAt rest targetParentId targetIndex (S i) siblingCount len
  end.

Definition insertNodes (flatNodes nodesToInsert : list FlatNode)
    (targetParentId : option string) (targetIndex : Z) : list FlatNode :=
  let insertAt :=
    findInsertAt flatNodes targetParentId targetIndex 0 0 (length flatNodes) in
  let result := take insertAt flatNodes ++ nodesToInsert ++ drop insertAt flatNodes in
  reindexSiblings result.

(** *** [buildTree]

    [buildTree] works on mutable objects: the entries of [nodeMap] and the
    [children] arrays they own.  A [cleanNode] is a shallow copy of an
    entry, so its [children] field is the same array as the entry's (or
    [undefined]); later [push]es into that array show through the copy,
    a later assignment [parent.children = []] to the entry does not.
    Arrays therefore live in a store, addressed by allocation order.

    [buildCreate] is the body of the first loop.  [buildLink] is the body
    of the second: [nodeMap.get(flat.id)!] always finds the entry made by
    the first loop (the model leaves the state alone otherwise), the
    copy [cleanNode] is taken first, then [roots] or the parent's array
    receives it. *)

Definition buildCreate (st : gmap string (Obj.t T * bool) * list (list (Obj.t T)))
    (flat : FlatNode) : gmap string (Obj.t T * bool) * list (list (Obj.t T)) :=
  let '(nodeMap, arrays) := st in
  let isGroup := if Flat.isGroup flat then Some true else None in
  if Flat.childrenLoaded flat
  then (<[Flat.id flat :=
            (Obj.mk (Flat.id flat) (Flat.data flat) isGroup (Some (length arrays)), false)]>
          nodeMap,
        arrays ++ [[]])
  else (<[Flat.id flat := (Obj.mk (Flat.id flat) (Flat.data flat) isGroup None, false)]>
          nodeMap,
        arrays).

Definition buildLink (st : BuildState.t T) (flat : FlatNode) : BuildState.t T :=
  match BuildState.nodeMap st !! Flat.id flat with
  | None => st
  | Some (cleanNode, _) =>
    match Flat.parentId flat with
    | None =>
      BuildState.mk (BuildState.nodeMap st) (BuildState.arrays st)
                    (BuildState.roots st ++ [cleanNode])
    | Some p =>
      match BuildState.nodeMap st !! p with
      | None => st
      | Some (parent, _) =>
        match Obj.children parent with
        | Some a =>
          BuildState.mk
            (<[p := (parent, true)]> (BuildState.nodeMap st))
            (alter (fun arr => arr ++ [cleanNode]) a (BuildState.arrays st))
            (BuildState.roots st)
        | None =>
          let a := length (BuildState.arrays st) in
          BuildState.mk
            (<[p := (Obj.mk (Obj.id parent) (Obj.data parent) (Obj.isGroup parent) (Some a),
                     true)]> (BuildState.nodeMap st))
            (BuildState.arrays st ++ [[cleanNode]])
            (BuildState.roots st)
        end
      end
    end
  end.

Definition buildTree (flatNodes : list FlatNode) : Built.t T :=
  let '(nodeMap, arrays) := foldl buildCreate (∅, []) flatNodes in
  let st := foldl buildLink (BuildState.mk nodeMap arrays []) flatNodes in
  Built.mk (BuildState.roots st) (BuildState.arrays st).

(** Reading the returned object graph as a value of [TreeNodeNested]:
    [fuel] bounds the nesting followed (an object graph can be cyclic). *)
Fixpoint reify (fuel : nat) (arrays : list (list (Obj.t T))) (o : Obj.t T)
    : option NestedNode :=
  match fuel with
  | 0 => None
  | S fuel' =>
    match Obj.children o with
    | None => Some (Nested.mk (Obj.id o) (Obj.data o) (Obj.isGroup o) None)
    | Some a =>
      match arrays !! a with
      | None => None
      | Some arr =>
        match mapM (reify fuel' arrays) arr with
        | None => None
        | Some kids => Some (Nested.mk (Obj.id o) (Obj.data o) (Obj.isGroup o) (Some kids))
        end
      end
    end
  end.

Definition reifyTree (fuel : nat) (b : Built.t T) : option (list NestedNode) :=
  mapM (reify fuel (Built.arrays b)) (Built.roots b).

End tree_utils.

(** ** [hooks/use-tree-state.ts]: the updaters of the expansion set *)

Section tree_state.
Context {T : Type}.

(** [for (const d of descendants) next.delete(d)] *)
Definition deleteAll (next : gset string) (ds : list string) : gset string :=
  foldl (fun next d => next ∖ {[d]}) next ds.

Definition toggleExpand (flatNodes : list (Flat.t T)) (prev : gset string) (id : string)
    : gset string :=
  if bool_decide (id ∈ prev)
  then deleteAll (prev ∖ {[id]}) (getDescendantIds flatNodes id)
  else {[id]} ∪ prev.

Definition expand (prev : gset string) (id : string) : gset string :=
  if bool_decide (id ∈ prev) then prev else {[id]} ∪ prev.

Definition collapse (flatNodes : list (Flat.t T)) (prev : gset string) (id : string)
    : gset string :=
  if negb (bool_decide (id ∈ prev)) then prev
  else deleteAll (prev ∖ {[id]}) (getDescendantIds flatNodes id).

End tree_state.

(** ** [hooks/use-tree-lazy.ts]

    [triggerLoad] starts a promise and returns; its [then], [catch] and
    [finally] callbacks run when the loader's promise settles.  The state
    is the ref [inFlightRef], the React state [loadingIds], and the
    loader promises that have not settled yet ([pending], by node id);
    the calls made to the collaborators are returned as effects. *)

Inductive JsError := MkError (message : string).

(** What a promise rejects with: an [Error], or any other value. *)
Inductive Thrown := ThrownError (e : JsError) | ThrownValue (v : string).

(** [error instanceof Error ? error : new Error(String(error))] *)
Definition normalizeError (error : Thrown) : JsError :=
  match error with
  | ThrownError e => e
  | ThrownValue v => MkError v
  end.

Module Lazy.
Record Options := mkOptions { loadChildren : bool; onLoadError : bool }.

Record State := mkState
  { inFlight : gset string;
    loadingIds : gset string;
    pending : list string }.

Inductive Effect (T : Type) :=
| LoadChildren (node : Flat.t T)
| InsertChildren (parentId : string) (children : list (Nested.t T))
| Expand (id : string)
| OnLoadError (nodeId : string) (error : JsError).
Arguments LoadChildren {T} _.
Arguments InsertChildren {T} _ _.
Arguments Expand {T} _.
Arguments OnLoadError {T} _ _.

(** What the environment can do: call [triggerLoad], or settle the loader
    promise of a node. *)
Inductive Event (T : Type) :=
| Trigger (node : Flat.t T)
| Resolve (nodeId : string) (children : list (Nested.t T))
| Reject (nodeId : string) (error : Thrown).
Arguments Trigger {T} _.
Arguments Resolve {T} _ _.
Arguments Reject {T} _ _.
End Lazy.

Section tree_lazy.
Context {T : Type}.

Definition initialLazy : Lazy.State := Lazy.mkState ∅ ∅ [].

Definition triggerLoad (options : Lazy.Options) (st : Lazy.State) (node : Flat.t T)
    : Lazy.State * list (Lazy.Effect T) :=
  if negb (Lazy.loadChildren options) then (st, [])
  else if negb (Flat.isGroup node) then (st, [])
  else if Flat.childrenLoaded node then (st, [])
  else if bool_decide (Flat.id node ∈ Lazy.inFlight st) then (st, [])
  else (Lazy.mkState ({[Flat.id node]} ∪ Lazy.inFlight st)
                     ({[Flat.id node]} ∪ Lazy.loadingIds st)
                     (Lazy.pending st ++ [Flat.id node]),
        [Lazy.LoadChildren node]).

(** The [finally] callback. *)
Definition loadSettled (st : Lazy.State) (nodeId : string) : Lazy.State :=
  Lazy.mkState (Lazy.inFlight st ∖ {[nodeId]})
               (Lazy.loadingIds st ∖ {[nodeId]})
               (Lazy.pending st).

(** The [then] callback, followed by [finally]. *)
Definition loadResolved (st : Lazy.State) (nodeId : string) (children : list (Nested.t T))
    : Lazy.State * list (Lazy.Effect T) :=
  (loadSettled st nodeId, [Lazy.InsertChildren nodeId children; Lazy.Expand nodeId]).

(** The [catch] callback, followed by [finally]. *)
Definition loadRejected (options : Lazy.Options) (st : Lazy.State) (nodeId : string)
    (error : Thrown) : Lazy.State * list (Lazy.Effect T) :=
  (loadSettled st nodeId,
   if Lazy.onLoadError options then [Lazy.OnLoadError nodeId (normalizeError error)] else []).

(** Removes one occurrence: a promise settles once. *)
Fixpoint settlePending (pending : list string) (nodeId : string) : list string :=
  match pending with
  | [] => []
  | p :: rest => if bool_decide (p = nodeId) then rest else p :: settlePending rest nodeId
  end.

(** One event of the hook.  Only a promise that is pending can settle. *)
Definition lazyStep (options : Lazy.Options) (st : Lazy.State) (ev : Lazy.Event T)
    : Lazy.State * list (Lazy.Effect T) :=
  match ev with
  | Lazy.Trigger node => triggerLoad options st node
  | Lazy.Resolve nodeId children =>
    if bool_decide (nodeId ∈ Lazy.pending st)
    then loadResolved
           (Lazy.mkState (Lazy.inFlight st) (Lazy.loadingIds st)
                         (settlePending (Lazy.pending st) nodeId))
           nodeId children
    else (st, [])
  | Lazy.Reject nodeId error =>
    if bool_decide (nodeId ∈ Lazy.pending st)
    then loadRejected options
           (Lazy.mkState (Lazy.inFlight st) (Lazy.loadingIds st)
                         (settlePending (Lazy.pending st) nodeId))
           nodeId error
    else (st, [])
  end.

Fixpoint lazyRun (options : Lazy.Options) (st : Lazy.State) (evs : list (Lazy.Event T))
    : Lazy.State * list (Lazy.Effect T) :=
  match evs with
  | [] => (st, [])
  | ev :: rest =>
    let '(st1, out1) := lazyStep options st ev in
    let '(st2, out2) := lazyRun options st1 rest in
    (st2, out1 ++ out2)
  end.

End tree_lazy.

(** ** [hooks/use-tree-dnd.ts] *)

Inductive SelectionMode := mode_none | mode_single | mode_multiple.

#[global] Instance SelectionMode_eq_dec : EqDecision SelectionMode.
Proof. solve_decision. Defined.

(** [TreeDragEvent<T>] *)
Module DragEvent.
Record t (T : Type) : Type :=
  mk { source : Flat.t T;
       sourceTreeId : string;
       target : Flat.t T;
       targetTreeId : string;
       position : DropPosition;
       projectedDepth : Js.integral }.
Arguments mk {T} _ _ _ _ _ _.
Arguments source {T} _.
Arguments sourceTreeId {T} _.
Arguments target {T} _.
Arguments targetTreeId {T} _.
Arguments position {T} _.
Arguments projectedDepth {T} _.
End DragEvent.

Module Dnd.
(** [UseTreeDndOptions]: a callback that is only called is a flag saying
    whether it is configured, the call itself an effect. *)
Record Options (T : Type) : Type :=
  mkOptions
    { treeId : string;
      flatNodes : list (Flat.t T);
      visibleNodes : list (Flat.t T);
      expandedIds : gset string;
      selectedIds : gset string;
      selectionMode : SelectionMode;
      indentationWidth : Js.number;
      canDrop : option (DragEvent.t T -> bool);
      onItemsChange : bool;
      onDragStart : bool;
      onDragEnd : bool;
      expandOnDragHover : bool }.
Arguments mkOptions {T} _ _ _ _ _ _ _ _ _ _ _ _.
Arguments treeId {T} _.
Arguments flatNodes {T} _.
Arguments visibleNodes {T} _.
Arguments expandedIds {T} _.
Arguments selectedIds {T} _.
Arguments selectionMode {T} _.
Arguments indentationWidth {T} _.
Arguments canDrop {T} _.
Arguments onItemsChange {T} _.
Arguments onDragStart {T} _.
Arguments onDragEnd {T} _.
Arguments expandOnDragHover {T} _.

(** The drag session of one tree: the five React states, the three refs
    read by [handleDragEnd], the pending auto-expand timer (the id it will
    expand), [hoverTargetRef] and [offsetRef].  A state holds the value
    last given to its setter; no handler reads one.  What a render has
    seen of them is kept apart, see [Group.Registration]. *)
Record Session : Type :=
  mkSession
    { activeId : option string;
      overId : option string;
      dropPosition : option DropPosition;
      projectedDepth : option Js.integral;
      projectedParentId : option string;
      dropPositionRef : option DropPosition;
      projectedDepthRef : option Js.integral;
      projectedParentIdRef : option string;
      hoverTimer : option string;
      hoverTarget : option string;
      offset : Js.number * Js.number }.

(** [event.operation] and [event.canceled]: source and target by id. *)
Record Operation : Type :=
  mkOperation
    { source : option string;
      target : option string;
      transform : option (Js.number * Js.number);
      canceled : bool }.

Inductive Effect (T : Type) :=
| OnDragStart (event : DragEvent.t T)
| OnItemsChange (items : Built.t T)
| OnDragEnd (event : DragEvent.t T).
Arguments OnDragStart {T} _.
Arguments OnItemsChange {T} _.
Arguments OnDragEnd {T} _.
End Dnd.

Section tree_dnd.
Context {T : Type}.

Definition idleSession : Dnd.Session :=
  Dnd.mkSession None None None None None None None None None None (Js.ofZ 0, Js.ofZ 0).

(** [flatNodes.find((n) => n.id === id)] *)
Definition findNode (flatNodes : list (Flat.t T)) (id : string) : option (Flat.t T) :=
  snd <$> list_find (fun n => Flat.id n = id) flatNodes.

(** A string in a condition: [null] and the empty string are falsy. *)
Definition truthy (s : option string) : bool :=
  match s with
  | Some s => negb (bool_decide (s = EmptyString))
  | None => false
  end.

(** The set built by [allIdsToMove.add(id)] and, for each of its
    descendants, [allIdsToMove.add(d)], over the given ids. *)
Definition withDescendants (flatNodes : list (Flat.t T)) (ids : list string) : gset string :=
  foldl (fun acc id => acc ∪ {[id]} ∪ list_to_set (getDescendantIds flatNodes id)) ∅ ids.

Definition allDescendantsOf (flatNodes : list (Flat.t T)) (ids : list string) : gset string :=
  foldl (fun acc id => acc ∪ list_to_set (getDescendantIds flatNodes id)) ∅ ids.

Definition handleDragStart (o : Dnd.Options T) (s : Dnd.Session) (event : Dnd.Operation)
    : Dnd.Session * list (Dnd.Effect T) :=
  match Dnd.source event with
  | None => (s, [])
  | Some source =>
    match findNode (Dnd.flatNodes o) source with
    | None => (s, [])
    | Some sourceNode =>
      (Dnd.mkSession (Some source) (Dnd.overId s) (Dnd.dropPosition s)
                     (Dnd.projectedDepth s) (Dnd.projectedParentId s)
                     (Dnd.dropPositionRef s) (Dnd.projectedDepthRef s)
                     (Dnd.projectedParentIdRef s)
                     (Dnd.hoverTimer s) (Dnd.hoverTarget s) (Js.ofZ 0, Js.ofZ 0),
       if Dnd.onDragStart o
       then [Dnd.OnDragStart
               (DragEvent.mk sourceNode (Dnd.treeId o) sourceNode (Dnd.treeId o)
                             before (Js.Int (Flat.depth sourceNode)))]
       else [])
    end
  end.

(** The part of [handleDragOver] under "Auto-expand on hover". *)
Definition hoverExpand (o : Dnd.Options T) (sourceId targetId : string)
    (hover : option string * option string) : option string * option string :=
  let '(hoverTimer, hoverTarget) := hover in
  if Dnd.expandOnDragHover o && negb (bool_decide (Some targetId = hoverTarget))
  then
    match findNode (Dnd.flatNodes o) targetId with
    | Some hoverNode =>
      if Flat.isGroup hoverNode
         && negb (bool_decide (targetId ∈ Dnd.expandedIds o))
         && negb (bool_decide (targetId = sourceId))
      then (Some targetId, Some targetId)
      else (None, Some targetId)
    | None => (None, Some targetId)
    end
  else (hoverTimer, hoverTarget).

Definition handleDragOver (o : Dnd.Options T) (s : Dnd.Session) (event : Dnd.Operation)
    : Dnd.Session :=
  match Dnd.source event, Dnd.target event with
  | Some sourceId, Some targetId =>
    let offset := match Dnd.transform event with Some t => t | None => Dnd.offset s end in
    let projection :=
      getProjection (Dnd.flatNodes o) (Dnd.visibleNodes o) sourceId targetId
                    (fst offset) (Dnd.indentationWidth o) in
    let movingIds : gset string :=
      if bool_decide (Dnd.selectionMode o = mode_multiple)
         && bool_decide (sourceId ∈ Dnd.selectedIds o)
      then Dnd.selectedIds o else {[sourceId]} in
    let rejected :=
      match snd projection with
      | Some p => bool_decide (p ∈ withDescendants (Dnd.flatNodes o) (elements movingIds))
      | None => false
      end in
    if rejected
    then Dnd.mkSession (Dnd.activeId s) None None
                       (Dnd.projectedDepth s) (Dnd.projectedParentId s)
                       (Dnd.dropPositionRef s) (Dnd.projectedDepthRef s)
                       (Dnd.projectedParentIdRef s)
                       (Dnd.hoverTimer s) (Dnd.hoverTarget s) offset
    else
      let '(hoverTimer, hoverTarget) :=
        hoverExpand o sourceId targetId (Dnd.hoverTimer s, Dnd.hoverTarget s) in
      match findNode (Dnd.flatNodes o) targetId with
      | Some targetNode =>
        let isExpandedEmptyGroup :=
          Flat.isGroup targetNode
          && bool_decide (targetId ∈ Dnd.expandedIds o)
          && negb (existsb (fun n => bool_decide (Flat.parentId n = Some targetId))
                           (Dnd.visibleNodes o)) in
        let position :=
          if Flat.isGroup targetNode
             && (bool_decide (snd projection = Some targetId) || isExpandedEmptyGroup)
          then inside else after in
        let '(depth, parentId) :=
          if isExpandedEmptyGroup && bool_decide (position = inside)
          then (Js.Int (Flat.depth targetNode + 1), Some targetId)
          else projection in
        Dnd.mkSession (Dnd.activeId s) (Some targetId) (Some position)
                      (Some depth) parentId
                      (Some position) (Some depth) parentId
                      hoverTimer hoverTarget offset
      | None =>
        Dnd.mkSession (Dnd.activeId s) (Some targetId) (Dnd.dropPosition s)
                      (Some (fst projection)) (snd projection)
                      (Dnd.dropPositionRef s) (Some (fst projection)) (snd projection)
                      hoverTimer hoverTarget offset
      end
  | _, _ =>
    Dnd.mkSession (Dnd.activeId s) None None
                  (Dnd.projectedDepth s) (Dnd.projectedParentId s)
                  (Dnd.dropPositionRef s) (Dnd.projectedDepthRef s)
                  (Dnd.projectedParentIdRef s)
                  (Dnd.hoverTimer s) (Dnd.hoverTarget s) (Dnd.offset s)
  end.

(** [resetState], after [clearTimeout(hoverTimerRef.current)] and
    [hoverTargetRef.current = null] at the head of [handleDragEnd]. *)
Definition resetState (s : Dnd.Session) : Dnd.Session :=
  Dnd.mkSession None None None None None None None None None None (Dnd.offset s).

(** The [while] loop of the ["after"] placement: from position [i], past
    the nodes deeper than the target. *)
Fixpoint skipSubtree (rest : list (Flat.t T)) (d : Z) (i : nat) : nat :=
  match rest with
  | [] => i
  | n :: rest' => if (d <? Flat.depth n)%Z then skipSubtree rest' d (S i) else i
  end.

(** The block of [handleDragEnd] under "Perform the move": [None] when
    the cycle guard returns early, else the flat array handed to
    [buildTree].  The projected depth comes as the integer it holds
    ([Js.toZ]): with a NaN depth the depths of the moved nodes are NaN in
    the source and not so here, and [buildTree], the only reader of this
    array, reads no depth ([moveNodes_depth_unread]). *)
Definition moveNodes (o : Dnd.Options T) (sourceNode : Flat.t T) (target : string)
    (currentDropPosition : option DropPosition) (currentProjectedDepth : option Z)
    (currentProjectedParentId : option string) : option (list (Flat.t T)) :=
  let flatNodes := Dnd.flatNodes o in
  let selectedIds := Dnd.selectedIds o in
  let movingMultiple :=
    bool_decide (Dnd.selectionMode o = mode_multiple)
    && bool_decide (Flat.id sourceNode ∈ selectedIds)
    && bool_decide (1 < size selectedIds) in
  let rootIdsToMove :=
    if movingMultiple
    then
      let allDescendants := allDescendantsOf flatNodes (elements selectedIds) in
      filter (fun id => id ∉ allDescendants) (elements selectedIds)
    else [Flat.id sourceNode] in
  let allIdsToMove := withDescendants flatNodes rootIdsToMove in
  if truthy currentProjectedParentId
     && match currentProjectedParentId with
        | Some p => bool_decide (p ∈ allIdsToMove)
        | None => false
        end
  then None
  else
    let draggedNodes := filter (fun n => Flat.id n ∈ allIdsToMove) flatNodes in
    let remaining := removeNodes flatNodes rootIdsToMove in
    let depthDiff := (default 0 currentProjectedDepth - Flat.depth sourceNode)%Z in
    let updatedDragged :=
      map (fun n =>
             if bool_decide (Flat.id n ∈ rootIdsToMove)
             then Flat.mk (Flat.id n) (Flat.data n) (Flat.isGroup n) (Flat.childrenLoaded n)
                          currentProjectedParentId (Flat.depth n + depthDiff)%Z
                          (Flat.index n)
             else Flat.mk (Flat.id n) (Flat.data n) (Flat.isGroup n) (Flat.childrenLoaded n)
                          (Flat.parentId n) (Flat.depth n + depthDiff)%Z (Flat.index n))
          draggedNodes in
    let insertAt :=
      match list_find (fun n => Flat.id n = target) remaining with
      | Some (targetFlatIdx, targetInRemaining) =>
        if bool_decide (currentDropPosition = Some inside)
        then targetFlatIdx + 1
        else skipSubtree (drop (targetFlatIdx + 1) remaining)
                         (Flat.depth targetInRemaining) (targetFlatIdx + 1)
      | None => length remaining
      end in
    Some (take insertAt remaining ++ updatedDragged ++ drop insertAt remaining).

Definition handleDragEnd (o : Dnd.Options T) (s : Dnd.Session) (event : Dnd.Operation)
    : Dnd.Session * list (Dnd.Effect T) :=
  let currentDropPosition := Dnd.dropPositionRef s in
  let currentProjectedDepth := Dnd.projectedDepthRef s in
  let currentProjectedParentId := Dnd.projectedParentIdRef s in
  match Dnd.canceled event, Dnd.source event, Dnd.target event with
  | false, Some source, Some target =>
    match findNode (Dnd.flatNodes o) source, findNode (Dnd.flatNodes o) target with
    | Some sourceNode, Some targetNode =>
      let dragEvent :=
        DragEvent.mk sourceNode (Dnd.treeId o) targetNode (Dnd.treeId o)
                     (default after currentDropPosition)
                     (default (Js.Int (Flat.depth targetNode)) currentProjectedDepth) in
      if match Dnd.canDrop o with Some canDrop => negb (canDrop dragEvent) | None => false end
      then (resetState s, [])
      else
        let ended := if Dnd.onDragEnd o then [Dnd.OnDragEnd dragEvent] else [] in
        if Dnd.onItemsChange o
        then
          match moveNodes o sourceNode target currentDropPosition
                          (Js.toZ <$> currentProjectedDepth) currentProjectedParentId with
          | None => (resetState s, [])
          | Some result => (resetState s, Dnd.OnItemsChange (buildTree result) :: ended)
          end
        else (resetState s, ended)
    | _, _ => (resetState s, [])
    end
  | _, _, _ => (resetState s, [])
  end.

End tree_dnd.

(** ** [tree-view.tsx]: [TreeViewDndContext], the shared drag session *)

Module Group.
(** A [DndGroupRegistration].  Its handlers are the tree's own, over
    the tree's options and drag session.  Its getters [overId],
    [dropPosition], [projectedDepth] and [projectedParentId] read
    [dndHandlersRef.current], which a render of the tree sets to what
    [useTreeDnd] returned then: [rendered] is the session as the last
    render of the tree saw it, and a state set by a handler shows there
    only after the next render. *)
Record Registration (T : Type) : Type :=
  mkRegistration
    { options : Dnd.Options T; session : Dnd.Session; rendered : Dnd.Session }.
Arguments mkRegistration {T} _ _ _.
Arguments options {T} _.
Arguments session {T} _.
Arguments rendered {T} _.

Record CrossTreeDragInfo : Type :=
  mkCrossTreeDragInfo
    { sourceTreeId : string;
      targetTreeId : string;
      dropPosition : option DropPosition;
      projectedDepth : option Js.integral;
      projectedParentId : option string }.

(** [registrationsRef] (a [Map] in insertion order) and [lastOverTreeRef]. *)
Record State (T : Type) : Type :=
  mkState { registrations : list (Registration T); lastOverTree : option string }.
Arguments mkState {T} _ _.
Arguments registrations {T} _.
Arguments lastOverTree {T} _.

(** The props of [TreeViewDndContext]: which callbacks are configured. *)
Record Props : Type :=
  mkProps { onDragStart : bool; onDragOver : bool; onDragEnd : bool }.

Inductive Effect (T : Type) :=
| FromTree (treeId : string) (e : Dnd.Effect T)
| OnDragStart (event : Dnd.Operation)
| OnDragOver (event : Dnd.Operation)
| OnDragEnd (event : Dnd.Operation) (crossTree : option CrossTreeDragInfo).
Arguments FromTree {T} _ _.
Arguments OnDragStart {T} _.
Arguments OnDragOver {T} _.
Arguments OnDragEnd {T} _ _.
End Group.

Section tree_group.
Context {T : Type}.

Definition regTreeId (reg : Group.Registration T) : string :=
  Dnd.treeId (Group.options reg).

(** [registrationsRef.current.set(reg.treeId, reg)] *)
Fixpoint register (reg : Group.Registration T) (regs : list (Group.Registration T))
    : list (Group.Registration T) :=
  match regs with
  | [] => [reg]
  | r :: rest =>
    if bool_decide (regTreeId r = regTreeId reg) then reg :: rest
    else r :: register reg rest
  end.

(** [registrationsRef.current.delete(treeId)] *)
Definition unregister (treeId : string) (regs : list (Group.Registration T))
    : list (Group.Registration T) :=
  filter (fun r => regTreeId r ≠ treeId) regs.

(** [registrationsRef.current.get(treeId)] *)
Definition getRegistration (regs : list (Group.Registration T)) (treeId : string)
    : option (Group.Registration T) :=
  snd <$> list_find (fun r => regTreeId r = treeId) regs.

Definition findOwnerTree (regs : list (Group.Registration T)) (nodeId : string)
    : option (Group.Registration T) :=
  snd <$> list_find
            (fun reg => existsb (fun n => bool_decide (Flat.id n = nodeId))
                                (Dnd.flatNodes (Group.options reg)) = true)
            regs.

(** Calling a handler of the tree registered under [treeId]: the tree's
    session changes, its callbacks are reported under its id. *)
Fixpoint callTree
    (handler : Dnd.Options T -> Dnd.Session -> Dnd.Session * list (Dnd.Effect T))
    (treeId : string) (regs : list (Group.Registration T))
    : list (Group.Registration T) * list (Group.Effect T) :=
  match regs with
  | [] => ([], [])
  | r :: rest =>
    if bool_decide (regTreeId r = treeId)
    then
      let '(s, out) := handler (Group.options r) (Group.session r) in
      (Group.mkRegistration (Group.options r) s (Group.rendered r) :: rest,
       map (Group.FromTree treeId) out)
    else
      let '(rest', out) := callTree handler treeId rest in
      (r :: rest', out)
  end.

(** [for (const reg of registrationsRef.current.values()) reg.handleDragEnd(..)] *)
Fixpoint callAllTrees
    (handler : Dnd.Options T -> Dnd.Session -> Dnd.Session * list (Dnd.Effect T))
    (regs : list (Group.Registration T))
    : list (Group.Registration T) * list (Group.Effect T) :=
  match regs with
  | [] => ([], [])
  | r :: rest =>
    let '(s, out) := handler (Group.options r) (Group.session r) in
    let '(rest', out') := callAllTrees handler rest in
    (Group.mkRegistration (Group.options r) s (Group.rendered r) :: rest',
     map (Group.FromTree (regTreeId r)) out ++ out')
  end.

(** [{ ...event, canceled: true }] *)
Definition asCanceled (event : Dnd.Operation) : Dnd.Operation :=
  Dnd.mkOperation (Dnd.source event) (Dnd.target event) (Dnd.transform event) true.

(** [{ ...event, operation: { ...event.operation, target: null } }] *)
Definition withoutTarget (event : Dnd.Operation) : Dnd.Operation :=
  Dnd.mkOperation (Dnd.source event) None (Dnd.transform event) (Dnd.canceled event).

(** A render of a registered tree: [dndHandlersRef.current = dnd], with
    the states of its session as they are now. *)
Definition renderTree (reg : Group.Registration T) : Group.Registration T :=
  Group.mkRegistration (Group.options reg) (Group.session reg) (Group.session reg).

(** Every tree of the coordinator renders. *)
Definition groupRender (g : Group.State T) : Group.State T :=
  Group.mkState (map renderTree (Group.registrations g)) (Group.lastOverTree g).

Definition groupHandleDragStart (props : Group.Props) (g : Group.State T)
    (event : Dnd.Operation) : Group.State T * list (Group.Effect T) :=
  let called := if Group.onDragStart props then [Group.OnDragStart event] else [] in
  match Dnd.source event with
  | Some sourceId =>
    match findOwnerTree (Group.registrations g) sourceId with
    | Some owner =>
      let '(regs, out) :=
        callTree (fun o s => handleDragStart o s event) (regTreeId owner)
                 (Group.registrations g) in
      (Group.mkState regs (Group.lastOverTree g), out ++ called)
    | None => (g, called)
    end
  | None => (g, called)
  end.

Definition groupHandleDragOver (props : Group.Props) (g : Group.State T)
    (event : Dnd.Operation) : Group.State T * list (Group.Effect T) :=
  let called := if Group.onDragOver props then [Group.OnDragOver event] else [] in
  match Dnd.target event with
  | Some targetId =>
    match findOwnerTree (Group.registrations g) targetId with
    | Some owner =>
      let regs1 :=
        if truthy (Group.lastOverTree g)
           && negb (bool_decide (Group.lastOverTree g = Some (regTreeId owner)))
        then
          match Group.lastOverTree g with
          | Some prev =>
            fst (callTree (fun o s => (handleDragOver o s (withoutTarget event), []))
                          prev (Group.registrations g))
          | None => Group.registrations g
          end
        else Group.registrations g in
      let regs2 :=
        fst (callTree (fun o s => (handleDragOver o s event, [])) (regTreeId owner) regs1) in
      (Group.mkState regs2 (Some (regTreeId owner)), called)
    | None => (g, called)
    end
  | None => (g, called)
  end.

Definition groupHandleDragEnd (props : Group.Props) (g : Group.State T)
    (event : Dnd.Operation) : Group.State T * list (Group.Effect T) :=
  let regs := Group.registrations g in
  let plain := if Group.onDragEnd props then [Group.OnDragEnd event None] else [] in
  match Dnd.source event, Dnd.target event with
  | Some sourceId, Some targetId =>
    match findOwnerTree regs sourceId, findOwnerTree regs targetId with
    | Some sourceTree, Some targetTree =>
      if bool_decide (regTreeId sourceTree = regTreeId targetTree)
      then
        let '(regs1, out) :=
          callTree (fun o s => handleDragEnd o s event) (regTreeId sourceTree) regs in
        (Group.mkState regs1 None, out ++ plain)
      else
        let crossTree :=
          Group.mkCrossTreeDragInfo
            (regTreeId sourceTree) (regTreeId targetTree)
            (Dnd.dropPosition (Group.rendered targetTree))
            (Dnd.projectedDepth (Group.rendered targetTree))
            (Dnd.projectedParentId (Group.rendered targetTree)) in
        let '(regs1, out1) :=
          callTree (fun o s => handleDragEnd o s (asCanceled event))
                   (regTreeId sourceTree) regs in
        let '(regs2, out2) :=
          callTree (fun o s => handleDragEnd o s (asCanceled event))
                   (regTreeId targetTree) regs1 in
        (Group.mkState regs2 None,
         out1 ++ out2
         ++ if Group.onDragEnd props then [Group.OnDragEnd event (Some crossTree)] else [])
    | _, _ => (Group.mkState regs None, plain)
    end
  | _, _ =>
    let '(regs1, out) := callAllTrees (fun o s => handleDragEnd o s (asCanceled event)) regs in
    (Group.mkState regs1 None, out ++ plain)
  end.

End tree_group.

(** ** [hooks/use-tree-state.ts]: initial expansion, selection, the
    controlled or uncontrolled state, and the mutation methods *)

(** A state of the hook that is either controlled by a prop or kept
    internally ([expandedIds], [selectedIds]): the prop (an array, when
    given), the internal React state, and whether the change callback is
    configured. *)
Module IdsState.
Record t : Type :=
  mk { controlled : option (list string);
       internal : gset string;
       onChange : bool }.
End IdsState.

Section tree_state_hook.
Context {T : Type}.

(** The body of the loop of [collectAllGroupIds], for one node. *)
Fixpoint collectGroupIdsOf (node : Nested.t T) : list string :=
  match node with
  | Nested.mk nid _ g ch =>
    (if default false g || match ch with Some (_ :: _) => true | _ => false end
     then [nid] else [])
    ++ match ch with
       | Some cs => flat_map collectGroupIdsOf cs
       | None => []
       end
  end.

Definition collectAllGroupIds (nodes : list (Nested.t T)) : list string :=
  flat_map collectGroupIdsOf nodes.

(** The initialiser of [internalExpandedIds]. *)
Definition initialExpandedIds (defaultExpandAll : bool)
    (defaultExpandedIds : option (list string)) (items : list (Nested.t T)) : gset string :=
  if defaultExpandAll then list_to_set (collectAllGroupIds items)
  else match defaultExpandedIds with
       | Some ids => list_to_set ids
       | None => ∅
       end.

(** [controlled ? new Set(controlled) : internal]: the value a render
    works with. *)
Definition currentIds (s : IdsState.t) : gset string :=
  match IdsState.controlled s with
  | Some ids => list_to_set ids
  | None => IdsState.internal s
  end.

(** [setExpandedIds] and [setSelectedIds], called with a function:
    [rendered] is the value of the render whose callback is running (the
    callbacks close over it).  The change callback receives the ids of
    [next]; the payload is kept as the set. *)
Definition setIds (s : IdsState.t) (rendered : gset string)
    (updater : gset string -> gset string) : IdsState.t * list (gset string) :=
  let next := updater rendered in
  (match IdsState.controlled s with
   | Some _ => s
   | None => IdsState.mk (IdsState.controlled s) next (IdsState.onChange s)
   end,
   if IdsState.onChange s then [next] else []).

(** The updates made by one run of an event handler, in order: every one
    of them sees the value of the same render. *)
Fixpoint runUpdates (s : IdsState.t) (rendered : gset string)
    (updaters : list (gset string -> gset string)) : IdsState.t * list (gset string) :=
  match updaters with
  | [] => (s, [])
  | u :: rest =>
    let '(s1, out1) := setIds s rendered u in
    let '(s2, out2) := runUpdates s1 rendered rest in
    (s2, out1 ++ out2)
  end.

(** [select]: [None] when [setSelectedIds] is not called. *)
Definition select (selectionMode : SelectionMode) (id : string)
    : option (gset string -> gset string) :=
  match selectionMode with
  | mode_none => None
  | mode_single => Some (fun _ => {[id]})
  | mode_multiple => Some (fun _ => {[id]})
  end.

(** [toggleSelect] *)
Definition toggleSelect (selectionMode : SelectionMode) (id : string)
    : option (gset string -> gset string) :=
  match selectionMode with
  | mode_none => None
  | mode_single => Some (fun prev => if bool_decide (id ∈ prev) then ∅ else {[id]})
  | mode_multiple =>
    Some (fun prev => if bool_decide (id ∈ prev) then prev ∖ {[id]} else {[id]} ∪ prev)
  end.

(** [insertInto], the local function of [insertChildren], on one node. *)
Fixpoint insertIntoNode (parentId : string) (children : list (Nested.t T))
    (node : Nested.t T) {struct node} : Nested.t T :=
  match node with
  | Nested.mk nid d g ch =>
    if bool_decide (nid = parentId)
    then Nested.mk nid d g (Some (default [] ch ++ children))
    else match ch with
         | Some cs => Nested.mk nid d g (Some (map (insertIntoNode parentId children) cs))
         | None => Nested.mk nid d g None
         end
  end.

Definition insertInto (parentId : string) (children nodes : list (Nested.t T))
    : list (Nested.t T) :=
  map (insertIntoNode parentId children) nodes.

(** [insertChildren]: the calls made to [onItemsChange]. *)
Definition insertChildren (onItemsChange : bool) (items : list (Nested.t T))
    (parentId : string) (children : list (Nested.t T)) : list (list (Nested.t T)) :=
  if onItemsChange then [insertInto parentId children items] else [].

(** [setFlatNodes]: the calls made to [onItemsChange]. *)
Definition setFlatNodes (onItemsChange : bool) (nodes : list (Flat.t T)) : list (Built.t T) :=
  if onItemsChange then [buildTree nodes] else [].

End tree_state_hook.

(** ** [tree-view.tsx]: [toggleExpand], overridden to trigger lazy loading *)

Section tree_view_toggle.
Context {T : Type}.

(** The outcome is the state of the lazy loader with the calls it made,
    and the expansion set as the updater of [state.toggleExpand] leaves
    it. *)
Definition viewToggleExpand (options : Lazy.Options) (flatNodes : list (Flat.t T))
    (st : Lazy.State) (expandedIds : gset string) (id : string)
    : Lazy.State * list (Lazy.Effect T) * gset string :=
  match findNode flatNodes id with
  | Some node =>
    if Flat.isGroup node && negb (Flat.childrenLoaded node) && Lazy.loadChildren options
    then (triggerLoad options st node, expandedIds)
    else (st, [], toggleExpand flatNodes expandedIds id)
  | None => (st, [], toggleExpand flatNodes expandedIds id)
  end.

End tree_view_toggle.

(** ** [hooks/use-tree-keyboard.ts] *)

(** A value of a property of the data object, as [typeof] sees it. *)
Inductive JsValue := JsString (s : string) | JsOther.

Module Keyboard.
(** The fields of the keyboard event that the handler reads. *)
Record KeyEvent : Type :=
  mkKeyEvent { key : string; shiftKey : bool; ctrlKey : bool; altKey : bool; metaKey : bool }.

Record Options (T : Type) : Type :=
  mkOptions
    { visibleNodes : list (Flat.t T);
      flatNodes : list (Flat.t T);
      focusedId : option string;
      expandedIds : gset string;
      selectionMode : SelectionMode }.
Arguments mkOptions {T} _ _ _ _ _.
Arguments visibleNodes {T} _.
Arguments flatNodes {T} _.
Arguments focusedId {T} _.
Arguments expandedIds {T} _.
Arguments selectionMode {T} _.

(** [typeAheadBuffer] and whether the timer that clears it is pending. *)
Record State : Type := mkState { typeAheadBuffer : string; typeAheadTimer : bool }.

(** The calls made by the handler.  [Throws] stands for the [TypeError]
    of reading a field of [undefined]. *)
Inductive Effect :=
| PreventDefault
| SetFocused (id : string)
| Expand (id : string)
| Collapse (id : string)
| Select (id : string)
| ToggleSelect (id : string)
| SelectRange (id : string)
| SelectAll
| Throws.
End Keyboard.

Section tree_keyboard.
Context {T : Type}.
(** The properties of a data object, in the order [Object.values] lists
    them, and [String.prototype.toLowerCase]. *)
Variable props : T -> list (string * JsValue).
Variable toLowerCase : string -> string.

(** [typeof data[key] === "string"], giving the string. *)
Definition stringProp (data : list (string * JsValue)) (key : string) : option string :=
  match list_find (fun kv => fst kv = key) data with
  | Some (_, (_, JsString s)) => Some s
  | _ => None
  end.

(** The first loop of [getNodeLabel], over the given keys. *)
Fixpoint firstStringProp (data : list (string * JsValue)) (keys : list string)
    : option string :=
  match keys with
  | [] => None
  | key :: rest =>
    match stringProp data key with
    | Some s => Some s
    | None => firstStringProp data rest
    end
  end.

(** The second loop of [getNodeLabel], over [Object.values(data)]. *)
Fixpoint firstStringValue (values : list JsValue) : option string :=
  match values with
  | [] => None
  | JsString s :: _ => Some s
  | JsOther :: rest => firstStringValue rest
  end.

Definition getNodeLabel (node : Flat.t T) : string :=
  let data := props (Flat.data node) in
  match firstStringProp data ["label"; "name"; "title"; "text"]%string with
  | Some s => s
  | None =>
    match firstStringValue (map snd data) with
    | Some s => s
    | None => Flat.id node
    end
  end.

(** [focusedId ? visibleNodes.findIndex((n) => n.id === focusedId) : -1] *)
Definition currentIndexOf (o : Keyboard.Options T) : Z :=
  if truthy (Keyboard.focusedId o)
  then match Keyboard.focusedId o with
       | Some f =>
         match list_find (fun n => Flat.id n = f) (Keyboard.visibleNodes o) with
         | Some (i, _) => Z.of_nat i
         | None => (-1)%Z
         end
       | None => (-1)%Z
       end
  else (-1)%Z.

(** [currentIndex >= 0 ? visibleNodes[currentIndex] : null] *)
Definition currentNodeOf (o : Keyboard.Options T) : option (Flat.t T) :=
  if (0 <=? currentIndexOf o)%Z
  then Keyboard.visibleNodes o !! Z.to_nat (currentIndexOf o)
  else None.

(** [setFocused(visibleNodes[i].id)], with [selectRange] of the same id
    when Shift is held in multiple selection. *)
Definition focusAt (o : Keyboard.Options T) (e : Keyboard.KeyEvent) (i : Z)
    : list Keyboard.Effect :=
  match (if (0 <=? i)%Z then Keyboard.visibleNodes o !! Z.to_nat i else None) with
  | Some n =>
    Keyboard.SetFocused (Flat.id n)
    :: (if Keyboard.shiftKey e && bool_decide (Keyboard.selectionMode o = mode_multiple)
        then [Keyboard.SelectRange (Flat.id n)] else [])
  | None => [Keyboard.Throws]
  end.

(** The search loop of the type-ahead: [i] runs from [len - todo] up. *)
Fixpoint typeAheadSearch (visibleNodes : list (Flat.t T)) (buffer : string)
    (startIndex : Z) (i : Z) (todo : nat) : list Keyboard.Effect :=
  match todo with
  | 0 => []
  | S todo' =>
    let idx := ((startIndex + i) mod Z.of_nat (length visibleNodes))%Z in
    match visibleNodes !! Z.to_nat idx with
    | Some node =>
      if String.prefix buffer (toLowerCase (getNodeLabel node))
      then [Keyboard.SetFocused (Flat.id node)]
      else typeAheadSearch visibleNodes buffer startIndex (i + 1)%Z todo'
    | None => [Keyboard.Throws]
    end
  end.

Definition onKeyDown (o : Keyboard.Options T) (st : Keyboard.State) (e : Keyboard.KeyEvent)
    : Keyboard.State * list Keyboard.Effect :=
  let visibleNodes := Keyboard.visibleNodes o in
  let len := Z.of_nat (length visibleNodes) in
  let currentIndex := currentIndexOf o in
  let currentNode := currentNodeOf o in
  let key := Keyboard.key e in
  if bool_decide (visibleNodes = []) then (st, [])
  else if bool_decide (key = "ArrowDown"%string)
  then (st, Keyboard.PreventDefault
            :: focusAt o e (Z.min (currentIndex + 1) (len - 1)))
  else if bool_decide (key = "ArrowUp"%string)
  then (st, Keyboard.PreventDefault :: focusAt o e (Z.max (currentIndex - 1) 0))
  else if bool_decide (key = "ArrowRight"%string)
  then (st, Keyboard.PreventDefault
            :: match currentNode with
               | None => []
               | Some c =>
                 if Flat.isGroup c && negb (bool_decide (Flat.id c ∈ Keyboard.expandedIds o))
                 then [Keyboard.Expand (Flat.id c)]
                 else if Flat.isGroup c && bool_decide (Flat.id c ∈ Keyboard.expandedIds o)
                 then match visibleNodes !! Z.to_nat (currentIndex + 1) with
                      | Some next =>
                        if bool_decide (Flat.parentId next = Some (Flat.id c))
                        then [Keyboard.SetFocused (Flat.id next)] else []
                      | None => []
                      end
                 else []
               end)
  else if bool_decide (key = "ArrowLeft"%string)
  then (st, Keyboard.PreventDefault
            :: match currentNode with
               | None => []
               | Some c =>
                 if Flat.isGroup c && bool_decide (Flat.id c ∈ Keyboard.expandedIds o)
                 then [Keyboard.Collapse (Flat.id c)]
                 else match Flat.parentId c with
                      | Some p => [Keyboard.SetFocused p]
                      | None => []
                      end
               end)
  else if bool_decide (key = "Home"%string)
  then (st, Keyboard.PreventDefault :: focusAt o e 0)
  else if bool_decide (key = "End"%string)
  then (st, Keyboard.PreventDefault :: focusAt o e (len - 1))
  else if bool_decide (key = "Enter"%string)
  then (st, Keyboard.PreventDefault
            :: match currentNode with
               | Some c => [Keyboard.Select (Flat.id c)]
               | None => []
               end)
  else if bool_decide (key = " "%string)
  then (st, Keyboard.PreventDefault
            :: match currentNode with
               | Some c =>
                 if bool_decide (Keyboard.selectionMode o = mode_multiple)
                 then [Keyboard.ToggleSelect (Flat.id c)]
                 else [Keyboard.Select (Flat.id c)]
               | None => []
               end)
  else if bool_decide (key = "*"%string)
  then (st, Keyboard.PreventDefault
            :: match currentNode with
               | None => []
               | Some c =>
                 map (fun node => Keyboard.Expand (Flat.id node))
                     (filter (fun node => Flat.parentId node = Flat.parentId c
                                          /\ Flat.isGroup node = true)
                             (Keyboard.flatNodes o))
               end)
  else if bool_decide (key = "a"%string)
          && (Keyboard.ctrlKey e || Keyboard.metaKey e)
          && bool_decide (Keyboard.selectionMode o = mode_multiple)
  then (st, [Keyboard.PreventDefault; Keyboard.SelectAll])
  else if (String.length key =? 1)
          && negb (Keyboard.ctrlKey e) && negb (Keyboard.altKey e)
          && negb (Keyboard.metaKey e)
  then
    let buffer := (Keyboard.typeAheadBuffer st ++ toLowerCase key)%string in
    (Keyboard.mkState buffer true,
     Keyboard.PreventDefault
     :: typeAheadSearch visibleNodes buffer (currentIndex + 1)%Z 0 (length visibleNodes))
  else (st, []).

(** The timer of the type-ahead fires: the buffer is cleared. *)
Definition typeAheadTimeout (st : Keyboard.State) : Keyboard.State :=
  Keyboard.mkState EmptyString false.

End tree_keyboard.

(** ** [components/tree-node.tsx] *)

Section tree_node_row.
Context {T : Type}.

(** [hasChildren] of a row. *)
Definition rowHasChildren (flatNodes : list (Flat.t T)) (node : Flat.t T) : bool :=
  Flat.isGroup node
  && (if Flat.childrenLoaded node
      then existsb (fun n => bool_decide (Flat.parentId n = Some (Flat.id node))) flatNodes
      else true).

(** [siblingCount], the value of [aria-setsize]. *)
Definition rowSiblingCount (flatNodes : list (Flat.t T)) (node : Flat.t T) : nat :=
  length (filter (fun n => Flat.parentId n = Flat.parentId node) flatNodes).

Definition isDragDisabled (isDraggableTree : bool) (canDrag : option (Flat.t T -> bool))
    (node : Flat.t T) : bool :=
  negb isDraggableTree
  || match canDrag with
     | Some f => negb (f node)
     | None => false
     end.

(** [handleSelect]: [event] holds the Shift key and the Meta-or-Control
    state of the mouse event, when one is passed. *)
Definition handleSelect (selectionMode : SelectionMode) (event : option (bool * bool))
    (id : string) : Keyboard.Effect :=
  match event with
  | Some (shiftKey, metaOrCtrl) =>
    if bool_decide (selectionMode = mode_multiple)
    then if shiftKey then Keyboard.SelectRange id
         else if metaOrCtrl then Keyboard.ToggleSelect id
         else Keyboard.Select id
    else Keyboard.Select id
  | None => Keyboard.Select id
  end.

(** The first loop of [guideLines], over the rows after this one. *)
Fixpoint scanContinued (rest : list (Flat.t T)) (depth : Z) (continued : gset Z) : gset Z :=
  match rest with
  | [] => continued
  | n :: rest' =>
    if (Flat.depth n <? depth)%Z
    then if (Flat.depth n =? 0)%Z then {[Flat.depth n]} ∪ continued
         else scanContinued rest' depth ({[Flat.depth n]} ∪ continued)
    else scanContinued rest' depth continued
  end.

(** The last loop of [guideLines]: whether [parentDepth] is pushed. *)
Fixpoint laterSibling (rest : list (Flat.t T)) (node : Flat.t T) (parentDepth : Z) : bool :=
  match rest with
  | [] => false
  | n :: rest' =>
    if (Flat.depth n <=? parentDepth)%Z then false
    else if (Flat.depth n =? Flat.depth node)%Z
            && bool_decide (Flat.parentId n = Flat.parentId node)
    then true
    else laterSibling rest' node parentDepth
  end.

Definition guideLines (showGuideLines : bool) (node : Flat.t T) (sortableIndex : nat)
    (visibleNodes : list (Flat.t T)) : list Z :=
  if negb showGuideLines || (Flat.depth node =? 0)%Z then []
  else
    let rest := drop (sortableIndex + 1) visibleNodes in
    let continued := scanContinued rest (Flat.depth node) ∅ in
    let lines := filter (fun d => d ∈ continued) (seqZ 0 (Flat.depth node)) in
    let parentDepth := (Flat.depth node - 1)%Z in
    if bool_decide (parentDepth ∈ continued) then lines
    else if laterSibling rest node parentDepth then lines ++ [parentDepth]
    else lines.

End tree_node_row.

(** * Vocabulary of the properties *)

Section vocabulary.
Context {T : Type}.

(** The children of [q] in the array, in array order. *)
Definition siblingsOf (q : option string) (l : list (Flat.t T)) : list (Flat.t T) :=
  filter (fun n => Flat.parentId n = q) l.

(** The counter read by [indexCounters.get(key) ?? 0]. *)
Definition counterOf (c : gmap (option string) nat) (q : option string) : nat :=
  default 0 (c !! q).

Definition withIndex (n : Flat.t T) (i : nat) : Flat.t T :=
  Flat.mk (Flat.id n) (Flat.data n) (Flat.isGroup n) (Flat.childrenLoaded n)
          (Flat.parentId n) (Flat.depth n) i.

(** [reindexSiblings] as a recursion on the array, the counters passed on. *)
Fixpoint reindexFrom (c : gmap (option string) nat) (l : list (Flat.t T)) : list (Flat.t T) :=
  match l with
  | [] => []
  | n :: rest =>
    withIndex n (counterOf c (Flat.parentId n))
    :: reindexFrom (<[Flat.parentId n := counterOf c (Flat.parentId n) + 1]> c) rest
  end.

(** The sibling indices under every parent are [0, 1, .., count - 1], in
    array order. *)
Definition contiguousIndices (l : list (Flat.t T)) : Prop :=
  forall q, map Flat.index (siblingsOf q l) = seq 0 (getSiblingCount l q).

(** *** Well-formed flat arrays and ancestors *)

(** The check behind "in pre-order with valid parentId references": ids
    are unique, and every [parentId] is [null] or the id of a node
    earlier in the array.  [seen] holds the ids met so far. *)
Fixpoint parentsFirstFrom (seen : gset string) (l : list (Flat.t T)) : bool :=
  match l with
  | [] => true
  | n :: rest =>
    negb (bool_decide (Flat.id n ∈ seen))
    && match Flat.parentId n with
       | None => true
       | Some p => bool_decide (p ∈ seen)
       end
    && parentsFirstFrom ({[Flat.id n]} ∪ seen) rest
  end.

Definition parentsFirst (l : list (Flat.t T)) : Prop := parentsFirstFrom ∅ l = true.

(** Depths follow the parents: a node without parent has depth 0, any
    other node hangs under an earlier node of the array, one level
    deeper. *)
Definition depthsFollowParents (l : list (Flat.t T)) : Prop :=
  forall j e, l !! j = Some e ->
    (Flat.parentId e = None /\ Flat.depth e = 0%Z)
    \/ exists j' m, j' < j /\ l !! j' = Some m /\ Flat.parentId e = Some (Flat.id m)
                     /\ Flat.depth e = (Flat.depth m + 1)%Z.

(** [ancestry flat k l]: [l] is the chain of parent ids from the node with
    id [k] up to a root (or to an id that is not in the array), nearest
    first; what [getAncestorIds] collects. *)
Inductive ancestry (flat : list (Flat.t T)) : string -> list string -> Prop :=
| ancestry_absent k :
    (forall n, n ∈ flat -> Flat.id n ≠ k) -> ancestry flat k []
| ancestry_root n :
    n ∈ flat -> Flat.parentId n = None -> ancestry flat (Flat.id n) []
| ancestry_step n p l :
    n ∈ flat -> Flat.parentId n = Some p -> ancestry flat p l ->
    ancestry flat (Flat.id n) (p :: l).

(** Every ancestor in [l] is expanded. *)
Definition allExpanded (expandedIds : gset string) (l : list string) : Prop :=
  forall a, a ∈ l -> a ∈ expandedIds.

(** Every ancestor in [l] that is a group is expanded. *)
Definition groupsExpanded (flat : list (Flat.t T)) (expandedIds : gset string)
    (l : list string) : Prop :=
  forall a m, a ∈ l -> m ∈ flat -> Flat.id m = a -> Flat.isGroup m = true -> a ∈ expandedIds.

(** *** The insertion point of [insertAt], in the specification's words

    "immediately before the [targetIndex]-th existing child of
    [targetParentId] (or at the end of that parent's children if
    [targetIndex] exceeds the count)". *)

(** The positions of the children of [p], in array order. *)
Fixpoint childPositions (p : option string) (l : list (Flat.t T)) (i : nat) : list nat :=
  match l with
  | [] => []
  | n :: rest =>
    if bool_decide (Flat.parentId n = p) then i :: childPositions p rest (S i)
    else childPositions p rest (S i)
  end.

(** The position just past the last node for which [under] holds, [acc]
    when there is none. *)
Fixpoint endAfter (under : Flat.t T -> bool) (l : list (Flat.t T)) (i acc : nat) : nat :=
  match l with
  | [] => acc
  | n :: rest => endAfter under rest (S i) (if under n then S i else acc)
  end.

(** The end of the children of [p]: just past the last node lying under
    [p] (a child or a deeper descendant), just past [p] itself when it
    has none; the end of the array for the top level. *)
Definition endOfChildren (flat : list (Flat.t T)) (p : option string) : nat :=
  match p with
  | None => length flat
  | Some pid =>
    endAfter (fun n => bool_decide (Flat.id n ∈ pid :: getDescendantIds flat pid))
             flat 0 (length flat)
  end.

Definition insertAtSpec (flat : list (Flat.t T)) (p : option string) (k : Z) : nat :=
  match (if (0 <=? k)%Z then childPositions p flat 0 !! Z.to_nat k else None) with
  | Some pos => pos
  | None => endOfChildren flat p
  end.

Definition insertNodesSpec (flat nodesToInsert : list (Flat.t T)) (p : option string) (k : Z)
    : list (Flat.t T) :=
  let pos := insertAtSpec flat p k in
  reindexSiblings (take pos flat ++ nodesToInsert ++ drop pos flat).

(** *** The round trip through [flattenTree] and [buildTree] *)

(** The flat node [flattenTree] makes of [node] itself, at position [i]
    under [parentId]. *)
Definition headOf (node : Nested.t T) (parentId : option string) (depth : Z) (i : nat)
    : Flat.t T :=
  Flat.mk (Nested.id node) (Nested.data node)
          (default (hasChildren node) (Nested.isGroup node))
          (match Nested.children node with Some _ => true | None => false end)
          parentId depth i.

Fixpoint heads (nodes : list (Nested.t T)) (parentId : option string) (depth : Z) (i : nat)
    : list (Flat.t T) :=
  match nodes with
  | [] => []
  | node :: rest => headOf node parentId depth i :: heads rest parentId depth (S i)
  end.

(** [isGroup: flat.isGroup || undefined] *)
Definition groupFlag (n : Flat.t T) : option bool :=
  if Flat.isGroup n then Some true else None.

(** What a nested node comes back as: [isGroup] is [true] when it was
    [true], or was absent on a node with at least one child, and absent
    otherwise; ids, data and children are kept. *)
Fixpoint normalizeNode (node : Nested.t T) : Nested.t T :=
  match node with
  | Nested.mk nid d g ch =>
    Nested.mk nid d
      (if default (match ch with Some (_ :: _) => true | _ => false end) g
       then Some true else None)
      (match ch with
       | Some cs => Some (map normalizeNode cs)
       | None => None
       end)
  end.

Fixpoint height (node : Nested.t T) : nat :=
  match node with
  | Nested.mk _ _ _ ch =>
    S (match ch with
       | Some cs => foldr (fun c h => max (height c) h) 0 cs
       | None => 0
       end)
  end.

Definition heightForest (nodes : list (Nested.t T)) : nat :=
  foldr (fun c h => max (height c) h) 0 nodes.

(** The nested tree read off a flat array by grouping on [parentId],
    without the store: what [reify] finds in the result of [buildTree]
    when no child hangs under a node whose children are not loaded. *)
Fixpoint rebuildNode (fuel : nat) (flat : list (Flat.t T)) (e : Flat.t T)
    : option (Nested.t T) :=
  match fuel with
  | 0 => None
  | S fuel' =>
    if Flat.childrenLoaded e
    then
      match mapM (rebuildNode fuel' flat)
                 (filter (fun n => Flat.parentId n = Some (Flat.id e)) flat) with
      | Some kids => Some (Nested.mk (Flat.id e) (Flat.data e) (groupFlag e) (Some kids))
      | None => None
      end
    else Some (Nested.mk (Flat.id e) (Flat.data e) (groupFlag e) None)
  end.

(** The object [buildTree] makes of a flat node: the entry of [nodeMap]
    under its id, without the marker. *)
Definition cleanOf (nodeMap : gmap string (Obj.t T * bool)) (n : Flat.t T) : Obj.t T :=
  match nodeMap !! Flat.id n with
  | Some (o, _) => o
  | None => Obj.mk (Flat.id n) (Flat.data n) (groupFlag n) None
  end.

(** No node of the array hangs under a node whose children are not
    loaded. *)
Definition parentsLoaded (flat : list (Flat.t T)) : Prop :=
  forall n m, n ∈ flat -> m ∈ flat -> Flat.parentId n = Some (Flat.id m) ->
              Flat.childrenLoaded m = true.

(** "Without lazy (unloaded) groups": no node with [isGroup: true] and no
    [children]. *)
Fixpoint noLazyGroups (node : Nested.t T) : bool :=
  match node with
  | Nested.mk _ _ g ch =>
    match ch with
    | Some cs => forallb noLazyGroups cs
    | None => negb (bool_decide (g = Some true))
    end
  end.

(** The equivalence of the round-trip law, in the specification's words:
    same id, same data, same children in the same order, and the same
    [isGroup], except that on a node that holds no children a [false] or
    absent [isGroup] may come back absent. *)
Fixpoint roundTripEquiv (x y : Nested.t T) {struct x} : Prop :=
  match x, y with
  | Nested.mk i d g ch, Nested.mk i' d' g' ch' =>
    i = i' /\ d = d'
    /\ (g = g'
        \/ (match ch with Some (_ :: _) => False | _ => True end
            /\ (g = None \/ g = Some false) /\ g' = None))
    /\ match ch, ch' with
       | Some cs, Some cs' =>
         (fix equivList (l l' : list (Nested.t T)) {struct l} : Prop :=
            match l, l' with
            | [], [] => True
            | a :: r, b :: r' => roundTripEquiv a b /\ equivList r r'
            | _, _ => False
            end) cs cs'
       | None, None => True
       | _, _ => False
       end
  end.

Fixpoint roundTripEquivList (l l' : list (Nested.t T)) : Prop :=
  match l, l' with
  | [], [] => True
  | a :: r, b :: r' => roundTripEquiv a b /\ roundTripEquivList r r'
  | _, _ => False
  end.

(** Every node that holds at least one child says [isGroup: true]. *)
Fixpoint explicitGroups (node : Nested.t T) : bool :=
  match node with
  | Nested.mk _ _ g ch =>
    match ch with
    | Some (c :: cs) => bool_decide (g = Some true) && forallb explicitGroups (c :: cs)
    | _ => true
    end
  end.

(** *** The drag session of a registered tree, reset *)

(** A session with nothing left of a drag: no active node, no hovered
    node, no drop position, no projection, in the states and in the refs,
    no pending timer and no hover target; only the pointer offset of the
    last hover stays. *)
Definition clearedSession (s : Dnd.Session) : Dnd.Session :=
  Dnd.mkSession None None None None None None None None None None (Dnd.offset s).

(** The registration with its session cleared; what the last render saw
    is as it was. *)
Definition resetRegistration (r : Group.Registration T) : Group.Registration T :=
  Group.mkRegistration (Group.options r) (clearedSession (Group.session r))
                       (Group.rendered r).

End vocabulary.

(** * Vocabulary of the further properties *)

Section vocabulary_more.
Context {T : Type}.

(** What a flat node carries besides its place in the tree. *)
Definition payload (n : Flat.t T) : string * T * bool * bool :=
  (Flat.id n, Flat.data n, Flat.isGroup n, Flat.childrenLoaded n).

(** No node that holds at least one child says [isGroup: false]. *)
Fixpoint groupFlagsKept (node : Nested.t T) : bool :=
  match node with
  | Nested.mk _ _ g ch =>
    match ch with
    | Some (c :: cs) =>
      negb (bool_decide (g = Some false)) && forallb groupFlagsKept (c :: cs)
    | _ => true
    end
  end.

(** Every entry of [nodeMap] is an object with the id it is stored
    under. *)
Definition keyedById (nodeMap : gmap string (Obj.t T * bool)) : Prop :=
  forall k o b, nodeMap !! k = Some (o, b) -> Obj.id o = k.

(** A flat node with its children marked as loaded. *)
Definition markLoaded (e : Flat.t T) : Flat.t T :=
  Flat.mk (Flat.id e) (Flat.data e) (Flat.isGroup e) true (Flat.parentId e) (Flat.depth e)
          (Flat.index e).

(** The flat array with the flattening of [children] put right after
    every node with id [parentId], one level deeper, and that node marked
    as loaded. *)
Definition graftChildren (parentId : string) (children : list (Nested.t T))
    (flat : list (Flat.t T)) : list (Flat.t T) :=
  flat_map (fun e => if bool_decide (Flat.id e = parentId)
                     then markLoaded e
                          :: flattenTree children (Some parentId) (Flat.depth e + 1)%Z
                     else [e])
           flat.

(** The updaters of [expand], for the given ids in order. *)
Definition expandAll (ids : list string) : list (gset string -> gset string) :=
  map (fun id prev => expand prev id) ids.

(** The calls of the keyboard handler name nodes of the tree: every id
    passed to [setFocused], [collapse], [select], [toggleSelect] or
    [selectRange] is the id of a visible node, every id passed to [expand]
    the id of a node; nothing throws. *)
Definition namesNodes (o : Keyboard.Options T) (eff : Keyboard.Effect) : Prop :=
  match eff with
  | Keyboard.SetFocused id | Keyboard.Collapse id | Keyboard.Select id
  | Keyboard.ToggleSelect id | Keyboard.SelectRange id =>
    id ∈ map Flat.id (Keyboard.visibleNodes o)
  | Keyboard.Expand id => id ∈ map Flat.id (Keyboard.flatNodes o)
  | Keyboard.Throws => False
  | Keyboard.PreventDefault | Keyboard.SelectAll => True
  end.

End vocabulary_more.

(** * Concrete inputs used below *)

Section example_inputs.
Open Scope string_scope.

Definition insertExampleFlat : list (Flat.t unit) :=
  [ Flat.mk "a" tt true true None 0%Z 0;
    Flat.mk "a1" tt false false (Some "a") 1%Z 0;
    Flat.mk "b" tt false false None 0%Z 1 ].

Definition insertExampleNew : list (Flat.t unit) :=
  [ Flat.mk "n" tt false false (Some "a") 1%Z 0 ].

(** A node with [isGroup: false] that has a child. *)
Definition nonGroupParentTree : list (Nested.t unit) :=
  [ Nested.mk "a" tt (Some false) (Some [ Nested.mk "b" tt None None ]) ].

Definition nonGroupParentFlat : list (Flat.t unit) :=
  flattenTree nonGroupParentTree None 0%Z.

(** Scenario A of the specification: a group ["a"] with a child ["a1"],
    and a leaf ["b"]. *)
Definition scenarioATree : list (Nested.t unit) :=
  [ Nested.mk "a" tt (Some true) (Some [ Nested.mk "a1" tt None None ]);
    Nested.mk "b" tt None None ].

Definition scenarioAFlat : list (Flat.t unit) := flattenTree scenarioATree None 0%Z.

(** A group ["a"] holding a group ["a1"] holding a leaf ["a2"]. *)
Definition nestedGroupsTree : list (Nested.t unit) :=
  [ Nested.mk "a" tt (Some true)
      (Some [ Nested.mk "a1" tt (Some true) (Some [ Nested.mk "a2" tt None None ]) ]) ].

Definition nestedGroupsFlat : list (Flat.t unit) := flattenTree nestedGroupsTree None 0%Z.

(** Scenario B of the specification: a lazy group ["g"] whose loader
    returns one child ["g1"]. *)
Definition lazyGroup : Flat.t unit := Flat.mk "g" tt true false None 0%Z 0.

Definition loadedChildren : list (Nested.t unit) := [ Nested.mk "g1" tt None None ].

Definition lazyOptions : Lazy.Options := Lazy.mkOptions true true.

(** Scenario E of the specification: two trees in one drag session,
    ["x"] only in tree ["A"], ["y"] only in tree ["B"]; tree ["B"] holds
    the projection of the last hover. *)
Definition treeAOptions : Dnd.Options unit :=
  Dnd.mkOptions "A" [ Flat.mk "x" tt false false None 0%Z 0 ]
                [ Flat.mk "x" tt false false None 0%Z 0 ]
                ∅ ∅ mode_single (Js.ofZ 20) None true true true true.

Definition treeBOptions : Dnd.Options unit :=
  Dnd.mkOptions "B" [ Flat.mk "y" tt true true None 0%Z 0 ]
                [ Flat.mk "y" tt true true None 0%Z 0 ]
                {["y"]} ∅ mode_single (Js.ofZ 20) None true true true true.

Definition treeASession : Dnd.Session :=
  Dnd.mkSession (Some "x") None None None None None None None None None (Js.ofZ 0, Js.ofZ 0).

Definition treeBSession : Dnd.Session :=
  Dnd.mkSession None (Some "y") (Some inside) (Some (Js.Int 1)) (Some "y")
                (Some inside) (Some (Js.Int 1)) (Some "y") None (Some "y") (Js.ofZ 0, Js.ofZ 0).

Definition scenarioEGroup : Group.State unit :=
  Group.mkState [ Group.mkRegistration treeAOptions treeASession treeASession;
                  Group.mkRegistration treeBOptions treeBSession treeBSession ]
                (Some "B").

Definition scenarioEDrop : Dnd.Operation :=
  Dnd.mkOperation (Some "x") (Some "y") None false.

(** The same two trees at rest, both rendered; then ["x"] is picked up,
    every tree renders, and the pointer comes over ["y"]. *)
Definition scenarioEIdle : Group.State unit :=
  Group.mkState [ Group.mkRegistration treeAOptions idleSession idleSession;
                  Group.mkRegistration treeBOptions idleSession idleSession ]
                None.

Definition scenarioEStart : Dnd.Operation :=
  Dnd.mkOperation (Some "x") None None false.

Definition scenarioEOver : Dnd.Operation :=
  Dnd.mkOperation (Some "x") (Some "y") (Some (Js.ofZ 0, Js.ofZ 0)) false.

Definition allCallbacks : Group.Props := Group.mkProps true true true.

(** A tree of one expanded, empty group; [singleGroupOptions i] gives the
    group the id [i]. *)
Definition singleGroupOptions (i : string) : Dnd.Options unit :=
  Dnd.mkOptions "tree" [ Flat.mk i tt true true None 0%Z 0 ]
                [ Flat.mk i tt true true None 0%Z 0 ]
                {[i]} ∅ mode_single (Js.ofZ 20) None true false true true.

(** Picking the group up and hovering it over itself, the pointer not
    moved sideways. *)
Definition hoverOverItself (i : string) : Dnd.Session :=
  handleDragOver (singleGroupOptions i)
    (handleDragStart (singleGroupOptions i) idleSession
       (Dnd.mkOperation (Some i) None None false)).1
    (Dnd.mkOperation (Some i) (Some i) (Some (Js.ofZ 0, Js.ofZ 0)) false).

Definition dropOnItself (i : string) : Dnd.Operation :=
  Dnd.mkOperation (Some i) (Some i) None false.

(** A lazy group ["g"] (children not loaded) followed by a leaf ["x"],
    and the same with ["x"] already under ["g"]. *)
Definition lazyGroupFlat : list (Flat.t unit) :=
  [ Flat.mk "g" tt true false None 0%Z 0;
    Flat.mk "x" tt false false None 0%Z 1 ].

Definition childOfUnloaded : list (Flat.t unit) :=
  [ Flat.mk "g" tt true false None 0%Z 0;
    Flat.mk "x" tt false false (Some "g") 1%Z 0 ].

Definition lazyGroupOptions : Dnd.Options unit :=
  Dnd.mkOptions "tree" lazyGroupFlat lazyGroupFlat ∅ ∅ mode_single (Js.ofZ 20)
                None true false false true.

(** Dragging ["x"] over ["g"], one level to the right. *)
Definition hoverOverLazyGroup : Dnd.Session :=
  handleDragOver lazyGroupOptions
    (handleDragStart lazyGroupOptions idleSession
       (Dnd.mkOperation (Some "x") None None false)).1
    (Dnd.mkOperation (Some "x") (Some "g") (Some (Js.ofZ 20, Js.ofZ 0)) false).

(** Scenario C of the specification: ["x"] dragged onto the expanded,
    empty group ["y"]. *)
Definition scenarioCFlat : list (Flat.t unit) :=
  flattenTree [ Nested.mk "x" tt None None; Nested.mk "y" tt (Some true) (Some []) ] None 0%Z.

Definition scenarioCOptions : Dnd.Options unit :=
  Dnd.mkOptions "tree" scenarioCFlat (getVisibleNodes scenarioCFlat {["y"]}) {["y"]} ∅
                mode_single (Js.ofZ 20) None true false false true.

(** Scenario D of the specification: ["p"] (with a child) and ["q"]
    selected, ["p"] dragged onto ["z"]. *)
Definition scenarioDFlat : list (Flat.t unit) :=
  flattenTree [ Nested.mk "p" tt (Some true) (Some [ Nested.mk "p1" tt None None ]);
                Nested.mk "m" tt None None;
                Nested.mk "q" tt None None;
                Nested.mk "z" tt None None ] None 0%Z.

Definition scenarioDOptions : Dnd.Options unit :=
  Dnd.mkOptions "tree" scenarioDFlat (getVisibleNodes scenarioDFlat {["p"]}) {["p"]}
                {["p"; "q"]} mode_multiple (Js.ofZ 20) None true false false true.

(** A leaf ["v"] followed by a chain of groups down to the leaf ["u"]
    at depth 3, everything expanded. *)
Definition deepChainFlat : list (Flat.t unit) :=
  flattenTree
    [ Nested.mk "v" tt None None;
      Nested.mk "r" tt (Some true)
        (Some [ Nested.mk "s" tt (Some true)
                  (Some [ Nested.mk "t" tt (Some true)
                            (Some [ Nested.mk "u" tt None None ]) ]) ]) ]
    None 0%Z.

(** A node without [isGroup] that has a child. *)
Definition implicitGroupTree : list (Nested.t unit) :=
  [ Nested.mk "a" tt None (Some [ Nested.mk "b" tt None None ]) ].

End example_inputs.

(** * Further concrete inputs *)

Section example_inputs_more.
Open Scope string_scope.

(** A lazy group ["g"] (no [children]) and a leaf ["x"]. *)
Definition lazyItems : list (Nested.t unit) :=
  [ Nested.mk "g" tt (Some true) None; Nested.mk "x" tt None None ].

(** A data object with one property, [label]. *)
Definition labelled (s : string) : list (string * JsValue) := [ ("label", JsString s) ].

(** [toLowerCase] on the letters A to Z. *)
Definition lowerAscii (a : Ascii.ascii) : Ascii.ascii :=
  let n := Ascii.nat_of_ascii a in
  if ((65 <=? n) && (n <=? 90))%nat then Ascii.ascii_of_nat (n + 32) else a.

Fixpoint asciiLower (s : string) : string :=
  match s with
  | EmptyString => EmptyString
  | String a rest => String (lowerAscii a) (asciiLower rest)
  end.

(** Three top-level groups; the first is expanded and holds two leaves. *)
Definition keyboardTree : list (Nested.t (list (string * JsValue))) :=
  [ Nested.mk "docs" (labelled "Docs") (Some true)
      (Some [ Nested.mk "a" (labelled "Alpha") None None;
              Nested.mk "b" (labelled "beta") None None ]);
    Nested.mk "build" (labelled "Build") (Some true) (Some []);
    Nested.mk "src" (labelled "Src") (Some true) (Some []) ].

Definition keyboardFlat : list (Flat.t (list (string * JsValue))) :=
  flattenTree keyboardTree None 0%Z.

Definition keyboardOptions (focusedId : option string)
    : Keyboard.Options (list (string * JsValue)) :=
  Keyboard.mkOptions (getVisibleNodes keyboardFlat {["docs"]}) keyboardFlat focusedId
                     {["docs"]} mode_multiple.

Definition plainKey (key : string) : Keyboard.KeyEvent :=
  Keyboard.mkKeyEvent key false false false false.

(** Two leaves at the top level, and picking up the first one, hovering
    it over itself without moving the pointer sideways. *)
Definition twoLeavesFlat : list (Flat.t unit) :=
  flattenTree [ Nested.mk "x" tt None None; Nested.mk "y" tt None None ] None 0%Z.

Definition twoLeavesOptions : Dnd.Options unit :=
  Dnd.mkOptions "tree" twoLeavesFlat (getVisibleNodes twoLeavesFlat ∅) ∅ ∅ mode_single
                (Js.ofZ 20) None true false false true.

(** The same tree in multiple selection mode, ["x"] the only selected
    node. *)
Definition twoLeavesOneSelected : Dnd.Options unit :=
  Dnd.mkOptions "tree" twoLeavesFlat (getVisibleNodes twoLeavesFlat ∅) ∅ {["x"]}
                mode_multiple (Js.ofZ 20) None true false false true.

Definition hoverFirstLeafOverItself : Dnd.Session :=
  handleDragOver twoLeavesOptions
    (handleDragStart twoLeavesOptions idleSession
       (Dnd.mkOperation (Some "x") None None false)).1
    (Dnd.mkOperation (Some "x") (Some "x") (Some (Js.ofZ 0, Js.ofZ 0)) false).

(** Rows at depths 0, 1, 2, 2, 1, 0, all under distinct parents but the
    two at depth 2. *)
Definition guideRows : list (Flat.t unit) :=
  flattenTree
    [ Nested.mk "r" tt (Some true)
        (Some [ Nested.mk "p" tt (Some true)
                  (Some [ Nested.mk "c1" tt None None; Nested.mk "c2" tt None None ]);
                Nested.mk "q" tt None None ]);
      Nested.mk "s" tt None None ] None 0%Z.

End example_inputs_more.
(** * Properties *)

(** ** Sibling indices ([reindexSiblings], [removeNodes], [insertNodes]) *)

Section reindex_facts.
Context {T : Type}.
Implicit Types (l flat : list (Flat.t T)) (q : option string).

Lemma reindex_foldl l : forall res c,
  (foldl reindexStep (res, c) l).1 = res ++ reindexFrom c l.
Proof.
  induction l as [|n l IH]; intros res c; simpl.
  - by rewrite app_nil_r.
  - rewrite IH. by rewrite <- app_assoc.
Qed.

Lemma reindexSiblings_eq l : reindexSiblings l = reindexFrom ∅ l.
Proof. unfold reindexSiblings. by rewrite reindex_foldl. Qed.

Lemma getSiblingCount_foldl l q : forall k,
  foldl (fun count (node : Flat.t T) =>
           if bool_decide (Flat.parentId node = q) then S count else count) k l
  = k + length (siblingsOf q l).
Proof.
  induction l as [|n l IH]; intros k; simpl.
  - lia.
  - rewrite IH. unfold siblingsOf. rewrite filter_cons.
    destruct (decide (Flat.parentId n = q)) as [Hq|Hq].
    + rewrite bool_decide_eq_true_2 by done. simpl. lia.
    + rewrite bool_decide_eq_false_2 by done. lia.
Qed.

Lemma getSiblingCount_length l q : getSiblingCount l q = length (siblingsOf q l).
Proof. unfold getSiblingCount. by rewrite getSiblingCount_foldl. Qed.

Lemma counterOf_insert_eq c q k : counterOf (<[q := k]> c) q = k.
Proof. unfold counterOf. by rewrite lookup_insert_eq. Qed.

Lemma counterOf_insert_ne c q q' k : q' ≠ q -> counterOf (<[q' := k]> c) q = counterOf c q.
Proof. intros H. unfold counterOf. by rewrite lookup_insert_ne. Qed.

Lemma reindexFrom_siblings l q : forall c,
  map Flat.index (siblingsOf q (reindexFrom c l))
  = seq (counterOf c q) (length (siblingsOf q l)).
Proof.
  induction l as [|n l IH]; intros c; simpl; [done|].
  unfold siblingsOf in *. rewrite !filter_cons. simpl.
  destruct (decide (Flat.parentId n = q)) as [Hq|Hq]; simpl.
  - rewrite IH. subst q. rewrite counterOf_insert_eq.
    by replace (counterOf c (Flat.parentId n) + 1) with (S (counterOf c (Flat.parentId n))) by lia.
  - rewrite IH. by rewrite counterOf_insert_ne.
Qed.

Lemma reindexFrom_siblings_length l q : forall c,
  length (siblingsOf q (reindexFrom c l)) = length (siblingsOf q l).
Proof.
  intros c. rewrite <- (length_map Flat.index), reindexFrom_siblings. apply length_seq.
Qed.

Lemma counterOf_empty q : counterOf ∅ q = 0.
Proof. unfold counterOf. by rewrite lookup_empty. Qed.

Lemma reindexSiblings_contiguous l : contiguousIndices (reindexSiblings l).
Proof.
  intros q. rewrite getSiblingCount_length, reindexSiblings_eq.
  rewrite reindexFrom_siblings, reindexFrom_siblings_length.
  by rewrite counterOf_empty.
Qed.

(** C7. After [removeNodes] and after [insertNodes], the [index] values of
    the nodes sharing a [parentId] are, in array order, 0, 1, ..,
    count - 1: no gap, no duplicate. *)
Theorem reindex_contiguity :
  (forall (flat : list (Flat.t T)) (ids : list string),
      contiguousIndices (removeNodes flat ids))
  /\ (forall (flat nodesToInsert : list (Flat.t T)) (p : option string) (k : Z),
         contiguousIndices (insertNodes flat nodesToInsert p k)).
Proof.
  split; intros; apply reindexSiblings_contiguous.
Qed.

End reindex_facts.

(** ** The insertion point of [insertNodes] *)

Section insert_facts.
Context {T : Type}.
Implicit Types (l flat : list (Flat.t T)) (p : option string).

Lemma findInsertAt_found (pre : list (Flat.t T)) : forall node post p k i c len,
  Flat.parentId node = p ->
  Z.of_nat (c + length (siblingsOf p pre)) = k ->
  findInsertAt (pre ++ node :: post) p k i c len = i + length pre.
Proof.
  induction pre as [|x pre IH]; intros node post p k i c len Hp Hk; simpl in *.
  - rewrite bool_decide_eq_true_2 by done.
    replace (Z.of_nat c =? k)%Z with true by (symmetry; apply Z.eqb_eq; lia). lia.
  - unfold siblingsOf in Hk. rewrite filter_cons in Hk.
    destruct (decide (Flat.parentId x = p)) as [Hx|Hx].
    + rewrite bool_decide_eq_true_2 by done. simpl in Hk.
      replace (Z.of_nat c =? k)%Z with false by (symmetry; apply Z.eqb_neq; lia).
      rewrite (IH node post p k (S i) (S c) len); [lia|done|].
      unfold siblingsOf. lia.
    + rewrite bool_decide_eq_false_2 by done.
      rewrite (IH node post p k (S i) c len); [lia|done|done].
Qed.

Lemma findInsertAt_default l : forall p k i c len,
  (k < Z.of_nat c \/ Z.of_nat (c + length (siblingsOf p l)) <= k)%Z ->
  findInsertAt l p k i c len = len.
Proof.
  induction l as [|x l IH]; intros p k i c len Hk; simpl; [done|].
  unfold siblingsOf in Hk. rewrite filter_cons in Hk.
  destruct (decide (Flat.parentId x = p)) as [Hx|Hx].
  - rewrite bool_decide_eq_true_2 by done. simpl in Hk.
    replace (Z.of_nat c =? k)%Z with false by (symmetry; apply Z.eqb_neq; lia).
    apply IH. unfold siblingsOf. lia.
  - rewrite bool_decide_eq_false_2 by done. by apply IH.
Qed.

Lemma findInsertAt_positions l : forall p (k i c len : nat),
  c <= k ->
  findInsertAt l p (Z.of_nat k) i c len = default len (childPositions p l i !! (k - c)).
Proof.
  induction l as [|x l IH]; intros p k i c len Hc; simpl; [done|].
  destruct (decide (Flat.parentId x = p)) as [Hx|Hx].
  - rewrite !bool_decide_eq_true_2 by done.
    destruct (Z.eqb_spec (Z.of_nat c) (Z.of_nat k)) as [Heq|Hne].
    + assert (c = k) as -> by lia. by rewrite Nat.sub_diag.
    + rewrite IH by lia. replace (k - c) with (S (k - S c)) by lia. done.
  - rewrite !bool_decide_eq_false_2 by done. by apply IH.
Qed.

(** Where the [k]-th child exists, the code and the specification's
    wording agree on the insertion point. *)
Lemma insertNodes_agrees_before_child flat (nodesToInsert : list (Flat.t T)) p (k : Z) pos :
  (0 <= k)%Z -> childPositions p flat 0 !! Z.to_nat k = Some pos ->
  insertNodes flat nodesToInsert p k = insertNodesSpec flat nodesToInsert p k.
Proof.
  intros Hk Hpos. unfold insertNodes, insertNodesSpec, insertAtSpec.
  replace (0 <=? k)%Z with true by (symmetry; by apply Z.leb_le). rewrite Hpos.
  assert (Hfound : findInsertAt flat p k 0 0 (length flat) = pos).
  { replace k with (Z.of_nat (Z.to_nat k)) by lia.
    rewrite findInsertAt_positions by lia. by rewrite Nat.sub_0_r, Hpos. }
  by rewrite Hfound.
Qed.

(** C5, as the code has it.  [insertNodes] splices the new nodes
    immediately before the [k]-th existing child of the target parent
    (the child with [k] children of that parent before it); when [k] is
    the child count or more, it splices them at the end of the whole
    array, after every node, also those outside the parent's subtree.
    The sibling indices are recomputed afterwards. *)
Theorem insertNodes_position (flat nodesToInsert : list (Flat.t T))
    (p : option string) (k : Z) :
  (forall pos node,
      flat !! pos = Some node ->
      Flat.parentId node = p ->
      Z.of_nat (getSiblingCount (take pos flat) p) = k ->
      insertNodes flat nodesToInsert p k
      = reindexSiblings (take pos flat ++ nodesToInsert ++ drop pos flat))
  /\ ((Z.of_nat (getSiblingCount flat p) <= k)%Z ->
      insertNodes flat nodesToInsert p k = reindexSiblings (flat ++ nodesToInsert))
  /\ contiguousIndices (insertNodes flat nodesToInsert p k).
Proof.
  split; [|split].
  - intros pos node Hpos Hp Hk. unfold insertNodes.
    assert (Hsplit : flat = take pos flat ++ node :: drop (S pos) flat)
      by (symmetry; by apply take_drop_middle).
    assert (Hlen : length (take pos flat) = pos).
    { apply length_take_le. apply lookup_lt_Some in Hpos. lia. }
    rewrite getSiblingCount_length in Hk.
    replace (findInsertAt flat p k 0 0 (length flat)) with pos; [done|].
    rewrite Hsplit at 1.
    rewrite (findInsertAt_found (take pos flat) node (drop (S pos) flat) p k 0 0);
      [lia|done|done].
  - intros Hk. unfold insertNodes.
    rewrite getSiblingCount_length in Hk.
    rewrite findInsertAt_default by (right; simpl; lia).
    by rewrite firstn_all, drop_all, app_nil_r.
  - apply reindexSiblings_contiguous.
Qed.

End insert_facts.

Section insert_examples.
Open Scope string_scope.

(** The first two cases on an example: before the first child of
    ["a"], and past its only child. *)
Lemma insertNodes_position_witness :
  insertNodes insertExampleFlat insertExampleNew (Some "a") 0
  = reindexSiblings (take 1 insertExampleFlat ++ insertExampleNew ++ drop 1 insertExampleFlat)
  /\ insertNodes insertExampleFlat insertExampleNew (Some "a") 1
     = reindexSiblings (insertExampleFlat ++ insertExampleNew).
Proof.
  split.
  - apply (proj1 (insertNodes_position insertExampleFlat insertExampleNew (Some "a") 0)
             1 (Flat.mk "a1" tt false false (Some "a") 1%Z 0)); reflexivity.
  - apply (proj1 (proj2 (insertNodes_position insertExampleFlat insertExampleNew
                                              (Some "a") 1))).
    vm_compute. discriminate.
Defined.

(** C5 as the specification words it fails: with one child ["a1"] under
    ["a"] and a root ["b"] after it, index 1 of ["a"] is "the end of that
    parent's children", the position before ["b"]; the code puts the new
    node after ["b"]. *)
Lemma insertNodes_not_end_of_children :
  insertAtSpec insertExampleFlat (Some "a") 1 = 2
  /\ map Flat.id (insertNodesSpec insertExampleFlat insertExampleNew (Some "a") 1)
     = ["a"; "a1"; "n"; "b"]
  /\ map Flat.id (insertNodes insertExampleFlat insertExampleNew (Some "a") 1)
     = ["a"; "a1"; "b"; "n"]
  /\ insertNodes insertExampleFlat insertExampleNew (Some "a") 1
     <> insertNodesSpec insertExampleFlat insertExampleNew (Some "a") 1.
Proof.
  repeat split; try (vm_compute; reflexivity).
  intros H. apply (f_equal (map Flat.id)) in H. vm_compute in H. discriminate.
Qed.

End insert_examples.

(** ** Well-formed flat arrays, ancestors and descendants *)

Section wf_facts.
Context {T : Type}.
Implicit Types (flat P S : list (Flat.t T)) (n m : Flat.t T) (k p : string).

Lemma parentsFirstFrom_inv (l : list (Flat.t T)) : forall seen,
  parentsFirstFrom seen l = true ->
  (forall x, x ∈ l -> Flat.id x ∉ seen)
  /\ NoDup (map Flat.id l)
  /\ (forall P n S p, l = P ++ n :: S -> Flat.parentId n = Some p ->
        p ∈ seen \/ exists m, m ∈ P /\ Flat.id m = p).
Proof.
  induction l as [|x l IH]; intros seen H; simpl in *.
  - split; [|split].
    + intros y Hy. by apply elem_of_nil in Hy.
    + constructor.
    + intros P n S p Heq. by destruct P.
  - apply andb_prop in H as [H H3]. apply andb_prop in H as [H1 H2].
    apply negb_true_iff, bool_decide_eq_false in H1.
    destruct (IH _ H3) as (Hfresh & Hnd & Hpar).
    split; [|split].
    + intros y Hy. apply elem_of_cons in Hy as [-> |Hy]; [done|].
      intros Hs. apply (Hfresh y Hy). apply elem_of_union. by right.
    + constructor; [|done].
      intros Hin. apply list_elem_of_fmap in Hin as (y & Hy1 & Hy2).
      apply (Hfresh y Hy2). apply elem_of_union. left. by apply elem_of_singleton.
    + intros P n S p Heq Hp. destruct P as [|y P]; simpl in Heq.
      * simplify_eq. rewrite Hp in H2. apply bool_decide_eq_true in H2. by left.
      * simplify_eq.
        destruct (Hpar P n S p eq_refl Hp) as [Hs|(m & Hm1 & Hm2)].
        -- apply elem_of_union in Hs as [Hs|Hs]; [|by left].
           apply elem_of_singleton in Hs. right. exists y. split; [left|done].
        -- right. exists m. split; [by right|done].
Qed.

Lemma parentsFirstFrom_intro (l : list (Flat.t T)) : forall seen,
  NoDup (map Flat.id l) ->
  (forall x, x ∈ l -> Flat.id x ∉ seen) ->
  (forall P n S p, l = P ++ n :: S -> Flat.parentId n = Some p ->
     p ∈ seen \/ exists m, m ∈ P /\ Flat.id m = p) ->
  parentsFirstFrom seen l = true.
Proof.
  induction l as [|x l IH]; intros seen Hnd Hfresh Hpar; simpl; [done|].
  rewrite fmap_cons in Hnd. apply NoDup_cons in Hnd as [Hx Hnd].
  rewrite bool_decide_eq_false_2 by (apply Hfresh; by left). simpl.
  apply andb_true_intro. split.
  - destruct (Flat.parentId x) as [p|] eqn:Hp; [|done].
    apply bool_decide_eq_true. destruct (Hpar [] x l p eq_refl Hp) as [?|(m & Hm & _)]; [done|].
    by apply elem_of_nil in Hm.
  - apply IH; [done| |].
    + intros y Hy Hin. apply elem_of_union in Hin as [Hin|Hin].
      * apply elem_of_singleton in Hin. apply Hx. apply list_elem_of_fmap. by exists y.
      * apply (Hfresh y); [by right|done].
    + intros P n S p Heq Hp.
      destruct (Hpar (x :: P) n S p ltac:(by rewrite Heq) Hp) as [Hs|(m & Hm & Hid)].
      * left. apply elem_of_union. by right.
      * apply elem_of_cons in Hm as [-> |Hm].
        -- left. apply elem_of_union. left. by apply elem_of_singleton.
        -- right. by exists m.
Qed.

(** Unique ids and depths that follow the parents make an array
    well-formed. *)
Lemma depthsFollowParents_parentsFirst flat :
  NoDup (map Flat.id flat) -> depthsFollowParents flat -> parentsFirst flat.
Proof.
  intros Hnd Hdep. apply parentsFirstFrom_intro; [done| |].
  - intros x _ Hx. by apply elem_of_empty in Hx.
  - intros P n S p Heq Hp. right.
    assert (Hn : flat !! length P = Some n).
    { rewrite Heq. by rewrite list_lookup_middle. }
    destruct (Hdep _ _ Hn) as [[Hnone _]|(j' & m & Hj' & Hm & Hpm & _)]; [congruence|].
    exists m. split; [|congruence].
    rewrite Heq, lookup_app_l in Hm by done. apply list_elem_of_lookup. by exists j'.
Qed.

Lemma parentsFirst_NoDup flat : parentsFirst flat -> NoDup (map Flat.id flat).
Proof. intros H. by destruct (parentsFirstFrom_inv _ _ H) as (_ & ? & _). Qed.

Lemma parentsFirst_parent flat P n S p :
  parentsFirst flat -> flat = P ++ n :: S -> Flat.parentId n = Some p ->
  exists m, m ∈ P /\ Flat.id m = p.
Proof.
  intros H Heq Hp. destruct (parentsFirstFrom_inv _ _ H) as (_ & _ & Hpar).
  destruct (Hpar P n S p Heq Hp) as [Hs|?]; [|done]. set_solver.
Qed.

Lemma id_inj_NoDup flat n m :
  NoDup (map Flat.id flat) -> n ∈ flat -> m ∈ flat -> Flat.id n = Flat.id m -> n = m.
Proof.
  intros Hnd Hn Hm Heq.
  apply list_elem_of_lookup in Hn as [i Hi]. apply list_elem_of_lookup in Hm as [j Hj].
  assert (i = j).
  { eapply NoDup_lookup; [exact Hnd| |].
    - rewrite list_lookup_fmap, Hi. reflexivity.
    - rewrite list_lookup_fmap, Hj. simpl. by rewrite Heq. }
  subst j. congruence.
Qed.

Lemma parentsFirst_parent_in flat n p :
  parentsFirst flat -> n ∈ flat -> Flat.parentId n = Some p ->
  exists m, m ∈ flat /\ Flat.id m = p.
Proof.
  intros H Hn Hp. apply list_elem_of_split in Hn as (P & S & Heq).
  destruct (parentsFirst_parent flat P n S p H Heq Hp) as (m & Hm & Hid).
  exists m. split; [|done]. subst flat. apply elem_of_app. by left.
Qed.

(** *** [getAncestorIds] computes the ancestry *)

Lemma nodeMapOf_snoc (l : list (Flat.t T)) n : nodeMapOf (l ++ [n]) = <[Flat.id n := n]> (nodeMapOf l).
Proof. unfold nodeMapOf. by rewrite foldl_app. Qed.

Lemma nodeMapOf_lookup_Some (l : list (Flat.t T)) : forall k n,
  nodeMapOf l !! k = Some n -> n ∈ l /\ Flat.id n = k.
Proof.
  induction l as [|x l IH] using rev_ind; intros k n H.
  - unfold nodeMapOf in H. simpl in H. by rewrite lookup_empty in H.
  - rewrite nodeMapOf_snoc in H. destruct (decide (Flat.id x = k)) as [Hk|Hk].
    + subst k. rewrite lookup_insert_eq in H. injection H as ->.
      split; [|done]. apply elem_of_app. right. by left.
    + rewrite lookup_insert_ne in H by done. destruct (IH _ _ H) as [H1 H2].
      split; [|done]. apply elem_of_app. by left.
Qed.

Lemma nodeMapOf_lookup_elem (l : list (Flat.t T)) : forall n,
  NoDup (map Flat.id l) -> n ∈ l -> nodeMapOf l !! Flat.id n = Some n.
Proof.
  induction l as [|x l IH] using rev_ind; intros n Hnd Hn.
  - by apply elem_of_nil in Hn.
  - rewrite nodeMapOf_snoc. rewrite map_app in Hnd. simpl in Hnd.
    apply NoDup_app in Hnd as (Hnd1 & Hdis & _).
    apply elem_of_app in Hn as [Hn|Hn].
    + rewrite lookup_insert_ne; [by apply IH|].
      intros Heq. apply (Hdis (Flat.id n)).
      * apply list_elem_of_fmap. by exists n.
      * rewrite <- Heq. by left.
    + apply list_elem_of_singleton in Hn as ->. by rewrite lookup_insert_eq.
Qed.

Lemma nodeMapOf_lookup_None (l : list (Flat.t T)) k :
  (forall n, n ∈ l -> Flat.id n ≠ k) -> nodeMapOf l !! k = None.
Proof.
  intros H. destruct (nodeMapOf l !! k) as [n|] eqn:E; [|done].
  apply nodeMapOf_lookup_Some in E as [E1 E2]. by destruct (H n E1).
Qed.

Lemma ancestorLoop_acc fuel (M : gmap string (Flat.t T)) : forall cur acc,
  ancestorLoop fuel M cur acc = (fun l => acc ++ l) <$> ancestorLoop fuel M cur [].
Proof.
  induction fuel as [|fuel IH]; intros cur acc; destruct cur as [c|]; simpl;
    try (by rewrite app_nil_r).
  - destruct (Flat.parentId c); simpl; [done|by rewrite app_nil_r].
  - destruct (Flat.parentId c) as [p|]; simpl; [|by rewrite app_nil_r].
    rewrite (IH _ (acc ++ [p])), (IH _ [p]).
    destruct (ancestorLoop fuel M (M !! p) []) as [l|]; simpl; [|done].
    by rewrite <- app_assoc.
Qed.

Lemma ancestry_getAncestorIds flat k l :
  NoDup (map Flat.id flat) -> ancestry flat k l ->
  forall fuel, length l <= fuel -> getAncestorIds fuel flat k = Some l.
Proof.
  intros Hnd H. unfold getAncestorIds.
  induction H as [k Habs|n Hn Hp|n p l Hn Hp Hanc IH]; intros fuel Hfuel.
  - rewrite nodeMapOf_lookup_None by done. by destruct fuel.
  - rewrite nodeMapOf_lookup_elem by done. destruct fuel; simpl; by rewrite Hp.
  - rewrite nodeMapOf_lookup_elem by done. simpl in Hfuel.
    destruct fuel as [|fuel]; [lia|]. simpl. rewrite Hp.
    rewrite ancestorLoop_acc, IH by lia. done.
Qed.

Lemma ancestry_exists_prefix flat : parentsFirst flat ->
  forall P S, flat = P ++ S ->
  forall n, n ∈ P ->
  exists l, ancestry flat (Flat.id n) l /\ length l < length P
            /\ forall a, a ∈ l -> a ≠ Flat.id n /\ exists m, m ∈ P /\ Flat.id m = a.
Proof.
  intros Hwf P. induction P as [|x P IH] using rev_ind; intros S Heq n Hn.
  - by apply elem_of_nil in Hn.
  - rewrite <- app_assoc in Heq. simpl in Heq.
    apply elem_of_app in Hn as [Hn|Hn].
    + destruct (IH _ Heq n Hn) as (l & Hl & Hlen & Hanc). exists l. split; [done|].
      split; [rewrite length_app; simpl; lia|].
      intros a Ha. destruct (Hanc a Ha) as (Hne & m & Hm & Hid). split; [done|].
      exists m. split; [|done]. apply elem_of_app. by left.
    + apply list_elem_of_singleton in Hn as ->.
      assert (Hx : x ∈ flat) by (subst flat; apply elem_of_app; right; by left).
      assert (Hfresh : forall m, m ∈ P -> Flat.id m ≠ Flat.id x).
      { intros m Hm Hid. pose proof (parentsFirst_NoDup _ Hwf) as Hnd.
        subst flat. rewrite map_app in Hnd. simpl in Hnd.
        apply NoDup_app in Hnd as (_ & Hdis & _). apply (Hdis (Flat.id m)).
        - apply list_elem_of_fmap. by exists m.
        - rewrite Hid. by left. }
      destruct (Flat.parentId x) as [p|] eqn:Hp.
      * destruct (parentsFirst_parent flat P x S p Hwf Heq Hp) as (m & Hm & Hid).
        destruct (IH _ Heq m Hm) as (l & Hl & Hlen & Hanc). exists (p :: l). split.
        -- apply ancestry_step; [done|done|]. by rewrite <- Hid.
        -- split; [rewrite length_app; simpl; lia|].
           intros a Ha. apply elem_of_cons in Ha as [-> |Ha].
           ++ split; [rewrite <- Hid; by apply Hfresh|].
              exists m. split; [|done]. apply elem_of_app. by left.
           ++ destruct (Hanc a Ha) as (_ & m' & Hm' & Hid'). split.
              ** rewrite <- Hid'. by apply Hfresh.
              ** exists m'. split; [|done]. apply elem_of_app. by left.
      * exists []. split; [by apply ancestry_root|].
        split; [rewrite length_app; simpl; lia|].
        intros a Ha. by apply elem_of_nil in Ha.
Qed.

Lemma ancestry_exists flat n : parentsFirst flat -> n ∈ flat ->
  exists l, ancestry flat (Flat.id n) l /\ length l < length flat
            /\ forall a, a ∈ l -> a ≠ Flat.id n.
Proof.
  intros Hwf Hn.
  destruct (ancestry_exists_prefix flat Hwf flat [] ltac:(by rewrite app_nil_r) n Hn)
    as (l & Hl & Hlen & Hanc).
  exists l. split; [done|]. split; [done|]. intros a Ha. by destruct (Hanc a Ha).
Qed.

(** On a well-formed array [getAncestorIds] terminates within
    [length flat] iterations, with the ancestry of the node. *)
Lemma getAncestorIds_total flat n : parentsFirst flat -> n ∈ flat ->
  exists l, getAncestorIds (length flat) flat (Flat.id n) = Some l
            /\ ancestry flat (Flat.id n) l.
Proof.
  intros Hwf Hn. destruct (ancestry_exists flat n Hwf Hn) as (l & Hl & Hlen & _).
  exists l. split; [|done].
  apply ancestry_getAncestorIds; [by apply parentsFirst_NoDup|done|lia].
Qed.

Lemma ancestry_fun flat k l1 l2 :
  NoDup (map Flat.id flat) -> ancestry flat k l1 -> ancestry flat k l2 -> l1 = l2.
Proof.
  intros Hnd H1 H2.
  pose proof (ancestry_getAncestorIds flat k l1 Hnd H1 (length l1 + length l2)) as E1.
  pose proof (ancestry_getAncestorIds flat k l2 Hnd H2 (length l1 + length l2)) as E2.
  rewrite E1 in E2 by lia. specialize (E2 ltac:(lia)). congruence.
Qed.

Lemma ancestry_inv_parent flat n p (l : list string) :
  NoDup (map Flat.id flat) -> n ∈ flat -> Flat.parentId n = Some p ->
  ancestry flat (Flat.id n) l -> exists l', l = p :: l' /\ ancestry flat p l'.
Proof.
  intros Hnd Hn Hp H. inversion H as [k Habs|n0 Hn0 Hp0 Hid|n0 p0 l0 Hn0 Hp0 Hanc Hid]; subst.
  - by destruct (Habs n Hn).
  - assert (n0 = n) as -> by (by eapply id_inj_NoDup). congruence.
  - assert (n0 = n) as -> by (by eapply id_inj_NoDup).
    exists l0. split; [congruence|]. congruence.
Qed.

Lemma ancestry_inv_root flat n (l : list string) :
  NoDup (map Flat.id flat) -> n ∈ flat -> Flat.parentId n = None ->
  ancestry flat (Flat.id n) l -> l = [].
Proof.
  intros Hnd Hn Hp H. inversion H as [k Habs|n0 Hn0 Hp0 Hid|n0 p0 l0 Hn0 Hp0 Hanc Hid]; subst.
  - done.
  - done.
  - assert (n0 = n) as -> by (by eapply id_inj_NoDup). congruence.
Qed.

(** *** [getDescendantIds] collects the nodes that have [k] as an ancestor *)

Lemma descendants_prefix flat k : parentsFirst flat ->
  forall P S, flat = P ++ S ->
  (forall d, d ∈ (foldl descendantStep ([], {[k]}) P).1 <->
     exists n (l : list string), n ∈ P /\ Flat.id n = d /\ ancestry flat d l /\ k ∈ l)
  /\ (forall d, d ∈ (foldl descendantStep ([], {[k]}) P).2 <->
        d = k \/ d ∈ (foldl descendantStep ([], {[k]}) P).1).
Proof.
  intros Hwf P. pose proof (parentsFirst_NoDup _ Hwf) as Hnd.
  induction P as [|x P IH] using rev_ind; intros S Heq.
  - simpl. split.
    + intros d. split; [intros H; by apply elem_of_nil in H|].
      intros (n & l & Hn & _). by apply elem_of_nil in Hn.
    + intros d. rewrite elem_of_singleton. split; [by left|].
      intros [H|H]; [done|by apply elem_of_nil in H].
  - rewrite <- app_assoc in Heq. simpl in Heq.
    destruct (IH _ Heq) as [D1 D2]. clear IH.
    rewrite foldl_app. simpl.
    destruct (foldl descendantStep ([], {[k]}) P) as [desc pset] eqn:Hst. simpl in *.
    assert (Hx : x ∈ flat) by (subst flat; apply elem_of_app; right; by left).
    assert (HP : forall m, m ∈ P -> m ∈ flat).
    { intros m Hm. subst flat. apply elem_of_app. by left. }
    assert (Hfresh : forall m, m ∈ P -> Flat.id m ≠ Flat.id x).
    { intros m Hm Hid. subst flat. rewrite map_app in Hnd. simpl in Hnd.
      apply NoDup_app in Hnd as (_ & Hdis & _). apply (Hdis (Flat.id m)).
      - apply list_elem_of_fmap. by exists m.
      - rewrite Hid. by left. }
    assert (Hkeep : forall d,
      (exists n (l : list string), n ∈ P /\ Flat.id n = d /\ ancestry flat d l /\ k ∈ l)
      -> exists n (l : list string), n ∈ P ++ [x] /\ Flat.id n = d /\ ancestry flat d l /\ k ∈ l).
    { intros d (n & l & Hn & H). exists n, l. split; [|done]. apply elem_of_app. by left. }
    unfold descendantStep. destruct (Flat.parentId x) as [p|] eqn:Hp.
    + destruct (parentsFirst_parent flat P x S p Hwf Heq Hp) as (mp & Hmp & Hidp).
      destruct (decide (p ∈ pset)) as [Hc|Hc].
      * rewrite bool_decide_eq_true_2 by done. simpl. split.
        -- intros d. rewrite elem_of_app, list_elem_of_singleton. split.
           ++ intros [H| ->]; [apply Hkeep; by apply D1|].
              apply D2 in Hc as [Hpk|Hc].
              ** destruct (ancestry_exists flat mp Hwf (HP _ Hmp)) as (l & Hl & _).
                 exists x, (p :: l). split; [apply elem_of_app; right; by left|].
                 split; [done|]. split; [|rewrite Hpk; by left].
                 apply ancestry_step; [done|done|by rewrite <- Hidp].
              ** apply D1 in Hc as (n & l & Hn & Hid & Hl & Hk).
                 exists x, (p :: l). split; [apply elem_of_app; right; by left|].
                 split; [done|]. split; [|by right]. by apply ancestry_step.
           ++ intros (n & l & Hn & Hid & Hl & Hk). apply elem_of_app in Hn as [Hn|Hn].
              ** left. apply D1. by exists n, l.
              ** apply list_elem_of_singleton in Hn. subst n. by right.
        -- intros d. rewrite elem_of_union, elem_of_singleton, elem_of_app,
             list_elem_of_singleton, D2. tauto.
      * rewrite bool_decide_eq_false_2 by done. simpl. split; [|done].
        intros d. split; [intros H; apply Hkeep; by apply D1|].
        intros (n & l & Hn & Hid & Hl & Hk). apply D1.
        apply elem_of_app in Hn as [Hn|Hn]; [by exists n, l|].
        apply list_elem_of_singleton in Hn. subst n d. exfalso. apply Hc, D2.
        destruct (ancestry_inv_parent flat x p l Hnd Hx Hp Hl) as (l' & -> & Hl').
        apply elem_of_cons in Hk as [-> |Hk]; [by left|].
        right. apply D1. exists mp, l'. by rewrite Hidp.
    + simpl. split; [|done].
      intros d. split; [intros H; apply Hkeep; by apply D1|].
      intros (n & l & Hn & Hid & Hl & Hk). apply D1.
      apply elem_of_app in Hn as [Hn|Hn]; [by exists n, l|].
      apply list_elem_of_singleton in Hn. subst n d. exfalso.
      rewrite (ancestry_inv_root flat x l Hnd Hx Hp Hl) in Hk. by apply elem_of_nil in Hk.
Qed.

(** On a well-formed array the ids returned by [getDescendantIds flat k]
    are those of the nodes that have [k] among their ancestors. *)
Lemma getDescendantIds_spec flat k d : parentsFirst flat ->
  (d ∈ getDescendantIds flat k <->
   exists n (l : list string),
     n ∈ flat /\ Flat.id n = d
     /\ getAncestorIds (length flat) flat d = Some l /\ k ∈ l).
Proof.
  intros Hwf. unfold getDescendantIds.
  destruct (descendants_prefix flat k Hwf flat [] ltac:(by rewrite app_nil_r)) as [D1 _].
  rewrite D1. pose proof (parentsFirst_NoDup _ Hwf) as Hnd. split.
  - intros (n & l & Hn & Hid & Hl & Hk). exists n, l. split; [done|]. split; [done|].
    split; [|done]. subst d.
    destruct (getAncestorIds_total flat n Hwf Hn) as (l' & Hl' & Hanc).
    by rewrite (ancestry_fun flat (Flat.id n) l l' Hnd Hl Hanc).
  - intros (n & l & Hn & Hid & Hl & Hk). exists n, l. split; [done|]. split; [done|].
    split; [|done]. subst d.
    destruct (getAncestorIds_total flat n Hwf Hn) as (l' & Hl' & Hanc). congruence.
Qed.

Lemma getDescendantIds_irrefl flat k : parentsFirst flat -> k ∉ getDescendantIds flat k.
Proof.
  intros Hwf H. unfold getDescendantIds in H.
  destruct (descendants_prefix flat k Hwf flat [] ltac:(by rewrite app_nil_r)) as [D1 _].
  apply D1 in H as (n & l & Hn & Hid & Hl & Hk).
  destruct (ancestry_exists flat n Hwf Hn) as (l' & Hl' & _ & Hne).
  pose proof (parentsFirst_NoDup _ Hwf) as Hnd. subst k.
  rewrite (ancestry_fun flat (Flat.id n) l l' Hnd Hl Hl') in Hk. by apply (Hne _ Hk).
Qed.

End wf_facts.

(** ** [getVisibleNodes] *)

Section visible_facts.
Context {T : Type}.
Implicit Types (flat P S res : list (Flat.t T)) (n m : Flat.t T) (k p : string).
Implicit Types (E col : gset string).

Lemma visibleStep_sublist E res col P n :
  sublist res P -> sublist (visibleStep E (res, col) n).1 (P ++ [n]).
Proof.
  intros H. unfold visibleStep.
  destruct (Flat.parentId n) as [p|]; [destruct (bool_decide (p ∈ col))|]; simpl.
  - by apply sublist_inserts_r.
  - by apply sublist_app.
  - by apply sublist_app.
Qed.

(** After a prefix [P] of a well-formed array: the result is a
    subsequence of [P]; a node of [P] is in it iff it is a root or its
    parent is in it and is not a collapsed group; [collapsedAncestors]
    holds the ids of the nodes of [P] that hide their children. *)
Lemma visible_prefix E flat : parentsFirst flat ->
  forall P S, flat = P ++ S ->
  sublist (foldl (visibleStep E) ([], ∅) P).1 P
  /\ (forall n, n ∈ P ->
        (n ∈ (foldl (visibleStep E) ([], ∅) P).1 <->
         match Flat.parentId n with
         | None => True
         | Some p => exists m, m ∈ (foldl (visibleStep E) ([], ∅) P).1 /\ Flat.id m = p
                               /\ (Flat.isGroup m = true -> p ∈ E)
         end))
  /\ (forall m, m ∈ P ->
        (Flat.id m ∉ (foldl (visibleStep E) ([], ∅) P).2 ->
         m ∈ (foldl (visibleStep E) ([], ∅) P).1 /\ (Flat.isGroup m = true -> Flat.id m ∈ E))
        /\ (Flat.id m ∈ (foldl (visibleStep E) ([], ∅) P).2 ->
            ~ (m ∈ (foldl (visibleStep E) ([], ∅) P).1
               /\ (Flat.isGroup m = true -> Flat.id m ∈ E))))
  /\ (forall k, k ∈ (foldl (visibleStep E) ([], ∅) P).2 -> exists m, m ∈ P /\ Flat.id m = k).
Proof.
  intros Hwf P. induction P as [|x P IH] using rev_ind; intros S Heq.
  - simpl. split; [constructor|]. split; [|split].
    + intros n Hn. by apply elem_of_nil in Hn.
    + intros n Hn. by apply elem_of_nil in Hn.
    + intros k Hk. by apply elem_of_empty in Hk.
  - rewrite <- app_assoc in Heq. simpl in Heq.
    destruct (IH _ Heq) as (J1 & J2 & J3 & J4). clear IH.
    rewrite foldl_app. simpl.
    destruct (foldl (visibleStep E) ([], ∅) P) as [res col] eqn:Hst. simpl in *.
    pose proof (parentsFirst_NoDup _ Hwf) as Hnd.
    assert (Hsub : forall m, m ∈ res -> m ∈ P).
    { intros m Hm. by eapply elem_of_sublist. }
    assert (Hfresh : forall m, m ∈ P -> Flat.id m ≠ Flat.id x).
    { intros m Hm Hid. subst flat. rewrite map_app in Hnd. simpl in Hnd.
      apply NoDup_app in Hnd as (_ & Hdis & _). apply (Hdis (Flat.id m)).
      - apply list_elem_of_fmap. by exists m.
      - rewrite Hid. by left. }
    assert (Hxres : x ∉ res).
    { intros Hx. by apply (Hfresh x (Hsub x Hx)). }
    assert (Hxcol : Flat.id x ∉ col).
    { intros Hx. destruct (J4 _ Hx) as (m & Hm & Hid). by apply (Hfresh m Hm). }
    assert (Hold : forall m, m ∈ P -> forall p, Flat.parentId m = Some p -> p ≠ Flat.id x).
    { intros m Hm p Hp Hpx. apply list_elem_of_split in Hm as (P1 & P2 & HP).
      assert (Heq' : flat = P1 ++ m :: (P2 ++ x :: S)).
      { subst flat P. by rewrite <- app_assoc. }
      destruct (parentsFirst_parent flat P1 m _ p Hwf Heq' Hp) as (m0 & Hm0 & Hid0).
      apply (Hfresh m0); [|congruence]. subst P. apply elem_of_app. by left. }
    assert (Hshown : forall col',
      (col' = col \/ (col' = {[Flat.id x]} ∪ col
                      /\ Flat.isGroup x = true /\ Flat.id x ∉ E)) ->
      (col' = col -> Flat.isGroup x = true -> Flat.id x ∈ E) ->
      match Flat.parentId x with
      | None => True
      | Some p => exists m, m ∈ res /\ Flat.id m = p /\ (Flat.isGroup m = true -> p ∈ E)
      end ->
      sublist (res ++ [x]) (P ++ [x])
      /\ (forall n, n ∈ P ++ [x] ->
            (n ∈ res ++ [x] <->
             match Flat.parentId n with
             | None => True
             | Some p => exists m, m ∈ res ++ [x] /\ Flat.id m = p
                                   /\ (Flat.isGroup m = true -> p ∈ E)
             end))
      /\ (forall m, m ∈ P ++ [x] ->
            (Flat.id m ∉ col' -> m ∈ res ++ [x] /\ (Flat.isGroup m = true -> Flat.id m ∈ E))
            /\ (Flat.id m ∈ col' ->
                ~ (m ∈ res ++ [x] /\ (Flat.isGroup m = true -> Flat.id m ∈ E))))
      /\ (forall k, k ∈ col' -> exists m, m ∈ P ++ [x] /\ Flat.id m = k)).
    { intros col' Hcol' Hgrp Hloc. split; [by apply sublist_app|]. split; [|split].
      - intros n Hn. apply elem_of_app in Hn as [Hn|Hn].
        + rewrite elem_of_app, (J2 n Hn). split.
          * intros [H|H]; [|apply list_elem_of_singleton in H; subst n; by destruct Hxres;
                              apply J2].
            destruct (Flat.parentId n) as [p|]; [|done].
            destruct H as (m & Hm & Hid & Hg). exists m. split; [|done].
            apply elem_of_app. by left.
          * intros H. left. destruct (Flat.parentId n) as [p|] eqn:Hp; [|done].
            destruct H as (m & Hm & Hid & Hg). exists m. split; [|done].
            apply elem_of_app in Hm as [Hm|Hm]; [done|].
            apply list_elem_of_singleton in Hm. subst m. by destruct (Hold n Hn p Hp).
        + apply list_elem_of_singleton in Hn. subst n. split.
          * intros _. destruct (Flat.parentId x) as [p|]; [|done].
            destruct Hloc as (m & Hm & Hid & Hg). exists m. split; [|done].
            apply elem_of_app. by left.
          * intros _. apply elem_of_app. right. by left.
      - intros m Hm. apply elem_of_app in Hm as [Hm|Hm].
        + pose proof (Hfresh m Hm) as Hne. destruct (J3 m Hm) as [J3a J3b].
          assert (Hc : Flat.id m ∈ col' <-> Flat.id m ∈ col).
          { destruct Hcol' as [->|(-> & _)]; [done|].
            rewrite elem_of_union, elem_of_singleton. tauto. }
          split.
          * intros H. rewrite Hc in H. destruct (J3a H) as [H1 H2]. split; [|done].
            apply elem_of_app. by left.
          * intros H [H1 H2]. rewrite Hc in H. apply (J3b H). split; [|done].
            apply elem_of_app in H1 as [H1|H1]; [done|].
            apply list_elem_of_singleton in H1. by subst m.
        + apply list_elem_of_singleton in Hm. subst m. split.
          * intros H. split; [apply elem_of_app; right; by left|].
            destruct Hcol' as [->|(-> & _)]; [by apply Hgrp|].
            destruct H. apply elem_of_union. left. by apply elem_of_singleton.
          * intros H [_ H2]. destruct Hcol' as [->|(-> & Hg & HE)]; [done|]. by apply HE, H2.
      - intros k Hk. destruct Hcol' as [->|(-> & _)].
        + destruct (J4 k Hk) as (m & Hm & Hid). exists m. split; [|done].
          apply elem_of_app. by left.
        + apply elem_of_union in Hk as [Hk|Hk].
          * apply elem_of_singleton in Hk. subst k. exists x. split; [|done].
            apply elem_of_app. right. by left.
          * destruct (J4 k Hk) as (m & Hm & Hid). exists m. split; [|done].
            apply elem_of_app. by left. }
    assert (Hcase : forall col',
      col' = (if Flat.isGroup x && negb (bool_decide (Flat.id x ∈ E))
              then {[Flat.id x]} ∪ col else col) ->
      (col' = col \/ (col' = {[Flat.id x]} ∪ col
                      /\ Flat.isGroup x = true /\ Flat.id x ∉ E))
      /\ (col' = col -> Flat.isGroup x = true -> Flat.id x ∈ E)).
    { intros col' ->. destruct (Flat.isGroup x); simpl; [|split; [by left|done]].
      destruct (decide (Flat.id x ∈ E)) as [HE|HE].
      - rewrite bool_decide_eq_true_2 by done. simpl. split; [by left|done].
      - rewrite bool_decide_eq_false_2 by done. simpl. split; [right; done|].
        intros Hc. exfalso. apply Hxcol. rewrite <- Hc. apply elem_of_union. left.
        by apply elem_of_singleton. }
    unfold visibleStep. destruct (Flat.parentId x) as [p|] eqn:Hp.
    + destruct (parentsFirst_parent flat P x S p Hwf Heq Hp) as (mp & Hmp & Hidp).
      destruct (J3 mp Hmp) as [J3a J3b]. rewrite Hidp in J3a, J3b.
      destruct (decide (p ∈ col)) as [Hc|Hc].
      * rewrite bool_decide_eq_true_2 by done. simpl.
        split; [by apply sublist_inserts_r|]. split; [|split].
        -- intros n Hn. apply elem_of_app in Hn as [Hn|Hn]; [by apply J2|].
           apply list_elem_of_singleton in Hn. subst n. rewrite Hp. split; [done|].
           intros (m & Hm & Hid & Hg). exfalso. apply (J3b Hc).
           assert (m = mp) as ->.
           { eapply (id_inj_NoDup flat); eauto.
             - subst flat. apply elem_of_app. left. by apply Hsub.
             - subst flat. apply elem_of_app. by left.
             - congruence. }
           done.
        -- intros m Hm. rewrite elem_of_union, elem_of_singleton.
           apply elem_of_app in Hm as [Hm|Hm].
           ++ pose proof (Hfresh m Hm). destruct (J3 m Hm) as [Ha Hb]. split.
              ** intros H'. apply Ha. tauto.
              ** intros [H'|H']; [done|]. by apply Hb.
           ++ apply list_elem_of_singleton in Hm. subst m. split; [tauto|].
              intros _ [H' _]. done.
        -- intros k Hk. apply elem_of_union in Hk as [Hk|Hk].
           ++ apply elem_of_singleton in Hk. subst k. exists x. split; [|done].
              apply elem_of_app. right. by left.
           ++ destruct (J4 k Hk) as (m & Hm & Hid). exists m. split; [|done].
              apply elem_of_app. by left.
      * rewrite bool_decide_eq_false_2 by done. simpl.
        destruct (Hcase _ eq_refl) as [Hc1 Hc2].
        apply (Hshown _ Hc1 Hc2). exists mp. destruct (J3a Hc) as [H1 H2]. done.
    + simpl. destruct (Hcase _ eq_refl) as [Hc1 Hc2]. by apply (Hshown _ Hc1 Hc2).
Qed.

Lemma getVisibleNodes_sublist E flat : sublist (getVisibleNodes flat E) flat.
Proof.
  unfold getVisibleNodes.
  assert (H : forall P res col, sublist res P ->
             forall l, sublist (foldl (visibleStep E) (res, col) l).1 (P ++ l)).
  { intros P res col Hs l. revert P res col Hs.
    induction l as [|x l IH]; intros P res col Hs; cbn [foldl].
    - by rewrite app_nil_r.
    - replace (P ++ x :: l) with ((P ++ [x]) ++ l) by (by rewrite <- app_assoc).
      pose proof (visibleStep_sublist E res col P x Hs) as Hs'.
      destruct (visibleStep E (res, col) x) as [res' col']. by apply IH. }
  apply (H [] [] ∅); constructor.
Qed.

Lemma visible_local E flat n : parentsFirst flat -> n ∈ flat ->
  (n ∈ getVisibleNodes flat E <->
   match Flat.parentId n with
   | None => True
   | Some p => exists m, m ∈ getVisibleNodes flat E /\ Flat.id m = p
                         /\ (Flat.isGroup m = true -> p ∈ E)
   end).
Proof.
  intros Hwf Hn. unfold getVisibleNodes.
  destruct (visible_prefix E flat Hwf flat []) as (_ & J2 & _); [by rewrite app_nil_r|].
  by apply J2.
Qed.

Lemma visible_ancestry E flat : parentsFirst flat ->
  forall k l, ancestry flat k l ->
  forall n, n ∈ flat -> Flat.id n = k ->
  (n ∈ getVisibleNodes flat E <-> groupsExpanded flat E l).
Proof.
  intros Hwf k l H. pose proof (parentsFirst_NoDup _ Hwf) as Hnd.
  induction H as [k Habs|n0 Hn0 Hp|n0 p l Hn0 Hp Hanc IH]; intros n Hn Hid.
  - by destruct (Habs n Hn).
  - assert (n = n0) as -> by (by eapply id_inj_NoDup).
    rewrite (visible_local E flat n0 Hwf Hn0), Hp. split; [|done].
    intros _ a m Ha. by apply elem_of_nil in Ha.
  - assert (n = n0) as -> by (by eapply id_inj_NoDup).
    rewrite (visible_local E flat n0 Hwf Hn0), Hp.
    destruct (parentsFirst_parent_in flat n0 p Hwf Hn0 Hp) as (mp & Hmp & Hidp).
    split.
    + intros (m & Hm & Hidm & Hg) a m' Ha Hm' Hid' Hgrp.
      assert (m ∈ flat) as Hmf by (eapply elem_of_sublist; [done|apply getVisibleNodes_sublist]).
      apply elem_of_cons in Ha as [-> |Ha].
      * assert (m' = m) as -> by (eapply id_inj_NoDup; eauto; congruence). by apply Hg.
      * apply (proj1 (IH m Hmf Hidm) Hm a m' Ha Hm' Hid' Hgrp).
    + intros Hall. exists mp. split; [|split; [done|]].
      * apply (IH mp Hmp Hidp). intros a m' Ha. apply Hall. by right.
      * intros Hg. apply (Hall p mp); [by left|done|done|done].
Qed.

(** C3, as the code has it.  On a flat array with unique ids in which
    every [parentId] is [null] or the id of an earlier node,
    [getVisibleNodes] returns a subsequence of the array, and a node is in
    it iff every ancestor of the node that is a group is expanded (an
    ancestor with [isGroup] false never hides its descendants). *)
Theorem getVisibleNodes_spec (flat : list (Flat.t T)) (E : gset string)
    (Hwf : parentsFirst flat) :
  sublist (getVisibleNodes flat E) flat
  /\ forall n, n ∈ flat ->
       exists l, getAncestorIds (length flat) flat (Flat.id n) = Some l
                 /\ (n ∈ getVisibleNodes flat E <-> groupsExpanded flat E l).
Proof.
  split; [apply getVisibleNodes_sublist|].
  intros n Hn. destruct (getAncestorIds_total flat n Hwf Hn) as (l & Hl & Hanc).
  exists l. split; [done|]. by apply (visible_ancestry E flat Hwf (Flat.id n) l).
Qed.

End visible_facts.

Section visible_examples.
Open Scope string_scope.

(** Scenario A with ["a"] expanded. *)
Lemma getVisibleNodes_spec_witness :
  sublist (getVisibleNodes scenarioAFlat {["a"]}) scenarioAFlat
  /\ forall n, n ∈ scenarioAFlat ->
       exists l, getAncestorIds (length scenarioAFlat) scenarioAFlat (Flat.id n) = Some l
                 /\ (n ∈ getVisibleNodes scenarioAFlat {["a"]}
                     <-> groupsExpanded scenarioAFlat {["a"]} l).
Proof.
  apply (getVisibleNodes_spec scenarioAFlat {["a"]}). reflexivity.
Defined.

(** Scenario A: with ["a"] expanded the visible sequence is a, a1, b;
    with nothing expanded it is a, b. *)
Example scenarioA_visible :
  map Flat.id (getVisibleNodes scenarioAFlat {["a"]}) = ["a"; "a1"; "b"]
  /\ map Flat.id (getVisibleNodes scenarioAFlat ∅) = ["a"; "b"].
Proof. split; vm_compute; reflexivity. Qed.

(** C3 as the specification words it fails: the array below is
    [flattenTree] of a node ["a"] with [isGroup: false] and a child ["b"];
    with nothing expanded, ["b"] is visible although its ancestor ["a"]
    is not in the expansion set. *)
Lemma getVisibleNodes_not_all_ancestors :
  parentsFirst nonGroupParentFlat
  /\ ~ (forall n, n ∈ nonGroupParentFlat ->
          forall l, getAncestorIds (length nonGroupParentFlat) nonGroupParentFlat (Flat.id n)
                    = Some l ->
          (n ∈ getVisibleNodes nonGroupParentFlat ∅ <-> allExpanded ∅ l)).
Proof.
  split; [reflexivity|].
  intros H.
  specialize (H (Flat.mk "b" tt false false (Some "a") 1%Z 0)).
  assert (Hin : Flat.mk "b" tt false false (Some "a") 1%Z 0 ∈ nonGroupParentFlat).
  { right. left. }
  specialize (H Hin ["a"] eq_refl).
  assert (Hvis : Flat.mk "b" tt false false (Some "a") 1%Z 0
                 ∈ getVisibleNodes nonGroupParentFlat ∅).
  { right. left. }
  apply H in Hvis. specialize (Hvis "a" ltac:(left)). by apply elem_of_empty in Hvis.
Qed.

End visible_examples.

(** ** The expansion set ([toggleExpand], [expand], [collapse]) *)

Section expand_facts.
Context {T : Type}.
Implicit Types (flat : list (Flat.t T)) (E : gset string) (n d : string).

Lemma deleteAll_difference (ds : list string) : forall E,
  deleteAll E ds = E ∖ list_to_set ds.
Proof.
  unfold deleteAll. induction ds as [|d ds IH]; intros E; simpl.
  - set_solver.
  - rewrite IH. set_solver.
Qed.

Lemma collapse_expanded flat E n : n ∈ E ->
  collapse flat E n = E ∖ ({[n]} ∪ list_to_set (getDescendantIds flat n)).
Proof.
  intros H. unfold collapse. rewrite bool_decide_eq_true_2 by done. simpl.
  rewrite deleteAll_difference. set_solver.
Qed.

Lemma collapse_not_expanded flat E n : n ∉ E -> collapse flat E n = E.
Proof. intros H. unfold collapse. by rewrite bool_decide_eq_false_2. Qed.

Lemma toggleExpand_expanded flat E n : n ∈ E ->
  toggleExpand flat E n = E ∖ ({[n]} ∪ list_to_set (getDescendantIds flat n)).
Proof.
  intros H. unfold toggleExpand. rewrite bool_decide_eq_true_2 by done.
  rewrite deleteAll_difference. set_solver.
Qed.

Lemma toggleExpand_not_expanded flat E n : n ∉ E -> toggleExpand flat E n = {[n]} ∪ E.
Proof. intros H. unfold toggleExpand. by rewrite bool_decide_eq_false_2. Qed.

Lemma elem_of_expand E n d : d ∈ expand E n <-> d = n \/ d ∈ E.
Proof.
  unfold expand. destruct (decide (n ∈ E)) as [H|H].
  - rewrite bool_decide_eq_true_2 by done. split; [by right|]. by intros [->|?].
  - rewrite bool_decide_eq_false_2 by done. set_solver.
Qed.

(** C6, as the code has it.  On a well-formed flat array, when [n] is in
    the expansion set, [collapse] and the collapsing branch of
    [toggleExpand] return the set without [n] and without the id of every
    node that has [n] among its ancestors, so that expanding [n] again
    shows none of them as expanded; when [n] is not in the set,
    [collapse] returns the set as it is. *)
Theorem collapse_cascade (flat : list (Flat.t T)) (E : gset string) (n : string)
    (Hwf : parentsFirst flat) :
  (n ∈ E ->
   collapse flat E n = E ∖ ({[n]} ∪ list_to_set (getDescendantIds flat n))
   /\ toggleExpand flat E n = collapse flat E n
   /\ (forall m l, m ∈ flat ->
         (getAncestorIds (length flat) flat (Flat.id m) = Some l) -> (n ∈ l) ->
         (Flat.id m ∉ collapse flat E n)
         /\ (Flat.id m ∉ expand (collapse flat E n) n)))
  /\ (n ∉ E -> collapse flat E n = E).
Proof.
  split; [|apply collapse_not_expanded].
  intros HnE. rewrite toggleExpand_expanded, collapse_expanded by done.
  split; [done|]. split; [done|].
  intros m l Hm Hl Hn.
  assert (Hd : Flat.id m ∈ getDescendantIds flat n).
  { apply getDescendantIds_spec; [done|]. by exists m, l. }
  assert (Hne : Flat.id m ≠ n).
  { intros Heq. rewrite Heq in Hd. by apply (getDescendantIds_irrefl flat n Hwf). }
  split.
  - set_solver.
  - rewrite elem_of_expand. set_solver.
Qed.

End expand_facts.

Section expand_examples.
Open Scope string_scope.

(** Collapsing the expanded ["a"] while ["a1"] is expanded too. *)
Lemma collapse_cascade_witness :
  collapse nestedGroupsFlat {["a"; "a1"]} "a"
  = {["a"; "a1"]} ∖ ({["a"]} ∪ list_to_set (getDescendantIds nestedGroupsFlat "a"))
  /\ toggleExpand nestedGroupsFlat {["a"; "a1"]} "a"
     = collapse nestedGroupsFlat {["a"; "a1"]} "a".
Proof.
  destruct (proj1 (collapse_cascade nestedGroupsFlat {["a"; "a1"]} "a" eq_refl))
    as (H1 & H2 & _).
  - apply (bool_decide_unpack _). vm_compute. exact I.
  - by split.
Defined.

(** Collapsing ["a"] when both ["a"] and ["a1"] are expanded leaves
    nothing expanded. *)
Example collapse_cascade_example :
  collapse nestedGroupsFlat {["a"; "a1"]} "a" = ∅.
Proof. vm_compute. reflexivity. Qed.

(** C6 as the specification words it fails: with ["a1"] expanded and its
    parent ["a"] not, [collapse "a"] returns the set unchanged, and
    expanding ["a"] afterwards shows ["a1"] expanded. *)
Lemma collapse_keeps_descendants_of_collapsed :
  getDescendantIds nestedGroupsFlat "a" = ["a1"; "a2"]
  /\ collapse nestedGroupsFlat {["a1"]} "a" = {["a1"]}
  /\ collapse nestedGroupsFlat {["a1"]} "a"
     <> {["a1"]} ∖ ({["a"]} ∪ list_to_set (getDescendantIds nestedGroupsFlat "a"))
  /\ ("a1" : string) ∈ expand (collapse nestedGroupsFlat {["a1"]} "a") "a".
Proof.
  split; [reflexivity|]. split; [vm_compute; reflexivity|]. split.
  - intros H. vm_compute in H. discriminate.
  - apply (bool_decide_unpack _). vm_compute. exact I.
Qed.

End expand_examples.

(** ** Lazy loading ([triggerLoad]) *)

Section lazy_facts.
Context {T : Type}.
Implicit Types (st : Lazy.State) (node : Flat.t T) (o : Lazy.Options).

Lemma settlePending_elem (pending : list string) (k x : string) :
  x ∈ settlePending pending k -> x ∈ pending.
Proof.
  induction pending as [|p rest IH]; simpl; [done|].
  destruct (decide (p = k)) as [->|Hne].
  - rewrite bool_decide_eq_true_2 by done. intros H. by right.
  - rewrite bool_decide_eq_false_2 by done. intros H.
    apply elem_of_cons in H as [->|H]; [by left|right; by apply IH].
Qed.

Lemma settlePending_NoDup (pending : list string) (k : string) :
  NoDup pending -> NoDup (settlePending pending k) /\ (k ∉ settlePending pending k)
                   /\ forall x, x ≠ k -> x ∈ pending -> x ∈ settlePending pending k.
Proof.
  induction pending as [|p rest IH]; simpl; intros Hnd.
  - split; [constructor|]. split; [by intros H%elem_of_nil|done].
  - apply NoDup_cons in Hnd as [Hp Hnd]. destruct (decide (p = k)) as [->|Hne].
    + rewrite bool_decide_eq_true_2 by done. split; [done|]. split; [done|].
      intros x Hx Hin. apply elem_of_cons in Hin as [->|Hin]; done.
    + rewrite bool_decide_eq_false_2 by done. destruct (IH Hnd) as (H1 & H2 & H3).
      split; [|split].
      * apply NoDup_cons. split; [|done]. intros H. by apply Hp, (settlePending_elem rest k).
      * intros H. apply elem_of_cons in H as [->|H]; done.
      * intros x Hx Hin. apply elem_of_cons in Hin as [->|Hin]; [by left|].
        right. by apply H3.
Qed.

(** The loads in flight: the pending loader promises are exactly the ids
    marked in [inFlightRef], each once. *)
Lemma lazyStep_invariant o st (ev : Lazy.Event T) :
  (NoDup (Lazy.pending st) /\ forall k, k ∈ Lazy.pending st <-> k ∈ Lazy.inFlight st) ->
  NoDup (Lazy.pending (lazyStep o st ev).1)
  /\ forall k, k ∈ Lazy.pending (lazyStep o st ev).1 <-> k ∈ Lazy.inFlight (lazyStep o st ev).1.
Proof.
  intros [Hnd Hiff]. destruct ev as [node|nodeId children|nodeId error]; simpl.
  - unfold triggerLoad.
    destruct (Lazy.loadChildren o); simpl; [|done].
    destruct (Flat.isGroup node); simpl; [|done].
    destruct (Flat.childrenLoaded node); simpl; [done|].
    destruct (decide (Flat.id node ∈ Lazy.inFlight st)) as [Hin|Hin].
    + rewrite bool_decide_eq_true_2 by done. done.
    + rewrite bool_decide_eq_false_2 by done. simpl. split.
      * apply NoDup_app. split; [done|]. split; [|apply NoDup_singleton].
        intros x Hx Hx'. apply list_elem_of_singleton in Hx'. subst x. by apply Hin, Hiff.
      * intros k. rewrite elem_of_app, list_elem_of_singleton, elem_of_union,
          elem_of_singleton, Hiff. tauto.
  - destruct (decide (nodeId ∈ Lazy.pending st)) as [Hin|Hin].
    + rewrite bool_decide_eq_true_2 by done. simpl.
      destruct (settlePending_NoDup _ nodeId Hnd) as (H1 & H2 & H3). split; [done|].
      intros k. rewrite elem_of_difference, elem_of_singleton, <- Hiff. split.
      * intros H. split; [by eapply settlePending_elem|]. by intros ->.
      * intros [H Hne]. by apply H3.
    + rewrite bool_decide_eq_false_2 by done. done.
  - destruct (decide (nodeId ∈ Lazy.pending st)) as [Hin|Hin].
    + rewrite bool_decide_eq_true_2 by done. simpl.
      destruct (settlePending_NoDup _ nodeId Hnd) as (H1 & H2 & H3). split; [done|].
      intros k. rewrite elem_of_difference, elem_of_singleton, <- Hiff. split.
      * intros H. split; [by eapply settlePending_elem|]. by intros ->.
      * intros [H Hne]. by apply H3.
    + rewrite bool_decide_eq_false_2 by done. done.
Qed.

Lemma lazyRun_invariant o (evs : list (Lazy.Event T)) : forall st,
  (NoDup (Lazy.pending st) /\ forall k, k ∈ Lazy.pending st <-> k ∈ Lazy.inFlight st) ->
  NoDup (Lazy.pending (lazyRun o st evs).1)
  /\ forall k, k ∈ Lazy.pending (lazyRun o st evs).1 <-> k ∈ Lazy.inFlight (lazyRun o st evs).1.
Proof.
  induction evs as [|ev evs IH]; intros st Hinv; simpl; [done|].
  pose proof (lazyStep_invariant o st ev Hinv) as Hstep.
  destruct (lazyStep o st ev) as [st1 out1]. simpl in Hstep.
  specialize (IH st1 Hstep). by destruct (lazyRun o st1 evs) as [st2 out2].
Qed.

Lemma triggerLoad_in_flight o st node :
  Flat.id node ∈ Lazy.inFlight st -> triggerLoad o st node = (st, []).
Proof.
  intros H. unfold triggerLoad.
  destruct (Lazy.loadChildren o); simpl; [|done].
  destruct (Flat.isGroup node); simpl; [|done].
  destruct (Flat.childrenLoaded node); simpl; [done|].
  by rewrite bool_decide_eq_true_2.
Qed.

Lemma triggerLoad_starts o st node :
  Lazy.loadChildren o = true -> Flat.isGroup node = true ->
  Flat.childrenLoaded node = false -> Flat.id node ∉ Lazy.inFlight st ->
  triggerLoad o st node
  = (Lazy.mkState ({[Flat.id node]} ∪ Lazy.inFlight st)
                  ({[Flat.id node]} ∪ Lazy.loadingIds st)
                  (Lazy.pending st ++ [Flat.id node]),
     [Lazy.LoadChildren node]).
Proof.
  intros H1 H2 H3 H4. unfold triggerLoad. rewrite H1, H2, H3. simpl.
  by rewrite bool_decide_eq_false_2.
Qed.

(** C8.  With a loader configured and [node] a group whose children are
    not loaded, in any state reached from the initial one:
    - at most one load per node is pending, and the pending loads are
      the ids marked in flight;
    - [triggerLoad] while the node is in flight does nothing; otherwise
      it calls the loader once and marks the node, whatever other nodes
      are in flight;
    - when the load resolves, the children are inserted under the node,
      then the node is expanded, and the mark is cleared;
    - when it fails, the only call is [onLoadError] (if configured): no
      insertion, no expansion; the mark is cleared, and the next
      [triggerLoad] calls the loader again. *)
Theorem triggerLoad_protocol (o : Lazy.Options) (evs : list (Lazy.Event T))
    (node : Flat.t T)
    (Hloader : Lazy.loadChildren o = true)
    (Hgroup : Flat.isGroup node = true)
    (Hlazy : Flat.childrenLoaded node = false) :
  let st := (lazyRun o initialLazy evs).1 in
  (NoDup (Lazy.pending st) /\ forall k, k ∈ Lazy.pending st <-> k ∈ Lazy.inFlight st)
  /\ (Flat.id node ∈ Lazy.inFlight st ->
      triggerLoad o st node = (st, [])
      /\ (forall children : list (Nested.t T),
            exists st', lazyStep o st (Lazy.Resolve (Flat.id node) children)
                        = (st', [Lazy.InsertChildren (Flat.id node) children;
                                 Lazy.Expand (Flat.id node)])
                        /\ (Flat.id node ∉ Lazy.inFlight st')
                        /\ (Flat.id node ∉ Lazy.loadingIds st'))
      /\ (forall error,
            exists st', lazyStep (T:=T) o st (Lazy.Reject (Flat.id node) error)
                        = (st', if Lazy.onLoadError o
                                then [Lazy.OnLoadError (Flat.id node) (normalizeError error)]
                                else [])
                        /\ (Flat.id node ∉ Lazy.inFlight st')
                        /\ (triggerLoad o st' node).2 = [Lazy.LoadChildren node]))
  /\ (Flat.id node ∉ Lazy.inFlight st ->
      exists st', triggerLoad o st node = (st', [Lazy.LoadChildren node])
                  /\ Flat.id node ∈ Lazy.inFlight st'
                  /\ Flat.id node ∈ Lazy.loadingIds st'
                  /\ (forall k, k ≠ Flat.id node ->
                        (k ∈ Lazy.inFlight st' <-> k ∈ Lazy.inFlight st))
                  /\ triggerLoad o st' node = (st', [])).
Proof.
  intros st.
  assert (Hinv : NoDup (Lazy.pending st)
                 /\ forall k, k ∈ Lazy.pending st <-> k ∈ Lazy.inFlight st).
  { apply lazyRun_invariant. simpl. split; [constructor|].
    intros k. split; [by intros H%elem_of_nil|by intros H%elem_of_empty]. }
  split; [exact Hinv|]. destruct Hinv as [Hnd Hiff]. split.
  - intros Hin. split; [by apply triggerLoad_in_flight|].
    assert (Hpend : Flat.id node ∈ Lazy.pending st) by (by apply Hiff).
    split.
    + intros children. simpl. rewrite bool_decide_eq_true_2 by done.
      eexists. split; [reflexivity|]. simpl.
      split; rewrite elem_of_difference, elem_of_singleton; tauto.
    + intros error. simpl. rewrite bool_decide_eq_true_2 by done.
      eexists. split; [reflexivity|]. split.
      * simpl. rewrite elem_of_difference, elem_of_singleton. tauto.
      * rewrite triggerLoad_starts; try done.
        simpl. rewrite elem_of_difference, elem_of_singleton. tauto.
  - intros Hout. rewrite triggerLoad_starts by done. eexists. split; [reflexivity|].
    simpl. split; [|split; [|split]].
    + apply elem_of_union. left. by apply elem_of_singleton.
    + apply elem_of_union. left. by apply elem_of_singleton.
    + intros k Hk. rewrite elem_of_union, elem_of_singleton. tauto.
    + apply triggerLoad_in_flight. simpl. apply elem_of_union. left.
      by apply elem_of_singleton.
Qed.

End lazy_facts.

Section lazy_examples.
Open Scope string_scope.

(** After one [triggerLoad] of ["g"], a second one does nothing. *)
Lemma triggerLoad_protocol_witness :
  triggerLoad lazyOptions (lazyRun lazyOptions initialLazy [Lazy.Trigger lazyGroup]).1 lazyGroup
  = ((lazyRun lazyOptions initialLazy [Lazy.Trigger lazyGroup]).1, []).
Proof.
  apply (triggerLoad_protocol lazyOptions [Lazy.Trigger lazyGroup] lazyGroup
           eq_refl eq_refl eq_refl).
  apply (bool_decide_unpack _). vm_compute. exact I.
Defined.

(** Scenario B: two expand attempts in a row, then the load resolves:
    one loader call, then the insertion, then the expansion. *)
Example scenarioB_effects :
  (lazyRun lazyOptions initialLazy
     [Lazy.Trigger lazyGroup; Lazy.Trigger lazyGroup; Lazy.Resolve "g" loadedChildren]).2
  = [Lazy.LoadChildren lazyGroup; Lazy.InsertChildren "g" loadedChildren; Lazy.Expand "g"].
Proof. vm_compute. reflexivity. Qed.

(** A failed load reports the error, and the next attempt loads again. *)
Example failed_load_retries :
  (lazyRun lazyOptions initialLazy
     [Lazy.Trigger lazyGroup; Lazy.Reject "g" (ThrownValue "offline");
      Lazy.Trigger lazyGroup]).2
  = [Lazy.LoadChildren lazyGroup; Lazy.OnLoadError "g" (MkError "offline");
     Lazy.LoadChildren lazyGroup].
Proof. vm_compute. reflexivity. Qed.

End lazy_examples.

(** ** The drag coordinator ([TreeViewDndContext]) *)

Section group_facts.
Context {T : Type}.
Implicit Types (regs : list (Group.Registration T)) (r : Group.Registration T).
Implicit Types (event : Dnd.Operation) (tid : string).

(** A canceled drag end only clears the session: no callback, no
    structural change. *)
Lemma handleDragEnd_canceled (o : Dnd.Options T) (s : Dnd.Session) event :
  handleDragEnd o s (asCanceled event) = (clearedSession s, []).
Proof. reflexivity. Qed.

Lemma regTreeId_reset r : regTreeId (resetRegistration r) = regTreeId r.
Proof. reflexivity. Qed.

(** The registry keeps one registration per tree id. *)
Lemma register_ids r regs tid :
  tid ∈ map regTreeId (register r regs) -> tid = regTreeId r \/ tid ∈ map regTreeId regs.
Proof.
  induction regs as [|r0 regs IH]; simpl.
  - intros H. apply list_elem_of_singleton in H. by left.
  - destruct (decide (regTreeId r0 = regTreeId r)) as [Heq|Hne].
    + rewrite bool_decide_eq_true_2 by done. simpl. intros H.
      apply elem_of_cons in H as [-> |H]; [by left|]. right. by right.
    + rewrite bool_decide_eq_false_2 by done. simpl. intros H.
      apply elem_of_cons in H as [-> |H]; [right; by left|].
      destruct (IH H) as [?|?]; [by left|right; by right].
Qed.

Lemma register_NoDup r regs :
  NoDup (map regTreeId regs) -> NoDup (map regTreeId (register r regs)).
Proof.
  induction regs as [|r0 regs IH]; simpl; intros Hnd.
  - apply NoDup_singleton.
  - apply NoDup_cons in Hnd as [Hr0 Hnd].
    destruct (decide (regTreeId r0 = regTreeId r)) as [Heq|Hne].
    + rewrite bool_decide_eq_true_2 by done. simpl. apply NoDup_cons.
      split; [by rewrite <- Heq|done].
    + rewrite bool_decide_eq_false_2 by done. simpl. apply NoDup_cons.
      split; [|by apply IH]. intros H. by destruct (register_ids _ _ _ H).
Qed.

Lemma callTree_absent
    (handler : Dnd.Options T -> Dnd.Session -> Dnd.Session * list (Dnd.Effect T)) tid regs :
  (forall r, r ∈ regs -> regTreeId r ≠ tid) -> callTree handler tid regs = (regs, []).
Proof.
  induction regs as [|r regs IH]; intros H; simpl; [done|].
  rewrite bool_decide_eq_false_2 by (apply H; by left).
  rewrite IH; [done|]. intros r' Hr'. apply H. by right.
Qed.

Lemma map_reset_absent tid regs :
  (forall r, r ∈ regs -> regTreeId r ≠ tid) ->
  map (fun r => if bool_decide (regTreeId r = tid) then resetRegistration r else r) regs = regs.
Proof.
  induction regs as [|r regs IH]; intros Hno; simpl; [done|].
  rewrite bool_decide_eq_false_2 by (apply Hno; by left).
  rewrite IH; [done|]. intros r' Hr'. apply Hno. by right.
Qed.

Lemma callTree_cancel event tid regs :
  NoDup (map regTreeId regs) ->
  callTree (fun o s => handleDragEnd o s (asCanceled event)) tid regs
  = (map (fun r => if bool_decide (regTreeId r = tid) then resetRegistration r else r) regs,
     []).
Proof.
  induction regs as [|r regs IH]; intros Hnd; [done|].
  cbn [callTree map]. rewrite fmap_cons in Hnd.
  apply NoDup_cons in Hnd as [Hr Hnd].
  destruct (decide (regTreeId r = tid)) as [Heq|Hne].
  - rewrite !bool_decide_eq_true_2 by done. rewrite handleDragEnd_canceled. cbn [map].
    assert (Hrest : map (fun r => if bool_decide (regTreeId r = tid)
                                  then resetRegistration r else r) regs = regs).
    { apply map_reset_absent.
      intros r' Hr' Heq'. apply Hr. apply list_elem_of_fmap. exists r'.
      split; [congruence|done]. }
    by rewrite Hrest.
  - rewrite !bool_decide_eq_false_2 by done. by rewrite IH.
Qed.

Lemma findOwnerTree_elem regs (nodeId : string) r :
  findOwnerTree regs nodeId = Some r ->
  r ∈ regs /\ exists n, n ∈ Dnd.flatNodes (Group.options r) /\ Flat.id n = nodeId.
Proof.
  unfold findOwnerTree. intros H.
  destruct (list_find _ regs) as [[i r']|] eqn:E; [|done]. simpl in H. injection H as ->.
  apply list_find_Some in E as (Hi & Hex & _). split.
  - apply list_elem_of_lookup. by exists i.
  - apply existsb_exists in Hex as (n & Hn & Hb). exists n. split.
    + by apply list_elem_of_In.
    + by apply bool_decide_eq_true in Hb.
Qed.

(** When the source id is owned by one registered tree and the target
    id by another, the coordinator's drag end clears the drag session of
    both trees (and touches no other), neither tree calls [onItemsChange]
    or any other callback of its own, and the only call is the caller's
    [onDragEnd], once, with the descriptor made of the two tree ids and of
    [dropPosition], [projectedDepth] and [projectedParentId] as the last
    render of the target tree saw them.  They are those of the target
    tree's session when that tree has rendered since its last hover. *)
Lemma cross_tree_drag_end (props : Group.Props) (g : Group.State T)
    (event : Dnd.Operation) (sourceId targetId : string)
    (sourceTree targetTree : Group.Registration T)
    (Hkeys : NoDup (map regTreeId (Group.registrations g)))
    (Hsource : Dnd.source event = Some sourceId)
    (Htarget : Dnd.target event = Some targetId)
    (Hsowner : findOwnerTree (Group.registrations g) sourceId = Some sourceTree)
    (Htowner : findOwnerTree (Group.registrations g) targetId = Some targetTree)
    (Hdiff : regTreeId sourceTree ≠ regTreeId targetTree) :
  (groupHandleDragEnd props g event).2
  = (if Group.onDragEnd props
     then [Group.OnDragEnd event
             (Some (Group.mkCrossTreeDragInfo
                      (regTreeId sourceTree) (regTreeId targetTree)
                      (Dnd.dropPosition (Group.rendered targetTree))
                      (Dnd.projectedDepth (Group.rendered targetTree))
                      (Dnd.projectedParentId (Group.rendered targetTree))))]
     else [])
  /\ Group.registrations (groupHandleDragEnd props g event).1
     = map (fun r => if bool_decide (regTreeId r = regTreeId sourceTree
                                     \/ regTreeId r = regTreeId targetTree)
                     then resetRegistration r else r)
           (Group.registrations g)
  /\ Group.lastOverTree (groupHandleDragEnd props g event).1 = None.
Proof.
  unfold groupHandleDragEnd. rewrite Hsource, Htarget, Hsowner, Htowner.
  rewrite bool_decide_eq_false_2 by done.
  rewrite callTree_cancel by done.
  rewrite callTree_cancel.
  2:{ rewrite map_map. erewrite map_ext; [exact Hkeys|].
      intros r. by destruct (bool_decide _). }
  simpl. split; [done|]. split; [|done].
  rewrite map_map. apply map_ext. intros r.
  destruct (decide (regTreeId r = regTreeId sourceTree)) as [H1|H1];
    destruct (decide (regTreeId r = regTreeId targetTree)) as [H2|H2].
  - congruence.
  - rewrite (bool_decide_eq_true_2 (regTreeId r = regTreeId sourceTree)) by done.
    rewrite regTreeId_reset.
    rewrite (bool_decide_eq_false_2 (regTreeId r = regTreeId targetTree)) by done.
    by rewrite bool_decide_eq_true_2 by (by left).
  - rewrite (bool_decide_eq_false_2 (regTreeId r = regTreeId sourceTree)) by done.
    rewrite (bool_decide_eq_true_2 (regTreeId r = regTreeId targetTree)) by done.
    by rewrite bool_decide_eq_true_2 by (by right).
  - rewrite (bool_decide_eq_false_2 (regTreeId r = regTreeId sourceTree)) by done.
    rewrite (bool_decide_eq_false_2 (regTreeId r = regTreeId targetTree)) by done.
    by rewrite bool_decide_eq_false_2 by tauto.
Qed.

End group_facts.

Section group_examples.
Open Scope string_scope.

(** Scenario E with tree ["B"] rendered after its last hover: the
    descriptor names trees ["A"] and ["B"] and carries the projection of
    tree ["B"]; both sessions are cleared. *)
Example cross_tree_drag_end_rendered :
  (groupHandleDragEnd allCallbacks scenarioEGroup scenarioEDrop).2
  = [Group.OnDragEnd scenarioEDrop
       (Some (Group.mkCrossTreeDragInfo "A" "B" (Some inside) (Some (Js.Int 1)) (Some "y")))]
  /\ Group.registrations (groupHandleDragEnd allCallbacks scenarioEGroup scenarioEDrop).1
     = [ Group.mkRegistration treeAOptions idleSession treeASession;
         Group.mkRegistration treeBOptions idleSession treeBSession ].
Proof.
  destruct (cross_tree_drag_end allCallbacks scenarioEGroup scenarioEDrop "x" "y"
              (Group.mkRegistration treeAOptions treeASession treeASession)
              (Group.mkRegistration treeBOptions treeBSession treeBSession))
    as (Hout & Hregs & _).
  - vm_compute. repeat constructor; set_solver.
  - reflexivity.
  - reflexivity.
  - reflexivity.
  - reflexivity.
  - discriminate.
  - split; [exact Hout|]. rewrite Hregs. reflexivity.
Qed.

(** C9.  Trees ["A"] and ["B"] at rest in one coordinator; ["x"] of
    tree ["A"] is picked up, the trees render, the pointer comes over the
    expanded empty group ["y"] of tree ["B"], and the drag ends there
    before tree ["B"] renders again.  The hover has left the projection
    (inside ["y"], depth 1) in the refs of tree ["B"], where its own
    [handleDragEnd] would read it; the coordinator reads the getters of
    the registration, which give what the last render saw, and the
    descriptor it hands to [onDragEnd] carries [null] for
    [dropPosition], [projectedDepth] and [projectedParentId].  Had tree
    ["B"] rendered in between, the descriptor would carry the
    projection. *)
Theorem cross_tree_descriptor_stale :
  let picked := groupRender (groupHandleDragStart allCallbacks scenarioEIdle scenarioEStart).1 in
  let hovered := (groupHandleDragOver allCallbacks picked scenarioEOver).1 in
  (exists sessionB,
     Group.session <$> getRegistration (Group.registrations hovered) "B" = Some sessionB
     /\ Dnd.dropPositionRef sessionB = Some inside
     /\ Dnd.projectedDepthRef sessionB = Some (Js.Int 1)
     /\ Dnd.projectedParentIdRef sessionB = Some "y")
  /\ (groupHandleDragEnd allCallbacks hovered scenarioEDrop).2
     = [Group.OnDragEnd scenarioEDrop
          (Some (Group.mkCrossTreeDragInfo "A" "B" None None None))]
  /\ (groupHandleDragEnd allCallbacks (groupRender hovered) scenarioEDrop).2
     = [Group.OnDragEnd scenarioEDrop
          (Some (Group.mkCrossTreeDragInfo "A" "B" (Some inside) (Some (Js.Int 1))
                                           (Some "y")))].
Proof.
  split.
  - eexists. split; [vm_compute; reflexivity|]. by vm_compute.
  - split; vm_compute; reflexivity.
Qed.

End group_examples.

(** ** The drag session of one tree ([handleDragOver], [handleDragEnd]) *)

Section dnd_facts.
Context {T : Type}.
Implicit Types (o : Dnd.Options T) (s : Dnd.Session) (event : Dnd.Operation).

(** Every path of [handleDragEnd] ends in [resetState]. *)
Lemma handleDragEnd_resets o s event : (handleDragEnd o s event).1 = resetState s.
Proof.
  unfold handleDragEnd.
  destruct (Dnd.canceled event), (Dnd.source event), (Dnd.target event); try done.
  destruct (findNode _ _); [|done]. destruct (findNode _ _); [|done].
  destruct (match Dnd.canDrop o with Some _ => _ | None => _ end); [done|].
  destruct (Dnd.onItemsChange o); [|done]. by destruct (moveNodes _ _ _ _ _ _).
Qed.

(** The cycle guard of [handleDragEnd]: when the projected parent is a
    non-empty id of the moving set, nothing is called. *)
Lemma moveNodes_cycle_guard o (sourceNode : Flat.t T) (target p : string)
    (pos : option DropPosition) (d : option Z) :
  p ≠ EmptyString ->
  p ∈ withDescendants (Dnd.flatNodes o)
        (if bool_decide (Dnd.selectionMode o = mode_multiple)
            && bool_decide (Flat.id sourceNode ∈ Dnd.selectedIds o)
            && bool_decide (1 < size (Dnd.selectedIds o))
         then filter (fun id => id ∉ allDescendantsOf (Dnd.flatNodes o)
                                                    (elements (Dnd.selectedIds o)))
                     (elements (Dnd.selectedIds o))
         else [Flat.id sourceNode]) ->
  moveNodes o sourceNode target pos d (Some p) = None.
Proof.
  intros Hne Hin. unfold moveNodes, truthy.
  rewrite (bool_decide_eq_false_2 (p = EmptyString)) by done.
  by rewrite bool_decide_eq_true_2.
Qed.

Lemma handleDragEnd_cycle_guard o s event (source target p : string)
    (sourceNode targetNode : Flat.t T) :
  Dnd.source event = Some source -> Dnd.target event = Some target ->
  findNode (Dnd.flatNodes o) source = Some sourceNode ->
  findNode (Dnd.flatNodes o) target = Some targetNode ->
  Dnd.projectedParentIdRef s = Some p ->
  Dnd.onItemsChange o = true ->
  moveNodes o sourceNode target (Dnd.dropPositionRef s) (Js.toZ <$> Dnd.projectedDepthRef s)
            (Some p)
  = None ->
  handleDragEnd o s event = (resetState s, []).
Proof.
  intros Hs Ht Hsn Htn Hp Hcb Hguard. unfold handleDragEnd.
  rewrite Hs, Ht, Hsn, Htn, Hp, Hcb, Hguard.
  destruct (Dnd.canceled event); [done|].
  by destruct (match Dnd.canDrop o with Some _ => _ | None => _ end).
Qed.

End dnd_facts.

Section dnd_examples.
Open Scope string_scope.

(** Scenario C: hovering ["x"] over the expanded, empty group ["y"] gives
    the placement inside ["y"], at depth 1. *)
Example scenarioC_projection :
  let s := handleDragOver scenarioCOptions idleSession
             (Dnd.mkOperation (Some "x") (Some "y") (Some (Js.ofZ 0, Js.ofZ 0)) false) in
  Dnd.dropPositionRef s = Some inside
  /\ Dnd.projectedDepthRef s = Some (Js.Int 1)
  /\ Dnd.projectedParentIdRef s = Some "y".
Proof. vm_compute. repeat split. Qed.

(** Scenario D: the two selected nodes move together, after ["z"], as
    roots, ["p"] with its child. *)
Example scenarioD_move :
  let s := handleDragOver scenarioDOptions idleSession
             (Dnd.mkOperation (Some "p") (Some "z") (Some (Js.ofZ 0, Js.ofZ 0)) false) in
  exists items,
    (handleDragEnd scenarioDOptions s (Dnd.mkOperation (Some "p") (Some "z") None false)).2
    = [Dnd.OnItemsChange items]
    /\ reifyTree 3 items
       = Some [ Nested.mk "m" tt None None;
                Nested.mk "z" tt None None;
                Nested.mk "p" tt (Some true) (Some [ Nested.mk "p1" tt None None ]);
                Nested.mk "q" tt None None ].
Proof. eexists. split; vm_compute; reflexivity. Qed.

(** A group ["x"] dropped on itself: the hover made ["x"] the projected
    parent, the cycle guard of [handleDragEnd] rejects the drop, nothing
    is called. *)
Example drop_on_itself_rejected :
  Dnd.projectedParentIdRef (hoverOverItself "x") = Some "x"
  /\ handleDragEnd (singleGroupOptions "x") (hoverOverItself "x") (dropOnItself "x")
     = (resetState (hoverOverItself "x"), []).
Proof. split; vm_compute; reflexivity. Qed.

(** C4 on the group whose id is the empty string: the projected parent
    [""] is the dragged node itself, so it lies in the moving set, but
    the guard [currentProjectedParentId && ...] takes the empty string
    for "no parent"; the drop is not rejected: [onItemsChange] is called,
    with a tree from which the node is gone. *)
Theorem drop_on_itself_empty_id :
  Dnd.projectedParentIdRef (hoverOverItself "") = Some ""
  /\ ("" : string) ∈ withDescendants (Dnd.flatNodes (singleGroupOptions "")) [""]
  /\ exists items event,
       (handleDragEnd (singleGroupOptions "") (hoverOverItself "") (dropOnItself "")).2
       = [Dnd.OnItemsChange items; Dnd.OnDragEnd event]
       /\ reifyTree 1 items = Some [].
Proof.
  split; [vm_compute; reflexivity|]. split.
  - apply (bool_decide_unpack _). vm_compute. exact I.
  - eexists. eexists. split; [vm_compute; reflexivity|]. vm_compute. reflexivity.
Qed.

End dnd_examples.

(** ** The shape of [flattenTree] *)

Section flatten_facts.
Context {T : Type}.
Implicit Types (node : Nested.t T) (nodes cs : list (Nested.t T)).
Implicit Types (p q : option string) (d : Z) (e m : Flat.t T) (L : list (Flat.t T)).

(** Induction on nested nodes, with the property known of the children. *)
Lemma Nested_ind' (P : Nested.t T -> Prop) :
  (forall i dt g, P (Nested.mk i dt g None)) ->
  (forall i dt g cs, Forall P cs -> P (Nested.mk i dt g (Some cs))) ->
  forall node, P node.
Proof.
  intros Hleaf Hnode. fix IH 1. intros [i dt g [cs|]].
  - apply Hnode. induction cs as [|c cs IHcs]; constructor; [apply IH|apply IHcs].
  - apply Hleaf.
Qed.

Lemma filter_none {A} (P : A -> Prop) `{forall x, Decision (P x)} (l : list A) :
  (forall x, x ∈ l -> ~ P x) -> filter P l = [].
Proof.
  induction l as [|x l IH]; intros Hno; [done|].
  rewrite filter_cons. destruct (decide (P x)) as [Hx|Hx].
  - destruct (Hno x); [by left|done].
  - apply IH. intros y Hy. apply Hno. by right.
Qed.

Lemma flattenNode_eq node p d i :
  flattenNode node p d i
  = headOf node p d i
    :: match Nested.children node with
       | Some cs => flattenFrom cs (Some (Nested.id node)) (d + 1)%Z 0
       | None => []
       end.
Proof.
  destruct node as [nid dt g [cs|]]; simpl; [|done].
  unfold headOf, hasChildren. simpl. f_equal.
  generalize 0. induction cs as [|c cs IH]; intros j; simpl; [done|]. by rewrite IH.
Qed.

Lemma heads_subset nodes : forall p d i e, e ∈ heads nodes p d i -> e ∈ flattenFrom nodes p d i.
Proof.
  induction nodes as [|node rest IH]; intros p d i e He; simpl in *.
  - done.
  - rewrite flattenNode_eq. apply elem_of_cons in He as [->|He].
    + by left.
    + right. apply elem_of_app. right. by apply IH.
Qed.

Lemma heads_parent nodes : forall p d i e, e ∈ heads nodes p d i -> Flat.parentId e = p.
Proof.
  induction nodes as [|node rest IH]; intros p d i e He; simpl in *.
  - by apply elem_of_nil in He.
  - apply elem_of_cons in He as [->|He]; [done|]. by eapply IH.
Qed.

(** The parent of a flat node is the parent passed in, or a node of the
    same array whose children are loaded. *)
Lemma flattenNode_parent : forall node p d i e,
  e ∈ flattenNode node p d i ->
  Flat.parentId e = p
  \/ exists m, m ∈ flattenNode node p d i /\ Flat.parentId e = Some (Flat.id m)
               /\ Flat.childrenLoaded m = true.
Proof.
  induction node as [nid dt g|nid dt g cs IH] using Nested_ind'; intros p d i e He.
  - rewrite flattenNode_eq in He. simpl in He.
    apply list_elem_of_singleton in He as ->. by left.
  - rewrite flattenNode_eq in *. simpl in *.
    apply elem_of_cons in He as [->|He]; [by left|]. right.
    assert (Hforest : forall j,
      e ∈ flattenFrom cs (Some nid) (d + 1)%Z j ->
      Flat.parentId e = Some nid
      \/ exists m, m ∈ flattenFrom cs (Some nid) (d + 1)%Z j
                   /\ Flat.parentId e = Some (Flat.id m) /\ Flat.childrenLoaded m = true).
    { clear He. induction IH as [|c cs Hc Hcs IHcs]; intros j He; simpl in *.
      - by apply elem_of_nil in He.
      - apply elem_of_app in He as [He|He].
        + destruct (Hc _ _ _ _ He) as [Hp|(m & Hm & Hp & Hl)]; [by left|].
          right. exists m. split; [apply elem_of_app; by left|done].
        + destruct (IHcs _ He) as [Hp|(m & Hm & Hp & Hl)]; [by left|].
          right. exists m. split; [apply elem_of_app; by right|done]. }
    destruct (Hforest 0 He) as [Hp|(m & Hm & Hp & Hl)].
    + exists (headOf (Nested.mk nid dt g (Some cs)) p d i). split; [by left|done].
    + exists m. split; [by right|done].
Qed.

Lemma flattenFrom_parent nodes : forall p d i e,
  e ∈ flattenFrom nodes p d i ->
  Flat.parentId e = p
  \/ exists m, m ∈ flattenFrom nodes p d i /\ Flat.parentId e = Some (Flat.id m)
               /\ Flat.childrenLoaded m = true.
Proof.
  induction nodes as [|node rest IH]; intros p d i e He; simpl in *.
  - by apply elem_of_nil in He.
  - apply elem_of_app in He as [He|He].
    + destruct (flattenNode_parent _ _ _ _ _ He) as [Hp|(m & Hm & Hp & Hl)]; [by left|].
      right. exists m. split; [apply elem_of_app; by left|done].
    + destruct (IH _ _ _ _ He) as [Hp|(m & Hm & Hp & Hl)]; [by left|].
      right. exists m. split; [apply elem_of_app; by right|done].
Qed.

(** In the flattening of a forest under [p], when [p] is not one of its
    ids, the nodes whose parent is [p] are the heads of the forest. *)
Lemma flattenFrom_top nodes : forall p d i,
  (forall e, e ∈ flattenFrom nodes p d i -> p ≠ Some (Flat.id e)) ->
  filter (fun e => Flat.parentId e = p) (flattenFrom nodes p d i) = heads nodes p d i.
Proof.
  induction nodes as [|node rest IH]; intros p d i Hp; simpl in *; [done|].
  rewrite flattenNode_eq in *. simpl. rewrite filter_cons. simpl.
  destruct (decide (p = p)) as [_|]; [|done]. f_equal.
  rewrite filter_app.
  replace (filter (fun e => Flat.parentId e = p)
             match Nested.children node with
             | Some cs => flattenFrom cs (Some (Nested.id node)) (d + 1)%Z 0
             | None => []
             end) with (@nil (Flat.t T)).
  - simpl. apply IH. intros e He. apply Hp. right. apply elem_of_app. by right.
  - symmetry. apply filter_none. destruct (Nested.children node) as [cs|];
      [|by intros e He%elem_of_nil].
    intros e He Hpe.
    destruct (flattenFrom_parent cs _ _ _ e He) as [Hq|(m & Hm & Hq & _)].
    + apply (Hp (headOf node p d i)); [by left|]. simpl. congruence.
    + apply (Hp m); [|congruence]. right. apply elem_of_app. by left.
Qed.

(** Within the flattening of a node, every flat node has the parent and
    depth passed in, or hangs one level deeper under an earlier node. *)
Lemma flattenFrom_structure_of_nodes nodes :
  Forall (fun node => forall p d i j e,
            flattenNode node p d i !! j = Some e ->
            (Flat.parentId e = p /\ Flat.depth e = d)
            \/ exists j' m, j' < j /\ flattenNode node p d i !! j' = Some m
                             /\ Flat.parentId e = Some (Flat.id m)
                             /\ Flat.depth e = (Flat.depth m + 1)%Z) nodes ->
  forall p d i j e,
    flattenFrom nodes p d i !! j = Some e ->
    (Flat.parentId e = p /\ Flat.depth e = d)
    \/ exists j' m, j' < j /\ flattenFrom nodes p d i !! j' = Some m
                     /\ Flat.parentId e = Some (Flat.id m)
                     /\ Flat.depth e = (Flat.depth m + 1)%Z.
Proof.
  induction 1 as [|node rest Hnode Hrest IH]; intros p d i j e He; simpl in *.
  - by rewrite lookup_nil in He.
  - apply lookup_app_Some in He as [He|[Hlen He]].
    + destruct (Hnode _ _ _ _ _ He) as [?|(j' & m & Hj' & Hm & Hp & Hd)]; [by left|].
      right. exists j', m. split; [done|]. split; [|done].
      rewrite lookup_app_l; [done|]. by eapply lookup_lt_Some.
    + destruct (IH _ _ _ _ _ He) as [?|(j' & m & Hj' & Hm & Hp & Hd)]; [by left|].
      right. exists (length (flattenNode node p d i) + j'), m. split; [lia|].
      split; [|done]. rewrite lookup_app_r by lia.
      by replace (length (flattenNode node p d i) + j' - length (flattenNode node p d i))
        with j' by lia.
Qed.

Lemma flattenNode_structure : forall node p d i j e,
  flattenNode node p d i !! j = Some e ->
  (Flat.parentId e = p /\ Flat.depth e = d)
  \/ exists j' m, j' < j /\ flattenNode node p d i !! j' = Some m
                   /\ Flat.parentId e = Some (Flat.id m)
                   /\ Flat.depth e = (Flat.depth m + 1)%Z.
Proof.
  induction node as [nid dt g|nid dt g cs IH] using Nested_ind'; intros p d i j e He.
  - rewrite flattenNode_eq in He. simpl in He. destruct j as [|j]; [|done].
    injection He as <-. by left.
  - rewrite flattenNode_eq in *. simpl in *. destruct j as [|j].
    + injection He as <-. by left.
    + simpl in He. right.
      destruct (flattenFrom_structure_of_nodes cs IH _ _ _ _ _ He)
        as [[Hp Hd]|(j' & m & Hj' & Hm & Hp & Hd)].
      * exists 0, (headOf (Nested.mk nid dt g (Some cs)) p d i).
        split; [lia|]. split; [done|]. split; [done|]. by rewrite Hd.
      * exists (S j'), m. split; [lia|]. done.
Qed.

Lemma flattenTree_depths nodes : depthsFollowParents (flattenTree nodes None 0%Z).
Proof.
  intros j e He. unfold flattenTree in *.
  apply (flattenFrom_structure_of_nodes nodes); [|done].
  apply Forall_forall. intros node _. apply flattenNode_structure.
Qed.

(** A flattened tree with unique ids is well-formed. *)
Lemma flattenTree_parentsFirst nodes :
  NoDup (map Flat.id (flattenTree nodes None 0%Z)) ->
  parentsFirst (flattenTree nodes None 0%Z).
Proof.
  intros Hnd. apply depthsFollowParents_parentsFirst; [done|apply flattenTree_depths].
Qed.

(** The nodes of a flattened tree never hang under a node whose children
    are not loaded. *)
Lemma flattenTree_parentsLoaded nodes :
  NoDup (map Flat.id (flattenTree nodes None 0%Z)) ->
  parentsLoaded (flattenTree nodes None 0%Z).
Proof.
  intros Hnd n m Hn Hm Hp. unfold flattenTree in *.
  destruct (flattenFrom_parent nodes _ _ _ n Hn) as [Hq|(m' & Hm' & Hq & Hl)]; [congruence|].
  assert (m = m') as -> by (eapply id_inj_NoDup; eauto; congruence). done.
Qed.

End flatten_facts.

(** ** Grouping a flattened tree by [parentId] gives the tree back *)

Section rebuild_facts.
Context {T : Type}.
Implicit Types (node : Nested.t T) (nodes cs : list (Nested.t T)).
Implicit Types (p q : option string) (d : Z) (e m : Flat.t T) (L E : list (Flat.t T)).

Lemma mapM_ext_in {A B} (f g : A -> option B) (l : list A) :
  (forall x, x ∈ l -> f x = g x) -> mapM f l = mapM g l.
Proof.
  induction l as [|x l IH]; intros H; simpl; [done|].
  rewrite (H x) by (by left). destruct (g x); simpl; [|done].
  rewrite IH; [done|]. intros y Hy. apply H. by right.
Qed.

Lemma mapM_map {A B C} (f : B -> option C) (h : A -> B) (l : list A) :
  mapM f (map h l) = mapM (fun x => f (h x)) l.
Proof.
  induction l as [|x l IH]; simpl; [done|]. destruct (f (h x)); simpl; [|done].
  by rewrite IH.
Qed.

(** Nodes that do not hang under a node of [L] do not change what is
    rebuilt from [L]. *)
Lemma rebuildNode_frame fuel : forall E1 L E2 e,
  e ∈ L ->
  (forall e' k, e' ∈ E1 ++ E2 -> k ∈ L -> Flat.parentId e' ≠ Some (Flat.id k)) ->
  rebuildNode fuel (E1 ++ L ++ E2) e = rebuildNode fuel L e.
Proof.
  induction fuel as [|fuel IH]; intros E1 L E2 e He Hframe; simpl; [done|].
  destruct (Flat.childrenLoaded e); [|done].
  rewrite !filter_app.
  rewrite (filter_none _ E1), (filter_none _ E2); simpl.
  - rewrite app_nil_r.
    rewrite (mapM_ext_in (rebuildNode fuel (E1 ++ L ++ E2)) (rebuildNode fuel L)); [done|].
    intros x Hx. apply list_elem_of_filter in Hx as [_ Hx]. by apply IH.
  - intros x Hx Hpx. apply (Hframe x e); [apply elem_of_app; by right|done|done].
  - intros x Hx Hpx. apply (Hframe x e); [apply elem_of_app; by left|done|done].
Qed.

Lemma rebuildNode_frame_l fuel E L e :
  e ∈ L ->
  (forall e' k, e' ∈ E -> k ∈ L -> Flat.parentId e' ≠ Some (Flat.id k)) ->
  rebuildNode fuel (E ++ L) e = rebuildNode fuel L e.
Proof.
  intros He Hframe. rewrite <- (app_nil_r L) at 1. apply rebuildNode_frame; [done|].
  intros e' k He'. rewrite app_nil_r in He'. by apply Hframe.
Qed.

Lemma rebuildNode_frame_r fuel E L e :
  e ∈ L ->
  (forall e' k, e' ∈ E -> k ∈ L -> Flat.parentId e' ≠ Some (Flat.id k)) ->
  rebuildNode fuel (L ++ E) e = rebuildNode fuel L e.
Proof.
  intros He Hframe. apply (rebuildNode_frame fuel [] L E); [done|].
  intros e' k He'. simpl in He'. by apply Hframe.
Qed.

Lemma NoDup_ids_app (L1 L2 : list (Flat.t T)) :
  NoDup (map Flat.id (L1 ++ L2)) ->
  NoDup (map Flat.id L1) /\ NoDup (map Flat.id L2)
  /\ forall a b, a ∈ L1 -> b ∈ L2 -> Flat.id a ≠ Flat.id b.
Proof.
  rewrite map_app. intros H. apply NoDup_app in H as (H1 & Hdis & H2).
  split; [done|]. split; [done|]. intros a b Ha Hb Heq. apply (Hdis (Flat.id a)).
  - apply list_elem_of_fmap. by exists a.
  - rewrite Heq. apply list_elem_of_fmap. by exists b.
Qed.

(** A flattened node hangs under nothing outside its own segment except
    the parent passed in. *)
Lemma flatten_segments_apart L1 L2 p :
  (forall e, e ∈ L1 -> Flat.parentId e = p
                       \/ exists m, m ∈ L1 /\ Flat.parentId e = Some (Flat.id m)) ->
  (forall a b, a ∈ L1 -> b ∈ L2 -> Flat.id a ≠ Flat.id b) ->
  (forall b, b ∈ L2 -> p ≠ Some (Flat.id b)) ->
  forall e' k, e' ∈ L1 -> k ∈ L2 -> Flat.parentId e' ≠ Some (Flat.id k).
Proof.
  intros Hpar Hdis Hp e' k He' Hk Heq.
  destruct (Hpar e' He') as [Hq|(m & Hm & Hq)].
  - apply (Hp k Hk). congruence.
  - apply (Hdis m k Hm Hk). congruence.
Qed.

Lemma heightForest_cons node nodes :
  heightForest (node :: nodes) = max (height node) (heightForest nodes).
Proof. reflexivity. Qed.

Lemma rebuild_forest_of_nodes nodes :
  Forall (fun node => forall p d i fuel,
            NoDup (map Flat.id (flattenNode node p d i)) ->
            (forall e, e ∈ flattenNode node p d i -> p ≠ Some (Flat.id e)) ->
            height node < fuel ->
            rebuildNode fuel (flattenNode node p d i) (headOf node p d i)
            = Some (normalizeNode node)) nodes ->
  forall p d i fuel,
    NoDup (map Flat.id (flattenFrom nodes p d i)) ->
    (forall e, e ∈ flattenFrom nodes p d i -> p ≠ Some (Flat.id e)) ->
    heightForest nodes < fuel ->
    mapM (rebuildNode fuel (flattenFrom nodes p d i)) (heads nodes p d i)
    = Some (map normalizeNode nodes).
Proof.
  induction 1 as [|node rest Hnode Hrest IH]; intros p d i fuel Hnd Hp Hfuel; [done|].
  cbn [flattenFrom heads map]. cbn [flattenFrom] in Hnd, Hp.
  rewrite heightForest_cons in Hfuel.
  destruct (NoDup_ids_app _ _ Hnd) as (Hnd1 & Hnd2 & Hdis).
  assert (Hpar1 : forall e, e ∈ flattenNode node p d i ->
            Flat.parentId e = p
            \/ exists m, m ∈ flattenNode node p d i /\ Flat.parentId e = Some (Flat.id m)).
  { intros e He. destruct (flattenNode_parent _ _ _ _ _ He) as [?|(m & ? & ? & _)];
      [by left|right; by exists m]. }
  assert (Hpar2 : forall e, e ∈ flattenFrom rest p d (S i) ->
            Flat.parentId e = p
            \/ exists m, m ∈ flattenFrom rest p d (S i)
                         /\ Flat.parentId e = Some (Flat.id m)).
  { intros e He. destruct (flattenFrom_parent _ _ _ _ _ He) as [?|(m & ? & ? & _)];
      [by left|right; by exists m]. }
  assert (Hp1 : forall e, e ∈ flattenNode node p d i -> p ≠ Some (Flat.id e)).
  { intros e He. apply Hp, elem_of_app. by left. }
  assert (Hp2 : forall e, e ∈ flattenFrom rest p d (S i) -> p ≠ Some (Flat.id e)).
  { intros e He. apply Hp, elem_of_app. by right. }
  assert (Hhead : headOf node p d i ∈ flattenNode node p d i).
  { rewrite flattenNode_eq. by left. }
  cbn [mapM]. rewrite rebuildNode_frame_r; [|done|].
  2:{ apply (flatten_segments_apart _ _ p Hpar2); [|done].
      intros a b Ha Hb Heq. by apply (Hdis b a). }
  rewrite (Hnode p d i fuel Hnd1 Hp1) by lia. simpl.
  rewrite (mapM_ext_in _ (rebuildNode fuel (flattenFrom rest p d (S i)))).
  - rewrite (IH p d (S i) fuel Hnd2 Hp2) by lia. done.
  - intros x Hx. apply rebuildNode_frame_l; [by apply heads_subset|].
    by apply (flatten_segments_apart _ _ p Hpar1).
Qed.

Lemma rebuild_node : forall node p d i fuel,
  NoDup (map Flat.id (flattenNode node p d i)) ->
  (forall e, e ∈ flattenNode node p d i -> p ≠ Some (Flat.id e)) ->
  height node < fuel ->
  rebuildNode fuel (flattenNode node p d i) (headOf node p d i) = Some (normalizeNode node).
Proof.
  induction node as [nid dt g|nid dt g cs IH] using Nested_ind';
    intros p d i fuel Hnd Hp Hfuel.
  - destruct fuel as [|fuel]; [simpl in Hfuel; lia|]. reflexivity.
  - destruct fuel as [|fuel]; [simpl in Hfuel; lia|].
    pose proof (rebuild_forest_of_nodes cs IH (Some nid) (d + 1)%Z 0 fuel) as Hforest.
    rewrite flattenNode_eq in *. cbn [Nested.children Nested.id] in *.
    set (hd := headOf (Nested.mk nid dt g (Some cs)) p d i) in *.
    set (C := flattenFrom cs (Some nid) (d + 1)%Z 0) in *.
    change (map Flat.id (hd :: C)) with (nid :: map Flat.id C) in Hnd.
    apply NoDup_cons in Hnd as [Hfresh Hnd].
    assert (HC : forall e, e ∈ C -> Some nid ≠ Some (Flat.id e)).
    { intros e He Heq. apply Hfresh. apply list_elem_of_fmap. exists e.
      split; [congruence|done]. }
    assert (Hfilter : filter (fun n => Flat.parentId n = Some nid) (hd :: C)
                      = heads cs (Some nid) (d + 1)%Z 0).
    { rewrite filter_cons. change (Flat.parentId hd) with p.
      destruct (decide (p = Some nid)) as [Heq|_].
      { exfalso. apply (Hp hd); [by left|done]. }
      unfold C. by rewrite flattenFrom_top. }
    cbn [rebuildNode]. change (Flat.childrenLoaded hd) with true. cbv iota.
    change (Flat.id hd) with nid. rewrite Hfilter.
    rewrite (mapM_ext_in _ (rebuildNode fuel C)).
    + rewrite Hforest; [|done|done|simpl in Hfuel; unfold heightForest; lia].
      reflexivity.
    + intros x Hx. apply (rebuildNode_frame_l fuel [hd] C); [by apply heads_subset|].
      intros e' k He' Hk. apply list_elem_of_singleton in He' as ->.
      change (Flat.parentId hd) with p. apply Hp. by right.
Qed.

(** Grouping [flattenTree x] by [parentId], from the roots down, gives
    [x] with its [isGroup] fields normalized. *)
Lemma rebuild_flattenTree nodes fuel :
  NoDup (map Flat.id (flattenTree nodes None 0%Z)) ->
  heightForest nodes < fuel ->
  mapM (rebuildNode fuel (flattenTree nodes None 0%Z))
       (siblingsOf None (flattenTree nodes None 0%Z))
  = Some (map normalizeNode nodes).
Proof.
  intros Hnd Hfuel. unfold flattenTree, siblingsOf in *.
  rewrite flattenFrom_top by done.
  apply rebuild_forest_of_nodes; [|done|done|done].
  apply Forall_forall. intros node _. apply rebuild_node.
Qed.

End rebuild_facts.

(** ** [buildTree] *)

Section build_facts.
Context {T : Type}.
Implicit Types (L P S : list (Flat.t T)) (n m e x : Flat.t T) (k p : string).
Implicit Types (M : gmap string (Obj.t T * bool)) (H : list (list (Obj.t T))).

(** After the first loop: every node has its entry, an entry holds an
    array iff the node's children are loaded, the arrays are empty and
    no two entries share one. *)
Lemma buildCreate_state L : NoDup (map Flat.id L) ->
  forall M H, foldl buildCreate (∅, []) L = (M, H) ->
  (forall n, n ∈ L ->
     exists c, M !! Flat.id n
               = Some (Obj.mk (Flat.id n) (Flat.data n) (groupFlag n) c, false)
               /\ (Flat.childrenLoaded n = false -> c = None)
               /\ (Flat.childrenLoaded n = true -> exists a, c = Some a /\ H !! a = Some []))
  /\ (forall k o b, M !! k = Some (o, b) -> exists n, n ∈ L /\ Flat.id n = k)
  /\ (forall k1 k2 o1 b1 o2 b2 a,
        M !! k1 = Some (o1, b1) -> M !! k2 = Some (o2, b2) ->
        Obj.children o1 = Some a -> Obj.children o2 = Some a -> k1 = k2)
  /\ (forall k o b a, M !! k = Some (o, b) -> Obj.children o = Some a -> a < length H).
Proof.
  induction L as [|x L IH] using rev_ind; intros Hnd M H Hst.
  - simpl in Hst. injection Hst as <- <-. split; [|split; [|split]].
    + intros n Hn. by apply elem_of_nil in Hn.
    + intros k o b Hk. by rewrite lookup_empty in Hk.
    + intros k1 k2 o1 b1 o2 b2 a Hk. by rewrite lookup_empty in Hk.
    + intros k o b a Hk. by rewrite lookup_empty in Hk.
  - rewrite foldl_app in Hst. simpl in Hst.
    destruct (foldl buildCreate (∅, []) L) as [M0 H0] eqn:Hst0.
    destruct (NoDup_ids_app _ _ Hnd) as (Hnd0 & _ & Hdis).
    destruct (IH Hnd0 M0 H0 eq_refl) as (I1 & I2 & I3 & I4). clear IH.
    assert (Hfresh : M0 !! Flat.id x = None).
    { destruct (M0 !! Flat.id x) as [[o b]|] eqn:E; [|done].
      destruct (I2 _ _ _ E) as (n & Hn & Hid). destruct (Hdis n x Hn); [by left|done]. }
    unfold buildCreate in Hst.
    destruct (Flat.childrenLoaded x) eqn:Hloaded; injection Hst as <- <-.
    + split; [|split; [|split]].
      * intros n Hn. apply elem_of_app in Hn as [Hn|Hn].
        -- destruct (I1 n Hn) as (c & Hc & Hc1 & Hc2). exists c.
           rewrite lookup_insert_ne by (intros Heq; apply (Hdis n x Hn); [by left|done]).
           split; [done|]. split; [done|]. intros Hl.
           destruct (Hc2 Hl) as (a & -> & Ha). exists a. split; [done|].
           rewrite lookup_app_l; [done|]. by eapply lookup_lt_Some.
        -- apply list_elem_of_singleton in Hn as ->. exists (Some (length H0)).
           rewrite lookup_insert_eq. split; [done|]. split; [congruence|].
           intros _. exists (length H0). split; [done|].
           by rewrite lookup_app_r, Nat.sub_diag by lia.
      * intros k o b Hk. destruct (decide (Flat.id x = k)) as [<-|Hne].
        -- exists x. split; [apply elem_of_app; right; by left|done].
        -- rewrite lookup_insert_ne in Hk by done.
           destruct (I2 _ _ _ Hk) as (n & Hn & Hid). exists n.
           split; [apply elem_of_app; by left|done].
      * intros k1 k2 o1 b1 o2 b2 a Hk1 Hk2 Ha1 Ha2.
        destruct (decide (Flat.id x = k1)) as [<-|Hne1];
          destruct (decide (Flat.id x = k2)) as [<-|Hne2]; [done| | |].
        -- rewrite lookup_insert_eq in Hk1. rewrite lookup_insert_ne in Hk2 by done.
           injection Hk1 as <- <-. simpl in Ha1. injection Ha1 as <-.
           pose proof (I4 _ _ _ _ Hk2 Ha2). lia.
        -- rewrite lookup_insert_eq in Hk2. rewrite lookup_insert_ne in Hk1 by done.
           injection Hk2 as <- <-. simpl in Ha2. injection Ha2 as <-.
           pose proof (I4 _ _ _ _ Hk1 Ha1). lia.
        -- rewrite lookup_insert_ne in Hk1, Hk2 by done. by eapply I3.
      * intros k o b a Hk Ha. rewrite length_app. simpl.
        destruct (decide (Flat.id x = k)) as [<-|Hne].
        -- rewrite lookup_insert_eq in Hk. injection Hk as <- <-. simpl in Ha.
           injection Ha as <-. lia.
        -- rewrite lookup_insert_ne in Hk by done. pose proof (I4 _ _ _ _ Hk Ha). lia.
    + split; [|split; [|split]].
      * intros n Hn. apply elem_of_app in Hn as [Hn|Hn].
        -- destruct (I1 n Hn) as (c & Hc & Hc1 & Hc2). exists c.
           rewrite lookup_insert_ne by (intros Heq; apply (Hdis n x Hn); [by left|done]).
           done.
        -- apply list_elem_of_singleton in Hn as ->. exists None.
           rewrite lookup_insert_eq. split; [done|]. split; [done|congruence].
      * intros k o b Hk. destruct (decide (Flat.id x = k)) as [<-|Hne].
        -- exists x. split; [apply elem_of_app; right; by left|done].
        -- rewrite lookup_insert_ne in Hk by done.
           destruct (I2 _ _ _ Hk) as (n & Hn & Hid). exists n.
           split; [apply elem_of_app; by left|done].
      * intros k1 k2 o1 b1 o2 b2 a Hk1 Hk2 Ha1 Ha2.
        destruct (decide (Flat.id x = k1)) as [<-|Hne1];
          destruct (decide (Flat.id x = k2)) as [<-|Hne2]; [done| | |].
        -- rewrite lookup_insert_eq in Hk1. injection Hk1 as <- <-. done.
        -- rewrite lookup_insert_eq in Hk2. injection Hk2 as <- <-. done.
        -- rewrite lookup_insert_ne in Hk1, Hk2 by done. by eapply I3.
      * intros k o b a Hk Ha. destruct (decide (Flat.id x = k)) as [<-|Hne].
        -- rewrite lookup_insert_eq in Hk. injection Hk as <- <-. done.
        -- rewrite lookup_insert_ne in Hk by done. by eapply I4.
Qed.

(** *** The second loop, on an array whose parents are all loaded *)

Section link.
Variables (L : list (Flat.t T)) (M1 : gmap string (Obj.t T * bool))
          (H1 : list (list (Obj.t T))).
Hypothesis Hnd : NoDup (map Flat.id L).
Hypothesis Hloaded : parentsLoaded L.
Hypothesis I1 : forall n, n ∈ L ->
  exists c, M1 !! Flat.id n = Some (Obj.mk (Flat.id n) (Flat.data n) (groupFlag n) c, false)
            /\ (Flat.childrenLoaded n = false -> c = None)
            /\ (Flat.childrenLoaded n = true -> exists a, c = Some a /\ H1 !! a = Some []).
Hypothesis I2 : forall k o b, M1 !! k = Some (o, b) -> exists n, n ∈ L /\ Flat.id n = k.
Hypothesis I3 : forall k1 k2 o1 b1 o2 b2 a,
  M1 !! k1 = Some (o1, b1) -> M1 !! k2 = Some (o2, b2) ->
  Obj.children o1 = Some a -> Obj.children o2 = Some a -> k1 = k2.

Lemma cleanOf_entry n : n ∈ L -> exists b, M1 !! Flat.id n = Some (cleanOf M1 n, b).
Proof.
  intros Hn. destruct (I1 n Hn) as (c & Hc & _). unfold cleanOf. rewrite Hc. by exists false.
Qed.

Lemma cleanOf_fields n : n ∈ L ->
  Obj.id (cleanOf M1 n) = Flat.id n /\ Obj.data (cleanOf M1 n) = Flat.data n
  /\ Obj.isGroup (cleanOf M1 n) = groupFlag n
  /\ (Flat.childrenLoaded n = false -> Obj.children (cleanOf M1 n) = None)
  /\ (Flat.childrenLoaded n = true -> exists a, Obj.children (cleanOf M1 n) = Some a).
Proof.
  intros Hn. destruct (I1 n Hn) as (c & Hc & Hc1 & Hc2). unfold cleanOf. rewrite Hc. simpl.
  repeat split; try done. intros Hl. destruct (Hc2 Hl) as (a & -> & _). by exists a.
Qed.

Lemma filter_snoc_parent (q : option string) P x :
  filter (fun e => Flat.parentId e = q) (P ++ [x])
  = filter (fun e => Flat.parentId e = q) P
    ++ (if decide (Flat.parentId x = q) then [x] else []).
Proof.
  rewrite filter_app. f_equal.
Qed.

(** After a prefix [P]: the objects of [nodeMap] are those of the first
    loop; [roots] holds the objects of the roots of [P]; the array of
    every node holds the objects of its children in [P], in order. *)
Lemma buildLink_state : forall P S, L = P ++ S ->
  (forall k, fst <$> (BuildState.nodeMap (foldl buildLink (BuildState.mk M1 H1 []) P) !! k)
             = fst <$> (M1 !! k))
  /\ BuildState.roots (foldl buildLink (BuildState.mk M1 H1 []) P)
     = map (cleanOf M1) (siblingsOf None P)
  /\ (forall n a, n ∈ L -> Obj.children (cleanOf M1 n) = Some a ->
        BuildState.arrays (foldl buildLink (BuildState.mk M1 H1 []) P) !! a
        = Some (map (cleanOf M1)
                    (filter (fun e => Flat.parentId e = Some (Flat.id n)) P))).
Proof.
  induction P as [|x P IH] using rev_ind; intros S HL.
  - simpl. split; [done|]. split; [done|].
    intros n a Hn Ha. destruct (I1 n Hn) as (c & Hc & Hc1 & Hc2).
    unfold cleanOf in Ha. rewrite Hc in Ha. simpl in Ha. subst c.
    destruct (Flat.childrenLoaded n) eqn:Hl; [|by specialize (Hc1 eq_refl)].
    destruct (Hc2 eq_refl) as (a' & Ha' & Harr). by injection Ha' as <-.
  - rewrite <- app_assoc in HL. simpl in HL.
    destruct (IH _ HL) as (K1 & K2 & K3). clear IH.
    rewrite foldl_app. simpl.
    destruct (foldl buildLink (BuildState.mk M1 H1 []) P) as [M H roots] eqn:Hst.
    simpl in K1, K2, K3.
    assert (Hx : x ∈ L) by (subst L; apply elem_of_app; right; by left).
    destruct (cleanOf_entry x Hx) as (bx & Hcx).
    assert (Hmx : exists b, M !! Flat.id x = Some (cleanOf M1 x, b)).
    { specialize (K1 (Flat.id x)). rewrite Hcx in K1. simpl in K1.
      destruct (M !! Flat.id x) as [[o b]|]; [|done]. simpl in K1.
      injection K1 as ->. by exists b. }
    destruct Hmx as (b & Hmx). unfold buildLink. simpl. rewrite Hmx.
    destruct (Flat.parentId x) as [p|] eqn:Hp.
    + destruct (M !! p) as [[parent bp]|] eqn:Hmp.
      * assert (Hm1p : exists b0, M1 !! p = Some (parent, b0)).
        { specialize (K1 p). rewrite Hmp in K1. simpl in K1.
          destruct (M1 !! p) as [[o b0]|]; [|done]. simpl in K1.
          injection K1 as ->. by exists b0. }
        destruct Hm1p as (b0 & Hm1p).
        destruct (I2 _ _ _ Hm1p) as (m & Hm & Hidm).
        assert (Hml : Flat.childrenLoaded m = true).
        { apply (Hloaded x m Hx Hm). by rewrite Hidm. }
        assert (Hparent : parent = cleanOf M1 m).
        { unfold cleanOf. by rewrite Hidm, Hm1p. }
        destruct (cleanOf_fields m Hm) as (_ & _ & _ & _ & Hca).
        destruct (Hca Hml) as (a & Ha). rewrite Hparent, Ha. simpl.
        split; [|split].
        -- intros k. destruct (decide (p = k)) as [<-|Hne].
           ++ rewrite lookup_insert_eq, Hm1p. simpl. by rewrite Hparent.
           ++ rewrite lookup_insert_ne by done. apply K1.
        -- rewrite K2. unfold siblingsOf. rewrite filter_snoc_parent, Hp.
           destruct (decide (Some p = None)); [done|]. by rewrite app_nil_r.
        -- intros n a' Hn Ha'. rewrite filter_snoc_parent, Hp.
           destruct (decide (Flat.id n = p)) as [Heq|Hne].
           ++ assert (n = m) as -> by (eapply id_inj_NoDup; eauto; congruence).
              assert (a' = a) as -> by congruence.
              rewrite list_lookup_alter_eq, (K3 m a Hm Ha). simpl.
              destruct (decide (Some p = Some (Flat.id m))) as [_|Hc]; [|congruence].
              by rewrite map_app.
           ++ destruct (decide (Some p = Some (Flat.id n))) as [Hc|_]; [congruence|].
              rewrite app_nil_r. rewrite list_lookup_alter_ne; [by apply K3|].
              intros Haa. subst a'. apply Hne.
              destruct (cleanOf_entry n Hn) as (bn & Hcn).
              rewrite Hparent in Hm1p.
              by apply (I3 _ _ _ _ _ _ a Hcn Hm1p).
      * simpl. split; [done|]. split.
        -- rewrite K2. unfold siblingsOf. rewrite filter_snoc_parent, Hp.
           destruct (decide (Some p = None)); [done|]. by rewrite app_nil_r.
        -- intros n a' Hn Ha'. rewrite filter_snoc_parent, Hp.
           destruct (decide (Some p = Some (Flat.id n))) as [Hc|_].
           ++ exfalso. injection Hc as ->. destruct (cleanOf_entry n Hn) as (bn & Hcn).
              specialize (K1 (Flat.id n)). rewrite Hmp, Hcn in K1. done.
           ++ rewrite app_nil_r. by apply K3.
    + simpl. split; [done|]. split.
      * rewrite K2. unfold siblingsOf. rewrite filter_snoc_parent, Hp.
        destruct (decide (None = None)); [|done]. by rewrite map_app.
      * intros n a' Hn Ha'. rewrite filter_snoc_parent, Hp.
        destruct (decide (None = Some (Flat.id n))); [done|].
        rewrite app_nil_r. by apply K3.
Qed.

End link.

(** On an array with unique ids in which no node hangs under a node whose
    children are not loaded, the object graph returned by [buildTree]
    reads as the array grouped by [parentId]. *)
Lemma buildTree_rebuild L fuel :
  NoDup (map Flat.id L) -> parentsLoaded L ->
  reifyTree fuel (buildTree L) = mapM (rebuildNode fuel L) (siblingsOf None L).
Proof.
  intros Hnd Hloaded. unfold buildTree, reifyTree.
  destruct (foldl buildCreate (∅, []) L) as [M1 H1] eqn:Hst1.
  destruct (buildCreate_state L Hnd M1 H1 Hst1) as (I1 & I2 & I3 & _).
  destruct (buildLink_state L M1 H1 Hnd Hloaded I1 I2 I3 L [] ltac:(by rewrite app_nil_r))
    as (_ & K2 & K3).
  simpl. rewrite K2, mapM_map.
  set (H := BuildState.arrays (foldl buildLink (BuildState.mk M1 H1 []) L)) in *.
  assert (Hnode : forall f e, e ∈ L -> reify f H (cleanOf M1 e) = rebuildNode f L e).
  { induction f as [|f IH]; intros e He; [done|].
    destruct (cleanOf_fields L M1 H1 I1 e He) as (Hid & Hdata & Hgrp & Hnone & Hsome).
    simpl. destruct (Flat.childrenLoaded e) eqn:Hl.
    - destruct (Hsome eq_refl) as (a & Ha). rewrite Ha, (K3 e a He Ha), mapM_map.
      rewrite (mapM_ext_in _ (rebuildNode f L)).
      + by rewrite Hid, Hdata, Hgrp.
      + intros x Hx. apply list_elem_of_filter in Hx as [_ Hx]. by apply IH.
    - rewrite (Hnone eq_refl). by rewrite Hid, Hdata, Hgrp. }
  apply mapM_ext_in. intros e He. apply Hnode.
  unfold siblingsOf in He. by apply list_elem_of_filter in He as [_ He].
Qed.

End build_facts.

(** ** The round trip [buildTree (flattenTree x)] *)

Section roundtrip_facts.
Context {T : Type}.
Implicit Types (node : Nested.t T) (nodes cs : list (Nested.t T)).

Lemma roundTripEquiv_children cs cs' :
  (fix equivList (l l' : list (Nested.t T)) {struct l} : Prop :=
     match l, l' with
     | [], [] => True
     | a :: r, b :: r' => roundTripEquiv a b /\ equivList r r'
     | _, _ => False
     end) cs cs'
  = roundTripEquivList cs cs'.
Proof.
  revert cs'. induction cs as [|c cs IH]; intros [|c' cs']; simpl; try done; by rewrite IH.
Qed.

(** Where every node holding children says [isGroup: true], the
    normalized tree is equivalent to the tree in the sense of the
    round-trip law. *)
Lemma normalizeNode_equiv : forall node,
  explicitGroups node = true -> roundTripEquiv node (normalizeNode node).
Proof.
  induction node as [i dt g|i dt g cs IH] using Nested_ind'; intros Hex.
  - simpl. split; [done|]. split; [done|]. split; [|done].
    destruct g as [[|]|]; simpl; [by left|right|by left]. split; [done|]. split; [by right|done].
  - assert (Hkids : forallb explicitGroups cs = true).
    { simpl in Hex. destruct cs as [|c cs']; [done|]. by apply andb_prop in Hex as [_ ?]. }
    cbn [normalizeNode roundTripEquiv]. split; [done|]. split; [done|]. split.
    + destruct cs as [|c cs'].
      * destruct g as [[|]|]; simpl; [by left|right|by left].
        split; [done|]. split; [by right|done].
      * simpl in Hex. apply andb_prop in Hex as [Hg _].
        apply bool_decide_eq_true in Hg. subst g. by left.
    + rewrite roundTripEquiv_children. clear Hex.
      induction IH as [|c cs' Hc Hcs IHcs]; simpl; [done|].
      simpl in Hkids. apply andb_prop in Hkids as [Hk1 Hk2]. split; [by apply Hc|by apply IHcs].
Qed.

Lemma normalize_equiv nodes :
  forallb explicitGroups nodes = true -> roundTripEquivList nodes (map normalizeNode nodes).
Proof.
  induction nodes as [|node rest IH]; simpl; [done|]. intros H.
  apply andb_prop in H as [H1 H2]. split; [by apply normalizeNode_equiv|by apply IH].
Qed.

(** C1, as the code has it.  For a nested tree [x] with unique ids,
    [buildTree (flattenTree x)] returns an object graph that reads (within
    any nesting bound above the height of [x]) as [x] with the same ids,
    data and children in the same order, and with [isGroup] normalized on
    every node: [true] when it was [true] or was absent on a node with at
    least one child, absent otherwise.  So the result is equivalent to
    [x] in the sense of the round-trip law when every node that holds
    children says [isGroup: true]. *)
Theorem buildTree_flattenTree (x : list (Nested.t T)) (fuel : nat)
    (Hids : NoDup (map Flat.id (flattenTree x None 0%Z)))
    (Hfuel : heightForest x < fuel) :
  reifyTree fuel (buildTree (flattenTree x None 0%Z)) = Some (map normalizeNode x)
  /\ (forallb explicitGroups x = true ->
      roundTripEquivList x (map normalizeNode x)).
Proof.
  split; [|apply normalize_equiv].
  rewrite buildTree_rebuild by (done || by apply flattenTree_parentsLoaded).
  by apply rebuild_flattenTree.
Qed.

End roundtrip_facts.

Section roundtrip_examples.
Open Scope string_scope.

(** Two nested groups, each saying [isGroup: true], come back as they
    were. *)
Lemma buildTree_flattenTree_witness :
  reifyTree 4 (buildTree (flattenTree nestedGroupsTree None 0%Z))
  = Some (map normalizeNode nestedGroupsTree)
  /\ roundTripEquivList nestedGroupsTree (map normalizeNode nestedGroupsTree).
Proof.
  destruct (buildTree_flattenTree nestedGroupsTree 4) as [H1 H2].
  - vm_compute. repeat constructor; set_solver.
  - vm_compute. lia.
  - split; [exact H1|]. apply H2. reflexivity.
Defined.

(** C1 as the specification words it fails: a node with
    [isGroup: false] that holds a child comes back without [isGroup],
    although it holds children; flattened again it is a group, which it
    was not before. *)
Lemma roundTrip_drops_isGroup_false :
  forallb noLazyGroups nonGroupParentTree = true
  /\ NoDup (map Flat.id (flattenTree nonGroupParentTree None 0%Z))
  /\ exists y,
       reifyTree 2 (buildTree (flattenTree nonGroupParentTree None 0%Z)) = Some y
       /\ ~ roundTripEquivList nonGroupParentTree y
       /\ map Flat.isGroup (flattenTree nonGroupParentTree None 0%Z) = [false; false]
       /\ map Flat.isGroup (flattenTree y None 0%Z) = [true; false].
Proof.
  split; [reflexivity|]. split; [vm_compute; repeat constructor; set_solver|].
  eexists. split; [vm_compute; reflexivity|]. split; [|split; reflexivity].
  simpl. intros [(_ & _ & [Hg|(Hch & _)] & _) _]; [discriminate|done].
Qed.

(** A node without [isGroup] that holds a child comes back with
    [isGroup: true]. *)
Example roundTrip_adds_isGroup_true :
  reifyTree 2 (buildTree (flattenTree implicitGroupTree None 0%Z))
  = Some [ Nested.mk "a" tt (Some true) (Some [ Nested.mk "b" tt None None ]) ].
Proof. vm_compute. reflexivity. Qed.

(** C10 on a node under a parent whose children are not loaded: the
    parent chain of ["x"] ends at a root and every parent is in the
    array, yet ["x"] is not in the result, because the object pushed
    into [roots] for ["g"] was copied before [parent.children = []] gave
    the entry of ["g"] its array.  With ["x"] before ["g"] in the array,
    the same nodes give ["g"] its child. *)
Theorem buildTree_drops_child_of_unloaded :
  getAncestorIds 2 childOfUnloaded "x" = Some ["g"]
  /\ (exists g, findNode childOfUnloaded "g" = Some g /\ Flat.parentId g = None)
  /\ reifyTree 2 (buildTree childOfUnloaded) = Some [ Nested.mk "g" tt (Some true) None ]
  /\ reifyTree 2 (buildTree (reverse childOfUnloaded))
     = Some [ Nested.mk "g" tt (Some true) (Some [ Nested.mk "x" tt None None ]) ].
Proof.
  split; [vm_compute; reflexivity|]. split.
  - eexists. split; [vm_compute; reflexivity|reflexivity].
  - split; vm_compute; reflexivity.
Qed.

(** The drag controller hands [buildTree] such an array: dropping ["x"]
    inside the lazy group ["g"] calls [onItemsChange] with a tree that
    has lost ["x"]. *)
Example drop_into_lazy_group_loses_node :
  Dnd.dropPositionRef hoverOverLazyGroup = Some inside
  /\ Dnd.projectedParentIdRef hoverOverLazyGroup = Some "g"
  /\ moveNodes lazyGroupOptions (Flat.mk "x" tt false false None 0%Z 1) "g"
               (Some inside) (Some 1%Z) (Some "g")
     = Some [ Flat.mk "g" tt true false None 0%Z 0;
              Flat.mk "x" tt false false (Some "g") 1%Z 1 ]
  /\ exists items,
       (handleDragEnd lazyGroupOptions hoverOverLazyGroup
                      (Dnd.mkOperation (Some "x") (Some "g") None false)).2
       = [Dnd.OnItemsChange items]
       /\ reifyTree 2 items = Some [ Nested.mk "g" tt (Some true) None ].
Proof.
  split; [vm_compute; reflexivity|]. split; [vm_compute; reflexivity|].
  split; [vm_compute; reflexivity|].
  eexists. split; vm_compute; reflexivity.
Qed.

End roundtrip_examples.

(** ** JavaScript numbers: rounding and the sum of integers *)

Section number_facts.

(** [Math.round] of a finite number is the integer within a half of it,
    the upper one at a tie. *)
Lemma MathRound_spec (s : bool) (m : positive) (e : Z) :
  exists r, MathRound (S754_finite s m e) = Js.Int r
            /\ (inject_Z r - (1 # 2) <= Js.valueOf s m e)%Q
            /\ (Js.valueOf s m e < inject_Z r + (1 # 2))%Q.
Proof.
  exists (Qfloor (Js.valueOf s m e + (1 # 2))). split; [done|].
  generalize (Js.valueOf s m e). intros q.
  pose proof (Qfloor_le (q + (1 # 2))) as Hle.
  pose proof (Qlt_floor (q + (1 # 2))) as Hlt.
  rewrite inject_Z_plus in Hlt. simpl in Hlt. split.
  - apply Qplus_le_l with (z := (1 # 2)%Q). ring_simplify.
    ring_simplify in Hle. exact Hle.
  - apply Qplus_lt_l with (z := (1 # 2)%Q).
    eapply Qlt_le_trans; [exact Hlt|]. ring_simplify. apply Qle_refl.
Qed.

(** The number of binary digits of a positive integer. *)
Lemma digits2_pos_bounds (p : positive) :
  (2 ^ (Zpos (digits2_pos p) - 1) <= Zpos p < 2 ^ Zpos (digits2_pos p))%Z.
Proof.
  induction p as [p IH|p IH|]; simpl digits2_pos.
  - rewrite Pos2Z.inj_succ.
    replace (Z.succ (Zpos (digits2_pos p)) - 1)%Z with (Zpos (digits2_pos p)) by lia.
    rewrite Z.pow_succ_r by lia.
    assert (Hd : (2 ^ Zpos (digits2_pos p)
                  = 2 * 2 ^ (Zpos (digits2_pos p) - 1))%Z).
    { rewrite <- Z.pow_succ_r by lia. f_equal. lia. }
    lia.
  - rewrite Pos2Z.inj_succ.
    replace (Z.succ (Zpos (digits2_pos p)) - 1)%Z with (Zpos (digits2_pos p)) by lia.
    rewrite Z.pow_succ_r by lia.
    assert (Hd : (2 ^ Zpos (digits2_pos p)
                  = 2 * 2 ^ (Zpos (digits2_pos p) - 1))%Z).
    { rewrite <- Z.pow_succ_r by lia. f_equal. lia. }
    lia.
  - simpl. lia.
Qed.

Lemma iter_xO_value (p k : positive) :
  Zpos (Pos.iter xO p k) = (Zpos p * 2 ^ Zpos k)%Z.
Proof.
  revert p. induction k as [|k IH] using Pos.peano_ind; intros p.
  - simpl. lia.
  - rewrite Pos.iter_succ. rewrite Pos2Z.inj_xO, IH, Pos2Z.inj_succ.
    rewrite Z.pow_succ_r by lia. lia.
Qed.

Lemma iter_xO_digits (p k : positive) :
  digits2_pos (Pos.iter xO p k) = (digits2_pos p + k)%positive.
Proof.
  revert p. induction k as [|k IH] using Pos.peano_ind; intros p.
  - simpl. lia.
  - rewrite Pos.iter_succ. simpl. rewrite IH. lia.
Qed.

(** A mantissa of 53 digits at its own exponent is not rounded. *)
Lemma binary_round_aux_exact (s : bool) (m : positive) (e : Z) :
  Zpos (digits2_pos m) = 53%Z -> (-1074 <= e <= 971)%Z ->
  binary_round_aux Js.prec Js.emax s (Zpos m) e loc_Exact = S754_finite s m e.
Proof.
  intros Hd He. unfold binary_round_aux, shr_fexp. cbn [Zdigits2 shr_record_of_loc].
  rewrite Hd.
  assert (Hf : fexp Js.prec Js.emax (53 + e) = e).
  { unfold fexp, emin, Js.prec, Js.emax. lia. }
  rewrite Hf, Z.sub_diag. cbn [shr shr_m loc_of_shr_record round_nearest_even Zdigits2
                                shr_record_of_loc].
  rewrite Hd, Hf, Z.sub_diag. cbn [shr shr_m].
  unfold Js.emax, Js.prec.
  destruct (Z.leb_spec e (1024 - 53)); [done|lia].
Qed.

(** The integers up to [2^53] in absolute value are numbers. *)
Lemma ofZ_exact (z : Z) :
  (Z.abs z <= 2 ^ 53)%Z -> Js.toIntegral (Js.ofZ z) = Js.Int z.
Proof.
  intros Hz.
  assert (Hpos : forall (s : bool) (p : positive), (Zpos p <= 2 ^ 53)%Z ->
            Js.toIntegral (binary_round Js.prec Js.emax s p 0)
            = Js.Int (cond_Zopp s (Zpos p))).
  { intros s p Hp.
    destruct (decide (Zpos p = 2 ^ 53)%Z) as [Heq|Hne].
    { assert (p = 9007199254740992%positive) as -> by lia. by destruct s. }
    pose proof (digits2_pos_bounds p) as Hdig.
    assert (Hd : (Zpos (digits2_pos p) <= 53)%Z).
    { destruct (Z.le_gt_cases (Zpos (digits2_pos p)) 53) as [?|Hgt]; [done|].
      assert ((2 ^ 53 <= 2 ^ (Zpos (digits2_pos p) - 1))%Z)
        by (apply Z.pow_le_mono_r; lia).
      lia. }
    unfold binary_round.
    assert (Hf : fexp Js.prec Js.emax (Zpos (digits2_pos p) + 0)
                 = (Zpos (digits2_pos p) - 53)%Z).
    { unfold fexp, emin, Js.prec, Js.emax. lia. }
    rewrite Hf. unfold shl_align.
    destruct (Zpos (digits2_pos p) - 53 - 0)%Z as [|k|k] eqn:Hk; [|lia|].
    - rewrite binary_round_aux_exact by lia. simpl. by destruct s.
    - rewrite binary_round_aux_exact.
      + cbn [Js.toIntegral]. f_equal. f_equal.
        rewrite iter_xO_value.
        replace (Zpos (digits2_pos p) - 53)%Z with (- Zpos k)%Z by lia.
        rewrite Z.shiftl_opp_r, Z.shiftr_div_pow2 by lia.
        apply Z.div_mul. lia.
      + rewrite iter_xO_digits. lia.
      + lia. }
  unfold Js.ofZ, binary_normalize. destruct z as [|p|p]; [done| |].
  - apply (Hpos false p). lia.
  - apply (Hpos true p). lia.
Qed.

(** Rounding an integer never gives NaN. *)
Lemma iter_pos_invariant {A} (f : A -> A) (P : A -> Prop) :
  (forall x, P x -> P (f x)) -> forall (n : positive) (x : A), P x -> P (SpecFloat.iter_pos f n x).
Proof.
  intros Hf. induction n as [n IH|n IH|]; intros x Hx; simpl.
  - apply IH, IH, Hf, Hx.
  - apply IH, IH, Hx.
  - apply Hf, Hx.
Qed.

Lemma shr_fexp_nonneg (m e : Z) (l : location) :
  (0 <= m)%Z -> (0 <= shr_m (shr_fexp Js.prec Js.emax m e l).1)%Z.
Proof.
  intros Hm. unfold shr_fexp, shr.
  assert (H0 : (0 <= shr_m (shr_record_of_loc m l))%Z).
  { by destruct l as [|[| |]]. }
  destruct (fexp Js.prec Js.emax (Zdigits2 m + e) - e)%Z as [|n|n]; [done| |done].
  simpl. apply (iter_pos_invariant shr_1 (fun r => (0 <= shr_m r)%Z)); [|done].
  intros [x r s] Hx. simpl in Hx. destruct x as [|[p|p|]|p]; simpl; lia.
Qed.

Lemma binary_round_aux_not_nan (s : bool) (m e : Z) (l : location) :
  (0 <= m)%Z -> binary_round_aux Js.prec Js.emax s m e l ≠ S754_nan.
Proof.
  intros Hm. unfold binary_round_aux.
  pose proof (shr_fexp_nonneg m e l Hm) as H1.
  destruct (shr_fexp Js.prec Js.emax m e l) as [mrs' e']. simpl in H1.
  assert (H2 : (0 <= round_nearest_even (shr_m mrs') (loc_of_shr_record mrs'))%Z).
  { unfold round_nearest_even.
    destruct (loc_of_shr_record mrs') as [|[| |]]; try lia.
    destruct (Z.even (shr_m mrs')); lia. }
  pose proof (shr_fexp_nonneg _ e' loc_Exact H2) as H3.
  destruct (shr_fexp Js.prec Js.emax _ e' loc_Exact) as [mrs'' e'']. simpl in H3.
  destruct (shr_m mrs'') as [|p|p]; [done| |lia].
  by destruct (e'' <=? Js.emax - Js.prec)%Z.
Qed.

Lemma ofZ_not_nan (z : Z) : Js.toIntegral (Js.ofZ z) ≠ Js.NaN.
Proof.
  assert (H : Js.ofZ z ≠ S754_nan).
  { unfold Js.ofZ, binary_normalize. destruct z as [|p|p]; [done| |];
      unfold binary_round; destruct (shl_align _ _ _) as [mz ez];
      by apply binary_round_aux_not_nan. }
  destruct (Js.ofZ z) as [s|s| |s m e]; try done. by destruct s.
Qed.

Lemma add_not_nan (a : Z) (x : Js.integral) : x ≠ Js.NaN -> Js.add (Js.Int a) x ≠ Js.NaN.
Proof.
  intros Hx. destruct x as [b| | |]; [|done|done|done]. apply ofZ_not_nan.
Qed.

(** The right shift of the rounding halves the mantissa at each step. *)
Lemma shr_1_half (r : shr_record) :
  (0 <= shr_m r)%Z -> shr_m (shr_1 r) = (shr_m r / 2)%Z.
Proof.
  destruct r as [m r s]. cbn [shr_m]. intros Hm.
  destruct m as [|[p|p|]|p]; cbn [shr_1 shr_m]; [done| | |done|lia].
  - apply (Z.div_unique (Zpos p~1) 2 (Zpos p) 1); lia.
  - apply (Z.div_unique (Zpos p~0) 2 (Zpos p) 0); lia.
Qed.

Lemma iter_shr_1_value (n : positive) : forall r : shr_record,
  (0 <= shr_m r)%Z ->
  (0 <= shr_m (SpecFloat.iter_pos shr_1 n r))%Z
  /\ shr_m (SpecFloat.iter_pos shr_1 n r) = (shr_m r / 2 ^ Zpos n)%Z.
Proof.
  induction n as [n IH|n IH|]; intros r Hr; simpl SpecFloat.iter_pos.
  - pose proof (shr_1_half r Hr) as H1.
    assert (H1' : (0 <= shr_m (shr_1 r))%Z) by (rewrite H1; apply Z.div_pos; lia).
    destruct (IH _ H1') as [H2' H2]. destruct (IH _ H2') as [H3' H3].
    split; [done|]. rewrite H3, H2, H1.
    rewrite !Z.div_div by lia. f_equal.
    replace (Zpos n~1) with (1 + Zpos n + Zpos n)%Z by lia.
    rewrite !Z.pow_add_r by lia. rewrite Z.pow_1_r. apply Z.mul_assoc.
  - destruct (IH _ Hr) as [H2' H2]. destruct (IH _ H2') as [H3' H3].
    split; [done|]. rewrite H3, H2. rewrite Z.div_div by lia. f_equal.
    replace (Zpos n~0) with (Zpos n + Zpos n)%Z by lia.
    by rewrite Z.pow_add_r by lia.
  - pose proof (shr_1_half r Hr) as H1. split; [rewrite H1; apply Z.div_pos; lia|].
    by rewrite H1.
Qed.


Lemma digits2_pos_unique (p : positive) (D : Z) :
  (2 ^ (D - 1) <= Zpos p < 2 ^ D)%Z -> (1 <= D)%Z -> Zpos (digits2_pos p) = D.
Proof.
  intros Hp HD. pose proof (digits2_pos_bounds p) as Hb.
  destruct (Z.lt_trichotomy (Zpos (digits2_pos p)) D) as [Hlt|[Heq|Hgt]]; [|done|].
  - assert ((2 ^ Zpos (digits2_pos p) <= 2 ^ (D - 1))%Z) by (apply Z.pow_le_mono_r; lia).
    lia.
  - assert ((2 ^ D <= 2 ^ (Zpos (digits2_pos p) - 1))%Z) by (apply Z.pow_le_mono_r; lia).
    lia.
Qed.

(** An integer beyond [2^53] is rounded to a number beyond [2^53], or
    to an infinity. *)
Lemma binary_round_large (s : bool) (p : positive) :
  (2 ^ 53 < Zpos p)%Z ->
  match Js.toIntegral (binary_round Js.prec Js.emax s p 0) with
  | Js.Int k => if s then (k <= - 2 ^ 53)%Z else (2 ^ 53 <= k)%Z
  | Js.PosInf => s = false
  | Js.NegInf => s = true
  | Js.NaN => False
  end.
Proof.
  intros Hp. pose proof (digits2_pos_bounds p) as Hb.
  set (d := Zpos (digits2_pos p)) in *.
  assert (Hd : (54 <= d)%Z).
  { destruct (Z.le_gt_cases 54 d) as [?|Hlt]; [done|].
    assert ((2 ^ d <= 2 ^ 53)%Z) by (apply Z.pow_le_mono_r; lia). lia. }
  unfold binary_round. fold d.
  assert (Hf : fexp Js.prec Js.emax (d + 0) = (d - 53)%Z).
  { unfold fexp, emin, Js.prec, Js.emax. lia. }
  rewrite Hf. unfold shl_align.
  destruct (d - 53 - 0)%Z as [|n|n] eqn:Hn; [lia| |lia].
  unfold binary_round_aux, shr_fexp. cbn [Zdigits2 shr_record_of_loc]. fold d.
  rewrite Hf, Hn. cbn [shr].
  destruct (iter_shr_1_value n {| shr_m := Zpos p; shr_r := false; shr_s := false |})
    as [Hm1' Hm1]; [simpl; lia|].
  cbn [shr_m] in Hm1.
  set (r1 := SpecFloat.iter_pos shr_1 n _) in *.
  assert (Hpow : (2 ^ (d - 1) = 2 ^ 52 * 2 ^ Zpos n)%Z).
  { rewrite <- Z.pow_add_r by lia. f_equal. lia. }
  assert (Hpow' : (2 ^ d = 2 ^ 53 * 2 ^ Zpos n)%Z).
  { rewrite <- Z.pow_add_r by lia. f_equal. lia. }
  assert (H2n : (0 < 2 ^ Zpos n)%Z) by (apply Z.pow_pos_nonneg; lia).
  assert (Hr1 : (2 ^ 52 <= shr_m r1 < 2 ^ 53)%Z).
  { rewrite Hm1. split.
    - apply Z.div_le_lower_bound; [done|]. lia.
    - apply Z.div_lt_upper_bound; [done|]. lia. }
  set (m2 := round_nearest_even (shr_m r1) (loc_of_shr_record r1)).
  assert (Hm2 : (2 ^ 52 <= m2 <= 2 ^ 53)%Z).
  { unfold m2, round_nearest_even. destruct (loc_of_shr_record r1) as [|[| |]]; try lia.
    destruct (Z.even (shr_m r1)); lia. }
  destruct m2 as [|q|q] eqn:Hq; [lia| |lia].
  cbn [Zdigits2 shr_record_of_loc].
  destruct (decide (Zpos q = 2 ^ 53)%Z) as [Heq|Hne].
  - assert (q = 9007199254740992%positive) as -> by lia.
    change (Zpos (digits2_pos 9007199254740992)) with 54%Z.
    assert (Hf2 : (fexp Js.prec Js.emax (54 + (0 + Zpos n)) - (0 + Zpos n) = 1)%Z).
    { unfold fexp, emin, Js.prec, Js.emax. lia. }
    rewrite Hf2. cbn [shr SpecFloat.iter_pos shr_1 shr_m].
    destruct (0 + Zpos n + 1 <=? Js.emax - Js.prec)%Z; [|by destruct s].
    cbn [Js.toIntegral].
    assert (Hv : (2 ^ 53 <= Z.shiftl 4503599627370496 (0 + Zpos n + 1))%Z).
    { rewrite Z.shiftl_mul_pow2 by lia.
      replace (0 + Zpos n + 1)%Z with (1 + Zpos n)%Z by lia.
      rewrite Z.pow_add_r by lia. change (2 ^ 1)%Z with 2%Z. nia. }
    destruct s; simpl; lia.
  - assert (Hdq : Zpos (digits2_pos q) = 53%Z).
    { apply digits2_pos_unique; [|lia]. change (53 - 1)%Z with 52%Z. lia. }
    rewrite Hdq.
    assert (Hf2 : (fexp Js.prec Js.emax (53 + (0 + Zpos n)) - (0 + Zpos n) = 0)%Z).
    { unfold fexp, emin, Js.prec, Js.emax. lia. }
    rewrite Hf2. cbn [shr shr_m].
    destruct (0 + Zpos n <=? Js.emax - Js.prec)%Z; [|by destruct s].
    cbn [Js.toIntegral].
    assert (Hv : (2 ^ 53 <= Z.shiftl (Zpos q) (0 + Zpos n))%Z).
    { rewrite Z.shiftl_mul_pow2 by lia.
      assert ((2 <= 2 ^ (0 + Zpos n))%Z).
      { change 2%Z with (2 ^ 1)%Z at 1. apply Z.pow_le_mono_r; lia. }
      nia. }
    destruct s; simpl; lia.
Qed.

Lemma ofZ_large (z : Z) :
  ((2 ^ 53 < z)%Z ->
   match Js.toIntegral (Js.ofZ z) with
   | Js.Int k => (2 ^ 53 <= k)%Z
   | Js.PosInf => True
   | _ => False
   end)
  /\ ((z < - 2 ^ 53)%Z ->
      match Js.toIntegral (Js.ofZ z) with
      | Js.Int k => (k <= - 2 ^ 53)%Z
      | Js.NegInf => True
      | _ => False
      end).
Proof.
  unfold Js.ofZ, binary_normalize. split; intros Hz.
  - destruct z as [|p|p]; [lia| |lia].
    pose proof (binary_round_large false p Hz) as H.
    by destruct (Js.toIntegral _).
  - destruct z as [|p|p]; [lia|lia|].
    pose proof (binary_round_large true p ltac:(lia)) as H.
    by destruct (Js.toIntegral _).
Qed.

(** So the sum of two integers is exact as long as it stays within
    [2^53]; beyond, it is rounded. *)
Lemma add_exact (a b : Z) :
  (Z.abs (a + b) <= 2 ^ 53)%Z -> Js.add (Js.Int a) (Js.Int b) = Js.Int (a + b).
Proof. intros H. simpl. by apply ofZ_exact. Qed.

Example add_rounds :
  Js.add (Js.Int (2 ^ 53)) (Js.Int 1) = Js.Int (2 ^ 53)
  /\ Js.add (Js.Int (2 ^ 53)) (Js.Int 3) = Js.Int (2 ^ 53 + 4).
Proof. split; vm_compute; reflexivity. Qed.

(** The quotient is rounded before [Math.round] sees it: the double of
    0.25 divided by the double of 0.1 is the double 2.5, although the
    quotient of the two values is below 2.5. *)
Example MathRound_of_rounded_quotient :
  let quarter := Js.div (Js.ofZ 1) (Js.ofZ 4) in
  let tenth := Js.div (Js.ofZ 1) (Js.ofZ 10) in
  Js.div quarter tenth = Js.div (Js.ofZ 5) (Js.ofZ 2)
  /\ MathRound (Js.div quarter tenth) = Js.Int 3
  /\ MathRound (Js.div (Js.ofZ (-5)) (Js.ofZ 2)) = Js.Int (-2)
  /\ MathRound (Js.div (Js.ofZ 0) (Js.ofZ 0)) = Js.NaN
  /\ MathRound (Js.div (Js.ofZ 1) (Js.ofZ 0)) = Js.PosInf
  /\ MathRound (Js.div (Js.ofZ (-1)) (Js.ofZ 0)) = Js.NegInf.
Proof. repeat split; vm_compute; reflexivity. Qed.

End number_facts.

(** ** [getProjection] *)

Section projection_facts.
Context {T : Type}.
Implicit Types (flat visible : list (Flat.t T)) (d : Z).

Lemma findParentBack_spec visible d : forall i, i < length visible ->
  match findParentBack visible d i with
  | Some pid =>
    exists j m, j <= i /\ visible !! j = Some m /\ Flat.depth m = d /\ pid = Flat.id m
                /\ forall k m', j < k <= i -> visible !! k = Some m' -> Flat.depth m' ≠ d
  | None => forall j m, j <= i -> visible !! j = Some m -> Flat.depth m ≠ d
  end.
Proof.
  induction i as [|i IH]; intros Hi.
  - simpl. destruct (visible !! 0) as [n|] eqn:Hn.
    + destruct (Z.eqb_spec (Flat.depth n) d) as [Hd|Hd].
      * exists 0, n. repeat split; try done. intros k m' Hk. lia.
      * intros j m Hj Hm. assert (j = 0) as -> by lia. congruence.
    + apply lookup_ge_None in Hn. lia.
  - simpl. destruct (visible !! S i) as [n|] eqn:Hn.
    + destruct (Z.eqb_spec (Flat.depth n) d) as [Hd|Hd].
      * exists (S i), n. repeat split; try done. intros k m' Hk. lia.
      * specialize (IH ltac:(lia)).
        destruct (findParentBack visible d i) as [pid|].
        -- destruct IH as (j & m & Hj & Hm & Hdm & Hpid & Hnear).
           exists j, m. repeat split; try done; [lia|].
           intros k m' Hk Hm'. destruct (decide (k = S i)) as [->|Hne].
           ++ congruence.
           ++ apply (Hnear k m'); [lia|done].
        -- intros j m Hj Hm. destruct (decide (j = S i)) as [->|Hne].
           ++ congruence.
           ++ apply (IH j m); [lia|done].
    + apply lookup_ge_None in Hn. lia.
Qed.

Lemma findNode_list_find flat (k : string) :
  findNode flat k = snd <$> list_find (fun n => Flat.id n = k) flat.
Proof. reflexivity. Qed.

(** A subsequence sits in the list in the same order. *)
Lemma sublist_embedding {A} (l1 l2 : list A) : sublist l1 l2 ->
  exists f : nat -> nat,
    (forall a b, a < b -> f a < f b)
    /\ forall k x, l1 !! k = Some x -> l2 !! f k = Some x.
Proof.
  induction 1 as [|x l1 l2 Hsub IH|x l1 l2 Hsub IH].
  - exists (fun k => k). split; [done|]. intros k x Hk. by rewrite lookup_nil in Hk.
  - destruct IH as (f & Hmono & Hf).
    exists (fun k => match k with 0 => 0 | S k' => S (f k') end). split.
    + intros [|a] [|b] Hab; try lia. specialize (Hmono a b ltac:(lia)). lia.
    + intros [|k] y Hk; simpl in *; [done|]. by apply Hf.
  - destruct IH as (f & Hmono & Hf). exists (fun k => S (f k)). split.
    + intros a b Hab. specialize (Hmono a b Hab). lia.
    + intros k y Hk. simpl. by apply Hf.
Qed.

Lemma lookup_id_inj flat (a b : nat) (n m : Flat.t T) :
  NoDup (map Flat.id flat) -> flat !! a = Some n -> flat !! b = Some m ->
  Flat.id n = Flat.id m -> a = b.
Proof.
  intros Hnd Ha Hb Hid. eapply NoDup_lookup; [exact Hnd| |].
  - rewrite list_lookup_fmap, Ha. reflexivity.
  - rewrite list_lookup_fmap, Hb. simpl. by rewrite Hid.
Qed.

(** In the visible sequence of a tree-shaped array, a node that is not a
    root has its parent before it, one level up; a root has depth 0. *)
Lemma visible_parent_before flat (E : gset string) (i : nat) (n : Flat.t T) :
  NoDup (map Flat.id flat) -> depthsFollowParents flat ->
  getVisibleNodes flat E !! i = Some n ->
  (Flat.parentId n = None /\ Flat.depth n = 0%Z)
  \/ exists a m, a < i /\ getVisibleNodes flat E !! a = Some m
                 /\ Flat.parentId n = Some (Flat.id m)
                 /\ Flat.depth n = (Flat.depth m + 1)%Z.
Proof.
  intros Hnd Hdep Hi.
  pose proof (depthsFollowParents_parentsFirst flat Hnd Hdep) as Hwf.
  destruct (sublist_embedding _ _ (getVisibleNodes_sublist E flat)) as (f & Hmono & Hf).
  pose proof (Hf _ _ Hi) as Hfi.
  destruct (Hdep _ _ Hfi) as [?|(j' & m & Hj' & Hm & Hp & Hd)]; [by left|]. right.
  assert (Hnflat : n ∈ flat) by (apply list_elem_of_lookup; by exists (f i)).
  assert (Hnvis : n ∈ getVisibleNodes flat E) by (apply list_elem_of_lookup; by exists i).
  apply (visible_local E flat n Hwf Hnflat) in Hnvis. rewrite Hp in Hnvis.
  destruct Hnvis as (m' & Hm' & Hid' & _).
  apply list_elem_of_lookup in Hm' as [a Ha].
  pose proof (Hf _ _ Ha) as Hfa.
  assert (f a = j') by (by eapply (lookup_id_inj flat)).
  assert (m' = m) as -> by congruence.
  exists a, m. split; [|done].
  destruct (decide (a < i)) as [?|Hge]; [done|]. exfalso.
  destruct (decide (a = i)) as [->|Hne]; [lia|].
  specialize (Hmono i a ltac:(lia)). lia.
Qed.

(** So every depth from 0 to that of a visible node is found at or before
    it in the visible sequence. *)
Lemma visible_depth_before flat (E : gset string) :
  NoDup (map Flat.id flat) -> depthsFollowParents flat ->
  forall (dn : nat) (i : nat) (n : Flat.t T),
    getVisibleNodes flat E !! i = Some n -> Flat.depth n = Z.of_nat dn ->
    forall c, (0 <= c <= Z.of_nat dn)%Z ->
    exists j m, j <= i /\ getVisibleNodes flat E !! j = Some m /\ Flat.depth m = c.
Proof.
  intros Hnd Hdep dn. induction dn as [|dn IH]; intros i n Hi Hd c Hc.
  - exists i, n. split; [done|]. split; [done|]. lia.
  - destruct (decide (c = Z.of_nat (S dn))) as [->|Hne].
    { exists i, n. by split. }
    destruct (visible_parent_before flat E i n Hnd Hdep Hi)
      as [[_ H0]|(a & m & Ha & Hm & _ & Hdm)]; [lia|].
    destruct (IH a m Hm ltac:(lia) c ltac:(lia)) as (j & m' & Hj & Hm' & Hd').
    exists j, m'. split; [lia|done].
Qed.

Lemma visible_depth_nonneg flat (E : gset string) (i : nat) (n : Flat.t T) :
  NoDup (map Flat.id flat) -> depthsFollowParents flat ->
  getVisibleNodes flat E !! i = Some n -> (0 <= Flat.depth n)%Z.
Proof.
  intros Hnd Hdep. revert n. induction i as [i IH] using lt_wf_ind. intros n Hi.
  destruct (visible_parent_before flat E i n Hnd Hdep Hi)
    as [[_ H0]|(a & m & Ha & Hm & _ & Hdm)]; [lia|].
  specialize (IH a Ha m Hm). lia.
Qed.

(** What [Math.max(0, x)] clamped between two depths is, for a number
    [x] that is not NaN. *)
Lemma clamp_number (x : Js.integral) (lower upper : Z) :
  x ≠ Js.NaN ->
  exists c,
    Js.min (Js.max (Js.max (Js.Int 0) x) (Js.Int lower)) (Js.Int upper) = Js.Int c
    /\ ((lower <= upper)%Z -> (lower <= c <= upper)%Z)
    /\ (forall k, x = Js.Int k -> c = Z.min (Z.max (Z.max 0 k) lower) upper)
    /\ (x = Js.PosInf -> c = upper)
    /\ (x = Js.NegInf -> c = Z.min (Z.max 0 lower) upper).
Proof.
  intros Hx. destruct x as [k| | |]; [| | |done].
  - exists (Z.min (Z.max (Z.max 0 k) lower) upper). split; [done|].
    split; [lia|]. split; [by intros k' [= <-]|]. by split.
  - exists upper. split; [done|]. split; [lia|]. split; [done|]. by split.
  - exists (Z.min (Z.max 0 lower) upper). split; [done|].
    split; [lia|]. split; [done|]. by split.
Qed.

(** C2.  With the hovered node [over] the first node of the visible
    sequence whose id is [overId], at position [i], for every pointer
    offset and every indentation width: the depth returned by
    [getProjection] is [baseDepth + Math.round(offsetX / indentWidth)],
    floored at 0 by [Math.max] and clamped by
    [Math.min(Math.max(_, lower), upper)], in the arithmetic of numbers.
    When the rounded quotient is not NaN this depth is an integer, inside
    [lower, upper] when [lower <= upper]: the integer
    [min (max (max 0 (base + d)) lower) upper] for a rounded quotient [d]
    (as long as [base + d] or the upper bound stays within [2^53], where
    the rounding of the sum cannot show), [upper] for a quotient
    [+Infinity], the floor 0 clamped for [-Infinity].  The parent returned is the nearest
    node of depth [clamped - 1] at or before position [i] of the visible
    sequence, and [null] when the clamped depth is 0 (or when no such node
    exists).  When the flat array is [flattenTree] of a tree with unique
    ids and the visible sequence is its [getVisibleNodes], such a node
    exists whenever the clamped depth is positive.  When the rounded
    quotient is NaN ([0 / 0], or an offset or width that is NaN) every
    step gives NaN: the depth is NaN and the parent [null]. *)
Theorem getProjection_spec (flat visible : list (Flat.t T)) (activeId overId : string)
    (offsetX indentWidth : Js.number) (i : nat) (over : Flat.t T)
    (Hover : visible !! i = Some over)
    (Hid : Flat.id over = overId)
    (Hfirst : forall j m, j < i -> visible !! j = Some m -> Flat.id m ≠ overId) :
  let base :=
    match findNode flat activeId with
    | Some a => Flat.depth a
    | None => Flat.depth over
    end in
  let upper := if Flat.isGroup over then (Flat.depth over + 1)%Z else Flat.depth over in
  let lower :=
    match visible !! (i + 1) with
    | Some next => Flat.depth next
    | None => 0%Z
    end in
  let delta := MathRound (Js.div offsetX indentWidth) in
  let candidate := Js.max (Js.Int 0) (Js.add (Js.Int base) delta) in
  let clamped := Js.min (Js.max candidate (Js.Int lower)) (Js.Int upper) in
  exists pid,
    getProjection flat visible activeId overId offsetX indentWidth = (clamped, pid)
    /\ (delta = Js.NaN -> clamped = Js.NaN /\ pid = None)
    /\ (delta ≠ Js.NaN ->
        exists c,
          clamped = Js.Int c
          /\ ((lower <= upper)%Z -> (lower <= c <= upper)%Z)
          /\ (forall d, delta = Js.Int d ->
                        (Z.abs (base + d) <= 2 ^ 53)%Z \/ (upper <= 2 ^ 53)%Z ->
                        c = Z.min (Z.max (Z.max 0 (base + d)) lower) upper)
          /\ (delta = Js.PosInf -> c = upper)
          /\ (delta = Js.NegInf -> c = Z.min (Z.max 0 lower) upper)
          /\ ((c <= 0)%Z -> pid = None)
          /\ ((0 < c)%Z ->
              (exists j m, j <= i /\ visible !! j = Some m
                           /\ Flat.depth m = (c - 1)%Z /\ pid = Some (Flat.id m)
                           /\ forall k m', j < k <= i -> visible !! k = Some m' ->
                                           Flat.depth m' ≠ (c - 1)%Z)
              \/ (pid = None
                  /\ forall j m, j <= i -> visible !! j = Some m ->
                                 Flat.depth m ≠ (c - 1)%Z))
          /\ (forall (x : list (Nested.t T)) (E : gset string),
                flat = flattenTree x None 0%Z ->
                NoDup (map Flat.id flat) ->
                visible = getVisibleNodes flat E ->
                (0 < c)%Z ->
                exists j m, j <= i /\ visible !! j = Some m
                            /\ Flat.depth m = (c - 1)%Z /\ pid = Some (Flat.id m))).
Proof.
  intros base upper lower delta candidate clamped.
  assert (Htree : forall (x : list (Nested.t T)) (E : gset string) (c : Z),
             flat = flattenTree x None 0%Z ->
             NoDup (map Flat.id flat) ->
             visible = getVisibleNodes flat E ->
             (0 < c <= upper)%Z ->
             exists j m, j <= i /\ visible !! j = Some m
                         /\ Flat.depth m = (c - 1)%Z).
  { intros x E c Hflat Hnd Hvis Hc.
    assert (Hdep : depthsFollowParents flat) by (rewrite Hflat; apply flattenTree_depths).
    rewrite Hvis in Hover.
    pose proof (visible_depth_nonneg flat E i over Hnd Hdep Hover) as Hnonneg.
    destruct (visible_depth_before flat E Hnd Hdep (Z.to_nat (Flat.depth over)) i over Hover
                ltac:(lia) (c - 1)%Z) as (j & m & Hj & Hm & Hd).
    { unfold upper in *. destruct (Flat.isGroup over); lia. }
    exists j, m. by rewrite Hvis. }
  assert (Hfind : list_find (fun n => Flat.id n = overId) visible = Some (i, over)).
  { apply list_find_Some. split; [done|]. split; [done|].
    intros j y Hy Hj. by apply (Hfirst j y). }
  unfold getProjection. rewrite Hfind. cbv zeta.
  fold (findNode flat activeId).
  assert (Hbase : match list_find (fun n => Flat.id n = activeId) flat with
                  | Some (_, a) => Flat.depth a
                  | None => Flat.depth over
                  end = base).
  { unfold base, findNode. by destruct (list_find _ flat) as [[? ?]|]. }
  rewrite Hbase. fold upper lower delta candidate clamped.
  eexists. split; [reflexivity|]. split.
  - intros Hnan. unfold clamped, candidate. rewrite Hnan. by simpl.
  - intros Hnum.
    assert (Hsum : Js.add (Js.Int base) delta ≠ Js.NaN) by (by apply add_not_nan).
    destruct (clamp_number _ lower upper Hsum) as (c & Hc & Hwin & Hint & Hpos & Hneg).
    fold candidate clamped in Hc. exists c. split; [done|]. split; [done|]. split.
    { intros d Hd Hsafe.
      destruct (Z.le_gt_cases (Z.abs (base + d)) (2 ^ 53)) as [Hin|Hout].
      { apply Hint. rewrite Hd. by apply add_exact. }
      destruct Hsafe as [?|Hup]; [lia|].
      rewrite Hd in Hint, Hpos, Hneg. cbn [Js.add] in Hint, Hpos, Hneg.
      destruct (ofZ_large (base + d)) as [Hbig Hsmall].
      destruct (Z.le_gt_cases 0 (base + d)) as [H0|H0].
      - specialize (Hbig ltac:(lia)).
        destruct (Js.toIntegral (Js.ofZ (base + d))) as [k| | |]; try done.
        + rewrite (Hint k eq_refl). lia.
        + rewrite (Hpos eq_refl). lia.
      - specialize (Hsmall ltac:(lia)).
        destruct (Js.toIntegral (Js.ofZ (base + d))) as [k| | |]; try done.
        + rewrite (Hint k eq_refl). lia.
        + rewrite (Hneg eq_refl). lia. }
    split; [intros Hd; apply Hpos; by rewrite Hd|].
    split; [intros Hd; apply Hneg; by rewrite Hd|].
    rewrite Hc. cbn [Js.gt].
    assert (Hupper : (0 < c)%Z -> (c <= upper)%Z).
    { intros H0. unfold clamped in Hc.
      destruct (Js.max candidate (Js.Int lower)); simpl in Hc; try done;
        injection Hc as <-; lia. }
    destruct (Z.ltb_spec 0 c) as [Hc0|Hc0].
    + split; [lia|].
      pose proof (findParentBack_spec visible (c - 1)%Z i
                    ltac:(by eapply lookup_lt_Some)) as Hspec.
      destruct (findParentBack visible (c - 1)%Z i) as [pid|].
      * destruct Hspec as (j & m & Hj & Hm & Hd & Hpid & Hnear). split.
        -- intros _. left. exists j, m. repeat split; try done. by rewrite Hpid.
        -- intros x E Hflat Hnd Hvis _. exists j, m. repeat split; try done.
           by rewrite Hpid.
      * split.
        -- intros _. right. split; [done|]. exact Hspec.
        -- intros x E Hflat Hnd Hvis _. exfalso.
           destruct (Htree x E c Hflat Hnd Hvis ltac:(split; [done|by apply Hupper]))
             as (j & m & Hj & Hm & Hd).
           by apply (Hspec j m).
    + split; [done|]. split; [lia|]. intros; lia.
Qed.

End projection_facts.

Section projection_examples.
Open Scope string_scope.

(** Dragging ["b"] over the leaf ["a1"] of Scenario A (["a"] expanded)
    with the pointer 45 pixels to the right at 20 pixels per level: the
    candidate depth 2 is clamped to 1, the parent is ["a"]. *)
Lemma getProjection_spec_witness :
  getProjection scenarioAFlat (getVisibleNodes scenarioAFlat {["a"]}) "b" "a1"
                (Js.ofZ 45) (Js.ofZ 20)
  = (Js.Int 1, Some "a").
Proof.
  destruct (getProjection_spec scenarioAFlat (getVisibleNodes scenarioAFlat {["a"]})
              "b" "a1" (Js.ofZ 45) (Js.ofZ 20) 1
              (Flat.mk "a1" tt false false (Some "a") 1%Z 0))
    as (pid & Hproj & _ & Hnum).
  - reflexivity.
  - reflexivity.
  - intros j m Hj Hm. assert (j = 0) as -> by lia.
    vm_compute in Hm. injection Hm as <-. discriminate.
  - rewrite Hproj.
    destruct (Hnum ltac:(by vm_compute)) as (c & Hc & _ & _ & _ & _ & _ & Hpar & _).
    assert (c = 1%Z) as -> by (vm_compute in Hc; by injection Hc).
    rewrite Hc. f_equal.
    destruct (Hpar ltac:(lia))
      as [(j & m & Hj & Hm & Hd & -> & _)|(_ & Hnone)].
    + destruct j as [|[|j]]; [| |lia].
      * vm_compute in Hm. injection Hm as <-. reflexivity.
      * vm_compute in Hm. injection Hm as <-. vm_compute in Hd. discriminate.
    + exfalso. apply (Hnone 0 (Flat.mk "a" tt true true None 0%Z 0)); [lia|reflexivity|].
      vm_compute. reflexivity.
Defined.

(** Dragging ["v"] over the leaf ["u"] at depth 3 with the offset 0.25
    at an indentation width of 0.1: the double quotient is 2.5 and is
    rounded to 3, the depth is 3 and the parent ["t"]. *)
Example getProjection_double_quotient :
  let quarter := Js.div (Js.ofZ 1) (Js.ofZ 4) in
  let tenth := Js.div (Js.ofZ 1) (Js.ofZ 10) in
  MathRound (Js.div quarter tenth) = Js.Int 3
  /\ getProjection deepChainFlat deepChainFlat "v" "u" quarter tenth = (Js.Int 3, Some "t").
Proof. split; vm_compute; reflexivity. Qed.

(** With an indentation width of 0: an offset that is not 0 gives an
    infinite quotient and the depth is a bound of the window; the offset
    0 gives NaN. *)
Example getProjection_zero_width :
  getProjection scenarioAFlat (getVisibleNodes scenarioAFlat {["a"]}) "b" "a1"
                (Js.ofZ 1) (Js.ofZ 0)
  = (Js.Int 1, Some "a")
  /\ getProjection scenarioAFlat (getVisibleNodes scenarioAFlat {["a"]}) "b" "a1"
                   (Js.ofZ (-1)) (Js.ofZ 0)
     = (Js.Int 0, None)
  /\ getProjection scenarioAFlat (getVisibleNodes scenarioAFlat {["a"]}) "b" "a1"
                   (Js.ofZ 0) (Js.ofZ 0)
     = (Js.NaN, None).
Proof. repeat split; vm_compute; reflexivity. Qed.

End projection_examples.

(** ** [buildTree] reads no depth *)

Section depth_facts.
Context {T : Type}.
Implicit Types (l : list (Flat.t T)) (n : Flat.t T).

(** What [buildTree] reads of a flat node. *)
Lemma buildCreate_reads n n' st :
  payload n = payload n' -> buildCreate st n = buildCreate st n'.
Proof.
  intros H. destruct n, n'. unfold payload in H. simpl in H. injection H as -> -> -> ->.
  done.
Qed.

Lemma buildLink_reads n n' (st : BuildState.t T) :
  payload n = payload n' -> Flat.parentId n = Flat.parentId n' ->
  buildLink st n = buildLink st n'.
Proof.
  intros H Hp. destruct n, n'. unfold payload in H. simpl in H, Hp.
  injection H as -> -> -> ->. subst. done.
Qed.

Lemma buildTree_reads l : forall l',
  map (fun n => (payload n, Flat.parentId n)) l
  = map (fun n => (payload n, Flat.parentId n)) l' ->
  buildTree l = buildTree l'.
Proof.
  intros l' Heq. unfold buildTree.
  assert (Hcreate : forall st, foldl buildCreate st l = foldl buildCreate st l').
  { revert l' Heq. induction l as [|n l IH]; intros [|n' l'] Heq st; try done.
    cbn [map] in Heq.
    assert (Hn : payload n = payload n') by congruence.
    assert (Hl : map (fun n => (payload n, Flat.parentId n)) l
                 = map (fun n => (payload n, Flat.parentId n)) l') by congruence.
    simpl. rewrite (buildCreate_reads n n' st Hn). by apply IH. }
  assert (Hlink : forall st, foldl buildLink st l = foldl buildLink st l').
  { clear Hcreate. revert l' Heq.
    induction l as [|n l IH]; intros [|n' l'] Heq st; try done.
    cbn [map] in Heq.
    assert (Hn : payload n = payload n') by congruence.
    assert (Hp : Flat.parentId n = Flat.parentId n') by congruence.
    assert (Hl : map (fun n => (payload n, Flat.parentId n)) l
                 = map (fun n => (payload n, Flat.parentId n)) l') by congruence.
    simpl. rewrite (buildLink_reads n n' st Hn Hp). by apply IH. }
  rewrite Hcreate. destruct (foldl buildCreate (∅, []) l') as [nodeMap arrays].
  by rewrite Hlink.
Qed.

(** The projected depth that [handleDragEnd] gives to the moved nodes
    does not show in the tree it hands to [onItemsChange]. *)
Lemma moveNodes_depth_unread (o : Dnd.Options T) (sourceNode : Flat.t T) (target : string)
    (pos : option DropPosition) (d d' : option Z) (parent : option string) :
  buildTree <$> moveNodes o sourceNode target pos d parent
  = buildTree <$> moveNodes o sourceNode target pos d' parent.
Proof.
  unfold moveNodes. cbv zeta.
  match goal with
  | |- _ <$> (if ?c then _ else _) = _ => destruct c; [done|]
  end.
  simpl. f_equal. apply buildTree_reads.
  rewrite !map_app, !map_map. f_equal. f_equal. apply map_ext. intros n.
  by destruct (bool_decide (Flat.id n ∈ _)).
Qed.

End depth_facts.
(** * Further properties of the code *)

(** ** [reindexSiblings] changes the index only, and is stable *)

Section reindex_more.
Context {T : Type}.
Implicit Types (l flat : list (Flat.t T)) (q : option string).

Lemma withIndex_same (n : Flat.t T) : withIndex n (Flat.index n) = n.
Proof. by destruct n. Qed.

Lemma withIndex_withIndex (n : Flat.t T) i j : withIndex (withIndex n i) j = withIndex n j.
Proof. done. Qed.

Lemma reindexFrom_strip l : forall c,
  map (fun n => withIndex n 0) (reindexFrom c l) = map (fun n => withIndex n 0) l.
Proof.
  induction l as [|n l IH]; intros c; simpl; [done|]. by rewrite IH.
Qed.

(** Only the fields other than [index] are read. *)
Lemma reindexFrom_ext l : forall l' c,
  map (fun n => withIndex n 0) l = map (fun n => withIndex n 0) l' ->
  reindexFrom c l = reindexFrom c l'.
Proof.
  induction l as [|n l IH]; intros [|n' l'] c Heq; try done.
  assert (Hn : withIndex n 0 = withIndex n' 0).
  { by apply (f_equal (fun k => default (withIndex n 0) (head k))) in Heq. }
  assert (Hl : map (fun n => withIndex n 0) l = map (fun n => withIndex n 0) l').
  { by apply (f_equal tail) in Heq. }
  simpl.
  assert (Hp : Flat.parentId n = Flat.parentId n').
  { by apply (f_equal Flat.parentId) in Hn. }
  assert (Hw : forall i, withIndex n i = withIndex n' i).
  { intros i. by rewrite <- (withIndex_withIndex n 0 i), Hn. }
  rewrite Hp, Hw. f_equal. by apply IH.
Qed.

Lemma reindexFrom_fixed l : forall c,
  (forall q, map Flat.index (siblingsOf q l) = seq (counterOf c q) (length (siblingsOf q l))) ->
  reindexFrom c l = l.
Proof.
  induction l as [|n l IH]; intros c Hc; simpl; [done|].
  assert (Hn : Flat.index n = counterOf c (Flat.parentId n)).
  { specialize (Hc (Flat.parentId n)). unfold siblingsOf in Hc.
    rewrite filter_cons in Hc. destruct (decide (Flat.parentId n = Flat.parentId n)); [|done].
    simpl in Hc. by injection Hc. }
  rewrite <- Hn, withIndex_same. f_equal. apply IH. intros q.
  specialize (Hc q). unfold siblingsOf in *. rewrite filter_cons in Hc.
  destruct (decide (Flat.parentId n = q)) as [Hq|Hq].
  - subst q. rewrite counterOf_insert_eq. simpl in Hc. injection Hc as _ Hc.
    rewrite Hc. f_equal. lia.
  - by rewrite counterOf_insert_ne.
Qed.

Lemma contiguous_fixed l : contiguousIndices l -> reindexSiblings l = l.
Proof.
  intros Hc. rewrite reindexSiblings_eq. apply reindexFrom_fixed. intros q.
  rewrite counterOf_empty, <- getSiblingCount_length. apply Hc.
Qed.

Lemma reindexSiblings_ids l : map Flat.id (reindexSiblings l) = map Flat.id l.
Proof.
  rewrite reindexSiblings_eq.
  pose proof (reindexFrom_strip l ∅) as H.
  apply (f_equal (map Flat.id)) in H. by rewrite !map_map in H.
Qed.

Lemma reindexSiblings_filter (P : Flat.t T -> Prop) `{forall n, Decision (P n)} l :
  (forall n i, P (withIndex n i) <-> P n) ->
  reindexSiblings (filter P (reindexSiblings l)) = reindexSiblings (filter P l).
Proof.
  intros HP. rewrite !(reindexSiblings_eq (filter _ _)). apply reindexFrom_ext.
  rewrite reindexSiblings_eq. generalize (∅ : gmap (option string) nat).
  induction l as [|n l IH]; intros c; simpl; [done|].
  rewrite !filter_cons.
  destruct (decide (P (withIndex n (counterOf c (Flat.parentId n))))) as [Hn|Hn];
    destruct (decide (P n)) as [Hn'|Hn']; try (by apply HP in Hn); try (by apply HP in Hn').
  - simpl. by rewrite IH.
  - exfalso. apply Hn. by apply HP.
  - apply IH.
Qed.

Lemma contiguous_index_bound l (e : Flat.t T) :
  contiguousIndices l -> e ∈ l -> Flat.index e < getSiblingCount l (Flat.parentId e).
Proof.
  intros Hc He.
  assert (Hin : Flat.index e ∈ map Flat.index (siblingsOf (Flat.parentId e) l)).
  { apply list_elem_of_fmap. exists e. split; [done|].
    unfold siblingsOf. by apply list_elem_of_filter. }
  rewrite Hc in Hin. apply elem_of_seq in Hin. lia.
Qed.

(** X1. [reindexSiblings] keeps the nodes and their order and
    changes nothing but [index]; applied to its own result it changes
    nothing. *)
Theorem reindexSiblings_idempotent :
  forall flat : list (Flat.t T),
    map (fun n => withIndex n 0) (reindexSiblings flat) = map (fun n => withIndex n 0) flat
    /\ reindexSiblings (reindexSiblings flat) = reindexSiblings flat.
Proof.
  intros flat. split.
  - rewrite reindexSiblings_eq. apply reindexFrom_strip.
  - apply contiguous_fixed, reindexSiblings_contiguous.
Qed.

(** X2. After [removeNodes] and after [insertNodes], the
    [index] of every node is below the number of nodes sharing its
    [parentId], the [siblingCount] of its row: [aria-posinset] never
    exceeds [aria-setsize]. *)
Theorem index_below_sibling_count :
  (forall (flat : list (Flat.t T)) (ids : list string) (e : Flat.t T),
      e ∈ removeNodes flat ids ->
      Flat.index e + 1 <= rowSiblingCount (removeNodes flat ids) e)
  /\ (forall (flat nodesToInsert : list (Flat.t T)) (p : option string) (k : Z) (e : Flat.t T),
         e ∈ insertNodes flat nodesToInsert p k ->
         Flat.index e + 1 <= rowSiblingCount (insertNodes flat nodesToInsert p k) e).
Proof.
  assert (Hrow : forall l (e : Flat.t T),
             rowSiblingCount l e = getSiblingCount l (Flat.parentId e)).
  { intros l e. by rewrite getSiblingCount_length. }
  split; intros; rewrite Hrow; unfold removeNodes, insertNodes in *.
  - pose proof (contiguous_index_bound _ e (reindexSiblings_contiguous _) H). lia.
  - pose proof (contiguous_index_bound _ e (reindexSiblings_contiguous _) H). lia.
Qed.

End reindex_more.

Section reindex_more_examples.
Open Scope string_scope.

Lemma index_below_sibling_count_witness :
  Flat.index (Flat.mk "b" tt false false None 0%Z 1) + 1
  <= rowSiblingCount (removeNodes insertExampleFlat ["a1"]) (Flat.mk "b" tt false false None 0%Z 1)
  /\ Flat.index (Flat.mk "n" tt false false (Some "a") 1%Z 0) + 1
     <= rowSiblingCount (insertNodes insertExampleFlat insertExampleNew (Some "a") 0)
                        (Flat.mk "n" tt false false (Some "a") 1%Z 0).
Proof.
  split.
  - apply (proj1 index_below_sibling_count).
    by apply (list_elem_of_lookup_2 _ 1).
  - apply (proj2 index_below_sibling_count).
    by apply (list_elem_of_lookup_2 _ 1).
Defined.

End reindex_more_examples.

(** ** [flattenTree]: order, parents, sibling indices, default expansion *)

Section flatten_more.
Context {T : Type}.
Implicit Types (node : Nested.t T) (nodes cs rest : list (Nested.t T)).
Implicit Types (p q : option string) (d : Z) (e m : Flat.t T) (L : list (Flat.t T)).

(** Induction on forests: the children of the first node, then the
    nodes after it. *)
Lemma forest_ind (P : list (Nested.t T) -> Prop) :
  P [] ->
  (forall i dt g rest, P rest -> P (Nested.mk i dt g None :: rest)) ->
  (forall i dt g cs rest, P cs -> P rest -> P (Nested.mk i dt g (Some cs) :: rest)) ->
  forall nodes, P nodes.
Proof.
  intros Hnil Hleaf Hnode.
  assert (Hcons : forall node rest, P rest -> P (node :: rest)).
  { induction node as [i dt g|i dt g cs IH] using Nested_ind'; intros rest Hrest.
    - by apply Hleaf.
    - apply Hnode; [|done]. clear Hrest. induction IH as [|c cs Hc _ IHcs]; [done|].
      by apply Hc. }
  induction nodes as [|node rest IH]; [done|]. by apply Hcons.
Qed.

Lemma flattenFrom_leaf i dt g rest p d k :
  flattenFrom (Nested.mk i dt g None :: rest) p d k
  = headOf (Nested.mk i dt g None) p d k :: flattenFrom rest p d (S k).
Proof.
  change (flattenFrom (Nested.mk i dt g None :: rest) p d k)
    with (flattenNode (Nested.mk i dt g None) p d k ++ flattenFrom rest p d (S k)).
  by rewrite flattenNode_eq.
Qed.

Lemma flattenFrom_node i dt g cs rest p d k :
  flattenFrom (Nested.mk i dt g (Some cs) :: rest) p d k
  = headOf (Nested.mk i dt g (Some cs)) p d k
    :: flattenFrom cs (Some i) (d + 1)%Z 0 ++ flattenFrom rest p d (S k).
Proof.
  change (flattenFrom (Nested.mk i dt g (Some cs) :: rest) p d k)
    with (flattenNode (Nested.mk i dt g (Some cs)) p d k ++ flattenFrom rest p d (S k)).
  by rewrite flattenNode_eq.
Qed.

(** Every flat node is at the top of the forest, or hangs one level
    deeper under an earlier flat node whose children are loaded. *)
Lemma flattenFrom_parents_precede nodes : forall p d i j e,
  flattenFrom nodes p d i !! j = Some e ->
  (Flat.parentId e = p /\ Flat.depth e = d)
  \/ exists j' m, j' < j /\ flattenFrom nodes p d i !! j' = Some m
                   /\ Flat.parentId e = Some (Flat.id m)
                   /\ Flat.depth e = (Flat.depth m + 1)%Z
                   /\ Flat.childrenLoaded m = true.
Proof.
  induction nodes as [|i0 dt g rest IHrest|i0 dt g cs rest IHcs IHrest] using forest_ind;
    intros p d i j e He.
  - simpl in He. by rewrite lookup_nil in He.
  - rewrite flattenFrom_leaf in *. destruct j as [|j].
    + injection He as <-. by left.
    + simpl in He. destruct (IHrest _ _ _ _ _ He) as [?|(j' & m & Hj' & Hm & Hp & Hd & Hl)];
        [by left|].
      right. exists (S j'), m. split; [lia|done].
  - rewrite flattenFrom_node in *. destruct j as [|j].
    + injection He as <-. by left.
    + simpl in He. apply lookup_app_Some in He as [He|[Hlen He]].
      * right. destruct (IHcs _ _ _ _ _ He) as [[Hp Hd]|(j' & m & Hj' & Hm & Hp & Hd & Hl)].
        -- exists 0, (headOf (Nested.mk i0 dt g (Some cs)) p d i).
           split; [lia|]. split; [done|]. split; [done|]. split; [by rewrite Hd|done].
        -- exists (S j'), m. split; [lia|]. split; [|done].
           simpl. rewrite lookup_app_l; [done|]. by eapply lookup_lt_Some.
      * destruct (IHrest _ _ _ _ _ He) as [?|(j' & m & Hj' & Hm & Hp & Hd & Hl)]; [by left|].
        right. exists (S (length (flattenFrom cs (Some i0) (d + 1)%Z 0) + j')), m.
        split; [lia|]. split; [|done]. simpl. rewrite lookup_app_r by lia.
        by replace (length (flattenFrom cs (Some i0) (d + 1)%Z 0) + j'
                    - length (flattenFrom cs (Some i0) (d + 1)%Z 0)) with j' by lia.
Qed.

Lemma siblingsOf_app q (L1 L2 : list (Flat.t T)) :
  siblingsOf q (L1 ++ L2) = siblingsOf q L1 ++ siblingsOf q L2.
Proof. unfold siblingsOf. apply filter_app. Qed.

Lemma siblingsOf_none q L :
  (forall e, e ∈ L -> Flat.parentId e ≠ q) -> siblingsOf q L = [].
Proof. intros H. unfold siblingsOf. by apply filter_none. Qed.

(** The sibling indices in the flattening of a forest: under the parent
    passed in they continue from [i], under any other parent they start
    from 0. *)
Lemma flattenFrom_indices nodes : forall p d i,
  NoDup (map Flat.id (flattenFrom nodes p d i)) ->
  (forall e, e ∈ flattenFrom nodes p d i -> p ≠ Some (Flat.id e)) ->
  forall q,
    map Flat.index (siblingsOf q (flattenFrom nodes p d i))
    = seq (if decide (q = p) then i else 0)
          (length (siblingsOf q (flattenFrom nodes p d i))).
Proof.
  induction nodes as [|i0 dt g rest IHrest|i0 dt g cs rest IHcs IHrest] using forest_ind;
    intros p d i Hnd Hp q.
  - done.
  - rewrite flattenFrom_leaf in *.
    assert (Hnd' : NoDup (map Flat.id (flattenFrom rest p d (S i)))).
    { simpl in Hnd. by apply NoDup_cons in Hnd as [_ ?]. }
    assert (Hp' : forall e, e ∈ flattenFrom rest p d (S i) -> p ≠ Some (Flat.id e)).
    { intros e He. apply Hp. by right. }
    specialize (IHrest p d (S i) Hnd' Hp' q).
    unfold siblingsOf in *. rewrite filter_cons. simpl.
    destruct (decide (p = q)) as [<-|Hq].
    + destruct (decide (p = p)); [|done]. simpl. by rewrite IHrest.
    + destruct (decide (q = p)); [by subst|]. done.
  - rewrite flattenFrom_node in *.
    set (h := headOf (Nested.mk i0 dt g (Some cs)) p d i) in *.
    set (C := flattenFrom cs (Some i0) (d + 1)%Z 0) in *.
    set (R := flattenFrom rest p d (S i)) in *.
    assert (Hsplit : NoDup (map Flat.id C) /\ NoDup (map Flat.id R)
                     /\ (forall a b, a ∈ C -> b ∈ R -> Flat.id a ≠ Flat.id b)
                     /\ (forall a, a ∈ C -> Flat.id a ≠ i0)
                     /\ (forall b, b ∈ R -> Flat.id b ≠ i0)).
    { simpl in Hnd. apply NoDup_cons in Hnd as [Hh Hnd].
      destruct (NoDup_ids_app _ _ Hnd) as (HC & HR & Hapart).
      split; [done|]. split; [done|]. split; [done|].
      split; intros a Ha Heq; apply Hh; rewrite <- Heq;
        apply list_elem_of_fmap; exists a; (split; [done|]); apply elem_of_app; auto. }
    destruct Hsplit as (HndC & HndR & Hapart & HC0 & HR0).
    assert (HpC : forall e, e ∈ C -> Some i0 ≠ Some (Flat.id e)).
    { intros e He Heq. injection Heq as Heq. by apply (HC0 e). }
    assert (HpR : forall e, e ∈ R -> p ≠ Some (Flat.id e)).
    { intros e He. apply Hp. right. apply elem_of_app. by right. }
    specialize (IHcs (Some i0) (d + 1)%Z 0 HndC HpC q).
    specialize (IHrest p d (S i) HndR HpR q).
    fold C in IHcs. fold R in IHrest.
    change (h :: C ++ R) with ([h] ++ C ++ R). rewrite !siblingsOf_app.
    destruct (decide (q = p)) as [->|Hq].
    + assert (HCp : siblingsOf p C = []).
      { apply siblingsOf_none. intros e He Hpe.
        destruct (flattenFrom_parent cs _ _ _ e He) as [Hq|(m & Hm & Hq & _)].
        - apply (Hp h); [by left|]. simpl. congruence.
        - apply (Hp m); [|congruence]. right. apply elem_of_app. by left. }
      rewrite HCp. unfold siblingsOf at 1 3. rewrite filter_cons, filter_nil. simpl.
      destruct (decide (p = p)); [|done]. simpl. rewrite IHrest.
      by destruct (decide (p = p)).
    + unfold siblingsOf at 1 4. rewrite filter_cons, filter_nil. simpl.
      destruct (decide (p = q)) as [|_]; [by subst|]. simpl.
      destruct (decide (q = p)) as [|_]; [done|].
      destruct (siblingsOf q R) as [|b bs] eqn:ER.
      * rewrite app_nil_r, IHcs. f_equal. by destruct (decide (q = Some i0)).
      * assert (Hb : b ∈ R /\ Flat.parentId b = q).
        { assert (Hin : b ∈ siblingsOf q R) by (rewrite ER; by left).
          unfold siblingsOf in Hin. by apply list_elem_of_filter in Hin as [? ?]. }
        destruct Hb as [HbR Hbq].
        assert (HCq : siblingsOf q C = []).
        { apply siblingsOf_none. intros e He Hpe.
          destruct (flattenFrom_parent rest _ _ _ b HbR) as [Hb|(m & Hm & Hb & _)];
            [congruence|].
          destruct (flattenFrom_parent cs _ _ _ e He) as [He'|(m' & Hm' & He' & _)].
          - apply (HR0 m Hm). congruence.
          - apply (Hapart m' m Hm' Hm). congruence. }
        rewrite HCq. simpl. simpl in IHrest. by rewrite IHrest.
Qed.

Lemma visible_all_expanded (E : gset string) L :
  (forall e, e ∈ L -> Flat.isGroup e = true -> Flat.id e ∈ E) ->
  getVisibleNodes L E = L.
Proof.
  intros HE. unfold getVisibleNodes.
  assert (H : forall res, foldl (visibleStep E) (res, ∅) L = (res ++ L, ∅)).
  { induction L as [|n L IH]; intros res; simpl.
    - by rewrite app_nil_r.
    - assert (Hn : Flat.isGroup n && negb (bool_decide (Flat.id n ∈ E)) = false).
      { destruct (Flat.isGroup n) eqn:Hg; [|done]. simpl.
        rewrite bool_decide_eq_true_2; [done|]. apply HE; [by left|done]. }
      destruct (Flat.parentId n) as [p|].
      + rewrite bool_decide_eq_false_2 by set_solver. rewrite Hn.
        rewrite IH; [by rewrite <- app_assoc|]. intros e He. apply HE. by right.
      + rewrite Hn. rewrite IH; [by rewrite <- app_assoc|]. intros e He. apply HE. by right. }
  by rewrite H.
Qed.

Lemma groups_collected nodes : forall p d i e,
  e ∈ flattenFrom nodes p d i -> Flat.isGroup e = true ->
  Flat.id e ∈ collectAllGroupIds nodes.
Proof.
  unfold collectAllGroupIds.
  induction nodes as [|i0 dt g rest IHrest|i0 dt g cs rest IHcs IHrest] using forest_ind;
    intros p d i e He Hg.
  - by apply elem_of_nil in He.
  - rewrite flattenFrom_leaf in He. simpl. apply elem_of_cons in He as [->|He].
    + simpl in Hg. destruct g as [[|]|]; simpl in *; try done. by left.
    + rewrite app_nil_r. apply elem_of_app. right. by eapply IHrest.
  - rewrite flattenFrom_node in He. simpl. apply elem_of_cons in He as [->|He].
    + simpl in Hg. apply elem_of_app. left. apply elem_of_app. left.
      unfold hasChildren in Hg. simpl in Hg.
      destruct g as [[|]|]; simpl in *; try done; [by left|].
      destruct cs; [done|by left].
    + apply elem_of_app in He as [He|He].
      * apply elem_of_app. left. apply elem_of_app. right. by eapply IHcs.
      * apply elem_of_app. right. by eapply IHrest.
Qed.

(** X3. In the result of [flattenTree] every node either has
    no parent and depth 0, or comes after a node whose id is its
    [parentId], which lies one level higher and has its children loaded. *)
Theorem flattenTree_parents_precede (items : list (Nested.t T)) (j : nat) (e : Flat.t T)
    (Hj : flattenTree items None 0%Z !! j = Some e) :
  (Flat.parentId e = None /\ Flat.depth e = 0%Z)
  \/ exists j' m, j' < j /\ flattenTree items None 0%Z !! j' = Some m
                   /\ Flat.parentId e = Some (Flat.id m)
                   /\ Flat.depth e = (Flat.depth m + 1)%Z
                   /\ Flat.childrenLoaded m = true.
Proof. by apply flattenFrom_parents_precede. Qed.

(** X4. When the ids of a tree are unique, the [index] values
    that [flattenTree] gives are, under every parent and in array order,
    0, 1, .., count - 1, and [reindexSiblings] leaves the array as it
    is. *)
Theorem flattenTree_indices (items : list (Nested.t T))
    (Hids : NoDup (map Flat.id (flattenTree items None 0%Z))) :
  contiguousIndices (flattenTree items None 0%Z)
  /\ reindexSiblings (flattenTree items None 0%Z) = flattenTree items None 0%Z.
Proof.
  assert (Hc : contiguousIndices (flattenTree items None 0%Z)).
  { intros q. rewrite getSiblingCount_length. unfold flattenTree in *.
    rewrite (flattenFrom_indices items None 0%Z 0 Hids); [|done].
    by destruct (decide (q = None)). }
  split; [done|]. by apply contiguous_fixed.
Qed.

(** X5. With [defaultExpandAll], the initial expansion set
    makes every node of the flattened items visible. *)
Theorem defaultExpandAll_shows_all :
  forall (items : list (Nested.t T)) (defaultExpandedIds : option (list string)),
    getVisibleNodes (flattenTree items None 0%Z)
                    (initialExpandedIds true defaultExpandedIds items)
    = flattenTree items None 0%Z.
Proof.
  intros items ids. apply visible_all_expanded. intros e He Hg. simpl.
  apply elem_of_list_to_set. by eapply groups_collected.
Qed.

End flatten_more.

Section flatten_more_examples.
Open Scope string_scope.

Lemma flattenTree_parents_precede_witness :
  exists j' m, j' < 1 /\ flattenTree scenarioATree None 0%Z !! j' = Some m
               /\ Some "a" = Some (Flat.id m)
               /\ 1%Z = (Flat.depth m + 1)%Z
               /\ Flat.childrenLoaded m = true.
Proof.
  destruct (flattenTree_parents_precede scenarioATree 1
              (Flat.mk "a1" tt false false (Some "a") 1%Z 0) eq_refl) as [[H _]|H].
  - discriminate H.
  - exact H.
Defined.

Lemma flattenTree_indices_witness :
  contiguousIndices (flattenTree scenarioATree None 0%Z)
  /\ reindexSiblings (flattenTree scenarioATree None 0%Z) = flattenTree scenarioATree None 0%Z.
Proof.
  apply flattenTree_indices. apply (bool_decide_unpack _). vm_compute. exact I.
Defined.

End flatten_more_examples.

(** ** [getAncestorIds], [getDescendantIds] and [getVisibleNodes] *)

Section wf_more.
Context {T : Type}.
Implicit Types (flat P S : list (Flat.t T)) (n m : Flat.t T) (k p : string).
Implicit Types (E : gset string).

(** The length of the chain of ancestors is the depth. *)
Lemma ancestry_depth flat :
  NoDup (map Flat.id flat) -> depthsFollowParents flat ->
  forall k l, ancestry flat k l ->
  forall n, n ∈ flat -> Flat.id n = k -> Z.of_nat (length l) = Flat.depth n.
Proof.
  intros Hnd Hd k l Hanc.
  induction Hanc as [k Habs|n0 Hn0 Hp0|n0 p0 l0 Hn0 Hp0 Hanc IH]; intros n Hn Hid.
  - by destruct (Habs n Hn).
  - assert (n = n0) as -> by (by eapply id_inj_NoDup).
    apply list_elem_of_lookup in Hn0 as [j Hj].
    destruct (Hd j n0 Hj) as [[_ H0]|(j' & m & _ & _ & Hp & _)]; [by rewrite H0|congruence].
  - assert (n = n0) as -> by (by eapply id_inj_NoDup).
    apply list_elem_of_lookup in Hn0 as [j Hj].
    destruct (Hd j n0 Hj) as [[Hp _]|(j' & m & _ & Hm & Hp & Hdm)]; [congruence|].
    assert (p0 = Flat.id m) as -> by congruence.
    rewrite Hdm, <- (IH m); [simpl; lia| |done].
    by eapply list_elem_of_lookup_2.
Qed.

Lemma getAncestorIds_absent (fuel : nat) flat k :
  k ∉ map Flat.id flat -> getAncestorIds fuel flat k = Some [].
Proof.
  intros Hk. unfold getAncestorIds. rewrite nodeMapOf_lookup_None; [by destruct fuel|].
  intros n Hn Hid. apply Hk. apply list_elem_of_fmap. by exists n.
Qed.

Lemma descendantStep_eq (desc : list string) (pset : gset string) (x : Flat.t T) :
  descendantStep (desc, pset) x
  = if match Flat.parentId x with
       | Some p => bool_decide (p ∈ pset)
       | None => false
       end
    then (desc ++ [Flat.id x], {[Flat.id x]} ∪ pset)
    else (desc, pset).
Proof.
  unfold descendantStep. destruct (Flat.parentId x) as [p|]; [|done].
  by destruct (bool_decide (p ∈ pset)).
Qed.

Lemma visibleStep_eq E (res : list (Flat.t T)) (col : gset string) n :
  visibleStep E (res, col) n
  = if match Flat.parentId n with
       | Some p => bool_decide (p ∈ col)
       | None => false
       end
    then (res, {[Flat.id n]} ∪ col)
    else (res ++ [n],
          if Flat.isGroup n && negb (bool_decide (Flat.id n ∈ E))
          then {[Flat.id n]} ∪ col else col).
Proof.
  unfold visibleStep. destruct (Flat.parentId n) as [p|]; [|done].
  by destruct (bool_decide (p ∈ col)).
Qed.

(** The state of the loop of [getDescendantIds]: [parentSet] holds [k]
    and the ids collected, which come in array order. *)
Lemma descendants_state k (P : list (Flat.t T)) : forall desc pset,
  pset = {[k]} ∪ list_to_set desc ->
  exists added,
    (foldl descendantStep (desc, pset) P).1 = desc ++ added
    /\ (foldl descendantStep (desc, pset) P).2 = {[k]} ∪ list_to_set (desc ++ added)
    /\ sublist added (map Flat.id P).
Proof.
  induction P as [|x P IH]; intros desc pset Hps.
  - exists []. rewrite app_nil_r. by split.
  - cbn [foldl map]. rewrite descendantStep_eq.
    destruct (match Flat.parentId x with
              | Some p => bool_decide (p ∈ pset)
              | None => false
              end).
    + destruct (IH (desc ++ [Flat.id x]) ({[Flat.id x]} ∪ pset)) as (added & H1 & H2 & H3).
      { rewrite Hps, list_to_set_app_L. simpl. set_solver. }
      exists (Flat.id x :: added). rewrite H1, H2, <- !app_assoc. simpl.
      split; [done|]. split; [done|]. by constructor.
    + destruct (IH desc pset Hps) as (added & H1 & H2 & H3).
      exists added. split; [done|]. split; [done|]. by constructor.
Qed.

Lemma getDescendantIds_sublist flat k : sublist (getDescendantIds flat k) (map Flat.id flat).
Proof.
  unfold getDescendantIds.
  destruct (descendants_state k flat [] {[k]}) as (added & H1 & _ & H3); [set_solver|].
  by rewrite H1.
Qed.

(** A second pass of [getVisibleNodes] hides nothing. *)
Lemma visible_again E flat :
  exists col,
    foldl (visibleStep E) ([], ∅) (foldl (visibleStep E) ([], ∅) flat).1
    = ((foldl (visibleStep E) ([], ∅) flat).1, col)
    /\ col ⊆ (foldl (visibleStep E) ([], ∅) flat).2.
Proof.
  induction flat as [|n flat IH] using rev_ind.
  - exists ∅. by split.
  - destruct IH as (col & Hagain & Hsub). rewrite foldl_app. cbn [foldl].
    destruct (foldl (visibleStep E) ([], ∅) flat) as [res collapsed]. simpl in Hagain, Hsub.
    rewrite visibleStep_eq.
    destruct (match Flat.parentId n with
              | Some p => bool_decide (p ∈ collapsed)
              | None => false
              end) eqn:Hhid.
    + exists col. split; [done|]. simpl. set_solver.
    + cbn [fst snd]. rewrite foldl_app, Hagain. cbn [foldl]. rewrite visibleStep_eq.
      assert (Hvis : match Flat.parentId n with
                     | Some p => bool_decide (p ∈ col)
                     | None => false
                     end = false).
      { destruct (Flat.parentId n) as [p|]; [|done].
        apply bool_decide_eq_false in Hhid. apply bool_decide_eq_false. set_solver. }
      rewrite Hvis. eexists. split; [done|].
      destruct (Flat.isGroup n && negb (bool_decide (Flat.id n ∈ E))); set_solver.
Qed.

(** X6. In the flattening of a tree with unique ids,
    [getAncestorIds] terminates within as many steps as there are nodes,
    returns as many ancestors as the depth of the node, each of them the
    id of a node; for an id that is not in the array it returns the empty
    list. *)
Theorem getAncestorIds_depth (items : list (Nested.t T))
    (Hids : NoDup (map Flat.id (flattenTree items None 0%Z))) :
  let flat := flattenTree items None 0%Z in
  (forall n, n ∈ flat ->
     exists l, getAncestorIds (length flat) flat (Flat.id n) = Some l
               /\ Z.of_nat (length l) = Flat.depth n
               /\ forall a, a ∈ l -> a ∈ map Flat.id flat)
  /\ (forall (fuel : nat) k, k ∉ map Flat.id flat -> getAncestorIds fuel flat k = Some []).
Proof.
  intros flat. pose proof (flattenTree_parentsFirst items Hids) as Hwf.
  split; [|intros fuel k; apply getAncestorIds_absent].
  intros n Hn.
  destruct (ancestry_exists_prefix flat Hwf flat [] ltac:(by rewrite app_nil_r) n Hn)
    as (l & Hanc & Hlen & Hin).
  exists l. split; [|split].
  - apply ancestry_getAncestorIds; [done|done|lia].
  - eapply ancestry_depth; eauto. apply flattenTree_depths.
  - intros a Ha. destruct (Hin a Ha) as (_ & m & Hm & Hid).
    apply list_elem_of_fmap. by exists m.
Qed.

(** X7. On a flat array with unique ids whose parents come
    first, [getDescendantIds(k)] lists, in array order and without
    repetition, the ids of the nodes that have [k] among their
    [getAncestorIds]; [k] itself is never among them. *)
Theorem getDescendantIds_ancestors (flat : list (Flat.t T)) (k : string)
    (Hwf : parentsFirst flat) :
  (forall d, d ∈ getDescendantIds flat k <->
             d ∈ map Flat.id flat
             /\ exists l, getAncestorIds (length flat) flat d = Some l /\ k ∈ l)
  /\ (k ∉ getDescendantIds flat k)
  /\ sublist (getDescendantIds flat k) (map Flat.id flat)
  /\ NoDup (getDescendantIds flat k).
Proof.
  split; [|split; [|split]].
  - intros d. rewrite getDescendantIds_spec by done. split.
    + intros (n & l & Hn & Hid & Hl & Hk). split; [|by exists l].
      apply list_elem_of_fmap. by exists n.
    + intros (Hd & l & Hl & Hk). apply list_elem_of_fmap in Hd as (n & -> & Hn).
      by exists n, l.
  - by apply getDescendantIds_irrefl.
  - apply getDescendantIds_sublist.
  - eapply sublist_NoDup; [|apply getDescendantIds_sublist].
    by apply parentsFirst_NoDup.
Qed.

(** X8. [getVisibleNodes] applied to its own result, with
    the same expansion set, returns it unchanged. *)
Theorem getVisibleNodes_idempotent :
  forall (flat : list (Flat.t T)) (E : gset string),
    getVisibleNodes (getVisibleNodes flat E) E = getVisibleNodes flat E.
Proof.
  intros flat E. unfold getVisibleNodes.
  destruct (visible_again E flat) as (col & H & _). by rewrite H.
Qed.

End wf_more.

Section wf_more_examples.
Open Scope string_scope.

Lemma getAncestorIds_depth_witness :
  (forall n, n ∈ nestedGroupsFlat ->
     exists l, getAncestorIds (length nestedGroupsFlat) nestedGroupsFlat (Flat.id n) = Some l
               /\ Z.of_nat (length l) = Flat.depth n
               /\ forall a, a ∈ l -> a ∈ map Flat.id nestedGroupsFlat)
  /\ getAncestorIds 0 nestedGroupsFlat "a2" = None
  /\ getAncestorIds 3 nestedGroupsFlat "a2" = Some ["a1"; "a"].
Proof.
  split; [|by vm_compute].
  assert (Hids : NoDup (map Flat.id (flattenTree nestedGroupsTree None 0%Z))).
  { apply (bool_decide_unpack _). vm_compute. exact I. }
  exact (proj1 (getAncestorIds_depth nestedGroupsTree Hids)).
Defined.

Lemma getDescendantIds_ancestors_witness :
  (forall d, d ∈ getDescendantIds nestedGroupsFlat "a1" <->
             d ∈ map Flat.id nestedGroupsFlat
             /\ exists l, getAncestorIds (length nestedGroupsFlat) nestedGroupsFlat d = Some l
                          /\ "a1" ∈ l)
  /\ getDescendantIds nestedGroupsFlat "a1" = ["a2"].
Proof.
  split; [|by vm_compute].
  assert (Hwf : parentsFirst nestedGroupsFlat) by (by vm_compute).
  exact (proj1 (getDescendantIds_ancestors nestedGroupsFlat "a1" Hwf)).
Defined.

End wf_more_examples.

(** ** [removeNodes], with [insertNodes] and the move of [handleDragEnd] *)

Section remove_more.
Context {T : Type}.
Implicit Types (flat P S l : list (Flat.t T)) (n m : Flat.t T) (k p x : string).
Implicit Types (R : gset string) (ids : list string).

Lemma removeSetStep_eq R n :
  removeSetStep R n
  = if match Flat.parentId n with
       | Some p => bool_decide (p ∈ R)
       | None => false
       end
    then {[Flat.id n]} ∪ R else R.
Proof.
  unfold removeSetStep. destruct (Flat.parentId n) as [p|]; [|done].
  by destruct (bool_decide (p ∈ R)).
Qed.

Lemma elem_of_withDescendants_from flat ids : forall (acc : gset string) x,
  x ∈ foldl (fun acc id => acc ∪ {[id]} ∪ list_to_set (getDescendantIds flat id)) acc ids
  <-> x ∈ acc \/ x ∈ ids \/ exists i, i ∈ ids /\ x ∈ getDescendantIds flat i.
Proof.
  induction ids as [|i ids IH]; intros acc x; simpl.
  - split; [by left|]. intros [H|[H|(i & H & _)]]; [done| |]; by apply elem_of_nil in H.
  - rewrite IH, !elem_of_union, elem_of_singleton, elem_of_list_to_set. split.
    + intros [[[H|H]|H]|[H|(j & Hj & H)]].
      * by left.
      * right. left. subst. by left.
      * right. right. exists i. split; [by left|done].
      * right. left. by right.
      * right. right. exists j. split; [by right|done].
    + intros [H|[H|(j & Hj & H)]].
      * left. left. by left.
      * apply elem_of_cons in H as [->|H]; [left; left; by right|right; by left].
      * apply elem_of_cons in Hj as [->|Hj]; [left; by right|].
        right. right. by exists j.
Qed.

Lemma elem_of_withDescendants flat ids x :
  x ∈ withDescendants flat ids
  <-> x ∈ ids \/ exists i, i ∈ ids /\ x ∈ getDescendantIds flat i.
Proof.
  unfold withDescendants. rewrite elem_of_withDescendants_from. set_solver.
Qed.

(** One more node in the loop of [getDescendantIds]. *)
Lemma descendants_snoc k P n x :
  x ∈ (foldl descendantStep ([], {[k]}) (P ++ [n])).1
  <-> x ∈ (foldl descendantStep ([], {[k]}) P).1
      \/ (x = Flat.id n
          /\ exists p, Flat.parentId n = Some p
                       /\ (p = k \/ p ∈ (foldl descendantStep ([], {[k]}) P).1)).
Proof.
  rewrite foldl_app. cbn [foldl].
  destruct (descendants_state k P [] {[k]}) as (added & H1 & H2 & _); [set_solver|].
  destruct (foldl descendantStep ([], {[k]}) P) as [desc pset]. simpl in H1, H2. subst.
  rewrite descendantStep_eq. simpl. destruct (Flat.parentId n) as [p|].
  - destruct (decide (p ∈ ({[k]} ∪ list_to_set added : gset string))) as [Hp|Hp].
    + rewrite bool_decide_eq_true_2 by done. simpl.
      rewrite elem_of_app, list_elem_of_singleton. split; [|tauto].
      intros [H|H]; [by left|]. right. split; [done|]. exists p. split; [done|].
      set_solver.
    + rewrite bool_decide_eq_false_2 by done. simpl. split; [by left|].
      intros [H|(_ & p' & Hp' & H)]; [done|]. injection Hp' as <-. set_solver.
  - simpl. split; [by left|]. by intros [H|(_ & p' & Hp' & _)].
Qed.

(** The set built by [removeNodes] holds the given ids and, for each of
    them, what [getDescendantIds] collects. *)
Lemma removeSet_prefix ids P x :
  x ∈ foldl removeSetStep (list_to_set ids) P
  <-> x ∈ ids \/ exists i, i ∈ ids /\ x ∈ (foldl descendantStep ([], {[i]}) P).1.
Proof.
  revert x. induction P as [|n P IH] using rev_ind; intros x.
  - simpl. rewrite elem_of_list_to_set. split; [by left|].
    intros [H|(i & _ & H)]; [done|by apply elem_of_nil in H].
  - rewrite foldl_app. cbn [foldl]. rewrite removeSetStep_eq.
    assert (Hrhs : (x ∈ ids \/ exists i, i ∈ ids
                                         /\ x ∈ (foldl descendantStep ([], {[i]}) (P ++ [n])).1)
                   <-> (x ∈ foldl removeSetStep (list_to_set ids) P
                        \/ (x = Flat.id n
                            /\ exists p, Flat.parentId n = Some p
                                         /\ p ∈ foldl removeSetStep (list_to_set ids) P))).
    { rewrite (IH x). split.
      - intros [H|(i & Hi & H)]; [left; by left|].
        apply descendants_snoc in H as [H|(-> & p & Hp & H)].
        + left. right. by exists i.
        + right. split; [done|]. exists p. split; [done|]. apply IH.
          destruct H as [->|H]; [by left|]. right. by exists i.
      - intros [[H|(i & Hi & H)]|(-> & p & Hp & H)].
        + by left.
        + right. exists i. split; [done|]. apply descendants_snoc. by left.
        + apply IH in H as [H|(i & Hi & H)].
          * right. exists p. split; [done|]. apply descendants_snoc. right.
            split; [done|]. exists p. split; [done|by left].
          * right. exists i. split; [done|]. apply descendants_snoc. right.
            split; [done|]. exists p. split; [done|by right]. }
    rewrite Hrhs. destruct (Flat.parentId n) as [p|].
    + destruct (decide (p ∈ foldl removeSetStep (list_to_set ids) P)) as [Hp|Hp].
      * rewrite bool_decide_eq_true_2 by done. rewrite elem_of_union, elem_of_singleton.
        split; [|intros [H|[H _]]; [by right|by left]].
        intros [H|H]; [right|by left]. split; [done|]. by exists p.
      * rewrite bool_decide_eq_false_2 by done. split; [by left|].
        intros [H|(_ & p' & Hp' & H)]; [done|]. injection Hp' as <-. done.
    + split; [by left|]. by intros [H|(_ & p' & Hp' & _)].
Qed.

Lemma removeSet_withDescendants flat ids :
  foldl removeSetStep (list_to_set ids) flat = withDescendants flat ids.
Proof.
  apply set_eq. intros x. by rewrite removeSet_prefix, elem_of_withDescendants.
Qed.

(** Only ids and parents are read when the set is built. *)
Lemma removeSet_reindex l : forall R c,
  foldl removeSetStep R (reindexFrom c l) = foldl removeSetStep R l.
Proof.
  induction l as [|n l IH]; intros R c; [done|]. cbn [reindexFrom foldl].
  rewrite IH. by rewrite !removeSetStep_eq.
Qed.

Lemma removeSet_stable l : forall R,
  (forall n p, n ∈ l -> Flat.parentId n = Some p -> p ∈ R -> Flat.id n ∈ R) ->
  foldl removeSetStep R l = R.
Proof.
  induction l as [|n l IH]; intros R Hcl; [done|]. cbn [foldl].
  assert (Hn : removeSetStep R n = R).
  { rewrite removeSetStep_eq. destruct (Flat.parentId n) as [p|] eqn:Hp; [|done].
    destruct (decide (p ∈ R)) as [HpR|HpR].
    - rewrite bool_decide_eq_true_2 by done.
      assert (Flat.id n ∈ R) by (eapply Hcl; [by left|done|done]). set_solver.
    - by rewrite bool_decide_eq_false_2. }
  rewrite Hn. apply IH. intros m p Hm. apply Hcl. by right.
Qed.

Lemma parentsFirstFrom_reindex l : forall (seen : gset string) c,
  parentsFirstFrom seen (reindexFrom c l) = parentsFirstFrom seen l.
Proof.
  induction l as [|n l IH]; intros seen c; [done|]. simpl. by rewrite IH.
Qed.

(** On a well-formed array the set of removed ids is closed under
    children. *)
Lemma withDescendants_closed flat ids n p :
  parentsFirst flat -> n ∈ flat -> Flat.parentId n = Some p ->
  p ∈ withDescendants flat ids -> Flat.id n ∈ withDescendants flat ids.
Proof.
  intros Hwf Hn Hp HpR. pose proof (parentsFirst_NoDup _ Hwf) as Hnd.
  destruct (getAncestorIds_total flat n Hwf Hn) as (l & Hl & Hanc).
  destruct (ancestry_inv_parent flat n p l Hnd Hn Hp Hanc) as (l' & -> & Hanc').
  apply elem_of_withDescendants. right.
  apply elem_of_withDescendants in HpR as [HpR|(i & Hi & HpR)].
  - exists p. split; [done|]. apply getDescendantIds_spec; [done|].
    exists n, (p :: l'). split; [done|]. split; [done|]. split; [done|by left].
  - exists i. split; [done|]. apply getDescendantIds_spec; [done|].
    exists n, (p :: l'). split; [done|]. split; [done|]. split; [done|]. right.
    apply getDescendantIds_spec in HpR as (np & lp & Hnp & Hidp & Hlp & Hip); [|done].
    destruct (ancestry_exists flat np Hwf Hnp) as (l0 & Hanc0 & Hlen0 & _).
    rewrite Hidp in Hanc0.
    assert (l0 = l') as -> by (by eapply ancestry_fun).
    rewrite (ancestry_getAncestorIds flat p l' Hnd Hanc' (length flat)) in Hlp by lia.
    by injection Hlp as <-.
Qed.

Lemma parentsFirstFrom_filter R l : forall (seen seen' : gset string),
  (forall x, x ∈ seen' <-> x ∈ seen /\ x ∉ R) ->
  (forall n p, n ∈ l -> Flat.parentId n = Some p -> p ∈ R -> Flat.id n ∈ R) ->
  parentsFirstFrom seen l = true ->
  parentsFirstFrom seen' (filter (fun n => Flat.id n ∉ R) l) = true.
Proof.
  induction l as [|n l IH]; intros seen seen' Hseen Hcl Hwf; [done|].
  simpl in Hwf. apply andb_true_iff in Hwf as [Hwf Hrest].
  apply andb_true_iff in Hwf as [Hfresh Hpar].
  apply negb_true_iff, bool_decide_eq_false in Hfresh.
  assert (Hcl' : forall m p, m ∈ l -> Flat.parentId m = Some p -> p ∈ R -> Flat.id m ∈ R).
  { intros m p Hm. apply Hcl. by right. }
  rewrite filter_cons. destruct (decide (Flat.id n ∉ R)) as [Hn|Hn].
  - simpl. apply andb_true_iff. split; [apply andb_true_iff; split|].
    + apply negb_true_iff, bool_decide_eq_false. intros H. apply Hseen in H as [H _]. done.
    + destruct (Flat.parentId n) as [p|] eqn:Hp; [|done].
      apply bool_decide_eq_true in Hpar. apply bool_decide_eq_true, Hseen. split; [done|].
      intros HpR. apply Hn. eapply Hcl; [by left|done|done].
    + apply (IH ({[Flat.id n]} ∪ seen)); [|done|done].
      intros x. rewrite !elem_of_union, !elem_of_singleton, Hseen. split.
      * intros [->|[H1 H2]]; [split; [by left|done]|split; [by right|done]].
      * intros [[->|H1] H2]; [by left|right; by split].
  - apply (IH ({[Flat.id n]} ∪ seen)); [|done|done].
    intros x. rewrite !elem_of_union, !elem_of_singleton, Hseen. split.
    + intros [H1 H2]. split; [by right|done].
    + intros [[->|H1] H2]; [|by split]. exfalso. apply Hn. done.
Qed.

Lemma payload_reindex l :
  map payload (reindexSiblings l) = map payload l.
Proof.
  rewrite reindexSiblings_eq.
  pose proof (reindexFrom_strip l ∅) as H.
  apply (f_equal (map payload)) in H. by rewrite !map_map in H.
Qed.

Lemma removeNodes_filter flat ids :
  removeNodes flat ids
  = reindexSiblings (filter (fun n => Flat.id n ∉ withDescendants flat ids) flat).
Proof. unfold removeNodes. by rewrite removeSet_withDescendants. Qed.

(** X9. [removeNodes] drops the nodes whose id is one of the
    given ids or is returned by [getDescendantIds] for one of them, keeps
    all the others in their order, and recomputes the indices. *)
Theorem removeNodes_subtrees :
  forall (flat : list (Flat.t T)) (ids : list string),
    removeNodes flat ids
    = reindexSiblings (filter (fun n => Flat.id n ∉ withDescendants flat ids) flat)
    /\ forall x, x ∈ withDescendants flat ids
                 <-> x ∈ ids \/ exists i, i ∈ ids /\ x ∈ getDescendantIds flat i.
Proof.
  intros flat ids. split; [apply removeNodes_filter|apply elem_of_withDescendants].
Qed.

(** X10. On a flat array with unique ids whose parents come
    first, the result of [removeNodes] is again such an array: no node
    is left behind whose parent was removed. *)
Theorem removeNodes_parentsFirst (flat : list (Flat.t T)) (ids : list string)
    (Hwf : parentsFirst flat) :
  parentsFirst (removeNodes flat ids).
Proof.
  unfold removeNodes, parentsFirst. rewrite reindexSiblings_eq, parentsFirstFrom_reindex.
  rewrite removeSet_withDescendants.
  apply (parentsFirstFrom_filter _ _ ∅); [set_solver| |done].
  intros n p Hn Hp. by apply withDescendants_closed.
Qed.

(** X11. Inserting nodes with new ids, under which no node
    of the array hangs, and then removing them by id gives the array
    back with its indices recomputed: the array itself when its indices
    were contiguous. *)
Theorem insert_then_remove (flat nodesToInsert : list (Flat.t T)) (q : option string) (k : Z)
    (Hfresh : forall n, n ∈ nodesToInsert -> Flat.id n ∉ map Flat.id flat)
    (Hpar : forall m p, m ∈ flat -> Flat.parentId m = Some p ->
                        p ∉ map Flat.id nodesToInsert) :
  removeNodes (insertNodes flat nodesToInsert q k) (map Flat.id nodesToInsert)
  = reindexSiblings flat
  /\ (contiguousIndices flat ->
      removeNodes (insertNodes flat nodesToInsert q k) (map Flat.id nodesToInsert) = flat).
Proof.
  assert (Hmain : removeNodes (insertNodes flat nodesToInsert q k) (map Flat.id nodesToInsert)
                  = reindexSiblings flat).
  { unfold removeNodes, insertNodes.
    set (a := findInsertAt flat q k 0 0 (length flat)).
    set (M := take a flat ++ nodesToInsert ++ drop a flat).
    set (R := list_to_set (map Flat.id nodesToInsert) : gset string).
    assert (HR : foldl removeSetStep R (reindexSiblings M) = R).
    { rewrite reindexSiblings_eq, removeSet_reindex. apply removeSet_stable.
      intros n p Hn Hp HpR. unfold M in Hn.
      apply elem_of_list_to_set in HpR. apply elem_of_list_to_set.
      rewrite !elem_of_app in Hn. destruct Hn as [Hn|[Hn|Hn]].
      - apply (elem_of_sublist _ flat) in Hn; [|apply sublist_take].
        by destruct (Hpar n p Hn Hp).
      - apply list_elem_of_fmap. by exists n.
      - apply (elem_of_sublist _ flat) in Hn; [|apply sublist_drop].
        by destruct (Hpar n p Hn Hp). }
    fold R. rewrite HR.
    rewrite (reindexSiblings_filter (fun n => Flat.id n ∉ R)); [|done].
    f_equal. unfold M. rewrite !filter_app.
    assert (Hnew : filter (fun n => Flat.id n ∉ R) nodesToInsert = []).
    { apply filter_none. intros n Hn Hid. apply Hid. apply elem_of_list_to_set.
      apply list_elem_of_fmap. by exists n. }
    assert (Hold : forall l, (forall n, n ∈ l -> n ∈ flat) ->
                             filter (fun n => Flat.id n ∉ R) l = l).
    { intros l Hl. induction l as [|n l IHl]; [done|].
      rewrite filter_cons. destruct (decide (Flat.id n ∉ R)) as [Hn|Hn].
      - f_equal. apply IHl. intros m Hm. apply Hl. by right.
      - exfalso. apply Hn. intros Hid. apply elem_of_list_to_set in Hid.
        apply list_elem_of_fmap in Hid as (m & Hid & Hm).
        apply (Hfresh m Hm). rewrite <- Hid. apply list_elem_of_fmap.
        exists n. split; [done|]. apply Hl. by left. }
    rewrite Hnew, !Hold; [by rewrite app_nil_l, take_drop| |].
    - intros n Hn. by apply (elem_of_sublist _ flat) in Hn; [|apply sublist_drop].
    - intros n Hn. by apply (elem_of_sublist _ flat) in Hn; [|apply sublist_take]. }
  split; [done|]. intros Hc. rewrite Hmain. by apply contiguous_fixed.
Qed.

(** X12. When [handleDragEnd] performs a move, the flat array
    it hands to [buildTree] holds the nodes of [flatNodes], each as often
    as [flatNodes] does, with its id, data, [isGroup] and
    [childrenLoaded]: a move neither loses nor duplicates a node. *)
Theorem moveNodes_keeps_nodes (o : Dnd.Options T) (sourceNode : Flat.t T) (target : string)
    (currentDropPosition : option DropPosition) (currentProjectedDepth : option Z)
    (currentProjectedParentId : option string) (result : list (Flat.t T))
    (Hmove : moveNodes o sourceNode target currentDropPosition currentProjectedDepth
                       currentProjectedParentId = Some result) :
  map payload result ≡ₚ map payload (Dnd.flatNodes o).
Proof.
  unfold moveNodes in Hmove.
  match type of Hmove with
  | context [withDescendants _ ?r] => set (roots := r) in Hmove
  end.
  match type of Hmove with
  | (if ?c then _ else _) = _ => destruct c; [done|]
  end.
  injection Hmove as <-.
  set (W := withDescendants (Dnd.flatNodes o) roots).
  set (rem := removeNodes (Dnd.flatNodes o) roots).
  match goal with
  | |- context [take ?a0 rem] => set (a := a0)
  end.
  rewrite !map_app.
  match goal with
  | |- context [map payload (map ?f ?dragged)] =>
    assert (Hupd : map payload (map f dragged) = map payload dragged)
  end.
  { rewrite map_map. apply map_ext. intros y. simpl.
    by destruct (bool_decide (Flat.id y ∈ roots)). }
  rewrite Hupd.
  rewrite Permutation_app_swap_app.
  rewrite <- (map_app payload (take a rem)), take_drop.
  unfold rem. rewrite removeNodes_filter, payload_reindex.
  rewrite <- map_app. apply Permutation_map. fold W.
  etrans; [|apply (filter_app_complement (fun n => Flat.id n ∈ W))].
  apply Permutation_app; [done|].
  match goal with
  | |- ?kept ≡ₚ ?others =>
    assert (Heq : kept = others) by (by apply list_filter_iff); exact (reflexive_eq _ _ Heq)
  end.
Qed.

End remove_more.

Section remove_more_examples.
Open Scope string_scope.

Lemma removeNodes_parentsFirst_witness :
  parentsFirst (removeNodes nestedGroupsFlat ["a1"])
  /\ map Flat.id (removeNodes nestedGroupsFlat ["a1"]) = ["a"].
Proof.
  split; [|by vm_compute].
  apply removeNodes_parentsFirst. by vm_compute.
Defined.

Lemma insert_then_remove_witness :
  removeNodes (insertNodes insertExampleFlat insertExampleNew (Some "a") 0)
              (map Flat.id insertExampleNew)
  = reindexSiblings insertExampleFlat.
Proof.
  assert (Hfresh : forall n, n ∈ insertExampleNew -> Flat.id n ∉ map Flat.id insertExampleFlat).
  { intros n Hn. apply list_elem_of_singleton in Hn as ->.
    apply (bool_decide_unpack _). vm_compute. exact I. }
  assert (Hpar : forall m p, m ∈ insertExampleFlat -> Flat.parentId m = Some p ->
                             p ∉ map Flat.id insertExampleNew).
  { intros m p Hm Hp. unfold insertExampleFlat in Hm.
    repeat (apply elem_of_cons in Hm as [->|Hm]); try (by apply elem_of_nil in Hm);
      simpl in Hp; try discriminate Hp.
    injection Hp as <-. apply (bool_decide_unpack _). vm_compute. exact I. }
  exact (proj1 (insert_then_remove insertExampleFlat insertExampleNew (Some "a") 0
                                   Hfresh Hpar)).
Defined.

Lemma moveNodes_keeps_nodes_witness :
  map payload [ Flat.mk "g" tt true false None 0%Z 0;
                Flat.mk "x" tt false false (Some "g") 1%Z 1 ]
  ≡ₚ map payload lazyGroupFlat.
Proof.
  apply (moveNodes_keeps_nodes lazyGroupOptions (Flat.mk "x" tt false false None 0%Z 1) "g"
           (Some inside) (Some 1%Z) (Some "g")).
  by vm_compute.
Defined.

End remove_more_examples.

(** ** [buildTree] on any array, and [flattenTree] after it *)

Section build_more.
Context {T : Type}.
Implicit Types (L P : list (Flat.t T)) (n m : Flat.t T) (k p : string).
Implicit Types (M : gmap string (Obj.t T * bool)) (H : list (list (Obj.t T))).
Implicit Types (node : Nested.t T) (nodes cs rest : list (Nested.t T)).

Lemma buildCreate_keyed L : forall M H,
  keyedById M ->
  keyedById (foldl buildCreate (M, H) L).1
  /\ (forall k, is_Some (M !! k) -> is_Some ((foldl buildCreate (M, H) L).1 !! k))
  /\ (forall n, n ∈ L -> is_Some ((foldl buildCreate (M, H) L).1 !! Flat.id n)).
Proof.
  induction L as [|x L IH]; intros M H HM.
  - split; [done|]. split; [done|]. intros n Hn. by apply elem_of_nil in Hn.
  - cbn [foldl].
    assert (Hstep : exists o H', buildCreate (M, H) x = (<[Flat.id x := (o, false)]> M, H')
                                 /\ Obj.id o = Flat.id x).
    { unfold buildCreate. destruct (Flat.childrenLoaded x); by eexists _, _. }
    destruct Hstep as (o & H' & -> & Ho).
    assert (HM' : keyedById (<[Flat.id x := (o, false)]> M)).
    { intros k o' b Hk. destruct (decide (Flat.id x = k)) as [<-|Hne].
      - rewrite lookup_insert_eq in Hk. by injection Hk as <- <-.
      - rewrite lookup_insert_ne in Hk by done. by eapply HM. }
    destruct (IH _ H' HM') as (I1 & I2 & I3). split; [done|]. split.
    + intros k Hk. apply I2. destruct (decide (Flat.id x = k)) as [<-|Hne].
      * by rewrite lookup_insert_eq.
      * by rewrite lookup_insert_ne.
    + intros n Hn. apply elem_of_cons in Hn as [->|Hn]; [|by apply I3].
      apply I2. by rewrite lookup_insert_eq.
Qed.

Lemma buildLink_roots P : forall st : BuildState.t T,
  keyedById (BuildState.nodeMap st) ->
  (forall n, n ∈ P -> is_Some (BuildState.nodeMap st !! Flat.id n)) ->
  map Obj.id (BuildState.roots (foldl buildLink st P))
  = map Obj.id (BuildState.roots st) ++ map Flat.id (siblingsOf None P).
Proof.
  induction P as [|x P IH]; intros st Hkeys Hdom.
  - simpl. by rewrite app_nil_r.
  - cbn [foldl]. unfold siblingsOf. rewrite filter_cons. fold (siblingsOf None P).
    destruct (Hdom x ltac:(by left)) as [[clean b] Hx].
    pose proof (Hkeys _ _ _ Hx) as Hid.
    assert (Hstep : keyedById (BuildState.nodeMap (buildLink st x))
                    /\ (forall k, is_Some (BuildState.nodeMap st !! k) ->
                                  is_Some (BuildState.nodeMap (buildLink st x) !! k))
                    /\ map Obj.id (BuildState.roots (buildLink st x))
                       = map Obj.id (BuildState.roots st)
                         ++ (if decide (Flat.parentId x = None) then [Flat.id x] else [])).
    { unfold buildLink. rewrite Hx. destruct (Flat.parentId x) as [p|] eqn:Hp.
      - destruct (BuildState.nodeMap st !! p) as [[parent bp]|] eqn:Hpar.
        + pose proof (Hkeys _ _ _ Hpar) as Hpid.
          destruct (Obj.children parent) as [a|]; simpl.
          * split; [|split; [|by rewrite app_nil_r]].
            -- intros k o' b' Hk. destruct (decide (p = k)) as [<-|Hne].
               ++ rewrite lookup_insert_eq in Hk. by injection Hk as <- <-.
               ++ rewrite lookup_insert_ne in Hk by done. by eapply Hkeys.
            -- intros k Hk. destruct (decide (p = k)) as [<-|Hne].
               ++ by rewrite lookup_insert_eq.
               ++ by rewrite lookup_insert_ne.
          * split; [|split; [|by rewrite app_nil_r]].
            -- intros k o' b' Hk. destruct (decide (p = k)) as [<-|Hne].
               ++ rewrite lookup_insert_eq in Hk. by injection Hk as <- <-.
               ++ rewrite lookup_insert_ne in Hk by done. by eapply Hkeys.
            -- intros k Hk. destruct (decide (p = k)) as [<-|Hne].
               ++ by rewrite lookup_insert_eq.
               ++ by rewrite lookup_insert_ne.
        + split; [done|]. split; [done|]. by rewrite app_nil_r.
      - simpl. split; [done|]. split; [done|]. rewrite map_app. simpl. by rewrite Hid. }
    destruct Hstep as (Hk' & Hd' & Hr').
    rewrite IH; [|done|].
    + rewrite Hr', <- app_assoc. f_equal. clear. by destruct (Flat.parentId x).
    + intros n Hn. apply Hd', Hdom. by right.
Qed.

Lemma flattenFrom_normalize nodes : forall (q : option string) (d : Z) (i : nat),
  forallb groupFlagsKept nodes = true ->
  flattenFrom (map normalizeNode nodes) q d i = flattenFrom nodes q d i.
Proof.
  induction nodes as [|i0 dt g rest IHrest|i0 dt g cs rest IHcs IHrest] using forest_ind;
    intros q d i Hk.
  - done.
  - cbn [map normalizeNode]. rewrite !flattenFrom_leaf. simpl in Hk.
    rewrite IHrest by done. f_equal. unfold headOf, hasChildren. simpl.
    by destruct g as [[|]|].
  - cbn [map normalizeNode]. rewrite !flattenFrom_node.
    cbn [forallb] in Hk. apply andb_prop in Hk as [Hk1 Hk2].
    assert (Hcs : forallb groupFlagsKept cs = true).
    { simpl in Hk1. destruct cs as [|c cs']; [done|]. by apply andb_prop in Hk1 as [_ ?]. }
    rewrite IHcs, IHrest by done. f_equal. unfold headOf, hasChildren. simpl.
    destruct cs as [|c cs'].
    + by destruct g as [[|]|].
    + simpl in Hk1. apply andb_prop in Hk1 as [Hg _].
      apply negb_true_iff, bool_decide_eq_false in Hg. by destruct g as [[|]|].
Qed.

(** X13. For every flat array, [buildTree] returns one root
    object for each node whose [parentId] is [null], in array order and
    under the same id; a node with any other [parentId] is never a
    root. *)
Theorem buildTree_roots :
  forall flat : list (Flat.t T),
    map Obj.id (Built.roots (buildTree flat)) = map Flat.id (siblingsOf None flat).
Proof.
  intros flat. unfold buildTree.
  destruct (buildCreate_keyed flat ∅ []) as (I1 & _ & I3).
  { intros k o b Hk. by rewrite lookup_empty in Hk. }
  destruct (foldl buildCreate (∅, []) flat) as [M H]. simpl in I1, I3. simpl.
  by rewrite (buildLink_roots flat (BuildState.mk M H [])).
Qed.

(** X14. When the ids of a tree are unique and no node that
    holds children says [isGroup: false], flattening the result of
    [buildTree (flattenTree x)] gives the flat array of [x] again. *)
Theorem flattenTree_roundTrip_stable (x : list (Nested.t T)) (fuel : nat)
    (Hids : NoDup (map Flat.id (flattenTree x None 0%Z)))
    (Hfuel : heightForest x < fuel)
    (Hflags : forallb groupFlagsKept x = true) :
  exists y, reifyTree fuel (buildTree (flattenTree x None 0%Z)) = Some y
            /\ flattenTree y None 0%Z = flattenTree x None 0%Z.
Proof.
  exists (map normalizeNode x). split.
  - rewrite buildTree_rebuild by (done || by apply flattenTree_parentsLoaded).
    by apply rebuild_flattenTree.
  - by apply flattenFrom_normalize.
Qed.

End build_more.

Section build_more_examples.
Open Scope string_scope.

Lemma flattenTree_roundTrip_stable_witness :
  exists y, reifyTree 4 (buildTree (flattenTree implicitGroupTree None 0%Z)) = Some y
            /\ flattenTree y None 0%Z = flattenTree implicitGroupTree None 0%Z.
Proof.
  apply flattenTree_roundTrip_stable.
  - apply (bool_decide_unpack _). vm_compute. exact I.
  - vm_compute. lia.
  - reflexivity.
Defined.

End build_more_examples.

(** ** [use-tree-state.ts]: selection, expansion and [insertChildren] *)

Section state_more.
Context {T : Type}.
Implicit Types (node : Nested.t T) (nodes cs rest children : list (Nested.t T)).
Implicit Types (e : Flat.t T) (L : list (Flat.t T)) (E : gset string).

Lemma insertInto_cons (parentId : string) children node rest :
  insertInto parentId children (node :: rest)
  = insertIntoNode parentId children node :: insertInto parentId children rest.
Proof. done. Qed.

Lemma graftChildren_app (parentId : string) children (L1 L2 : list (Flat.t T)) :
  graftChildren parentId children (L1 ++ L2)
  = graftChildren parentId children L1 ++ graftChildren parentId children L2.
Proof. unfold graftChildren. apply flat_map_app. Qed.

Lemma graftChildren_cons (parentId : string) children e L :
  graftChildren parentId children (e :: L)
  = (if bool_decide (Flat.id e = parentId)
     then markLoaded e :: flattenTree children (Some parentId) (Flat.depth e + 1)%Z
     else [e])
    ++ graftChildren parentId children L.
Proof. done. Qed.

Lemma insertInto_flat (parentId : string) children nodes :
  forall (q : option string) (d : Z) (i : nat),
    (forall e, e ∈ flattenFrom nodes q d i -> Flat.id e = parentId ->
               Flat.isGroup e = true /\ Flat.childrenLoaded e = false) ->
    flattenFrom (insertInto parentId children nodes) q d i
    = graftChildren parentId children (flattenFrom nodes q d i).
Proof.
  induction nodes as [|i0 dt g rest IHrest|i0 dt g cs rest IHcs IHrest] using forest_ind;
    intros q d i Hlazy.
  - done.
  - rewrite insertInto_cons, flattenFrom_leaf, graftChildren_cons.
    rewrite flattenFrom_leaf in Hlazy.
    assert (Hrest : flattenFrom (insertInto parentId children rest) q d (S i)
                    = graftChildren parentId children (flattenFrom rest q d (S i))).
    { apply IHrest. intros e He. apply Hlazy. by right. }
    cbn [insertIntoNode]. simpl Flat.id.
    destruct (decide (i0 = parentId)) as [->|Hne].
    + rewrite !bool_decide_eq_true_2 by done. rewrite flattenFrom_node, Hrest.
      simpl. f_equal.
      destruct (Hlazy (headOf (Nested.mk parentId dt g None) q d i)) as [Hg _];
        [by left|done|].
      unfold headOf, markLoaded, hasChildren in *. simpl in *.
      by destruct g as [[|]|].
    + rewrite !bool_decide_eq_false_2 by done. by rewrite flattenFrom_leaf, Hrest.
  - rewrite insertInto_cons, flattenFrom_node, graftChildren_cons, graftChildren_app.
    rewrite flattenFrom_node in Hlazy.
    assert (Hrest : flattenFrom (insertInto parentId children rest) q d (S i)
                    = graftChildren parentId children (flattenFrom rest q d (S i))).
    { apply IHrest. intros e He. apply Hlazy. right. apply elem_of_app. by right. }
    assert (Hcs : flattenFrom (insertInto parentId children cs) (Some i0) (d + 1)%Z 0
                  = graftChildren parentId children (flattenFrom cs (Some i0) (d + 1)%Z 0)).
    { apply IHcs. intros e He. apply Hlazy. right. apply elem_of_app. by left. }
    cbn [insertIntoNode]. simpl Flat.id.
    destruct (decide (i0 = parentId)) as [->|Hne].
    + destruct (Hlazy (headOf (Nested.mk parentId dt g (Some cs)) q d i)) as [_ Hl];
        [by left|done|]. done.
    + rewrite !bool_decide_eq_false_2 by done.
      fold (insertInto parentId children cs). rewrite flattenFrom_node, Hcs, Hrest.
      simpl. f_equal. unfold headOf, hasChildren. simpl.
      by destruct cs.
Qed.

Lemma insertInto_absent_from (parentId : string) children nodes :
  forall (q : option string) (d : Z) (i : nat),
    (forall e, e ∈ flattenFrom nodes q d i -> Flat.id e ≠ parentId) ->
    insertInto parentId children nodes = nodes.
Proof.
  induction nodes as [|i0 dt g rest IHrest|i0 dt g cs rest IHcs IHrest] using forest_ind;
    intros q d i Habs.
  - done.
  - rewrite insertInto_cons. rewrite flattenFrom_leaf in Habs.
    rewrite (IHrest q d (S i)) by (intros e He; apply Habs; by right).
    cbn [insertIntoNode]. rewrite bool_decide_eq_false_2; [done|].
    apply (Habs (headOf (Nested.mk i0 dt g None) q d i)). by left.
  - rewrite insertInto_cons. rewrite flattenFrom_node in Habs.
    rewrite (IHrest q d (S i))
      by (intros e He; apply Habs; right; apply elem_of_app; by right).
    cbn [insertIntoNode]. rewrite bool_decide_eq_false_2.
    + fold (insertInto parentId children cs).
      by rewrite (IHcs (Some i0) (d + 1)%Z 0)
        by (intros e He; apply Habs; right; apply elem_of_app; by left).
    + apply (Habs (headOf (Nested.mk i0 dt g (Some cs)) q d i)). by left.
Qed.

Lemma findNode_graft (parentId : string) children L :
  findNode (graftChildren parentId children L) parentId
  = markLoaded <$> findNode L parentId.
Proof.
  unfold findNode. induction L as [|e L IH]; [done|].
  rewrite graftChildren_cons. destruct (decide (Flat.id e = parentId)) as [He|He].
  - rewrite bool_decide_eq_true_2 by done. simpl.
    rewrite !decide_True by done. done.
  - rewrite bool_decide_eq_false_2 by done. simpl.
    rewrite !decide_False by done. simpl.
    destruct (list_find (fun n => Flat.id n = parentId) L) as [[j x]|] eqn:EL;
      destruct (list_find (fun n => Flat.id n = parentId)
                  (graftChildren parentId children L)) as [[j' x']|] eqn:EG;
      simpl in *; congruence.
Qed.

(** X15. When the nodes with id [parentId] are groups whose
    children are not loaded, the items that [insertChildren] hands to
    [onItemsChange] flatten to the old flat array with that node marked as
    loaded and the flattened [children] placed right after it, one level
    deeper; every other node is as before. *)
Theorem insertChildren_flat (items : list (Nested.t T)) (parentId : string)
    (children : list (Nested.t T))
    (Hlazy : forall e, e ∈ flattenTree items None 0%Z -> Flat.id e = parentId ->
                       Flat.isGroup e = true /\ Flat.childrenLoaded e = false) :
  insertChildren true items parentId children = [insertInto parentId children items]
  /\ flattenTree (insertInto parentId children items) None 0%Z
     = graftChildren parentId children (flattenTree items None 0%Z).
Proof. split; [done|]. by apply insertInto_flat. Qed.

(** X16. [insertChildren] with an id that no node of the
    items has hands the items to [onItemsChange] unchanged. *)
Theorem insertChildren_absent (items : list (Nested.t T)) (parentId : string)
    (children : list (Nested.t T))
    (Habsent : parentId ∉ map Flat.id (flattenTree items None 0%Z)) :
  insertChildren true items parentId children = [items].
Proof.
  unfold insertChildren. f_equal. apply (insertInto_absent_from _ _ _ None 0%Z 0).
  intros e He Hid. apply Habsent. apply list_elem_of_fmap. by exists e.
Qed.

(** X17. Toggling a group whose children are not loaded
    starts the load and leaves the expansion set alone; once its children
    were inserted, toggling it changes the expansion set and starts no
    load. *)
Theorem lazy_group_loads_once (options : Lazy.Options) (items : list (Nested.t T))
    (parentId : string) (node : Flat.t T)
    (Hloader : Lazy.loadChildren options = true)
    (Hnode : findNode (flattenTree items None 0%Z) parentId = Some node)
    (Hlazy : forall e, e ∈ flattenTree items None 0%Z -> Flat.id e = parentId ->
                       Flat.isGroup e = true /\ Flat.childrenLoaded e = false) :
  (forall (st : Lazy.State) (E : gset string),
     viewToggleExpand options (flattenTree items None 0%Z) st E parentId
     = (triggerLoad options st node, E))
  /\ (forall (children : list (Nested.t T)) (st : Lazy.State) (E : gset string),
        viewToggleExpand options (flattenTree (insertInto parentId children items) None 0%Z)
                         st E parentId
        = (st, [],
           toggleExpand (flattenTree (insertInto parentId children items) None 0%Z)
                        E parentId)).
Proof.
  assert (Hin : node ∈ flattenTree items None 0%Z /\ Flat.id node = parentId).
  { unfold findNode in Hnode.
    destruct (list_find (fun n => Flat.id n = parentId) (flattenTree items None 0%Z))
      as [[j x]|] eqn:Hfind; [|done].
    injection Hnode as ->. apply list_find_Some in Hfind as (Hj & Hid & _).
    split; [by eapply list_elem_of_lookup_2|done]. }
  destruct Hin as [Hin Hid]. destruct (Hlazy node Hin Hid) as [Hg Hl]. split.
  - intros st E. unfold viewToggleExpand. by rewrite Hnode, Hg, Hl, Hloader.
  - intros children st E. unfold viewToggleExpand.
    assert (Hflat : flattenTree (insertInto parentId children items) None 0%Z
                    = graftChildren parentId children (flattenTree items None 0%Z)).
    { by apply insertInto_flat. }
    rewrite Hflat at 1. rewrite findNode_graft, Hnode. simpl.
    by rewrite andb_false_r.
Qed.

Lemma runUpdates_uncontrolled (updaters : list (gset string -> gset string)) :
  forall (s : IdsState.t) (rendered : gset string),
    IdsState.controlled s = None ->
    IdsState.controlled (runUpdates s rendered updaters).1 = None
    /\ IdsState.internal (runUpdates s rendered updaters).1
       = match last updaters with
         | Some u => u rendered
         | None => IdsState.internal s
         end.
Proof.
  induction updaters as [|u rest IH]; intros s rendered Hs; [done|].
  cbn [runUpdates].
  destruct (setIds s rendered u) as [s1 out1] eqn:Hset.
  unfold setIds in Hset. rewrite Hs in Hset. injection Hset as <- <-.
  specialize (IH (IdsState.mk None (u rendered) (IdsState.onChange s)) rendered eq_refl).
  destruct (runUpdates _ rendered rest) as [s2 out2]. simpl in *.
  destruct IH as [H1 H2]. split; [done|]. rewrite H2.
  destruct rest as [|u' rest']; [done|]. rewrite last_cons_cons.
  destruct (last (u' :: rest')) eqn:El; [done|]. by apply last_None in El.
Qed.

(** X18. In single selection mode the selection holds at most
    one id after [select] and after [toggleSelect], whatever it held
    before; in multiple mode [toggleSelect] changes the membership of the
    given id only, and twice in a row restores the selection; in mode
    none neither does anything. *)
Theorem selection_modes :
  forall (prev : gset string) (id : string),
    (select mode_none id = None /\ toggleSelect mode_none id = None)
    /\ (exists u, select mode_single id = Some u /\ u prev = {[id]})
    /\ (exists u, toggleSelect mode_single id = Some u
                  /\ size (u prev) <= 1
                  /\ (id ∈ u prev <-> id ∉ prev))
    /\ (exists u, toggleSelect mode_multiple id = Some u
                  /\ (forall x, x ∈ u prev <-> (x ≠ id /\ x ∈ prev) \/ (x = id /\ id ∉ prev))
                  /\ u (u prev) = prev).
Proof.
  intros prev id. split; [done|]. split; [by eexists|]. split.
  - eexists. split; [done|]. simpl. destruct (decide (id ∈ prev)) as [Hi|Hi].
    + rewrite bool_decide_eq_true_2 by done. rewrite size_empty. split; [lia|set_solver].
    + rewrite bool_decide_eq_false_2 by done. rewrite size_singleton. split; [lia|set_solver].
  - eexists. split; [done|]. simpl. destruct (decide (id ∈ prev)) as [Hi|Hi].
    + rewrite bool_decide_eq_true_2 by done. split.
      * intros x. rewrite elem_of_difference, elem_of_singleton. split.
        -- intros [H1 H2]. left. by split.
        -- intros [[H1 H2]|[H1 H2]]; [by split|done].
      * rewrite bool_decide_eq_false_2 by set_solver.
        apply set_eq. intros x. rewrite elem_of_union, elem_of_difference, elem_of_singleton.
        split; [intros [->|[H _]]; done|]. intros Hx.
        destruct (decide (x = id)); [by left|right; by split].
    + rewrite bool_decide_eq_false_2 by done. split.
      * intros x. rewrite elem_of_union, elem_of_singleton. split.
        -- intros [->|H]; [right; by split|left; split; [|done]]. intros ->. done.
        -- intros [[H1 H2]|[H1 H2]]; [by right|by left].
      * rewrite bool_decide_eq_true_2 by set_solver.
        apply set_eq. intros x. rewrite elem_of_difference, elem_of_union, elem_of_singleton.
        split; [intros [[->|H] H2]; done|]. intros Hx. split; [by right|].
        intros ->. done.
Qed.

(** X19. Toggling a collapsed node twice gives the expansion
    set back without the descendants of the node: the set itself only
    when none of them was expanded. *)
Theorem toggleExpand_twice (flat : list (Flat.t T)) (E : gset string) (id : string)
    (Hcollapsed : id ∉ E) :
  toggleExpand flat (toggleExpand flat E id) id = E ∖ list_to_set (getDescendantIds flat id)
  /\ (toggleExpand flat (toggleExpand flat E id) id = E
      <-> forall d, d ∈ getDescendantIds flat id -> d ∉ E).
Proof.
  assert (H : toggleExpand flat (toggleExpand flat E id) id
              = E ∖ list_to_set (getDescendantIds flat id)).
  { rewrite (toggleExpand_not_expanded flat E id) by done.
    rewrite toggleExpand_expanded by set_solver. set_solver. }
  split; [done|]. rewrite H. split.
  - intros Heq d Hd HdE. rewrite <- Heq in HdE.
    apply elem_of_difference in HdE as [_ HdE]. apply HdE. by apply elem_of_list_to_set.
  - intros Hno. apply set_eq. intros x. rewrite elem_of_difference, elem_of_list_to_set.
    split; [by intros [? _]|]. intros Hx. split; [done|]. intros Hd. by apply (Hno x).
Qed.

End state_more.

Section state_more_examples.
Open Scope string_scope.

Lemma lazyItems_lazy :
  forall e, e ∈ flattenTree lazyItems None 0%Z -> Flat.id e = "g" ->
            Flat.isGroup e = true /\ Flat.childrenLoaded e = false.
Proof.
  intros e He Hid. unfold lazyItems, flattenTree in He. simpl in He.
  repeat (apply elem_of_cons in He as [->|He]); try done. by apply elem_of_nil in He.
Qed.

Lemma insertChildren_flat_witness :
  flattenTree (insertInto "g" loadedChildren lazyItems) None 0%Z
  = graftChildren "g" loadedChildren (flattenTree lazyItems None 0%Z)
  /\ graftChildren "g" loadedChildren (flattenTree lazyItems None 0%Z)
     = [ Flat.mk "g" tt true true None 0%Z 0;
         Flat.mk "g1" tt false false (Some "g") 1%Z 0;
         Flat.mk "x" tt false false None 0%Z 1 ].
Proof.
  split; [|reflexivity].
  exact (proj2 (insertChildren_flat lazyItems "g" loadedChildren lazyItems_lazy)).
Defined.

Lemma insertChildren_absent_witness :
  insertChildren true lazyItems "nowhere" loadedChildren = [lazyItems].
Proof.
  apply insertChildren_absent. apply (bool_decide_unpack _). vm_compute. exact I.
Defined.

Lemma lazy_group_loads_once_witness :
  viewToggleExpand lazyOptions (flattenTree lazyItems None 0%Z) initialLazy ∅ "g"
  = (triggerLoad lazyOptions initialLazy lazyGroup, ∅)
  /\ viewToggleExpand lazyOptions
                      (flattenTree (insertInto "g" loadedChildren lazyItems) None 0%Z)
                      initialLazy ∅ "g"
     = (initialLazy, [],
        toggleExpand (flattenTree (insertInto "g" loadedChildren lazyItems) None 0%Z) ∅ "g").
Proof.
  destruct (lazy_group_loads_once lazyOptions lazyItems "g" lazyGroup eq_refl eq_refl
                                  lazyItems_lazy) as [H1 H2].
  split; [apply H1|apply H2].
Defined.

Lemma toggleExpand_twice_witness :
  toggleExpand nestedGroupsFlat (toggleExpand nestedGroupsFlat {["a1"]} "a") "a"
  = {["a1"]} ∖ list_to_set (getDescendantIds nestedGroupsFlat "a")
  /\ toggleExpand nestedGroupsFlat (toggleExpand nestedGroupsFlat {["a1"]} "a") "a" = ∅.
Proof.
  split; [|by vm_compute].
  apply toggleExpand_twice. apply (bool_decide_unpack _). vm_compute. exact I.
Defined.

End state_more_examples.

(** ** [use-tree-keyboard.ts] *)

Section keyboard_more.
Context {T : Type}.
Variable props : T -> list (string * JsValue).
Variable toLowerCase : string -> string.
Implicit Types (o : Keyboard.Options T) (st : Keyboard.State) (e : Keyboard.KeyEvent).
Implicit Types (c node : Flat.t T) (visible : list (Flat.t T)).

Lemma currentIndexOf_range o :
  (-1 <= currentIndexOf o < Z.of_nat (length (Keyboard.visibleNodes o)))%Z
  \/ (currentIndexOf o = -1)%Z.
Proof.
  unfold currentIndexOf. destruct (truthy (Keyboard.focusedId o)); [|by right].
  destruct (Keyboard.focusedId o) as [f|]; [|by right].
  destruct (list_find _ _) as [[i x]|] eqn:Hfind; [|by right].
  apply list_find_Some in Hfind as (Hi & _). apply lookup_lt_Some in Hi. left. lia.
Qed.

Lemma currentIndexOf_bounds o :
  Keyboard.visibleNodes o ≠ [] ->
  (-1 <= currentIndexOf o < Z.of_nat (length (Keyboard.visibleNodes o)))%Z.
Proof.
  intros Hne. destruct (currentIndexOf_range o) as [H|H]; [done|].
  rewrite H. destruct (Keyboard.visibleNodes o); [done|]. simpl. lia.
Qed.

Lemma currentNodeOf_Some o c :
  currentNodeOf o = Some c ->
  (0 <= currentIndexOf o)%Z
  /\ Keyboard.visibleNodes o !! Z.to_nat (currentIndexOf o) = Some c.
Proof.
  unfold currentNodeOf. destruct (0 <=? currentIndexOf o)%Z eqn:H0; [|done].
  intros Hc. split; [lia|done].
Qed.

Lemma visible_id_elem o (i : nat) node :
  Keyboard.visibleNodes o !! i = Some node ->
  Flat.id node ∈ map Flat.id (Keyboard.visibleNodes o).
Proof.
  intros Hi. apply list_elem_of_fmap. exists node. split; [done|].
  by eapply list_elem_of_lookup_2.
Qed.

Lemma focusAt_names o e (i : Z) :
  (0 <= i < Z.of_nat (length (Keyboard.visibleNodes o)))%Z ->
  Forall (namesNodes o) (focusAt o e i).
Proof.
  intros Hi. unfold focusAt. rewrite (proj2 (Z.leb_le 0 i)) by lia.
  destruct (Keyboard.visibleNodes o !! Z.to_nat i) as [n|] eqn:Hn.
  - pose proof (visible_id_elem o _ n Hn) as Hin.
    constructor; [done|]. destruct (_ && _); [|done]. by constructor.
  - apply lookup_ge_None in Hn. lia.
Qed.

Lemma typeAheadSearch_names o (buffer : string) (start : Z) (todo : nat) : forall i : Z,
  Keyboard.visibleNodes o ≠ [] ->
  Forall (namesNodes o)
         (typeAheadSearch props toLowerCase (Keyboard.visibleNodes o) buffer start i todo).
Proof.
  induction todo as [|todo IH]; intros i Hne; [done|]. cbn [typeAheadSearch].
  set (len := Z.of_nat (length (Keyboard.visibleNodes o))).
  assert (Hlen : (0 < len)%Z).
  { unfold len. destruct (Keyboard.visibleNodes o); [done|]. simpl. lia. }
  pose proof (Z.mod_pos_bound (start + i) len Hlen) as Hidx.
  destruct (Keyboard.visibleNodes o !! Z.to_nat ((start + i) mod len)) as [node|] eqn:Hn.
  - destruct (String.prefix _ _); [|by apply IH].
    constructor; [|done]. by eapply visible_id_elem.
  - apply lookup_ge_None in Hn. unfold len in *. lia.
Qed.

(** The search of the type-ahead returns the first match, counting
    from [start] and wrapping around. *)
Lemma typeAheadSearch_first visible (buffer : string) (start : Z) (todo : nat) :
  forall (i0 k : nat) node,
    k < todo ->
    visible !! Z.to_nat ((start + Z.of_nat (i0 + k)) mod Z.of_nat (length visible)) = Some node ->
    String.prefix buffer (toLowerCase (getNodeLabel props node)) = true ->
    (forall j node', j < k ->
       visible !! Z.to_nat ((start + Z.of_nat (i0 + j)) mod Z.of_nat (length visible))
       = Some node' ->
       String.prefix buffer (toLowerCase (getNodeLabel props node')) = false) ->
    (forall j, j < k ->
       is_Some (visible
                !! Z.to_nat ((start + Z.of_nat (i0 + j)) mod Z.of_nat (length visible)))) ->
    typeAheadSearch props toLowerCase visible buffer start (Z.of_nat i0) todo
    = [Keyboard.SetFocused (Flat.id node)].
Proof.
  induction todo as [|todo IH]; intros i0 k node Hk Hat Hm Hbefore Hsome; [lia|].
  cbn [typeAheadSearch]. destruct k as [|k].
  - rewrite Nat.add_0_r in Hat. by rewrite Hat, Hm.
  - destruct (Hsome 0 ltac:(lia)) as [node0 Hnode0].
    pose proof (Hbefore 0 node0 ltac:(lia) Hnode0) as Hm0.
    rewrite Nat.add_0_r in Hnode0. rewrite Hnode0, Hm0.
    replace (Z.of_nat i0 + 1)%Z with (Z.of_nat (S i0)) by lia.
    apply (IH (S i0) k node); [lia| | | |].
    + by replace (S i0 + k) with (i0 + S k) by lia.
    + done.
    + intros j node' Hj. replace (S i0 + j) with (i0 + S j) by lia.
      apply Hbefore. lia.
    + intros j Hj. replace (S i0 + j) with (i0 + S j) by lia. apply Hsome. lia.
Qed.

Lemma typeAheadSearch_none visible (buffer : string) (start : Z) (todo : nat) : forall i : Z,
  visible ≠ [] ->
  (forall node, node ∈ visible ->
                String.prefix buffer (toLowerCase (getNodeLabel props node)) = false) ->
  typeAheadSearch props toLowerCase visible buffer start i todo = [].
Proof.
  induction todo as [|todo IH]; intros i Hne Hno; [done|]. cbn [typeAheadSearch].
  set (len := Z.of_nat (length visible)).
  assert (Hlen : (0 < len)%Z).
  { unfold len. destruct visible; [done|]. simpl. lia. }
  pose proof (Z.mod_pos_bound (start + i) len Hlen) as Hidx.
  destruct (visible !! Z.to_nat ((start + i) mod len)) as [node|] eqn:Hn.
  - rewrite Hno; [by apply IH|]. by eapply list_elem_of_lookup_2.
  - apply lookup_ge_None in Hn. unfold len in *. lia.
Qed.

(** X20. When the flat array has unique ids with depths that
    follow the parents and the visible rows are its [getVisibleNodes],
    every id that the key handler passes to [setFocused], [collapse],
    [select], [toggleSelect] or [selectRange] is the id of a visible
    node, every id it passes to [expand] is the id of a node, and it
    never reads a field of a missing row; with no visible row it does
    nothing at all. *)
Theorem onKeyDown_names_nodes (o : Keyboard.Options T) (st : Keyboard.State)
    (e : Keyboard.KeyEvent)
    (Hids : NoDup (map Flat.id (Keyboard.flatNodes o)))
    (Hdepth : depthsFollowParents (Keyboard.flatNodes o))
    (Hvis : Keyboard.visibleNodes o
            = getVisibleNodes (Keyboard.flatNodes o) (Keyboard.expandedIds o)) :
  Forall (namesNodes o) (onKeyDown props toLowerCase o st e).2
  /\ (Keyboard.visibleNodes o = [] -> onKeyDown props toLowerCase o st e = (st, [])).
Proof.
  split; [|intros Hnil; unfold onKeyDown; by rewrite bool_decide_eq_true_2].
  unfold onKeyDown. cbv zeta.
  destruct (decide (Keyboard.visibleNodes o = [])) as [Hnil|Hne].
  { rewrite bool_decide_eq_true_2 by done. constructor. }
  rewrite bool_decide_eq_false_2 by done.
  pose proof (currentIndexOf_bounds o Hne) as Hci.
  assert (Hlen : (0 < Z.of_nat (length (Keyboard.visibleNodes o)))%Z).
  { destruct (Keyboard.visibleNodes o); [done|]. simpl. lia. }
  assert (Hcur : forall c, currentNodeOf o = Some c ->
                           Flat.id c ∈ map Flat.id (Keyboard.visibleNodes o)).
  { intros c Hc. apply currentNodeOf_Some in Hc as [_ Hc]. by eapply visible_id_elem. }
  assert (Hflat : forall i, i ∈ map Flat.id (Keyboard.visibleNodes o) ->
                            i ∈ map Flat.id (Keyboard.flatNodes o)).
  { intros i Hi. apply list_elem_of_fmap in Hi as (n & -> & Hn).
    apply list_elem_of_fmap. exists n. split; [done|].
    rewrite Hvis in Hn. eapply elem_of_sublist; [done|apply getVisibleNodes_sublist]. }
  destruct (bool_decide (Keyboard.key e = "ArrowDown"%string)).
  { constructor; [done|]. apply focusAt_names. lia. }
  destruct (bool_decide (Keyboard.key e = "ArrowUp"%string)).
  { constructor; [done|]. apply focusAt_names. lia. }
  destruct (bool_decide (Keyboard.key e = "ArrowRight"%string)).
  { constructor; [done|]. destruct (currentNodeOf o) as [c|] eqn:Hc; [|done].
    destruct (Flat.isGroup c && negb _).
    - constructor; [|done]. simpl. by apply Hflat, Hcur.
    - destruct (Flat.isGroup c && _); [|done].
      destruct (Keyboard.visibleNodes o !! _) as [next|] eqn:Hnext; [|done].
      destruct (bool_decide _); [|done]. constructor; [|done].
      by eapply visible_id_elem. }
  destruct (bool_decide (Keyboard.key e = "ArrowLeft"%string)).
  { constructor; [done|]. destruct (currentNodeOf o) as [c|] eqn:Hc; [|done].
    destruct (Flat.isGroup c && _).
    - constructor; [|done]. by apply Hcur.
    - destruct (Flat.parentId c) as [p|] eqn:Hp; [|done]. constructor; [|done].
      apply currentNodeOf_Some in Hc as [_ Hc]. rewrite Hvis in Hc.
      destruct (visible_parent_before _ _ _ _ Hids Hdepth Hc)
        as [[Hnone _]|(a & m & _ & Hm & Hpm & _)]; [congruence|].
      simpl. rewrite Hvis. apply list_elem_of_fmap. exists m.
      split; [congruence|]. by eapply list_elem_of_lookup_2. }
  destruct (bool_decide (Keyboard.key e = "Home"%string)).
  { constructor; [done|]. apply focusAt_names. lia. }
  destruct (bool_decide (Keyboard.key e = "End"%string)).
  { constructor; [done|]. apply focusAt_names. lia. }
  destruct (bool_decide (Keyboard.key e = "Enter"%string)).
  { constructor; [done|]. destruct (currentNodeOf o) as [c|] eqn:Hc; [|done].
    constructor; [|done]. by apply Hcur. }
  destruct (bool_decide (Keyboard.key e = " "%string)).
  { constructor; [done|]. destruct (currentNodeOf o) as [c|] eqn:Hc; [|done].
    destruct (bool_decide _); (constructor; [|done]); by apply Hcur. }
  destruct (bool_decide (Keyboard.key e = "*"%string)).
  { constructor; [done|]. destruct (currentNodeOf o) as [c|] eqn:Hc; [|done].
    apply Forall_forall. intros eff Heff.
    apply list_elem_of_fmap in Heff as (node & -> & Hnode).
    apply list_elem_of_filter in Hnode as [_ Hnode]. simpl.
    apply list_elem_of_fmap. by exists node. }
  destruct (bool_decide (Keyboard.key e = "a"%string) && _ && _).
  { by repeat constructor. }
  destruct ((String.length (Keyboard.key e) =? 1) && _ && _ && _); [|done].
  constructor; [done|]. by apply typeAheadSearch_names.
Qed.

(** X21. A key of one character, without Control, Alt or Meta
    and other than the space and the asterisk, is appended in lower case
    to the type-ahead buffer; the focus moves to the first visible row,
    counting from the row after the focused one and wrapping around,
    whose label in lower case starts with the buffer, and stays where it
    is when there is none. *)
Theorem typeAhead_focus (o : Keyboard.Options T) (st : Keyboard.State) (e : Keyboard.KeyEvent)
    (Hrows : Keyboard.visibleNodes o ≠ [])
    (Hkey : String.length (Keyboard.key e) = 1)
    (Hspace : Keyboard.key e ≠ " "%string)
    (Hstar : Keyboard.key e ≠ "*"%string)
    (Hmods : Keyboard.ctrlKey e = false /\ Keyboard.altKey e = false
             /\ Keyboard.metaKey e = false) :
  let visible := Keyboard.visibleNodes o in
  let buffer := (Keyboard.typeAheadBuffer st ++ toLowerCase (Keyboard.key e))%string in
  let row (i : nat) :=
    visible !! Z.to_nat ((currentIndexOf o + 1 + Z.of_nat i) mod Z.of_nat (length visible)) in
  let matches (node : Flat.t T) :=
    String.prefix buffer (toLowerCase (getNodeLabel props node)) in
  (onKeyDown props toLowerCase o st e).1 = Keyboard.mkState buffer true
  /\ (forall (k : nat) (node : Flat.t T),
        k < length visible -> row k = Some node -> matches node = true ->
        (forall j node', j < k -> row j = Some node' -> matches node' = false) ->
        (onKeyDown props toLowerCase o st e).2
        = [Keyboard.PreventDefault; Keyboard.SetFocused (Flat.id node)])
  /\ ((forall node, node ∈ visible -> matches node = false) ->
      (onKeyDown props toLowerCase o st e).2 = [Keyboard.PreventDefault]).
Proof.
  intros visible buffer row matches. destruct Hmods as (Hctrl & Halt & Hmeta).
  assert (Hrun : onKeyDown props toLowerCase o st e
                 = (Keyboard.mkState buffer true,
                    Keyboard.PreventDefault
                    :: typeAheadSearch props toLowerCase visible buffer
                                       (currentIndexOf o + 1)%Z 0 (length visible))).
  { unfold onKeyDown. rewrite bool_decide_eq_false_2 by done.
    assert (Hnot : forall s : string, String.length s ≠ 1 ->
                                      bool_decide (Keyboard.key e = s) = false).
    { intros s Hs. apply bool_decide_eq_false_2. intros Heq. by rewrite Heq in Hkey. }
    rewrite !Hnot by (simpl; lia).
    rewrite (bool_decide_eq_false_2 (Keyboard.key e = " "%string)) by done.
    rewrite (bool_decide_eq_false_2 (Keyboard.key e = "*"%string)) by done.
    rewrite Hctrl, Halt, Hmeta, Hkey. simpl.
    by rewrite andb_false_r. }
  rewrite Hrun. split; [done|].
  pose proof (currentIndexOf_bounds o Hrows) as Hci.
  assert (Hlen : (0 < Z.of_nat (length visible))%Z).
  { unfold visible. destruct (Keyboard.visibleNodes o); [done|]. simpl. lia. }
  split.
  - intros k node Hk Hrow Hm Hbefore. simpl. f_equal.
    apply (typeAheadSearch_first visible buffer _ (length visible) 0 k node); try done.
    intros j Hj. apply lookup_lt_is_Some.
    pose proof (Z.mod_pos_bound (currentIndexOf o + 1 + Z.of_nat (0 + j))
                                (Z.of_nat (length visible)) Hlen). lia.
  - intros Hno. simpl. f_equal. by apply typeAheadSearch_none.
Qed.

Lemma last_map {A B} (f : A -> B) (l : list A) : last (map f l) = f <$> last l.
Proof.
  induction l as [|x l IH]; [done|]. destruct l as [|y l]; [done|].
  simpl map in *. by rewrite !last_cons_cons.
Qed.

(** X22. With a row focused, the asterisk calls [expand] once
    for every group among the nodes sharing the parent of the focused
    node, in array order.  Every one of these updates is computed from
    the expansion set of the current render, so the uncontrolled state
    ends as that set with the last of these groups added. *)
Theorem star_key_expands_last (o : Keyboard.Options T) (st : Keyboard.State)
    (e : Keyboard.KeyEvent) (c : Flat.t T)
    (Hrows : Keyboard.visibleNodes o ≠ [])
    (Hkey : Keyboard.key e = "*"%string)
    (Hfocus : currentNodeOf o = Some c) :
  let groups :=
    map Flat.id (filter (fun node => Flat.parentId node = Flat.parentId c
                                     /\ Flat.isGroup node = true)
                        (Keyboard.flatNodes o)) in
  onKeyDown props toLowerCase o st e
  = (st, Keyboard.PreventDefault :: map Keyboard.Expand groups)
  /\ forall s : IdsState.t,
       IdsState.controlled s = None ->
       IdsState.internal (runUpdates s (Keyboard.expandedIds o) (expandAll groups)).1
       = match last groups with
         | Some g => {[g]} ∪ Keyboard.expandedIds o
         | None => IdsState.internal s
         end.
Proof.
  intros groups. split.
  - unfold onKeyDown. rewrite bool_decide_eq_false_2 by done. rewrite Hkey. simpl.
    rewrite Hfocus. unfold groups. by rewrite map_map.
  - intros s Hs. rewrite (proj2 (runUpdates_uncontrolled _ s _ Hs)).
    unfold expandAll. rewrite last_map.
    destruct (last groups) as [g|]; [|done]. simpl. unfold expand.
    destruct (decide (g ∈ Keyboard.expandedIds o)).
    + rewrite bool_decide_eq_true_2 by done. set_solver.
    + by rewrite bool_decide_eq_false_2.
Qed.

End keyboard_more.

Section keyboard_more_examples.
Open Scope string_scope.

Lemma onKeyDown_names_nodes_witness :
  Forall (namesNodes (keyboardOptions (Some "a")))
         (onKeyDown id asciiLower (keyboardOptions (Some "a")) (Keyboard.mkState "" false)
                    (plainKey "ArrowLeft")).2
  /\ (onKeyDown id asciiLower (keyboardOptions (Some "a")) (Keyboard.mkState "" false)
                (plainKey "ArrowLeft")).2
     = [Keyboard.PreventDefault; Keyboard.SetFocused "docs"].
Proof.
  split; [|by vm_compute].
  apply onKeyDown_names_nodes.
  - apply (bool_decide_unpack _). vm_compute. exact I.
  - apply flattenTree_depths.
  - reflexivity.
Defined.

Lemma typeAhead_focus_witness :
  (onKeyDown id asciiLower (keyboardOptions (Some "docs")) (Keyboard.mkState "" false)
             (plainKey "B")).2
  = [Keyboard.PreventDefault; Keyboard.SetFocused "b"].
Proof.
  assert (Hrows : Keyboard.visibleNodes (keyboardOptions (Some "docs")) ≠ []) by done.
  assert (Hmods : Keyboard.ctrlKey (plainKey "B") = false
                  /\ Keyboard.altKey (plainKey "B") = false
                  /\ Keyboard.metaKey (plainKey "B") = false) by done.
  destruct (typeAhead_focus id asciiLower (keyboardOptions (Some "docs"))
              (Keyboard.mkState "" false) (plainKey "B") Hrows eq_refl
              ltac:(discriminate) ltac:(discriminate) Hmods) as (_ & Hfirst & _).
  apply (Hfirst 1 (Flat.mk "b" (labelled "beta") false false (Some "docs") 1%Z 1)).
  - vm_compute. lia.
  - by vm_compute.
  - by vm_compute.
  - intros j node' Hj Hrow. assert (j = 0) as -> by lia.
    vm_compute in Hrow. injection Hrow as <-. by vm_compute.
Defined.

Lemma star_key_expands_last_witness :
  onKeyDown id asciiLower (keyboardOptions (Some "docs")) (Keyboard.mkState "" false)
            (plainKey "*")
  = (Keyboard.mkState "" false,
     [Keyboard.PreventDefault; Keyboard.Expand "docs"; Keyboard.Expand "build";
      Keyboard.Expand "src"])
  /\ IdsState.internal
       (runUpdates (IdsState.mk None {["docs"]} false) {["docs"]}
                   (expandAll ["docs"; "build"; "src"])).1
     = {["src"]} ∪ {["docs"]}.
Proof.
  destruct (star_key_expands_last id asciiLower (keyboardOptions (Some "docs"))
              (Keyboard.mkState "" false) (plainKey "*")
              (Flat.mk "docs" (labelled "Docs") true true None 0%Z 0)
              ltac:(done) eq_refl eq_refl) as [H1 H2].
  split; [exact H1|]. exact (H2 (IdsState.mk None {["docs"]} false) eq_refl).
Defined.

End keyboard_more_examples.

(** ** [tree-node.tsx]: guide lines; [use-tree-dnd.ts]: a drop on the
    dragged node *)

Section row_more.
Context {T : Type}.
Implicit Types (node n : Flat.t T) (visible rest : list (Flat.t T)).

(** X23. The guide lines of a row are pairwise distinct
    depths, so that they can serve as keys; when the depth of the row is
    not negative they lie at or above 0 and below that depth. *)
Theorem guideLines_distinct (showGuideLines : bool) (node : Flat.t T) (sortableIndex : nat)
    (visibleNodes : list (Flat.t T)) :
  NoDup (guideLines showGuideLines node sortableIndex visibleNodes)
  /\ ((0 <= Flat.depth node)%Z ->
      forall d, d ∈ guideLines showGuideLines node sortableIndex visibleNodes ->
                (0 <= d < Flat.depth node)%Z).
Proof.
  unfold guideLines.
  destruct (negb showGuideLines || (Flat.depth node =? 0)%Z) eqn:Hskip.
  { split; [constructor|]. intros _ d Hd. by apply elem_of_nil in Hd. }
  apply orb_false_iff in Hskip as [_ Hdepth]. apply Z.eqb_neq in Hdepth.
  set (rest := drop (sortableIndex + 1) visibleNodes).
  set (continued := scanContinued rest (Flat.depth node) ∅).
  set (lines := filter (fun d => d ∈ continued) (seqZ 0 (Flat.depth node))).
  assert (Hnd : NoDup lines) by apply NoDup_filter, NoDup_seqZ.
  assert (Hin : forall d, d ∈ lines -> d ∈ continued /\ (0 <= d < Flat.depth node)%Z).
  { intros d Hd. apply list_elem_of_filter in Hd as [Hc Hd]. split; [done|].
    apply elem_of_seqZ in Hd. lia. }
  destruct (decide ((Flat.depth node - 1)%Z ∈ continued)) as [Hc|Hc].
  { rewrite bool_decide_eq_true_2 by done. split; [done|]. intros _ d Hd. by apply Hin. }
  rewrite bool_decide_eq_false_2 by done. destruct (laterSibling rest node _).
  - split.
    + apply NoDup_app. split; [done|]. split; [|apply NoDup_singleton].
      intros d Hd Hd'. apply list_elem_of_singleton in Hd'. subst d.
      by destruct (Hin _ Hd).
    + intros H0 d Hd. apply elem_of_app in Hd as [Hd|Hd]; [by apply Hin|].
      apply list_elem_of_singleton in Hd. lia.
  - split; [done|]. intros _ d Hd. by apply Hin.
Qed.

End row_more.

Section dnd_more.
Context {T : Type}.
Implicit Types (o : Dnd.Options T) (s : Dnd.Session).

(** X24. When a single node is dragged (the selection mode is not
    multiple, or the dragged node is not selected, or it is the only
    selected node) and the target of the drop is that node itself,
    [handleDragEnd] finds no target among the remaining nodes and places
    the node, with its descendants, at the end of the flat array: the
    remaining nodes come first, in their order. *)
Theorem drop_on_itself_moves_to_end (o : Dnd.Options T) (sourceNode : Flat.t T)
    (currentDropPosition : option DropPosition) (currentProjectedDepth : option Z)
    (currentProjectedParentId : option string) (result : list (Flat.t T))
    (Hsingle : ~ (Dnd.selectionMode o = mode_multiple
                  /\ Flat.id sourceNode ∈ Dnd.selectedIds o
                  /\ 1 < size (Dnd.selectedIds o)))
    (Hmove : moveNodes o sourceNode (Flat.id sourceNode) currentDropPosition
                       currentProjectedDepth currentProjectedParentId = Some result) :
  let remaining := removeNodes (Dnd.flatNodes o) [Flat.id sourceNode] in
  take (length remaining) result = remaining
  /\ map Flat.id (drop (length remaining) result)
     = map Flat.id (filter (fun n => Flat.id n
                                     ∈ withDescendants (Dnd.flatNodes o) [Flat.id sourceNode])
                           (Dnd.flatNodes o)).
Proof.
  intros remaining. unfold moveNodes in Hmove.
  assert (Hone : bool_decide (Dnd.selectionMode o = mode_multiple)
                 && bool_decide (Flat.id sourceNode ∈ Dnd.selectedIds o)
                 && bool_decide (1 < size (Dnd.selectedIds o)) = false).
  { apply not_true_is_false. intros Hall.
    apply andb_prop in Hall as [Hall H3]. apply andb_prop in Hall as [H1 H2].
    apply bool_decide_eq_true in H1, H2, H3. exact (Hsingle (conj H1 (conj H2 H3))). }
  rewrite Hone in Hmove. simpl in Hmove.
  match type of Hmove with
  | (if ?c then _ else _) = _ => destruct c; [done|]
  end.
  fold remaining in Hmove.
  assert (Hfind : list_find (fun n => Flat.id n = Flat.id sourceNode) remaining = None).
  { apply list_find_None, Forall_forall. intros n Hn Hid.
    unfold remaining in Hn. rewrite removeNodes_filter in Hn.
    assert (Hn' : Flat.id n ∈ map Flat.id
                    (filter (fun n => Flat.id n
                                      ∉ withDescendants (Dnd.flatNodes o) [Flat.id sourceNode])
                            (Dnd.flatNodes o))).
    { rewrite <- reindexSiblings_ids. apply list_elem_of_fmap. by exists n. }
    apply list_elem_of_fmap in Hn' as (m & Hm & Hin).
    apply list_elem_of_filter in Hin as [Hnot _]. apply Hnot.
    apply elem_of_withDescendants. left. rewrite <- Hm, Hid. by left. }
  rewrite Hfind in Hmove. injection Hmove as <-.
  rewrite firstn_all, skipn_all, app_nil_r. split.
  - by rewrite take_app_length.
  - rewrite drop_app_length, map_map. apply map_ext. intros a. simpl.
    by destruct (bool_decide (Flat.id a ∈ _)).
Qed.

End dnd_more.

Section row_dnd_more_examples.
Open Scope string_scope.

Lemma guideLines_distinct_witness :
  (forall d, d ∈ guideLines true (Flat.mk "c1" tt false false (Some "p") 2%Z 0) 2 guideRows ->
             (0 <= d < 2)%Z)
  /\ guideLines true (Flat.mk "c1" tt false false (Some "p") 2%Z 0) 2 guideRows = [0%Z; 1%Z].
Proof.
  split; [|by vm_compute].
  apply (guideLines_distinct true (Flat.mk "c1" tt false false (Some "p") 2%Z 0) 2 guideRows).
  simpl. lia.
Defined.

(** In multiple selection mode, with the dragged leaf the only selected
    node. *)
Lemma drop_on_itself_moves_to_end_witness :
  take 1 [ Flat.mk "y" tt false false None 0%Z 0; Flat.mk "x" tt false false None 0%Z 0 ]
  = removeNodes twoLeavesFlat ["x"]
  /\ Dnd.projectedParentIdRef hoverFirstLeafOverItself = None
  /\ Dnd.dropPositionRef hoverFirstLeafOverItself = Some after.
Proof.
  split; [|by vm_compute].
  apply (drop_on_itself_moves_to_end twoLeavesOneSelected
           (Flat.mk "x" tt false false None 0%Z 0) (Some after) (Some 0%Z) None).
  - intros (_ & _ & Hsize). vm_compute in Hsize. lia.
  - by vm_compute.
Defined.

(** Picking up the first of two leaves and dropping it where it is makes
    it the second. *)
Example drop_without_moving_reorders :
  exists items,
    (handleDragEnd twoLeavesOptions hoverFirstLeafOverItself
                   (Dnd.mkOperation (Some "x") (Some "x") None false)).2
    = [Dnd.OnItemsChange items]
    /\ reifyTree 2 items = Some [ Nested.mk "y" tt None None; Nested.mk "x" tt None None ].
Proof. eexists. split; [by vm_compute|by vm_compute]. Qed.

End row_dnd_more_examples.

(** ** The registry and the hover of the drag coordinator *)

Section group_more.
Context {T : Type}.
Implicit Types (regs : list (Group.Registration T)) (r : Group.Registration T).
Implicit Types (event : Dnd.Operation) (tid : string).

Lemma getRegistration_cons r regs tid :
  getRegistration (r :: regs) tid
  = if bool_decide (regTreeId r = tid) then Some r else getRegistration regs tid.
Proof.
  unfold getRegistration. simpl. destruct (decide (regTreeId r = tid)) as [Heq|Hne].
  - by rewrite bool_decide_eq_true_2.
  - rewrite bool_decide_eq_false_2 by done.
    by destruct (list_find (fun r => regTreeId r = tid) regs) as [[i x]|].
Qed.

(** The registrations after a call to the tree [tid]: only its session
    changes. *)
Lemma callTree_fst
    (handler : Dnd.Options T -> Dnd.Session -> Dnd.Session * list (Dnd.Effect T)) tid regs :
  NoDup (map regTreeId regs) ->
  (callTree handler tid regs).1
  = map (fun r => if bool_decide (regTreeId r = tid)
                  then Group.mkRegistration (Group.options r)
                                            (handler (Group.options r) (Group.session r)).1
                                            (Group.rendered r)
                  else r) regs.
Proof.
  induction regs as [|r regs IH]; intros Hnd; [done|].
  cbn [callTree map]. rewrite fmap_cons in Hnd. apply NoDup_cons in Hnd as [Hr Hnd].
  destruct (decide (regTreeId r = tid)) as [Heq|Hne].
  - rewrite !bool_decide_eq_true_2 by done.
    destruct (handler (Group.options r) (Group.session r)) as [s out]. simpl. f_equal.
    symmetry. rewrite <- (map_id regs) at 2. apply map_ext_in. intros r' Hr'.
    rewrite bool_decide_eq_false_2; [done|]. intros Heq'. apply Hr.
    apply list_elem_of_fmap. exists r'. split; [congruence|by apply list_elem_of_In].
  - rewrite !bool_decide_eq_false_2 by done.
    destruct (callTree handler tid regs) as [rest out]. simpl in *. by rewrite IH.
Qed.

Lemma callTree_ids
    (handler : Dnd.Options T -> Dnd.Session -> Dnd.Session * list (Dnd.Effect T)) tid regs :
  NoDup (map regTreeId regs) ->
  map regTreeId (callTree handler tid regs).1 = map regTreeId regs.
Proof.
  intros Hnd. rewrite callTree_fst by done. rewrite map_map. apply map_ext.
  intros r. by destruct (bool_decide _).
Qed.

(** X25. The registry of the coordinator holds one
    registration per tree id: after [register] the tree id gives the new
    registration, after [unregister] it gives nothing, and in both cases
    the other tree ids give what they gave before. *)
Theorem registry_lookup (regs : list (Group.Registration T)) (reg : Group.Registration T)
    (treeId other : string) (Hother : other ≠ treeId) :
  (regTreeId reg = treeId ->
   getRegistration (register reg regs) treeId = Some reg
   /\ getRegistration (register reg regs) other = getRegistration regs other)
  /\ getRegistration (unregister treeId regs) treeId = None
  /\ getRegistration (unregister treeId regs) other = getRegistration regs other.
Proof.
  split; [|split].
  - intros <-. induction regs as [|r0 regs [IH1 IH2]].
    + simpl. rewrite !getRegistration_cons. rewrite bool_decide_eq_true_2 by done.
      by rewrite bool_decide_eq_false_2 by done.
    + cbn [register]. destruct (decide (regTreeId r0 = regTreeId reg)) as [Heq|Hne].
      * rewrite bool_decide_eq_true_2 by done. rewrite !getRegistration_cons.
        rewrite bool_decide_eq_true_2 by done.
        rewrite !bool_decide_eq_false_2 by congruence. done.
      * rewrite bool_decide_eq_false_2 by done. rewrite !getRegistration_cons.
        rewrite (bool_decide_eq_false_2 (regTreeId r0 = regTreeId reg)) by done.
        rewrite IH1, IH2. done.
  - unfold unregister. induction regs as [|r0 regs IH]; [done|].
    rewrite filter_cons. destruct (decide (regTreeId r0 ≠ treeId)) as [Hne|Heq]; [|done].
    rewrite getRegistration_cons. by rewrite bool_decide_eq_false_2.
  - unfold unregister. induction regs as [|r0 regs IH]; [done|].
    rewrite filter_cons. destruct (decide (regTreeId r0 ≠ treeId)) as [Hne|Heq].
    + rewrite !getRegistration_cons. by rewrite IH.
    + rewrite getRegistration_cons. rewrite bool_decide_eq_false_2; [done|].
      intros Heq'. apply Heq. intros Heq''. congruence.
Qed.

(** X26. While a drag hovers over the trees of one
    coordinator (tree ids unique and not empty), at most the tree hovered
    last shows a drop target: if before [handleDragOver] every tree with
    an [overId] is the one recorded as hovered last, the same holds
    after. *)
Theorem drag_over_single_target (props : Group.Props) (g : Group.State T)
    (event : Dnd.Operation)
    (Hkeys : NoDup (map regTreeId (Group.registrations g)))
    (Hnames : forall r, r ∈ Group.registrations g -> regTreeId r ≠ EmptyString)
    (Hinv : forall r, r ∈ Group.registrations g ->
                      Dnd.overId (Group.session r) ≠ None ->
                      Group.lastOverTree g = Some (regTreeId r)) :
  forall r, r ∈ Group.registrations (groupHandleDragOver props g event).1 ->
            Dnd.overId (Group.session r) ≠ None ->
            Group.lastOverTree (groupHandleDragOver props g event).1 = Some (regTreeId r).
Proof.
  unfold groupHandleDragOver. destruct (Dnd.target event) as [targetId|] eqn:Htarget; [|done].
  destruct (findOwnerTree (Group.registrations g) targetId) as [owner|] eqn:Howner; [|done].
  cbn [fst Group.registrations Group.lastOverTree].
  set (regs := Group.registrations g) in *.
  set (regs1 := if truthy (Group.lastOverTree g) && _ then _ else regs).
  assert (H1 : NoDup (map regTreeId regs1)
               /\ forall r, r ∈ regs1 -> Dnd.overId (Group.session r) ≠ None ->
                            regTreeId r = regTreeId owner).
  { unfold regs1. destruct (Group.lastOverTree g) as [prev|] eqn:Hlast.
    - destruct (truthy (Some prev)) eqn:Htruthy; simpl.
      + destruct (decide (Some prev = Some (regTreeId owner))) as [Heq|Hne].
        * rewrite bool_decide_eq_true_2 by done. simpl. split; [done|].
          intros r Hr Hover. specialize (Hinv r Hr Hover). congruence.
        * rewrite bool_decide_eq_false_2 by done. simpl. split.
          -- by rewrite callTree_ids.
          -- intros r Hr Hover. rewrite callTree_fst in Hr by done.
             apply list_elem_of_fmap in Hr as (r0 & -> & Hr0).
             destruct (decide (regTreeId r0 = prev)) as [Hp|Hp].
             ++ rewrite bool_decide_eq_true_2 in Hover by done. simpl in Hover.
                unfold handleDragOver, withoutTarget in Hover. simpl in Hover.
                by destruct (Dnd.source event).
             ++ rewrite bool_decide_eq_false_2 in Hover by done.
                specialize (Hinv r0 Hr0 Hover). congruence.
      + split; [done|]. intros r Hr Hover. specialize (Hinv r Hr Hover).
        injection Hinv as ->. unfold truthy in Htruthy.
        apply negb_false_iff, bool_decide_eq_true in Htruthy. by destruct (Hnames r Hr).
    - simpl. split; [done|]. intros r Hr Hover. by specialize (Hinv r Hr Hover). }
  destruct H1 as [Hnd1 Hover1].
  intros r Hr Hover. rewrite callTree_fst in Hr by done.
  apply list_elem_of_fmap in Hr as (r0 & -> & Hr0).
  destruct (decide (regTreeId r0 = regTreeId owner)) as [Ho|Ho].
  - rewrite bool_decide_eq_true_2 by done. simpl. by rewrite <- Ho.
  - rewrite bool_decide_eq_false_2 in Hover by done.
    by destruct (Ho (Hover1 r0 Hr0 Hover)).
Qed.

End group_more.

Section group_more_examples.
Open Scope string_scope.

Lemma registry_lookup_witness :
  getRegistration (register (Group.mkRegistration treeAOptions idleSession idleSession)
                            (Group.registrations scenarioEGroup)) "A"
  = Some (Group.mkRegistration treeAOptions idleSession idleSession)
  /\ getRegistration (unregister "A" (Group.registrations scenarioEGroup)) "A" = None.
Proof.
  destruct (registry_lookup (Group.registrations scenarioEGroup)
              (Group.mkRegistration treeAOptions idleSession idleSession) "A" "B" ltac:(discriminate))
    as (H1 & H2 & _).
  split; [exact (proj1 (H1 eq_refl))|exact H2].
Defined.

Lemma drag_over_single_target_witness :
  Group.lastOverTree
    (groupHandleDragOver allCallbacks scenarioEGroup
                         (Dnd.mkOperation (Some "x") (Some "x") None false)).1
  = Some "A"
  /\ map (fun r => Dnd.overId (Group.session r))
         (Group.registrations
            (groupHandleDragOver allCallbacks scenarioEGroup
                                 (Dnd.mkOperation (Some "x") (Some "x") None false)).1)
     = [Some "x"; None].
Proof.
  split; [|by vm_compute].
  assert (Hkeys : NoDup (map regTreeId (Group.registrations scenarioEGroup))).
  { apply (bool_decide_unpack _). vm_compute. exact I. }
  assert (Hnames : forall r, r ∈ Group.registrations scenarioEGroup ->
                             regTreeId r ≠ EmptyString).
  { intros r Hr. unfold scenarioEGroup in Hr. simpl in Hr.
    repeat (apply elem_of_cons in Hr as [->|Hr]); try done. by apply elem_of_nil in Hr. }
  assert (Hinv : forall r, r ∈ Group.registrations scenarioEGroup ->
                           Dnd.overId (Group.session r) ≠ None ->
                           Group.lastOverTree scenarioEGroup = Some (regTreeId r)).
  { intros r Hr Hover. unfold scenarioEGroup in Hr. simpl in Hr.
    repeat (apply elem_of_cons in Hr as [->|Hr]); try done. by apply elem_of_nil in Hr. }
  apply (drag_over_single_target allCallbacks scenarioEGroup
           (Dnd.mkOperation (Some "x") (Some "x") None false) Hkeys Hnames Hinv
           (Group.mkRegistration treeAOptions
              (handleDragOver treeAOptions treeASession
                              (Dnd.mkOperation (Some "x") (Some "x") None false))
              treeASession)).
  - by apply (list_elem_of_lookup_2 _ 0).
  - by vm_compute.
Defined.

End group_more_examples.

(** ** Expanding more never hides a row; [buildTree] groups by parent *)

Section visible_build_more.
Context {T : Type}.
Implicit Types (flat L P S : list (Flat.t T)) (n m e : Flat.t T) (k p : string).
Implicit Types (E : gset string).

Lemma visible_monotone_prefix (E E' : gset string) flat :
  E ⊆ E' ->
  sublist (foldl (visibleStep E) ([], ∅) flat).1 (foldl (visibleStep E') ([], ∅) flat).1
  /\ (foldl (visibleStep E') ([], ∅) flat).2 ⊆ (foldl (visibleStep E) ([], ∅) flat).2.
Proof.
  intros Hsub. induction flat as [|n flat [IH1 IH2]] using rev_ind; [done|].
  rewrite !foldl_app. cbn [foldl].
  destruct (foldl (visibleStep E) ([], ∅) flat) as [res col].
  destruct (foldl (visibleStep E') ([], ∅) flat) as [res' col']. simpl in IH1, IH2.
  rewrite !visibleStep_eq.
  assert (Hgroup : Flat.isGroup n && negb (bool_decide (Flat.id n ∈ E')) = true ->
                   Flat.isGroup n && negb (bool_decide (Flat.id n ∈ E)) = true).
  { intros H. apply andb_true_iff in H as [Hg H]. rewrite Hg. simpl.
    apply negb_true_iff, bool_decide_eq_false in H.
    apply negb_true_iff, bool_decide_eq_false. set_solver. }
  destruct (Flat.parentId n) as [q|].
  - destruct (decide (q ∈ col')) as [Hq'|Hq'].
    + rewrite (bool_decide_eq_true_2 (q ∈ col')) by done.
      rewrite (bool_decide_eq_true_2 (q ∈ col)) by set_solver. simpl.
      split; [done|set_solver].
    + rewrite (bool_decide_eq_false_2 (q ∈ col')) by done.
      destruct (decide (q ∈ col)) as [Hq|Hq].
      * rewrite (bool_decide_eq_true_2 (q ∈ col)) by done. simpl. split.
        -- by apply sublist_inserts_r.
        -- destruct (Flat.isGroup n && negb (bool_decide (Flat.id n ∈ E'))); set_solver.
      * rewrite (bool_decide_eq_false_2 (q ∈ col)) by done. simpl. split.
        -- by apply sublist_app.
        -- destruct (Flat.isGroup n && negb (bool_decide (Flat.id n ∈ E'))) eqn:Hg'.
           ++ rewrite Hgroup by done. set_solver.
           ++ destruct (Flat.isGroup n && negb (bool_decide (Flat.id n ∈ E))); set_solver.
  - simpl. split.
    + by apply sublist_app.
    + destruct (Flat.isGroup n && negb (bool_decide (Flat.id n ∈ E'))) eqn:Hg'.
      * rewrite Hgroup by done. set_solver.
      * destruct (Flat.isGroup n && negb (bool_decide (Flat.id n ∈ E))); set_solver.
Qed.

(** With parents first, [rebuildNode] needs no more fuel than there are
    nodes from the node on. *)
Lemma rebuildNode_total L : parentsFirst L ->
  forall (fuel i : nat) e,
    L !! i = Some e -> length L - i <= fuel -> is_Some (rebuildNode fuel L e).
Proof.
  intros Hwf. pose proof (parentsFirst_NoDup _ Hwf) as Hnd.
  induction fuel as [|fuel IH]; intros i e Hi Hfuel.
  - apply lookup_lt_Some in Hi. lia.
  - cbn [rebuildNode]. destruct (Flat.childrenLoaded e); [|by eexists].
    assert (Hkids : is_Some (mapM (rebuildNode fuel L)
                               (filter (fun n => Flat.parentId n = Some (Flat.id e)) L))).
    { apply mapM_is_Some_2, Forall_forall. intros c Hc.
      apply list_elem_of_filter in Hc as [Hp Hc].
      apply list_elem_of_lookup in Hc as [j Hj].
      assert (Hsplit : L = take j L ++ c :: drop (S j) L).
      { by rewrite <- (take_drop_middle L j c Hj) at 1. }
      destruct (parentsFirst_parent L _ c _ _ Hwf Hsplit Hp) as (m & Hm & Hid).
      apply list_elem_of_lookup in Hm as [i' Hi'].
      pose proof (lookup_lt_Some _ _ _ Hi') as Hlt. rewrite length_take in Hlt.
      rewrite lookup_take_lt in Hi' by lia.
      assert (i' = i) as -> by (eapply lookup_id_inj; eauto).
      simpl. apply (IH j c Hj). lia. }
    destruct Hkids as [kids Hkids]. rewrite Hkids. by eexists.
Qed.

(** X27. Expanding more groups never hides a row: when
    [E] is included in [E'], the rows visible with [E] are, in the same
    order, among those visible with [E']. *)
Theorem getVisibleNodes_monotone (flat : list (Flat.t T)) (E E' : gset string)
    (Hmore : E ⊆ E') :
  sublist (getVisibleNodes flat E) (getVisibleNodes flat E').
Proof. unfold getVisibleNodes. by apply visible_monotone_prefix. Qed.

(** X28. On a flat array with unique ids whose parents come
    first and in which no node hangs under a node with unloaded children,
    the result of [buildTree] reads as the grouping of the array by
    [parentId]: the roots are the nodes without parent, the children of a
    node are the nodes with its id as [parentId], in array order, and each
    keeps its id and data, with [isGroup] present only when true.  A
    nesting bound of the length of the array is enough to read it. *)
Theorem buildTree_groups_by_parent (flat : list (Flat.t T)) (fuel : nat)
    (Hwf : parentsFirst flat) (Hloaded : parentsLoaded flat) :
  reifyTree fuel (buildTree flat) = mapM (rebuildNode fuel flat) (siblingsOf None flat)
  /\ (length flat <= fuel -> is_Some (reifyTree fuel (buildTree flat))).
Proof.
  pose proof (parentsFirst_NoDup _ Hwf) as Hnd.
  assert (Heq : reifyTree fuel (buildTree flat)
                = mapM (rebuildNode fuel flat) (siblingsOf None flat)).
  { by apply buildTree_rebuild. }
  split; [done|]. intros Hfuel. rewrite Heq.
  apply mapM_is_Some_2, Forall_forall. intros e He.
  apply list_elem_of_filter in He as [_ He]. apply list_elem_of_lookup in He as [i Hi].
  simpl. apply (rebuildNode_total flat Hwf fuel i e Hi). lia.
Qed.

End visible_build_more.

Section visible_build_more_examples.
Open Scope string_scope.

Lemma getVisibleNodes_monotone_witness :
  sublist (getVisibleNodes nestedGroupsFlat {["a"]}) (getVisibleNodes nestedGroupsFlat {["a"; "a1"]})
  /\ map Flat.id (getVisibleNodes nestedGroupsFlat {["a"]}) = ["a"; "a1"]
  /\ map Flat.id (getVisibleNodes nestedGroupsFlat {["a"; "a1"]}) = ["a"; "a1"; "a2"].
Proof.
  split; [|by vm_compute].
  apply getVisibleNodes_monotone. apply (bool_decide_unpack _). vm_compute. exact I.
Defined.

Lemma buildTree_groups_by_parent_witness :
  reifyTree 3 (buildTree scenarioDFlat)
  = mapM (rebuildNode 3 scenarioDFlat) (siblingsOf None scenarioDFlat)
  /\ reifyTree 3 (buildTree scenarioDFlat)
     = Some [ Nested.mk "p" tt (Some true) (Some [ Nested.mk "p1" tt None None ]);
              Nested.mk "m" tt None None;
              Nested.mk "q" tt None None;
              Nested.mk "z" tt None None ].
Proof.
  split; [|by vm_compute].
  assert (Hwf : parentsFirst scenarioDFlat) by (by vm_compute).
  assert (Hloaded : parentsLoaded scenarioDFlat).
  { apply flattenTree_parentsLoaded. apply (bool_decide_unpack _). vm_compute. exact I. }
  exact (proj1 (buildTree_groups_by_parent scenarioDFlat 3 Hwf Hloaded)).
Defined.

End visible_build_more_examples.

(** ** Collapsing hides the descendants; descendants follow their node *)

Section subtree_more.
Context {T : Type}.
Implicit Types (flat L P S pre post : list (Flat.t T)) (n m e x : Flat.t T) (k a : string).
Implicit Types (E : gset string) (l : list string).
Implicit Types (nodes cs rest : list (Nested.t T)).

(** The ancestors of an ancestor are ancestors. *)
Lemma ancestry_suffix flat k l :
  ancestry flat k l ->
  forall a, a ∈ l -> exists l', ancestry flat a l' /\ forall b, b ∈ l' -> b ∈ l.
Proof.
  induction 1 as [k Habs|n0 Hn0 Hp0|n0 p0 l0 Hn0 Hp0 Hanc IH]; intros a Ha.
  - by apply elem_of_nil in Ha.
  - by apply elem_of_nil in Ha.
  - apply elem_of_cons in Ha as [->|Ha].
    + exists l0. split; [done|]. intros b Hb. by right.
    + destruct (IH a Ha) as (l' & Hl' & Hsub). exists l'. split; [done|].
      intros b Hb. right. by apply Hsub.
Qed.

(** On a well-formed array, the descendants of [k] are the nodes with
    [k] in their chain of ancestors. *)
Lemma descendant_iff_ancestor flat k m l :
  parentsFirst flat -> m ∈ flat -> ancestry flat (Flat.id m) l ->
  (Flat.id m ∈ getDescendantIds flat k <-> k ∈ l).
Proof.
  intros Hwf Hm Hanc. pose proof (parentsFirst_NoDup _ Hwf) as Hnd.
  destruct (getAncestorIds_total flat m Hwf Hm) as (l0 & Hl0 & Hanc0).
  assert (l0 = l) as -> by (by eapply ancestry_fun).
  rewrite getDescendantIds_spec by done. split.
  - intros (n0 & l1 & _ & _ & Hl1 & Hk). congruence.
  - intros Hk. by exists m, l.
Qed.

(** X29. On a flat array with unique ids whose parents
    come first, collapsing an expanded group hides its descendants and
    nothing else: a node is visible afterwards iff it was visible before
    and is not among the [getDescendantIds] of the group. *)
Theorem collapse_hides_descendants (flat : list (Flat.t T)) (E : gset string) (id : string)
    (Hwf : parentsFirst flat)
    (Hexpanded : id ∈ E)
    (Hgroup : forall g, g ∈ flat -> Flat.id g = id -> Flat.isGroup g = true) :
  forall m, m ∈ flat ->
    (m ∈ getVisibleNodes flat (collapse flat E id)
     <-> m ∈ getVisibleNodes flat E /\ Flat.id m ∉ getDescendantIds flat id).
Proof.
  intros m Hm. pose proof (parentsFirst_NoDup _ Hwf) as Hnd.
  destruct (ancestry_exists_prefix flat Hwf flat [] ltac:(by rewrite app_nil_r) m Hm)
    as (l & Hanc & _ & Hnodes).
  rewrite (visible_ancestry _ flat Hwf _ l Hanc m Hm eq_refl).
  rewrite (visible_ancestry E flat Hwf _ l Hanc m Hm eq_refl).
  rewrite (descendant_iff_ancestor flat id m l Hwf Hm Hanc).
  rewrite collapse_expanded by done. split.
  - intros Hvis. split.
    + intros a g Ha Hg Hid Hgr. specialize (Hvis a g Ha Hg Hid Hgr). set_solver.
    + intros Hin. destruct (Hnodes id Hin) as (_ & g & Hg & Hid).
      specialize (Hvis id g Hin Hg Hid (Hgroup g Hg Hid)). set_solver.
  - intros [Hvis Hnot] a g Ha Hg Hid Hgr.
    apply elem_of_difference. split; [by eapply Hvis|].
    rewrite elem_of_union, elem_of_singleton, elem_of_list_to_set.
    intros [->|Hdesc]; [done|].
    destruct (ancestry_suffix flat _ l Hanc a Ha) as (la & Hla & Hsub).
    subst a. apply (descendant_iff_ancestor flat id g la Hwf Hg Hla) in Hdesc.
    apply Hnot. by apply Hsub.
Qed.

(** *** The order of [flattenTree]: a node, then its descendants *)

(** Every flat node is at least as deep as the forest; below the top of
    the forest its parent is the nearest earlier node one level higher,
    and the nodes in between are at least as deep as it is. *)
Lemma flattenFrom_nearest_parent nodes : forall (q : option string) (d : Z) (i j : nat) e,
  flattenFrom nodes q d i !! j = Some e ->
  (d <= Flat.depth e)%Z
  /\ ((Flat.parentId e = q /\ Flat.depth e = d)
      \/ exists j' m, j' < j /\ flattenFrom nodes q d i !! j' = Some m
                       /\ Flat.parentId e = Some (Flat.id m)
                       /\ Flat.depth e = (Flat.depth m + 1)%Z
                       /\ forall t x, j' < t < j -> flattenFrom nodes q d i !! t = Some x ->
                                      (Flat.depth e <= Flat.depth x)%Z).
Proof.
  induction nodes as [|i0 dt g rest IHrest|i0 dt g cs rest IHcs IHrest] using forest_ind;
    intros q d i j e He.
  - simpl in He. by rewrite lookup_nil in He.
  - rewrite flattenFrom_leaf in *. destruct j as [|j].
    + injection He as <-. split; [simpl; lia|by left].
    + simpl in He.
      destruct (IHrest _ _ _ _ _ He) as [Hd [?|(j' & m & Hj' & Hm & Hp & Hdm & Hbetween)]];
        (split; [done|]); [by left|].
      right. exists (S j'), m. split; [lia|]. split; [done|]. split; [done|].
      split; [done|]. intros t x Ht Hx. destruct t as [|t]; [lia|]. simpl in Hx.
      apply (Hbetween t x); [lia|done].
  - rewrite flattenFrom_node in *.
    set (C := flattenFrom cs (Some i0) (d + 1)%Z 0) in *.
    set (R := flattenFrom rest q d (S i)) in *.
    destruct j as [|j].
    + injection He as <-. split; [simpl; lia|by left].
    + simpl in He. apply lookup_app_Some in He as [He|[Hlen He]].
      * destruct (IHcs _ _ _ _ _ He)
          as [Hd [[Hp Hde]|(j' & m & Hj' & Hm & Hp & Hdm & Hbetween)]];
          (split; [lia|]); right.
        -- exists 0, (headOf (Nested.mk i0 dt g (Some cs)) q d i).
           split; [lia|]. split; [done|]. split; [done|]. split; [by rewrite Hde|].
           intros t x Ht Hx. destruct t as [|t]; [lia|]. simpl in Hx.
           rewrite lookup_app_l in Hx by (apply lookup_lt_Some in He; lia).
           destruct (IHcs _ _ _ _ _ Hx) as [Hdx _]. lia.
        -- exists (S j'), m. split; [lia|]. split.
           { simpl. rewrite lookup_app_l; [done|]. by eapply lookup_lt_Some. }
           split; [done|]. split; [done|].
           intros t x Ht Hx. destruct t as [|t]; [lia|]. simpl in Hx.
           rewrite lookup_app_l in Hx by (apply lookup_lt_Some in He; lia).
           apply (Hbetween t x); [lia|done].
      * destruct (IHrest _ _ _ _ _ He)
          as [Hd [?|(j' & m & Hj' & Hm & Hp & Hdm & Hbetween)]];
          (split; [done|]); [by left|].
        right. exists (S (length C + j')), m. split; [lia|]. split.
        { simpl. rewrite lookup_app_r by lia.
          by replace (length C + j' - length C) with j' by lia. }
        split; [done|]. split; [done|].
        intros t x Ht Hx. destruct t as [|t]; [lia|]. simpl in Hx.
        rewrite lookup_app_r in Hx by lia.
        apply (Hbetween (t - length C) x); [lia|done].
Qed.

(** The loop of [skipSubtree] stops at the first node that is not
    deeper than [d]. *)
Lemma skipSubtree_spec post (d : Z) : forall i : nat,
  exists c, skipSubtree post d i = i + c
            /\ c <= length post
            /\ (forall t x, t < c -> post !! t = Some x -> (d < Flat.depth x)%Z)
            /\ (forall x, post !! c = Some x -> (Flat.depth x <= d)%Z).
Proof.
  induction post as [|y post IH]; intros i; simpl.
  - exists 0. split; [lia|]. split; [done|]. split; [intros; lia|done].
  - destruct (d <? Flat.depth y)%Z eqn:Hy.
    + destruct (IH (S i)) as (c & Hc & Hlen & Hdeep & Hstop). exists (S c).
      split; [lia|]. split; [lia|]. split; [|done].
      intros t x Ht Hx. destruct t as [|t].
      * injection Hx as <-. lia.
      * apply (Hdeep t x); [lia|done].
    + exists 0. split; [lia|]. split; [lia|]. split; [intros; lia|].
      intros x Hx. injection Hx as <-. lia.
Qed.

(** Two duplicate-free sublists of one list with the same elements are
    equal. *)
Lemma sublist_same_elements (big l1 l2 : list string) :
  NoDup big -> sublist l1 big -> sublist l2 big ->
  (forall s, s ∈ l1 <-> s ∈ l2) -> l1 = l2.
Proof.
  intros Hnd. revert l1 l2. induction big as [|b big IH]; intros l1 l2 H1 H2 Hsame.
  - apply sublist_nil_r in H1, H2. by subst.
  - apply NoDup_cons in Hnd as [Hb Hnd].
    assert (Hhead : forall l, sublist l (b :: big) ->
              (b ∈ l /\ exists l', l = b :: l' /\ sublist l' big)
              \/ ((b ∉ l) /\ sublist l big)).
    { intros l Hl. apply sublist_cons_r in Hl as [Hl|(l' & -> & Hl)].
      - right. split; [|done]. intros Hin. apply Hb. by eapply elem_of_sublist.
      - left. split; [by left|]. by exists l'. }
    destruct (Hhead l1 H1) as [[Hin1 (l1' & -> & Hs1)]|[Hin1 Hs1]];
      destruct (Hhead l2 H2) as [[Hin2 (l2' & -> & Hs2)]|[Hin2 Hs2]].
    + f_equal. apply IH; [done|done|done|]. intros s. split; intros Hs.
      * assert (s ∈ b :: l2') as Hs' by (apply Hsame; by right).
        apply elem_of_cons in Hs' as [->|Hs']; [|done].
        exfalso. apply Hb. by eapply elem_of_sublist.
      * assert (s ∈ b :: l1') as Hs' by (apply Hsame; by right).
        apply elem_of_cons in Hs' as [->|Hs']; [|done].
        exfalso. apply Hb. by eapply elem_of_sublist.
    + exfalso. apply Hin2, Hsame. by left.
    + exfalso. apply Hin1, Hsame. by left.
    + by apply IH.
Qed.

(** X30. In the flattening of a tree with unique ids, the
    descendants of a node are the nodes that follow it up to the first
    one that is not deeper than it: started right after a node of such an
    array, the loop with which the "after" placement of [handleDragEnd]
    steps over a subtree passes exactly the [getDescendantIds] of that
    node. *)
Theorem descendants_follow_node (items : list (Nested.t T))
    (pre post : list (Flat.t T)) (e : Flat.t T)
    (Hids : NoDup (map Flat.id (flattenTree items None 0%Z)))
    (Hsplit : flattenTree items None 0%Z = pre ++ e :: post) :
  getDescendantIds (flattenTree items None 0%Z) (Flat.id e)
  = map Flat.id (take (skipSubtree post (Flat.depth e) 0) post).
Proof.
  set (L := flattenTree items None 0%Z) in *.
  pose proof (flattenTree_parentsFirst items Hids) as Hwf. fold L in Hwf.
  destruct (skipSubtree_spec post (Flat.depth e) 0) as (c & Hc & Hclen & Hdeep & Hstop).
  rewrite Hc. simpl.
  set (i := length pre).
  assert (Hat : forall t x, post !! t = Some x -> L !! (i + S t) = Some x).
  { intros t x Hx. rewrite Hsplit. rewrite lookup_app_r by (unfold i; lia).
    replace (i + S t - length pre) with (S t) by (unfold i; lia). done. }
  assert (Hati : L !! i = Some e).
  { rewrite Hsplit. rewrite lookup_app_r by (unfold i; lia).
    by replace (i - length pre) with 0 by (unfold i; lia). }
  assert (Hnear : forall j x, L !! j = Some x ->
            Flat.parentId x = None
            \/ exists j' m, j' < j /\ L !! j' = Some m
                            /\ Flat.parentId x = Some (Flat.id m)
                            /\ Flat.depth x = (Flat.depth m + 1)%Z
                            /\ forall t y, j' < t < j -> L !! t = Some y ->
                                           (Flat.depth x <= Flat.depth y)%Z).
  { intros j x Hx. destruct (flattenFrom_nearest_parent items None 0%Z 0 j x Hx)
      as [_ [[Hp _]|H]]; [by left|by right]. }
  assert (Hanc : forall j x, L !! j = Some x -> exists l, ancestry L (Flat.id x) l).
  { intros j x Hx. apply list_elem_of_lookup_2 in Hx.
    destruct (ancestry_exists L x Hwf Hx) as (l & Hl & _). by exists l. }
  (* the nodes of the run have [e] among their ancestors *)
  assert (Hrun : forall (b t : nat) x, t < b -> t < c -> post !! t = Some x ->
            Flat.id x ∈ getDescendantIds L (Flat.id e)).
  { induction b as [|b IHn]; intros t x Htn Ht Hx; [lia|].
    pose proof (Hat t x Hx) as HxL. pose proof (Hdeep t x Ht Hx) as Hdx.
    destruct (Hanc _ _ HxL) as (l & Hl).
    assert (HxIn : x ∈ L) by (by eapply list_elem_of_lookup_2).
    apply (descendant_iff_ancestor L (Flat.id e) x l Hwf HxIn Hl).
    destruct (Hnear _ _ HxL) as [Hroot|(j' & m & Hj' & Hm & Hp & Hdm & Hbetween)].
    - exfalso. destruct (flattenTree_depths items _ _ HxL)
        as [[_ H0]|(j' & m & _ & _ & Hp & _)]; [|congruence].
      destruct (flattenFrom_nearest_parent items None 0%Z 0 i e Hati) as [He0 _]. lia.
    - destruct (ancestry_inv_parent L x (Flat.id m) l (parentsFirst_NoDup _ Hwf) HxIn Hp Hl)
        as (l' & -> & Hl').
      destruct (decide (j' = i)) as [->|Hne].
      + assert (m = e) as -> by congruence. by left.
      + right. assert (Hgt : i < j').
        { destruct (decide (i < j')) as [?|Hle]; [done|]. exfalso.
          assert (Hlt : j' < i) by lia.
          specialize (Hbetween i e ltac:(lia) Hati). lia. }
        assert (Hm' : post !! (j' - i - 1) = Some m).
        { rewrite Hsplit in Hm. rewrite lookup_app_r in Hm by (unfold i in *; lia).
          replace (j' - length pre) with (S (j' - i - 1)) in Hm by (unfold i in *; lia).
          done. }
        assert (HmIn : m ∈ L) by (by eapply list_elem_of_lookup_2).
        apply (descendant_iff_ancestor L (Flat.id e) m l' Hwf HmIn Hl').
        apply (IHn (j' - i - 1) m); [lia|lia|done]. }
  (* the nodes with [e] among their ancestors are in the run *)
  assert (Hback : forall j x l, L !! j = Some x -> ancestry L (Flat.id x) l ->
            Flat.id e ∈ l ->
            i < j /\ forall t y, i < t <= j -> L !! t = Some y ->
                                 (Flat.depth e < Flat.depth y)%Z).
  { intros j. induction j as [j IHj] using lt_wf_ind. intros x l Hx Hl He.
    assert (HxIn : x ∈ L) by (by eapply list_elem_of_lookup_2).
    destruct (Hnear _ _ Hx) as [Hroot|(j' & m & Hj' & Hm & Hp & Hdm & Hbetween)].
    - rewrite (ancestry_inv_root L x l (parentsFirst_NoDup _ Hwf) HxIn Hroot Hl) in He.
      by apply elem_of_nil in He.
    - destruct (ancestry_inv_parent L x (Flat.id m) l (parentsFirst_NoDup _ Hwf) HxIn Hp Hl)
        as (l' & -> & Hl').
      assert (HmIn : m ∈ L) by (by eapply list_elem_of_lookup_2).
      apply elem_of_cons in He as [He|He].
      + assert (HeIn : e ∈ L) by (by eapply list_elem_of_lookup_2).
        assert (m = e) as ->.
        { apply (id_inj_NoDup L); [by apply parentsFirst_NoDup|done|done|done]. }
        assert (j' = i) as ->.
        { by apply (lookup_id_inj L j' i e e (parentsFirst_NoDup _ Hwf)). }
        split; [done|]. intros t y Ht Hy.
        destruct (decide (t = j)) as [->|Hne].
        * assert (y = x) as -> by congruence. lia.
        * specialize (Hbetween t y ltac:(lia) Hy). lia.
      + destruct (IHj j' Hj' m l' Hm Hl' He) as [Hi Hdeeper].
        split; [lia|]. intros t y Ht Hy.
        destruct (decide (t <= j')) as [Hle|Hgt]; [apply (Hdeeper t y); [lia|done]|].
        pose proof (Hdeeper j' m ltac:(lia) Hm) as Hdm'.
        destruct (decide (t = j)) as [->|Hne].
        * assert (y = x) as -> by congruence. lia.
        * specialize (Hbetween t y ltac:(lia) Hy). lia. }
  apply (sublist_same_elements (map Flat.id L)).
  - done.
  - apply getDescendantIds_sublist.
  - rewrite Hsplit, map_app. apply sublist_inserts_l. simpl. apply sublist_cons.
    apply (fmap_sublist Flat.id), sublist_take.
  - intros s. split.
    + intros Hs. pose proof Hs as Hs'.
      apply getDescendantIds_spec in Hs' as (x & l & Hx & <- & Hl & He); [|done].
      apply list_elem_of_lookup in Hx as [j Hj].
      destruct (getAncestorIds_total L x Hwf (list_elem_of_lookup_2 _ _ _ Hj))
        as (l0 & Hl0 & Hanc0).
      assert (l0 = l) as -> by congruence.
      destruct (Hback j x l Hj Hanc0 He) as [Hij Hdeeper].
      assert (Hpost : post !! (j - i - 1) = Some x).
      { rewrite Hsplit in Hj. rewrite lookup_app_r in Hj by (unfold i in *; lia).
        replace (j - length pre) with (S (j - i - 1)) in Hj by (unfold i in *; lia).
        done. }
      apply list_elem_of_fmap. exists x. split; [done|].
      apply elem_of_take. exists (j - i - 1). split; [done|].
      destruct (decide (j - i - 1 < c)) as [?|Hge]; [done|]. exfalso.
      assert (Hcj : c <= j - i - 1) by lia.
      destruct (post !! c) as [y|] eqn:Hy.
      * specialize (Hstop y eq_refl).
        specialize (Hdeeper (i + S c) y ltac:(lia) (Hat c y Hy)). lia.
      * apply lookup_ge_None in Hy. apply lookup_lt_Some in Hpost. lia.
    + intros Hs. apply list_elem_of_fmap in Hs as (x & -> & Hx).
      apply elem_of_take in Hx as (t & Hx & Ht).
      apply (Hrun (S t) t x); [lia|done|done].
Qed.

End subtree_more.

Section subtree_more_examples.
Open Scope string_scope.

Lemma collapse_hides_descendants_witness :
  (forall m, m ∈ nestedGroupsFlat ->
     (m ∈ getVisibleNodes nestedGroupsFlat (collapse nestedGroupsFlat {["a"; "a1"]} "a1")
      <-> m ∈ getVisibleNodes nestedGroupsFlat {["a"; "a1"]}
          /\ Flat.id m ∉ getDescendantIds nestedGroupsFlat "a1"))
  /\ getDescendantIds nestedGroupsFlat "a1" = ["a2"].
Proof.
  split; [|by vm_compute].
  apply collapse_hides_descendants.
  - by vm_compute.
  - apply (bool_decide_unpack _). vm_compute. exact I.
  - intros g Hg Hid. unfold nestedGroupsFlat, nestedGroupsTree, flattenTree in Hg.
    simpl in Hg. repeat (apply elem_of_cons in Hg as [->|Hg]); try done.
    by apply elem_of_nil in Hg.
Defined.

Lemma descendants_follow_node_witness :
  getDescendantIds scenarioDFlat "p"
  = map Flat.id (take (skipSubtree (drop 1 scenarioDFlat) 0%Z 0) (drop 1 scenarioDFlat))
  /\ getDescendantIds scenarioDFlat "p" = ["p1"].
Proof.
  split; [|by vm_compute].
  apply (descendants_follow_node _ [] (drop 1 scenarioDFlat)
           (Flat.mk "p" tt true true None 0%Z 0)).
  - apply (bool_decide_unpack _). vm_compute. exact I.
  - reflexivity.
Defined.

End subtree_more_examples.
